(** * Kwenta perps subgraph: the derived-ledger mapping of [src/perps.ts]

    A shallow embedding of the event handlers of [src/src/perps.ts] and the
    properties of the ledger they maintain.

    - The entity store of graph-node is a record of finite maps, one per
      entity type, keyed by the id strings the handlers build.
    - [BigInt] is [Z]; [plus], [minus], [times], [abs] are the operations of
      [Z]; [div] and [mod] truncate toward zero and abort the handler on a
      zero divisor, so a handler returns [option Store].
    - The generated getter of a field that is not nullable in the schema
      aborts the handler when the field was never set: [asset] and
      [marketKey] of a position are set only when the market of the event
      is known (lines 122-126), they are [option] fields here, and a read
      of one is a bind on the option.
    - [Bytes] and [Address] are lists of bytes.
    - A handler loads entities into local variables, mutates them and saves
      them: locals are record values, [save] is an insertion in the map. *)

From stdpp Require Import gmap strings list fin_maps pretty.
From Stdlib Require Import ZArith Lia.
From Stdlib Require Import Strings.Ascii Strings.Byte.
From Stdlib Require Import HexadecimalString HexadecimalN.

Open Scope Z_scope.

(** ** Record update *)

Class Setter {R T : Type} (proj : R -> T) := set : T -> R -> R.
Arguments set {R T} proj {_} _ _ /.

Notation "r <| p := v |>" := (set p v r)
  (at level 1, left associativity, p at level 12, format "r  <| p  :=  v |>").

(** [build_setter eta proj] abstracts the occurrence of [proj] in the
    eta-expansion [eta] of a record and plugs the new value in. *)
Ltac build_setter eta proj :=
  let e := eval cbv delta [eta] in eta in
  lazymatch (eval pattern proj in e) with
  | ?abs _ => let s := eval cbv beta in (fun v => abs (fun _ => v)) in exact s
  end.

(** ** graph-ts values *)

Abbreviation BigInt := Z (only parsing).
Abbreviation Bytes := (list byte) (only parsing).
Abbreviation Address := (list byte) (only parsing).

(** Modelled from the spec: the constants of [./lib/helpers], which is not
    among the sources; the spec fixes the 18-decimal scale and the two
    aggregation periods of one hour and one day. *)
Definition ZERO : BigInt := 0.
Definition ONE : BigInt := 1.
Definition ETHER : BigInt := 1000000000000000000.
Definition ONE_HOUR_SECONDS : BigInt := 3600.
Definition DAY_SECONDS : BigInt := 86400.
Definition ZERO_ADDRESS : Bytes := replicate 20 x00.

(** [BigInt.div]: truncated quotient; graph-node aborts the handler on a
    zero divisor. *)
Definition div (x y : BigInt) : option BigInt :=
  if bool_decide (y = 0) then None else Some (Z.quot x y).

(** [BigInt.mod]: truncated remainder, same abort. *)
Definition mod_ (x y : BigInt) : option BigInt :=
  if bool_decide (y = 0) then None else Some (Z.rem x y).

Definition gt (x y : BigInt) : bool := bool_decide (y < x).
Definition lt (x y : BigInt) : bool := bool_decide (x < y).
Definition isZero (x : BigInt) : bool := bool_decide (x = 0).

(** [BigInt.toString]: decimal, with a leading minus sign. *)
Definition toString (x : BigInt) : string := pretty x.

Definition hexDigit (n : N) : string :=
  NilZero.string_of_uint (N.to_hex_uint n).

(** [Bytes.toHex] / [Address.toHex] / [toHexString]: two digits a byte
    after the prefix. *)
Definition byteToHex (b : byte) : string :=
  hexDigit (Byte.to_N b / 16) +:+ hexDigit (Byte.to_N b mod 16).

Definition toHex (b : Bytes) : string :=
  "0x" +:+ foldr (fun x acc => byteToHex x +:+ acc) "" b.

(** [BigInt.toHex]: the magnitude, without leading zeros. *)
Definition bigIntToHex (x : BigInt) : string :=
  "0x" +:+ NilZero.string_of_uint (N.to_hex_uint (Z.abs_N x)).

Inductive AccountType := smart_margin | isolated_margin.

#[global] Instance AccountType_eq_dec : EqDecision AccountType.
Proof. solve_decision. Defined.

#[global] Instance byte_eq_dec : EqDecision byte := Byte.byte_eq_dec.

(** ** Entities of the schema *)

(** Modelled from the spec: the entity classes of
    [../generated/subgraphs/perps/schema], generated from a schema that is
    not among the sources. A record has the fields the handlers of
    [perps.ts] read and write, with the types of the data model of the
    spec. The id of an entity is its key in the table of the store: [save]
    writes an entity back under the id it was loaded or created with. *)

Module SmartMarginAccount.
Record t := mk { owner : Bytes }.
End SmartMarginAccount.

Module FuturesMarketEntity.
Record t := mk { asset : Bytes; marketKey : Bytes; marketStats : string }.
End FuturesMarketEntity.

Module FuturesStat.
Record t := mk {
  account : Bytes;
  feesPaid : BigInt;
  pnl : BigInt;
  pnlWithFeesPaid : BigInt;
  liquidations : BigInt;
  totalTrades : BigInt;
  totalVolume : BigInt;
  smartMarginVolume : BigInt }.
Definition eta (r : t) : t :=
  mk (account r) (feesPaid r) (pnl r) (pnlWithFeesPaid r) (liquidations r)
     (totalTrades r) (totalVolume r) (smartMarginVolume r).
#[global] Instance set_feesPaid : Setter feesPaid := ltac:(build_setter eta feesPaid).
#[global] Instance set_pnl : Setter pnl := ltac:(build_setter eta pnl).
#[global] Instance set_pnlWithFeesPaid : Setter pnlWithFeesPaid :=
  ltac:(build_setter eta pnlWithFeesPaid).
#[global] Instance set_liquidations : Setter liquidations :=
  ltac:(build_setter eta liquidations).
#[global] Instance set_totalTrades : Setter totalTrades :=
  ltac:(build_setter eta totalTrades).
#[global] Instance set_totalVolume : Setter totalVolume :=
  ltac:(build_setter eta totalVolume).
#[global] Instance set_smartMarginVolume : Setter smartMarginVolume :=
  ltac:(build_setter eta smartMarginVolume).
End FuturesStat.

(** Fields a handler may leave unset ([asset] and [marketKey] without a
    market entity, [exitPrice] and [closeTimestamp] before the close,
    [lastTxHash] before the first save) are options. The handlers read
    [asset] and [marketKey] of a position through getters that abort the
    handler when the field was never set: such a read is a bind on the
    option. *)
Module FuturesPosition.
Record t := mk {
  market : Bytes;
  asset : option Bytes;
  marketKey : option Bytes;
  account : Bytes;
  abstractAccount : Bytes;
  accountType : AccountType;
  isLiquidated : bool;
  isOpen : bool;
  size : BigInt;
  timestamp : BigInt;
  openTimestamp : BigInt;
  closeTimestamp : option BigInt;
  avgEntryPrice : BigInt;
  trades : BigInt;
  entryPrice : BigInt;
  lastPrice : BigInt;
  exitPrice : option BigInt;
  margin : BigInt;
  initialMargin : BigInt;
  pnl : BigInt;
  feesPaid : BigInt;
  netFunding : BigInt;
  pnlWithFeesPaid : BigInt;
  netTransfers : BigInt;
  totalDeposits : BigInt;
  totalVolume : BigInt;
  fundingIndex : BigInt;
  lastTxHash : option Bytes }.
Definition eta (r : t) : t :=
  mk (market r) (asset r) (marketKey r) (account r) (abstractAccount r)
     (accountType r) (isLiquidated r) (isOpen r) (size r) (timestamp r)
     (openTimestamp r) (closeTimestamp r) (avgEntryPrice r) (trades r)
     (entryPrice r) (lastPrice r) (exitPrice r) (margin r) (initialMargin r)
     (pnl r) (feesPaid r) (netFunding r) (pnlWithFeesPaid r) (netTransfers r)
     (totalDeposits r) (totalVolume r) (fundingIndex r) (lastTxHash r).
#[global] Instance set_isLiquidated : Setter isLiquidated :=
  ltac:(build_setter eta isLiquidated).
#[global] Instance set_isOpen : Setter isOpen := ltac:(build_setter eta isOpen).
#[global] Instance set_size : Setter size := ltac:(build_setter eta size).
#[global] Instance set_timestamp : Setter timestamp := ltac:(build_setter eta timestamp).
#[global] Instance set_closeTimestamp : Setter closeTimestamp :=
  ltac:(build_setter eta closeTimestamp).
#[global] Instance set_avgEntryPrice : Setter avgEntryPrice :=
  ltac:(build_setter eta avgEntryPrice).
#[global] Instance set_trades : Setter trades := ltac:(build_setter eta trades).
#[global] Instance set_entryPrice : Setter entryPrice :=
  ltac:(build_setter eta entryPrice).
#[global] Instance set_lastPrice : Setter lastPrice := ltac:(build_setter eta lastPrice).
#[global] Instance set_exitPrice : Setter exitPrice := ltac:(build_setter eta exitPrice).
#[global] Instance set_margin : Setter margin := ltac:(build_setter eta margin).
#[global] Instance set_pnl : Setter pnl := ltac:(build_setter eta pnl).
#[global] Instance set_feesPaid : Setter feesPaid := ltac:(build_setter eta feesPaid).
#[global] Instance set_netFunding : Setter netFunding :=
  ltac:(build_setter eta netFunding).
#[global] Instance set_pnlWithFeesPaid : Setter pnlWithFeesPaid :=
  ltac:(build_setter eta pnlWithFeesPaid).
#[global] Instance set_netTransfers : Setter netTransfers :=
  ltac:(build_setter eta netTransfers).
#[global] Instance set_totalDeposits : Setter totalDeposits :=
  ltac:(build_setter eta totalDeposits).
#[global] Instance set_totalVolume : Setter totalVolume :=
  ltac:(build_setter eta totalVolume).
#[global] Instance set_fundingIndex : Setter fundingIndex :=
  ltac:(build_setter eta fundingIndex).
#[global] Instance set_lastTxHash : Setter lastTxHash :=
  ltac:(build_setter eta lastTxHash).
End FuturesPosition.

Module FuturesTrade.
Record t := mk {
  timestamp : BigInt;
  account : Bytes;
  abstractAccount : Bytes;
  accountType : AccountType;
  margin : BigInt;
  size : BigInt;
  asset : option Bytes;
  marketKey : option Bytes;
  price : BigInt;
  positionId : string;
  positionSize : BigInt;
  positionClosed : bool;
  pnl : BigInt;
  feesPaid : BigInt;
  fundingAccrued : BigInt;
  keeperFeesPaid : BigInt;
  orderType : string;
  trackingCode : Bytes }.
Definition eta (r : t) : t :=
  mk (timestamp r) (account r) (abstractAccount r) (accountType r) (margin r)
     (size r) (asset r) (marketKey r) (price r) (positionId r)
     (positionSize r) (positionClosed r) (pnl r) (feesPaid r)
     (fundingAccrued r) (keeperFeesPaid r) (orderType r) (trackingCode r).
#[global] Instance set_size : Setter size := ltac:(build_setter eta size).
#[global] Instance set_asset : Setter asset := ltac:(build_setter eta asset).
#[global] Instance set_marketKey : Setter marketKey := ltac:(build_setter eta marketKey).
#[global] Instance set_positionSize : Setter positionSize :=
  ltac:(build_setter eta positionSize).
#[global] Instance set_positionClosed : Setter positionClosed :=
  ltac:(build_setter eta positionClosed).
#[global] Instance set_pnl : Setter pnl := ltac:(build_setter eta pnl).
#[global] Instance set_feesPaid : Setter feesPaid := ltac:(build_setter eta feesPaid).
#[global] Instance set_keeperFeesPaid : Setter keeperFeesPaid :=
  ltac:(build_setter eta keeperFeesPaid).
#[global] Instance set_orderType : Setter orderType := ltac:(build_setter eta orderType).
#[global] Instance set_trackingCode : Setter trackingCode :=
  ltac:(build_setter eta trackingCode).
End FuturesTrade.

Module FuturesCumulativeStat.
Record t := mk {
  totalLiquidations : BigInt;
  totalTrades : BigInt;
  totalTraders : BigInt;
  totalVolume : BigInt;
  averageTradeSize : BigInt }.
Definition eta (r : t) : t :=
  mk (totalLiquidations r) (totalTrades r) (totalTraders r) (totalVolume r)
     (averageTradeSize r).
#[global] Instance set_totalLiquidations : Setter totalLiquidations :=
  ltac:(build_setter eta totalLiquidations).
#[global] Instance set_totalTrades : Setter totalTrades :=
  ltac:(build_setter eta totalTrades).
#[global] Instance set_totalTraders : Setter totalTraders :=
  ltac:(build_setter eta totalTraders).
#[global] Instance set_totalVolume : Setter totalVolume :=
  ltac:(build_setter eta totalVolume).
#[global] Instance set_averageTradeSize : Setter averageTradeSize :=
  ltac:(build_setter eta averageTradeSize).
End FuturesCumulativeStat.

Module FuturesAggregateStat.
Record t := mk {
  period : BigInt;
  timestamp : BigInt;
  marketKey : Bytes;
  asset : Bytes;
  trades : BigInt;
  volume : BigInt;
  feesKwenta : BigInt;
  feesSynthetix : BigInt;
  feesCrossMarginAccounts : BigInt }.
Definition eta (r : t) : t :=
  mk (period r) (timestamp r) (marketKey r) (asset r) (trades r) (volume r)
     (feesKwenta r) (feesSynthetix r) (feesCrossMarginAccounts r).
#[global] Instance set_trades : Setter trades := ltac:(build_setter eta trades).
#[global] Instance set_volume : Setter volume := ltac:(build_setter eta volume).
#[global] Instance set_feesKwenta : Setter feesKwenta :=
  ltac:(build_setter eta feesKwenta).
#[global] Instance set_feesSynthetix : Setter feesSynthetix :=
  ltac:(build_setter eta feesSynthetix).
#[global] Instance set_feesCrossMarginAccounts : Setter feesCrossMarginAccounts :=
  ltac:(build_setter eta feesCrossMarginAccounts).
End FuturesAggregateStat.

Module FundingPayment.
Record t := mk {
  timestamp : BigInt;
  account : Bytes;
  positionId : string;
  marketKey : option Bytes;
  asset : option Bytes;
  amount : BigInt }.
End FundingPayment.

Module FundingRateUpdate.
Record t := mk {
  timestamp : BigInt;
  market : Bytes;
  sequenceLength : BigInt;
  funding : BigInt;
  fundingRate : BigInt;
  asset : Bytes;
  marketKey : Bytes }.
End FundingRateUpdate.

Module FuturesMarginTransfer.
Record t := mk {
  timestamp : BigInt;
  account : Bytes;
  market : Bytes;
  size : BigInt;
  txHash : string;
  asset : option Bytes;
  marketKey : option Bytes }.
End FuturesMarginTransfer.

Module FuturesMarginAccount.
Record t := mk {
  timestamp : BigInt;
  account : Bytes;
  market : Bytes;
  margin : BigInt;
  deposits : BigInt;
  withdrawals : BigInt;
  asset : option Bytes }.
Definition eta (r : t) : t :=
  mk (timestamp r) (account r) (market r) (margin r) (deposits r)
     (withdrawals r) (asset r).
#[global] Instance set_timestamp : Setter timestamp := ltac:(build_setter eta timestamp).
#[global] Instance set_margin : Setter margin := ltac:(build_setter eta margin).
#[global] Instance set_deposits : Setter deposits := ltac:(build_setter eta deposits).
#[global] Instance set_withdrawals : Setter withdrawals :=
  ltac:(build_setter eta withdrawals).
End FuturesMarginAccount.

Module FuturesOrder.
Record t := mk {
  size : BigInt;
  marketKey : Bytes;
  account : Bytes;
  abstractAccount : Bytes;
  targetPrice : BigInt;
  marginDelta : BigInt;
  timestamp : BigInt;
  txnHash : Bytes;
  orderId : BigInt;
  orderType : string;
  status : string;
  keeper : Bytes }.
Definition eta (r : t) : t :=
  mk (size r) (marketKey r) (account r) (abstractAccount r) (targetPrice r)
     (marginDelta r) (timestamp r) (txnHash r) (orderId r) (orderType r)
     (status r) (keeper r).
#[global] Instance set_status : Setter status := ltac:(build_setter eta status).
#[global] Instance set_keeper : Setter keeper := ltac:(build_setter eta keeper).
End FuturesOrder.

Module SmartMarginOrder.
Record t := mk { recordTrade : bool; orderType : option string }.
Definition eta (r : t) : t := mk (recordTrade r) (orderType r).
#[global] Instance set_recordTrade : Setter recordTrade :=
  ltac:(build_setter eta recordTrade).
End SmartMarginOrder.

(** ** The entity store *)

Record Store := mkStore {
  smartMarginAccounts : gmap string SmartMarginAccount.t;
  markets : gmap string FuturesMarketEntity.t;
  positions : gmap string FuturesPosition.t;
  trades : gmap string FuturesTrade.t;
  stats : gmap string FuturesStat.t;
  cumulativeStats : gmap string FuturesCumulativeStat.t;
  aggregateStats : gmap string FuturesAggregateStat.t;
  fundingPayments : gmap string FundingPayment.t;
  fundingRateUpdates : gmap string FundingRateUpdate.t;
  marginTransfers : gmap string FuturesMarginTransfer.t;
  marginAccounts : gmap string FuturesMarginAccount.t;
  orders : gmap string FuturesOrder.t;
  smartMarginOrders : gmap string SmartMarginOrder.t }.

Definition Store_eta (r : Store) : Store :=
  mkStore (smartMarginAccounts r) (markets r) (positions r) (trades r)
    (stats r) (cumulativeStats r) (aggregateStats r) (fundingPayments r)
    (fundingRateUpdates r) (marginTransfers r) (marginAccounts r) (orders r)
    (smartMarginOrders r).

#[global] Instance set_smartMarginAccounts : Setter smartMarginAccounts :=
  ltac:(build_setter Store_eta smartMarginAccounts).
#[global] Instance set_markets : Setter markets := ltac:(build_setter Store_eta markets).
#[global] Instance set_fundingRateUpdates : Setter fundingRateUpdates :=
  ltac:(build_setter Store_eta fundingRateUpdates).
#[global] Instance set_positions : Setter positions :=
  ltac:(build_setter Store_eta positions).
#[global] Instance set_trades : Setter trades := ltac:(build_setter Store_eta trades).
#[global] Instance set_stats : Setter stats := ltac:(build_setter Store_eta stats).
#[global] Instance set_cumulativeStats : Setter cumulativeStats :=
  ltac:(build_setter Store_eta cumulativeStats).
#[global] Instance set_aggregateStats : Setter aggregateStats :=
  ltac:(build_setter Store_eta aggregateStats).
#[global] Instance set_fundingPayments : Setter fundingPayments :=
  ltac:(build_setter Store_eta fundingPayments).
#[global] Instance set_marginTransfers : Setter marginTransfers :=
  ltac:(build_setter Store_eta marginTransfers).
#[global] Instance set_marginAccounts : Setter marginAccounts :=
  ltac:(build_setter Store_eta marginAccounts).
#[global] Instance set_orders : Setter orders := ltac:(build_setter Store_eta orders).
#[global] Instance set_smartMarginOrders : Setter smartMarginOrders :=
  ltac:(build_setter Store_eta smartMarginOrders).

Definition emptyStore : Store :=
  mkStore ∅ ∅ ∅ ∅ ∅ ∅ ∅ ∅ ∅ ∅ ∅ ∅ ∅.

(** [entity.save()] on each table. *)
Definition savePosition (id : string) (e : FuturesPosition.t) (st : Store) : Store :=
  st <| positions := <[id := e]> (positions st) |>.
Definition saveTrade (id : string) (e : FuturesTrade.t) (st : Store) : Store :=
  st <| trades := <[id := e]> (trades st) |>.
Definition saveStat (id : string) (e : FuturesStat.t) (st : Store) : Store :=
  st <| stats := <[id := e]> (stats st) |>.
Definition saveCumulativeStat (id : string) (e : FuturesCumulativeStat.t)
    (st : Store) : Store :=
  st <| cumulativeStats := <[id := e]> (cumulativeStats st) |>.
Definition saveAggregateStat (id : string) (e : FuturesAggregateStat.t)
    (st : Store) : Store :=
  st <| aggregateStats := <[id := e]> (aggregateStats st) |>.
Definition saveFundingPayment (id : string) (e : FundingPayment.t) (st : Store) : Store :=
  st <| fundingPayments := <[id := e]> (fundingPayments st) |>.
Definition saveMarginTransfer (id : string) (e : FuturesMarginTransfer.t)
    (st : Store) : Store :=
  st <| marginTransfers := <[id := e]> (marginTransfers st) |>.
Definition saveMarginAccount (id : string) (e : FuturesMarginAccount.t)
    (st : Store) : Store :=
  st <| marginAccounts := <[id := e]> (marginAccounts st) |>.
Definition saveOrder (id : string) (e : FuturesOrder.t) (st : Store) : Store :=
  st <| orders := <[id := e]> (orders st) |>.
Definition saveSmartMarginOrder (id : string) (e : SmartMarginOrder.t)
    (st : Store) : Store :=
  st <| smartMarginOrders := <[id := e]> (smartMarginOrders st) |>.

(** ** Events *)

(** Modelled from the spec: the event classes generated from the ABI of
    the market contracts, with the parameters the handlers read (section
    6 of the spec lists them). *)

(** The part of [ethereum.Event] the handlers read: [event.address],
    [event.logIndex], [event.block.timestamp], [event.transaction.hash]
    and [event.transaction.from]. *)
Module Ev.
Record t := mk {
  address : Address;
  logIndex : BigInt;
  block_timestamp : BigInt;
  transaction_hash : Bytes;
  transaction_from : Address }.
End Ev.

Module PositionModifiedEvent.
Record t := mk {
  base : Ev.t;
  id : BigInt;
  account : Address;
  margin : BigInt;
  size : BigInt;
  tradeSize : BigInt;
  lastPrice : BigInt;
  fundingIndex : BigInt;
  fee : BigInt }.
End PositionModifiedEvent.

Module PositionModifiedV2Event.
Record t := mk {
  base : Ev.t;
  id : BigInt;
  account : Address;
  margin : BigInt;
  size : BigInt;
  tradeSize : BigInt;
  lastPrice : BigInt;
  fundingIndex : BigInt;
  fee : BigInt;
  skew : BigInt }.
End PositionModifiedV2Event.

Module PositionLiquidatedEvent.
Record t := mk {
  base : Ev.t;
  id : BigInt;
  account : Address;
  size : BigInt;
  fee : BigInt }.
End PositionLiquidatedEvent.

Module PositionLiquidatedV2Event.
Record t := mk {
  base : Ev.t;
  id : BigInt;
  account : Address;
  size : BigInt;
  flaggerFee : BigInt;
  liquidatorFee : BigInt;
  stakersFee : BigInt }.
End PositionLiquidatedV2Event.

Module MarginTransferredEvent.
Record t := mk {
  base : Ev.t;
  account : Address;
  marginDelta : BigInt }.
End MarginTransferredEvent.

Module DelayedOrderSubmittedEvent.
Record t := mk {
  base : Ev.t;
  account : Address;
  isOffchain : bool;
  sizeDelta : BigInt;
  targetRoundId : BigInt }.
End DelayedOrderSubmittedEvent.

Module DelayedOrderRemovedEvent.
Record t := mk {
  base : Ev.t;
  account : Address;
  targetRoundId : BigInt;
  keeperDeposit : BigInt;
  trackingCode : Bytes }.
End DelayedOrderRemovedEvent.

(** ** Helpers of [perps.ts] *)

Definition SINGLE_INDEX : string := "0".

Definition AGG_PERIODS : list BigInt := [ONE_HOUR_SECONDS; DAY_SECONDS].

Definition isNull {A : Type} (o : option A) : bool :=
  match o with None => true | Some _ => false end.

Definition getOrCreateCumulativeEntity (st : Store) : FuturesCumulativeStat.t :=
  match cumulativeStats st !! SINGLE_INDEX with
  | Some cumulativeEntity => cumulativeEntity
  | None => FuturesCumulativeStat.mk ZERO ZERO ZERO ZERO ZERO
  end.

Definition getOrCreateMarketCumulativeStats (marketKey : string) (st : Store)
    : FuturesCumulativeStat.t :=
  match cumulativeStats st !! marketKey with
  | Some cumulativeEntity => cumulativeEntity
  | None => FuturesCumulativeStat.mk ZERO ZERO ZERO ZERO ZERO
  end.

Definition aggregateStatId (timestamp period : BigInt) (asset : Bytes) : string :=
  toString timestamp +:+ "-" +:+ toString period +:+ "-" +:+ toHex asset.

Definition getOrCreateMarketAggregateStats (marketKey asset : Bytes)
    (timestamp period : BigInt) (st : Store) : FuturesAggregateStat.t :=
  match aggregateStats st !! aggregateStatId timestamp period asset with
  | Some aggregateEntity => aggregateEntity
  | None =>
      FuturesAggregateStat.mk period timestamp marketKey asset ZERO ZERO ZERO ZERO ZERO
  end.

Definition getTimeID (timestamp num : BigInt) : option BigInt :=
  remainder ← mod_ timestamp num;
  Some (timestamp - remainder).

(** The body of the loop of [updateAggregateStatEntities]. *)
Definition updateAggregateStatPeriod (accountType : AccountType)
    (marketKey asset : Bytes) (timestamp trades volume feesSynthetix feesKwenta : BigInt)
    (thisPeriod : BigInt) (st : Store) : option Store :=
  aggTimestamp ← getTimeID timestamp thisPeriod;
  let totalFees := feesSynthetix + feesKwenta in
  let feesCrossMarginAccounts :=
    if decide (accountType = smart_margin) then totalFees else ZERO in
  let aggStats := getOrCreateMarketAggregateStats marketKey asset aggTimestamp thisPeriod st in
  let aggStats := aggStats <| FuturesAggregateStat.trades :=
    FuturesAggregateStat.trades aggStats + trades |> in
  let aggStats := aggStats <| FuturesAggregateStat.volume :=
    FuturesAggregateStat.volume aggStats + volume |> in
  let aggStats := aggStats <| FuturesAggregateStat.feesSynthetix :=
    FuturesAggregateStat.feesSynthetix aggStats + feesSynthetix |> in
  let aggStats := aggStats <| FuturesAggregateStat.feesKwenta :=
    FuturesAggregateStat.feesKwenta aggStats + feesKwenta |> in
  let aggStats := aggStats <| FuturesAggregateStat.feesCrossMarginAccounts :=
    FuturesAggregateStat.feesCrossMarginAccounts aggStats + feesCrossMarginAccounts |> in
  let st := saveAggregateStat (aggregateStatId aggTimestamp thisPeriod asset) aggStats st in
  let aggCumulativeStats := getOrCreateMarketAggregateStats [] [] aggTimestamp thisPeriod st in
  let aggCumulativeStats := aggCumulativeStats <| FuturesAggregateStat.trades :=
    FuturesAggregateStat.trades aggCumulativeStats + trades |> in
  let aggCumulativeStats := aggCumulativeStats <| FuturesAggregateStat.volume :=
    FuturesAggregateStat.volume aggCumulativeStats + volume |> in
  let aggCumulativeStats := aggCumulativeStats <| FuturesAggregateStat.feesSynthetix :=
    FuturesAggregateStat.feesSynthetix aggCumulativeStats + feesSynthetix |> in
  let aggCumulativeStats := aggCumulativeStats <| FuturesAggregateStat.feesKwenta :=
    FuturesAggregateStat.feesKwenta aggCumulativeStats + feesKwenta |> in
  let aggCumulativeStats :=
    aggCumulativeStats <| FuturesAggregateStat.feesCrossMarginAccounts :=
      FuturesAggregateStat.feesCrossMarginAccounts aggCumulativeStats
      + feesCrossMarginAccounts |> in
  Some (saveAggregateStat (aggregateStatId aggTimestamp thisPeriod []) aggCumulativeStats st).

(** [for (let period = 0; period < AGG_PERIODS.length; period++)]. *)
Fixpoint forEachPeriod (body : BigInt -> Store -> option Store)
    (periods : list BigInt) (st : Store) : option Store :=
  match periods with
  | [] => Some st
  | thisPeriod :: rest => st' ← body thisPeriod st; forEachPeriod body rest st'
  end.

Definition updateAggregateStatEntities (accountType : AccountType)
    (marketKey asset : Bytes) (timestamp trades volume feesSynthetix feesKwenta : BigInt)
    (st : Store) : option Store :=
  forEachPeriod
    (updateAggregateStatPeriod accountType marketKey asset timestamp trades volume
       feesSynthetix feesKwenta)
    AGG_PERIODS st.

(** ** [handlePositionModified] *)

Module Pos := FuturesPosition.
Module Stat := FuturesStat.
Module Trade := FuturesTrade.
Module Cum := FuturesCumulativeStat.
Module PME := PositionModifiedEvent.

(** [smartMarginAccount ? smartMarginAccount.owner : sendingAccount] and
    the account type, re-derived by every handler. *)
Definition resolveAccount (sendingAccount : Address) (st : Store) : Address :=
  match smartMarginAccounts st !! toHex sendingAccount with
  | Some smartMarginAccount => SmartMarginAccount.owner smartMarginAccount
  | None => sendingAccount
  end.

Definition resolveAccountType (sendingAccount : Address) (st : Store) : AccountType :=
  match smartMarginAccounts st !! toHex sendingAccount with
  | Some _ => smart_margin
  | None => isolated_margin
  end.

Definition positionIdOf (futuresMarketAddress : Address) (id : BigInt) : string :=
  toHex futuresMarketAddress +:+ "-" +:+ bigIntToHex id.

Definition tradeIdOf (hash : Bytes) (logIndex : BigInt) : string :=
  toHex hash +:+ "-" +:+ toString logIndex.

Definition marginTransferIdOf (futuresMarketAddress : Address) (hash : Bytes)
    (logIndex : BigInt) : string :=
  toHex futuresMarketAddress +:+ "-" +:+ toHex hash +:+ "-" +:+ toString logIndex.

Definition fundingRateUpdateIdOf (futuresMarketAddress : Address) (index : BigInt)
    : string :=
  toHex futuresMarketAddress +:+ "-" +:+ toString index.

Definition fundingPaymentIdOf (positionId : string) (hash : Bytes) (logIndex : BigInt)
    : string :=
  positionId +:+ "-" +:+ toHex hash +:+ "-" +:+ toString logIndex.

Definition marginAccountIdOf (sendingAccount futuresMarketAddress : Address) : string :=
  toHex sendingAccount +:+ "-" +:+ toHex futuresMarketAddress.

(** Lines 105-117: the stats entity of a trader's first event. *)
Definition newStat (account : Address) : Stat.t :=
  Stat.mk account ZERO ZERO ZERO ZERO ZERO ZERO ZERO.

Definition statOrNew (account : Address) (statEntity : option Stat.t)
    (cumulativeEntity : Cum.t) : Stat.t * Cum.t :=
  match statEntity with
  | Some statEntity => (statEntity, cumulativeEntity)
  | None =>
      (newStat account,
       cumulativeEntity <| Cum.totalTraders := Cum.totalTraders cumulativeEntity + 1 |>)
  end.

(** Lines 120-149: the entity of a new position. *)
Definition newPosition (event : PME.t) (account sendingAccount : Address)
    (accountType : AccountType) (marketEntity : option FuturesMarketEntity.t) : Pos.t :=
  {| Pos.market := Ev.address (PME.base event);
     Pos.asset := FuturesMarketEntity.asset <$> marketEntity;
     Pos.marketKey := FuturesMarketEntity.marketKey <$> marketEntity;
     Pos.account := account;
     Pos.abstractAccount := sendingAccount;
     Pos.accountType := accountType;
     Pos.isLiquidated := false;
     Pos.isOpen := true;
     Pos.size := PME.size event;
     Pos.timestamp := Ev.block_timestamp (PME.base event);
     Pos.openTimestamp := Ev.block_timestamp (PME.base event);
     Pos.closeTimestamp := None;
     Pos.avgEntryPrice := PME.lastPrice event;
     Pos.trades := ZERO;
     Pos.entryPrice := PME.lastPrice event;
     Pos.lastPrice := PME.lastPrice event;
     Pos.exitPrice := None;
     Pos.margin := PME.margin event;
     Pos.initialMargin := PME.margin event + PME.fee event;
     Pos.pnl := ZERO;
     Pos.feesPaid := ZERO;
     Pos.netFunding := ZERO;
     Pos.pnlWithFeesPaid := ZERO;
     Pos.netTransfers := ZERO;
     Pos.totalDeposits := ZERO;
     Pos.totalVolume := ZERO;
     Pos.fundingIndex := PME.fundingIndex event;
     Pos.lastTxHash := None |}.

Definition positionOrNew (event : PME.t) (account sendingAccount : Address)
    (accountType : AccountType) (marketEntity : option FuturesMarketEntity.t)
    (positionEntity : option Pos.t) : Pos.t :=
  match positionEntity with
  | Some positionEntity => positionEntity
  | None => newPosition event account sendingAccount accountType marketEntity
  end.

(** Lines 152-191: funding accrued between the stored and the event's
    funding index. Returns [fundingAccrued] with the updated locals. The
    funding payment reads the market key and the asset of the position,
    and the getter of a field that was never set aborts the handler. *)
Definition accrueFunding (event : PME.t) (account : Address) (positionId : string)
    (positionEntity : Pos.t) (statEntity : Stat.t) (st : Store)
    : option (BigInt * Pos.t * Stat.t * Store) :=
  let futuresMarketAddress := Ev.address (PME.base event) in
  let fundingAccrued := ZERO in
  if bool_decide (Pos.fundingIndex positionEntity ≠ PME.fundingIndex event) then
    let pastFundingEntity :=
      fundingRateUpdates st
        !! fundingRateUpdateIdOf futuresMarketAddress (Pos.fundingIndex positionEntity) in
    let currentFundingEntity :=
      fundingRateUpdates st
        !! fundingRateUpdateIdOf futuresMarketAddress (PME.fundingIndex event) in
    match pastFundingEntity, currentFundingEntity with
    | Some pastFundingEntity, Some currentFundingEntity =>
        fundingAccrued ←
          div ((FundingRateUpdate.funding currentFundingEntity
                - FundingRateUpdate.funding pastFundingEntity)
               * Pos.size positionEntity) ETHER;
        st ←
          (if gt (Z.abs fundingAccrued) ZERO then
             (* lines 179-180: the getters abort on an unset field *)
             marketKey ← Pos.marketKey positionEntity;
             asset ← Pos.asset positionEntity;
             Some (saveFundingPayment
                     (fundingPaymentIdOf positionId
                        (Ev.transaction_hash (PME.base event))
                        (Ev.logIndex (PME.base event)))
                     {| FundingPayment.timestamp := Ev.block_timestamp (PME.base event);
                        FundingPayment.account := account;
                        FundingPayment.positionId := positionId;
                        FundingPayment.marketKey := Some marketKey;
                        FundingPayment.asset := Some asset;
                        FundingPayment.amount := fundingAccrued |}
                     st)
           else Some st);
        let positionEntity :=
          positionEntity <| Pos.netFunding := Pos.netFunding positionEntity + fundingAccrued |> in
        let statEntity :=
          statEntity <| Stat.feesPaid := Stat.feesPaid statEntity - fundingAccrued |> in
        let positionEntity :=
          positionEntity <| Pos.fundingIndex := PME.fundingIndex event |> in
        Some (fundingAccrued, positionEntity, statEntity, st)
    | _, _ => Some (fundingAccrued, positionEntity, statEntity, st)
    end
  else Some (fundingAccrued, positionEntity, statEntity, st).

(** Lines 224-282: pnl and average entry price of a trade. *)
Definition updatePnlAndEntryPrice (event : PME.t) (tradeEntity : Trade.t)
    (positionEntity : Pos.t) (statEntity : Stat.t) : option (Trade.t * Pos.t * Stat.t) :=
  if isZero (PME.size event) then
    newPnl ← div ((PME.lastPrice event - Pos.avgEntryPrice positionEntity)
                  * Pos.size positionEntity) ETHER;
    let statEntity := statEntity <| Stat.pnl := Stat.pnl statEntity + newPnl |> in
    let tradeEntity := tradeEntity <| Trade.pnl := newPnl |> in
    let positionEntity := positionEntity <| Pos.pnl := Pos.pnl positionEntity + newPnl |> in
    let positionEntity := positionEntity <| Pos.isOpen := false |> in
    let positionEntity := positionEntity <| Pos.exitPrice := Some (PME.lastPrice event) |> in
    let positionEntity :=
      positionEntity <| Pos.closeTimestamp := Some (Ev.block_timestamp (PME.base event)) |> in
    Some (tradeEntity, positionEntity, statEntity)
  else if (lt (Pos.size positionEntity) ZERO && gt (PME.size event) ZERO)
          || (gt (Pos.size positionEntity) ZERO && lt (PME.size event) ZERO) then
    newPnl ← div ((PME.lastPrice event - Pos.avgEntryPrice positionEntity)
                  * Pos.size positionEntity) ETHER;
    let tradeEntity := tradeEntity <| Trade.pnl := newPnl |> in
    let statEntity := statEntity <| Stat.pnl := Stat.pnl statEntity + newPnl |> in
    let positionEntity := positionEntity <| Pos.pnl := Pos.pnl positionEntity + newPnl |> in
    let positionEntity := positionEntity <| Pos.entryPrice := PME.lastPrice event |> in
    let positionEntity := positionEntity <| Pos.avgEntryPrice := PME.lastPrice event |> in
    Some (tradeEntity, positionEntity, statEntity)
  else if gt (Z.abs (PME.size event)) (Z.abs (Pos.size positionEntity)) then
    let existingSize := Z.abs (Pos.size positionEntity) in
    let existingPrice := existingSize * Pos.entryPrice positionEntity in
    let newSize := Z.abs (PME.tradeSize event) in
    let newPrice := newSize * PME.lastPrice event in
    entryPrice ← div (existingPrice + newPrice) (Z.abs (PME.size event));
    let positionEntity := positionEntity <| Pos.entryPrice := entryPrice |> in
    avgEntryPrice ← div (existingPrice + newPrice) (Z.abs (PME.size event));
    let positionEntity := positionEntity <| Pos.avgEntryPrice := avgEntryPrice |> in
    Some (tradeEntity, positionEntity, statEntity)
  else
    newPnl ← div ((PME.lastPrice event - Pos.avgEntryPrice positionEntity)
                  * Z.abs (PME.tradeSize event)
                  * (if gt (PME.size event) ZERO then 1 else -1)) ETHER;
    let tradeEntity := tradeEntity <| Trade.pnl := newPnl |> in
    let statEntity := statEntity <| Stat.pnl := Stat.pnl statEntity + newPnl |> in
    let positionEntity := positionEntity <| Pos.pnl := Pos.pnl positionEntity + newPnl |> in
    Some (tradeEntity, positionEntity, statEntity).

(** Lines 195-222: the trade entity of an event with a trade size. *)
Definition newTrade (event : PME.t) (account sendingAccount : Address)
    (accountType : AccountType) (positionId : string)
    (marketEntity : option FuturesMarketEntity.t) (fundingAccrued : BigInt) : Trade.t :=
  let synthetixFeePaid := PME.fee event in
  let tradeEntity :=
    {| Trade.timestamp := Ev.block_timestamp (PME.base event);
       Trade.account := account;
       Trade.abstractAccount := sendingAccount;
       Trade.accountType := accountType;
       Trade.margin := PME.margin event + synthetixFeePaid;
       Trade.size := PME.tradeSize event;
       Trade.asset := Some ZERO_ADDRESS;
       Trade.marketKey := Some ZERO_ADDRESS;
       Trade.price := PME.lastPrice event;
       Trade.positionId := positionId;
       Trade.positionSize := PME.size event;
       Trade.positionClosed := false;
       Trade.pnl := ZERO;
       Trade.feesPaid := synthetixFeePaid;
       Trade.fundingAccrued := fundingAccrued;
       Trade.keeperFeesPaid := ZERO;
       Trade.orderType := "Market";
       Trade.trackingCode := ZERO_ADDRESS |} in
  let tradeEntity :=
    match marketEntity with
    | Some marketEntity =>
        tradeEntity <| Trade.asset := Some (FuturesMarketEntity.asset marketEntity) |>
                    <| Trade.marketKey := Some (FuturesMarketEntity.marketKey marketEntity) |>
    | None => tradeEntity
    end in
  if isZero (PME.size event)
  then tradeEntity <| Trade.positionClosed := true |>
  else tradeEntity <| Trade.positionClosed := false |>.

(** Lines 194-322: the branch of a non-zero trade size. *)
Definition recordTrade (event : PME.t) (account sendingAccount : Address)
    (accountType : AccountType) (positionId : string)
    (marketEntity : option FuturesMarketEntity.t) (fundingAccrued : BigInt)
    (positionEntity : Pos.t) (statEntity : Stat.t) (cumulativeEntity : Cum.t)
    (st : Store) : option (Pos.t * Stat.t * Cum.t * Store) :=
  let synthetixFeePaid := PME.fee event in
  let tradeEntity :=
    newTrade event account sendingAccount accountType positionId marketEntity
      fundingAccrued in
  '(tradeEntity, positionEntity, statEntity) ←
    updatePnlAndEntryPrice event tradeEntity positionEntity statEntity;
  let st :=
    saveTrade (tradeIdOf (Ev.transaction_hash (PME.base event))
                 (Ev.logIndex (PME.base event))) tradeEntity st in
  quotient ← div (Trade.size tradeEntity * Trade.price tradeEntity) ETHER;
  let volume := Z.abs quotient in
  let cumulativeEntity :=
    cumulativeEntity <| Cum.totalTrades := Cum.totalTrades cumulativeEntity + 1 |> in
  let cumulativeEntity :=
    cumulativeEntity <| Cum.totalVolume := Cum.totalVolume cumulativeEntity + volume |> in
  averageTradeSize ←
    div (Cum.totalVolume cumulativeEntity) (Cum.totalTrades cumulativeEntity);
  let cumulativeEntity := cumulativeEntity <| Cum.averageTradeSize := averageTradeSize |> in
  let statEntity :=
    statEntity <| Stat.totalTrades := Stat.totalTrades statEntity + 1 |> in
  let statEntity :=
    statEntity <| Stat.totalVolume := Stat.totalVolume statEntity + volume |> in
  let statEntity :=
    if decide (accountType = smart_margin)
    then statEntity <| Stat.smartMarginVolume := Stat.smartMarginVolume statEntity + volume |>
    else statEntity in
  let positionEntity :=
    positionEntity <| Pos.trades := Pos.trades positionEntity + 1 |> in
  let positionEntity :=
    positionEntity <| Pos.totalVolume := Pos.totalVolume positionEntity + volume |> in
  st ←
    (* [marketEntity && marketEntity.asset]: the asset of a market is set *)
    match marketEntity with
    | Some marketEntity =>
        let marketId := toHex (FuturesMarketEntity.asset marketEntity) in
        let marketCumulativeStats := getOrCreateMarketCumulativeStats marketId st in
        let marketCumulativeStats :=
          marketCumulativeStats
            <| Cum.totalTrades := Cum.totalTrades marketCumulativeStats + 1 |> in
        let marketCumulativeStats :=
          marketCumulativeStats
            <| Cum.totalVolume := Cum.totalVolume marketCumulativeStats + volume |> in
        marketAverage ←
          div (Cum.totalVolume marketCumulativeStats)
              (Cum.totalTrades marketCumulativeStats);
        let marketCumulativeStats :=
          marketCumulativeStats <| Cum.averageTradeSize := marketAverage |> in
        let st := saveCumulativeStat marketId marketCumulativeStats st in
        (* an unset [marketKey] or [asset] cannot be passed as [Bytes] *)
        marketKey ← Pos.marketKey positionEntity;
        asset ← Pos.asset positionEntity;
        updateAggregateStatEntities accountType marketKey asset
          (Ev.block_timestamp (PME.base event)) ONE volume synthetixFeePaid ZERO st
    | None => Some st
    end;
  Some (positionEntity, statEntity, cumulativeEntity, st).

(** Lines 334-363: the synthetic trade of a liquidation. It reads the
    asset and the market key of the position (lines 352-353), and the
    getter of a field that was never set aborts the handler. *)
Definition newLiquidationTrade (event : PME.t) (account sendingAccount : Address)
    (accountType : AccountType) (positionId : string) (fundingAccrued : BigInt)
    (positionEntity : Pos.t) (newTradePnl : BigInt) : option Trade.t :=
  let synthetixFeePaid := PME.fee event in
  asset ← Pos.asset positionEntity;
  marketKey ← Pos.marketKey positionEntity;
  Some
  {| Trade.timestamp := Ev.block_timestamp (PME.base event);
     Trade.account := account;
     Trade.abstractAccount := sendingAccount;
     Trade.accountType := accountType;
     Trade.margin := ZERO;
     Trade.size := ZERO;
     Trade.asset := Some asset;
     Trade.marketKey := Some marketKey;
     Trade.price := PME.lastPrice event;
     Trade.positionId := positionId;
     Trade.positionSize := ZERO;
     Trade.positionClosed := true;
     Trade.pnl := newTradePnl;
     Trade.feesPaid := synthetixFeePaid;
     Trade.fundingAccrued := fundingAccrued;
     Trade.keeperFeesPaid := ZERO;
     Trade.orderType := "Liquidation";
     Trade.trackingCode := ZERO_ADDRESS |}.

(** Lines 323-381: the branch of a zero trade size, a margin transfer or
    the precursor of a liquidation. *)
Definition marginTransferOrLiquidation (event : PME.t) (account sendingAccount : Address)
    (accountType : AccountType) (positionId : string) (fundingAccrued : BigInt)
    (positionEntity : Pos.t) (statEntity : Stat.t) (st : Store)
    : option (Pos.t * Stat.t * Store) :=
  let futuresMarketAddress := Ev.address (PME.base event) in
  let marginTransferEntity :=
    marginTransfers st
      !! marginTransferIdOf futuresMarketAddress (Ev.transaction_hash (PME.base event))
           (Ev.logIndex (PME.base event) - 1) in
  if isNull marginTransferEntity && isZero (PME.size event) && isZero (PME.margin event)
  then
    let newPositionPnlWithFeesPaid :=
      (Pos.initialMargin positionEntity + Pos.netTransfers positionEntity) * -1 in
    let newPositionPnl :=
      newPositionPnlWithFeesPaid + Pos.feesPaid positionEntity
      - Pos.netFunding positionEntity in
    let newTradePnl := newPositionPnl - Pos.pnl positionEntity in
    tradeEntity ←
      newLiquidationTrade event account sendingAccount accountType positionId
        fundingAccrued positionEntity newTradePnl;
    let st :=
      saveTrade (tradeIdOf (Ev.transaction_hash (PME.base event))
                   (Ev.logIndex (PME.base event))) tradeEntity st in
    let positionEntity := positionEntity <| Pos.pnl := newPositionPnl |> in
    let positionEntity :=
      positionEntity <| Pos.pnlWithFeesPaid := newPositionPnlWithFeesPaid |> in
    let statEntity := statEntity <| Stat.pnl := Stat.pnl statEntity + newTradePnl |> in
    Some (positionEntity, statEntity, st)
  else
    match marginTransferEntity with
    | Some marginTransferEntity =>
        let positionEntity :=
          positionEntity <| Pos.netTransfers :=
            Pos.netTransfers positionEntity
            + FuturesMarginTransfer.size marginTransferEntity |> in
        let positionEntity :=
          if gt (FuturesMarginTransfer.size marginTransferEntity) ZERO
          then positionEntity <| Pos.totalDeposits :=
                 Pos.totalDeposits positionEntity
                 + FuturesMarginTransfer.size marginTransferEntity |>
          else positionEntity in
        Some (positionEntity, statEntity, st)
    | None => Some (positionEntity, statEntity, st)
    end.

(** Lines 384-385: the trailing update of the stats entity. *)
Definition updateStatValues (event : PME.t) (statEntity : Stat.t) : Stat.t :=
  let synthetixFeePaid := PME.fee event in
  let statEntity :=
    statEntity <| Stat.pnlWithFeesPaid := Stat.pnl statEntity - Stat.feesPaid statEntity |> in
  statEntity <| Stat.feesPaid := Stat.feesPaid statEntity + synthetixFeePaid |>.

(** Lines 387-393: the trailing update of the position entity. *)
Definition updatePositionValues (event : PME.t) (positionEntity : Pos.t) : Pos.t :=
  let synthetixFeePaid := PME.fee event in
  let positionEntity := positionEntity <| Pos.size := PME.size event |> in
  let positionEntity := positionEntity <| Pos.margin := PME.margin event |> in
  let positionEntity := positionEntity <| Pos.lastPrice := PME.lastPrice event |> in
  let positionEntity :=
    positionEntity <| Pos.feesPaid := Pos.feesPaid positionEntity + synthetixFeePaid |> in
  let positionEntity :=
    positionEntity <| Pos.pnlWithFeesPaid :=
      Pos.pnl positionEntity - Pos.feesPaid positionEntity
      + Pos.netFunding positionEntity |> in
  let positionEntity :=
    positionEntity <| Pos.lastTxHash := Some (Ev.transaction_hash (PME.base event)) |> in
  positionEntity <| Pos.timestamp := Ev.block_timestamp (PME.base event) |>.

(** Lines 383-404: the updates and saves every event ends with. *)
Definition updateGlobalValues (event : PME.t) (sendingAccount account : Address)
    (positionId : string) (marginAccountEntity : option FuturesMarginAccount.t)
    (positionEntity : Pos.t) (statEntity : Stat.t) (cumulativeEntity : Cum.t)
    (st : Store) : Store :=
  let futuresMarketAddress := Ev.address (PME.base event) in
  let statEntity := updateStatValues event statEntity in
  let positionEntity := updatePositionValues event positionEntity in
  let st :=
    match marginAccountEntity with
    | Some marginAccountEntity =>
        let marginAccountEntity :=
          marginAccountEntity <| FuturesMarginAccount.margin := PME.margin event |> in
        let marginAccountEntity :=
          marginAccountEntity
            <| FuturesMarginAccount.timestamp := Ev.block_timestamp (PME.base event) |> in
        saveMarginAccount (marginAccountIdOf sendingAccount futuresMarketAddress)
          marginAccountEntity st
    | None => st
    end in
  let st := savePosition positionId positionEntity st in
  let st := saveStat (toHex account) statEntity st in
  saveCumulativeStat SINGLE_INDEX cumulativeEntity st.

Definition handlePositionModified (event : PME.t) (st : Store) : option Store :=
  let sendingAccount := PME.account event in
  let account := resolveAccount sendingAccount st in
  let accountType := resolveAccountType sendingAccount st in
  let futuresMarketAddress := Ev.address (PME.base event) in
  let positionId := positionIdOf futuresMarketAddress (PME.id event) in
  let marketEntity := markets st !! toHex futuresMarketAddress in
  let positionEntity := positions st !! positionId in
  let statEntity := stats st !! toHex account in
  let cumulativeEntity := getOrCreateCumulativeEntity st in
  let marginAccountEntity :=
    marginAccounts st !! marginAccountIdOf sendingAccount futuresMarketAddress in
  let '(statEntity, cumulativeEntity) := statOrNew account statEntity cumulativeEntity in
  let positionEntity :=
    positionOrNew event account sendingAccount accountType marketEntity positionEntity in
  '(fundingAccrued, positionEntity, statEntity, st) ←
    accrueFunding event account positionId positionEntity statEntity st;
  '(positionEntity, statEntity, cumulativeEntity, st) ←
    (if negb (isZero (PME.tradeSize event)) then
       recordTrade event account sendingAccount accountType positionId marketEntity
         fundingAccrued positionEntity statEntity cumulativeEntity st
     else
       '(positionEntity, statEntity, st) ←
         marginTransferOrLiquidation event account sendingAccount accountType positionId
           fundingAccrued positionEntity statEntity st;
       Some (positionEntity, statEntity, cumulativeEntity, st));
  Some (updateGlobalValues event sendingAccount account positionId marginAccountEntity
          positionEntity statEntity cumulativeEntity st).

(** [handlePositionModifiedV2]: the newer event without its [skew]. *)
Definition handlePositionModifiedV2 (event : PositionModifiedV2Event.t) (st : Store)
    : option Store :=
  let v1Event :=
    {| PME.base := PositionModifiedV2Event.base event;
       PME.id := PositionModifiedV2Event.id event;
       PME.account := PositionModifiedV2Event.account event;
       PME.margin := PositionModifiedV2Event.margin event;
       PME.size := PositionModifiedV2Event.size event;
       PME.tradeSize := PositionModifiedV2Event.tradeSize event;
       PME.lastPrice := PositionModifiedV2Event.lastPrice event;
       PME.fundingIndex := PositionModifiedV2Event.fundingIndex event;
       PME.fee := PositionModifiedV2Event.fee event |} in
  handlePositionModified v1Event st.

(** ** [handlePositionLiquidated] and [handlePositionLiquidatedV2] *)

Module PLE := PositionLiquidatedEvent.
Module PLE2 := PositionLiquidatedV2Event.

Definition handlePositionLiquidated (event : PLE.t) (st : Store) : option Store :=
  let sendingAccount := PLE.account event in
  let account := resolveAccount sendingAccount st in
  let futuresMarketAddress := Ev.address (PLE.base event) in
  let positionId := positionIdOf futuresMarketAddress (PLE.id event) in
  let positionEntity := positions st !! positionId in
  let tradeId :=
    tradeIdOf (Ev.transaction_hash (PLE.base event)) (Ev.logIndex (PLE.base event) - 1) in
  let tradeEntity := trades st !! tradeId in
  let statEntity := stats st !! toHex account in
  let '(positionEntity, st) :=
    match positionEntity with
    | Some positionEntity =>
        let positionEntity := positionEntity <| Pos.isLiquidated := true |> in
        let positionEntity := positionEntity <| Pos.isOpen := false |> in
        let positionEntity :=
          positionEntity
            <| Pos.closeTimestamp := Some (Ev.block_timestamp (PLE.base event)) |> in
        let positionEntity :=
          positionEntity <| Pos.feesPaid := Pos.feesPaid positionEntity + PLE.fee event |> in
        let positionEntity :=
          positionEntity <| Pos.pnl := Pos.pnl positionEntity + PLE.fee event |> in
        let positionEntity :=
          positionEntity <| Pos.pnlWithFeesPaid :=
            Pos.pnl positionEntity - Pos.feesPaid positionEntity
            + Pos.netFunding positionEntity |> in
        let st := savePosition positionId positionEntity st in
        let st :=
          match statEntity with
          | Some statEntity =>
              let statEntity :=
                statEntity <| Stat.liquidations := Stat.liquidations statEntity + 1 |> in
              let statEntity :=
                statEntity <| Stat.feesPaid := Stat.feesPaid statEntity + PLE.fee event |> in
              let statEntity :=
                statEntity <| Stat.pnl := Stat.pnl statEntity + PLE.fee event |> in
              let statEntity :=
                statEntity <| Stat.pnlWithFeesPaid :=
                  Stat.pnl statEntity - Stat.feesPaid statEntity |> in
              saveStat (toHex account) statEntity st
          | None => st
          end in
        let st :=
          match tradeEntity with
          | Some tradeEntity =>
              let tradeEntity := tradeEntity <| Trade.size := PLE.size event * -1 |> in
              let tradeEntity := tradeEntity <| Trade.positionSize := ZERO |> in
              let tradeEntity :=
                tradeEntity <| Trade.feesPaid := Trade.feesPaid tradeEntity + PLE.fee event |> in
              let tradeEntity :=
                tradeEntity <| Trade.pnl := Trade.pnl tradeEntity + PLE.fee event |> in
              saveTrade tradeId tradeEntity st
          | None => st
          end in
        (Some positionEntity, st)
    | None => (None, st)
    end in
  let cumulativeEntity := getOrCreateCumulativeEntity st in
  let cumulativeEntity :=
    cumulativeEntity
      <| Cum.totalLiquidations := Cum.totalLiquidations cumulativeEntity + 1 |> in
  let st := saveCumulativeStat SINGLE_INDEX cumulativeEntity st in
  match positionEntity with
  | Some positionEntity =>
      (* [positionEntity.asset]: the getter aborts on an unset field *)
      asset ← Pos.asset positionEntity;
      let marketCumulativeStats := getOrCreateMarketCumulativeStats (toHex asset) st in
      let marketCumulativeStats :=
        marketCumulativeStats
          <| Cum.totalLiquidations :=
               Cum.totalLiquidations marketCumulativeStats + 1 |> in
      Some (saveCumulativeStat (toHex asset) marketCumulativeStats st)
  | None => Some st
  end.

Definition handlePositionLiquidatedV2 (event : PLE2.t) (st : Store) : option Store :=
  let sendingAccount := PLE2.account event in
  let account := resolveAccount sendingAccount st in
  let futuresMarketAddress := Ev.address (PLE2.base event) in
  let positionId := positionIdOf futuresMarketAddress (PLE2.id event) in
  let positionEntity := positions st !! positionId in
  let tradeId :=
    tradeIdOf (Ev.transaction_hash (PLE2.base event))
      (Ev.logIndex (PLE2.base event) - 1) in
  let tradeEntity := trades st !! tradeId in
  let statEntity := stats st !! toHex account in
  let totalFee :=
    PLE2.flaggerFee event + PLE2.liquidatorFee event + PLE2.stakersFee event in
  let '(positionEntity, st) :=
    match positionEntity with
    | Some positionEntity =>
        let positionEntity := positionEntity <| Pos.isLiquidated := true |> in
        let positionEntity := positionEntity <| Pos.isOpen := false |> in
        let positionEntity :=
          positionEntity
            <| Pos.closeTimestamp := Some (Ev.block_timestamp (PLE2.base event)) |> in
        let positionEntity :=
          positionEntity <| Pos.feesPaid := Pos.feesPaid positionEntity + totalFee |> in
        let positionEntity :=
          positionEntity <| Pos.pnl := Pos.pnl positionEntity + totalFee |> in
        let positionEntity :=
          positionEntity <| Pos.pnlWithFeesPaid :=
            Pos.pnl positionEntity - Pos.feesPaid positionEntity
            + Pos.netFunding positionEntity |> in
        let st := savePosition positionId positionEntity st in
        let st :=
          match statEntity with
          | Some statEntity =>
              let statEntity :=
                statEntity <| Stat.liquidations := Stat.liquidations statEntity + 1 |> in
              let statEntity :=
                statEntity <| Stat.feesPaid := Stat.feesPaid statEntity + totalFee |> in
              let statEntity :=
                statEntity <| Stat.pnl := Stat.pnl statEntity + totalFee |> in
              let statEntity :=
                statEntity <| Stat.pnlWithFeesPaid :=
                  Stat.pnl statEntity - Stat.feesPaid statEntity |> in
              saveStat (toHex account) statEntity st
          | None => st
          end in
        let st :=
          match tradeEntity with
          | Some tradeEntity =>
              let tradeEntity := tradeEntity <| Trade.size := PLE2.size event * -1 |> in
              let tradeEntity := tradeEntity <| Trade.positionSize := ZERO |> in
              let tradeEntity :=
                tradeEntity <| Trade.feesPaid := Trade.feesPaid tradeEntity + totalFee |> in
              let tradeEntity :=
                tradeEntity <| Trade.pnl := Trade.pnl tradeEntity + totalFee |> in
              saveTrade tradeId tradeEntity st
          | None => st
          end in
        (Some positionEntity, st)
    | None => (None, st)
    end in
  let cumulativeEntity := getOrCreateCumulativeEntity st in
  let cumulativeEntity :=
    cumulativeEntity
      <| Cum.totalLiquidations := Cum.totalLiquidations cumulativeEntity + 1 |> in
  let st := saveCumulativeStat SINGLE_INDEX cumulativeEntity st in
  match positionEntity with
  | Some positionEntity =>
      (* [positionEntity.asset]: the getter aborts on an unset field *)
      asset ← Pos.asset positionEntity;
      let marketCumulativeStats := getOrCreateMarketCumulativeStats (toHex asset) st in
      let marketCumulativeStats :=
        marketCumulativeStats
          <| Cum.totalLiquidations :=
               Cum.totalLiquidations marketCumulativeStats + 1 |> in
      Some (saveCumulativeStat (toHex asset) marketCumulativeStats st)
  | None => Some st
  end.

(** ** [handleMarginTransferred] *)

Module MTE := MarginTransferredEvent.

Definition handleMarginTransferred (event : MTE.t) (st : Store) : option Store :=
  let futuresMarketAddress := Ev.address (MTE.base event) in
  let txHash := toHex (Ev.transaction_hash (MTE.base event)) in
  let marketEntity := markets st !! toHex futuresMarketAddress in
  let marginTransferEntity :=
    {| FuturesMarginTransfer.timestamp := Ev.block_timestamp (MTE.base event);
       FuturesMarginTransfer.account := MTE.account event;
       FuturesMarginTransfer.market := futuresMarketAddress;
       FuturesMarginTransfer.size := MTE.marginDelta event;
       FuturesMarginTransfer.txHash := txHash;
       FuturesMarginTransfer.asset := FuturesMarketEntity.asset <$> marketEntity;
       FuturesMarginTransfer.marketKey :=
         FuturesMarketEntity.marketKey <$> marketEntity |} in
  let marginAccountId := marginAccountIdOf (MTE.account event) futuresMarketAddress in
  let marginAccountEntity := marginAccounts st !! marginAccountId in
  let '(marginAccountEntity, st) :=
    match marginAccountEntity with
    | Some marginAccountEntity => (marginAccountEntity, st)
    | None =>
        let marginAccountEntity :=
          {| FuturesMarginAccount.timestamp := Ev.block_timestamp (MTE.base event);
             FuturesMarginAccount.account := MTE.account event;
             FuturesMarginAccount.market := futuresMarketAddress;
             FuturesMarginAccount.margin := ZERO;
             FuturesMarginAccount.deposits := ZERO;
             FuturesMarginAccount.withdrawals := ZERO;
             FuturesMarginAccount.asset := FuturesMarketEntity.asset <$> marketEntity |} in
        match marketEntity with
        | Some marketEntity =>
            let marketId := toHex (FuturesMarketEntity.asset marketEntity) in
            let marketStats := getOrCreateMarketCumulativeStats marketId st in
            let marketStats :=
              marketStats <| Cum.totalTraders := Cum.totalTraders marketStats + 1 |> in
            (marginAccountEntity, saveCumulativeStat marketId marketStats st)
        | None => (marginAccountEntity, st)
        end
    end in
  let marginAccountEntity :=
    if gt (MTE.marginDelta event) ZERO
    then marginAccountEntity <| FuturesMarginAccount.deposits :=
           FuturesMarginAccount.deposits marginAccountEntity
           + Z.abs (MTE.marginDelta event) |>
    else marginAccountEntity in
  let marginAccountEntity :=
    if lt (MTE.marginDelta event) ZERO
    then marginAccountEntity <| FuturesMarginAccount.withdrawals :=
           FuturesMarginAccount.withdrawals marginAccountEntity
           + Z.abs (MTE.marginDelta event) |>
    else marginAccountEntity in
  let st :=
    saveMarginTransfer
      (marginTransferIdOf futuresMarketAddress (Ev.transaction_hash (MTE.base event))
         (Ev.logIndex (MTE.base event)))
      marginTransferEntity st in
  Some (saveMarginAccount marginAccountId marginAccountEntity st).

(** ** Delayed orders *)

Module DOS := DelayedOrderSubmittedEvent.
Module DOR := DelayedOrderRemovedEvent.

Section DelayedOrders.

(** [Bytes.toString], the UTF-8 decoding of graph-node's host interface,
    which is not part of the repository. *)
Variable bytesToString : Bytes -> string.

Definition futuresOrderIdOf (marketAsset : Bytes) (sendingAccount : Address)
    (targetRoundId : BigInt) : string :=
  "D-" +:+ bytesToString marketAsset +:+ "-" +:+ toHex sendingAccount +:+ "-"
  +:+ toString targetRoundId.

Definition smartMarginOrderIdOf (sendingAccount : Address) (marketKey : Bytes) : string :=
  toHex sendingAccount +:+ "-" +:+ bytesToString marketKey.

Definition handleDelayedOrderSubmitted (event : DOS.t) (st : Store) : option Store :=
  let futuresMarketAddress := Ev.address (DOS.base event) in
  let sendingAccount := DOS.account event in
  let account := resolveAccount sendingAccount st in
  let marketEntity := markets st !! toHex futuresMarketAddress in
  match marketEntity with
  | Some marketEntity =>
      let marketAsset := FuturesMarketEntity.asset marketEntity in
      let futuresOrderEntityId :=
        futuresOrderIdOf marketAsset sendingAccount (DOS.targetRoundId event) in
      (* every field of a loaded order is overwritten like those of a new one *)
      let futuresOrderEntity :=
        {| FuturesOrder.size := DOS.sizeDelta event;
           FuturesOrder.marketKey := FuturesMarketEntity.marketKey marketEntity;
           FuturesOrder.account := account;
           FuturesOrder.abstractAccount := sendingAccount;
           FuturesOrder.targetPrice := ZERO;
           FuturesOrder.marginDelta := ZERO;
           FuturesOrder.timestamp := Ev.block_timestamp (DOS.base event);
           FuturesOrder.txnHash := Ev.transaction_hash (DOS.base event);
           FuturesOrder.orderId := DOS.targetRoundId event;
           FuturesOrder.orderType :=
             if DOS.isOffchain event then "DelayedOffchain" else "Delayed";
           FuturesOrder.status := "Pending";
           FuturesOrder.keeper := ZERO_ADDRESS |} in
      Some (saveOrder futuresOrderEntityId futuresOrderEntity st)
  | None => Some st
  end.

(** Lines 833-875: the order was filled by the trade of the previous log. *)
Definition fillOrder (event : DOR.t) (account : Address) (accountType : AccountType)
    (marketEntity : FuturesMarketEntity.t)
    (smartMarginOrderEntity : option SmartMarginOrder.t)
    (futuresOrderEntity : FuturesOrder.t) (statEntity : Stat.t) (tradeId : string)
    (tradeEntity : Trade.t) (st : Store) : option (FuturesOrder.t * Store) :=
  let sendingAccount := DOR.account event in
  let positionEntity := positions st !! Trade.positionId tradeEntity in
  let futuresOrderEntity := futuresOrderEntity <| FuturesOrder.status := "Filled" |> in
  let tradeEntity := tradeEntity <| Trade.trackingCode := DOR.trackingCode event |> in
  let tradeEntity :=
    tradeEntity <| Trade.orderType := FuturesOrder.orderType futuresOrderEntity |> in
  let '(tradeEntity, st) :=
    match smartMarginOrderEntity with
    | Some smartMarginOrderEntity =>
        match SmartMarginOrder.recordTrade smartMarginOrderEntity,
              SmartMarginOrder.orderType smartMarginOrderEntity with
        | true, Some orderType =>
            let tradeEntity := tradeEntity <| Trade.orderType := orderType |> in
            let smartMarginOrderEntity :=
              smartMarginOrderEntity <| SmartMarginOrder.recordTrade := false |> in
            (tradeEntity,
             saveSmartMarginOrder
               (smartMarginOrderIdOf sendingAccount
                  (FuturesMarketEntity.marketKey marketEntity))
               smartMarginOrderEntity st)
        | _, _ => (tradeEntity, st)
        end
    | None => (tradeEntity, st)
    end in
  '(tradeEntity, st) ←
    (if bool_decide (FuturesOrder.keeper futuresOrderEntity
                     ≠ FuturesOrder.account futuresOrderEntity) then
       let tradeEntity :=
         tradeEntity
           <| Trade.feesPaid := Trade.feesPaid tradeEntity + DOR.keeperDeposit event |> in
       let tradeEntity :=
         tradeEntity <| Trade.keeperFeesPaid := DOR.keeperDeposit event |> in
       let statEntity :=
         statEntity
           <| Stat.feesPaid := Stat.feesPaid statEntity + DOR.keeperDeposit event |> in
       let st :=
         match positionEntity with
         | Some positionEntity =>
             let positionEntity :=
               positionEntity
                 <| Pos.feesPaid := Pos.feesPaid positionEntity + DOR.keeperDeposit event |> in
             savePosition (Trade.positionId tradeEntity) positionEntity st
         | None => st
         end in
       st ←
         (if bool_decide (bytesToString (DOR.trackingCode event) = "KWENTA") then
            updateAggregateStatEntities accountType
              (FuturesMarketEntity.marketKey marketEntity)
              (FuturesMarketEntity.asset marketEntity)
              (Ev.block_timestamp (DOR.base event)) ZERO ZERO ZERO
              (Trade.feesPaid tradeEntity) st
          else Some st);
       Some (tradeEntity, saveStat (toHex account) statEntity st)
     else Some (tradeEntity, st));
  Some (futuresOrderEntity, saveTrade tradeId tradeEntity st).

Definition handleDelayedOrderRemoved (event : DOR.t) (st : Store) : option Store :=
  let sendingAccount := DOR.account event in
  let account := resolveAccount sendingAccount st in
  let accountType := resolveAccountType sendingAccount st in
  let statEntity := stats st !! toHex account in
  let futuresMarketAddress := Ev.address (DOR.base event) in
  let marketEntity := markets st !! toHex futuresMarketAddress in
  match marketEntity with
  | Some marketEntity =>
      let marketAsset := FuturesMarketEntity.asset marketEntity in
      let futuresOrderEntityId :=
        futuresOrderIdOf marketAsset sendingAccount (DOR.targetRoundId event) in
      let futuresOrderEntity := orders st !! futuresOrderEntityId in
      let smartMarginOrderEntity :=
        smartMarginOrders st
          !! smartMarginOrderIdOf sendingAccount
               (FuturesMarketEntity.marketKey marketEntity) in
      match futuresOrderEntity with
      | Some futuresOrderEntity =>
          let futuresOrderEntity :=
            futuresOrderEntity
              <| FuturesOrder.keeper := Ev.transaction_from (DOR.base event) |> in
          let tradeId :=
            tradeIdOf (Ev.transaction_hash (DOR.base event))
              (Ev.logIndex (DOR.base event) - 1) in
          let tradeEntity := trades st !! tradeId in
          '(futuresOrderEntity, st) ←
            match statEntity, tradeEntity with
            | Some statEntity, Some tradeEntity =>
                fillOrder event account accountType marketEntity smartMarginOrderEntity
                  futuresOrderEntity statEntity tradeId tradeEntity st
            | _, _ =>
                Some (futuresOrderEntity <| FuturesOrder.status := "Cancelled" |>, st)
            end;
          Some (saveOrder futuresOrderEntityId futuresOrderEntity st)
      | None => Some st
      end
  | None => Some st
  end.

End DelayedOrders.

(** ** Markets and funding rates *)

(** Modelled from the spec: the entity [FundingRatePeriod] and the events
    [MarketAdded] and [FundingRecomputed], generated from a schema and
    from ABIs that are not among the sources, with the fields and the
    parameters the handlers write and read (sections 3 and 6 of the
    spec). *)
Module FundingRatePeriod.
Record t := mk {
  fundingRate : BigInt;
  asset : Bytes;
  marketKey : Bytes;
  period : string;
  timestamp : BigInt }.
Definition eta (r : t) : t :=
  mk (fundingRate r) (asset r) (marketKey r) (period r) (timestamp r).
#[global] Instance set_fundingRate : Setter fundingRate :=
  ltac:(build_setter eta fundingRate).
End FundingRatePeriod.

Module MarketAddedEvent.
Record t := mk {
  base : Ev.t;
  market : Address;
  asset : Bytes;
  marketKey : Bytes }.
End MarketAddedEvent.

Module FundingRecomputedEvent.
Record t := mk {
  base : Ev.t;
  funding : BigInt;
  fundingRate : BigInt;
  index : BigInt;
  timestamp : BigInt }.
End FundingRecomputedEvent.

Module MAE := MarketAddedEvent.
Module FRE := FundingRecomputedEvent.

Definition FundingRateUpdate_eta (r : FundingRateUpdate.t) : FundingRateUpdate.t :=
  FundingRateUpdate.mk (FundingRateUpdate.timestamp r) (FundingRateUpdate.market r)
    (FundingRateUpdate.sequenceLength r) (FundingRateUpdate.funding r)
    (FundingRateUpdate.fundingRate r) (FundingRateUpdate.asset r)
    (FundingRateUpdate.marketKey r).
#[global] Instance set_FundingRateUpdate_asset : Setter FundingRateUpdate.asset :=
  ltac:(build_setter FundingRateUpdate_eta FundingRateUpdate.asset).
#[global] Instance set_FundingRateUpdate_marketKey : Setter FundingRateUpdate.marketKey :=
  ltac:(build_setter FundingRateUpdate_eta FundingRateUpdate.marketKey).

(** What the handlers of markets and of funding rates write beside the
    tables of [Store]: the table of the [FundingRatePeriod] entities and
    the data sources created from the template [PerpsMarket], in the
    order of their creation. *)
Record Subgraph := mkSubgraph {
  entities : Store;
  fundingRatePeriods : gmap string FundingRatePeriod.t;
  perpsMarketSources : list Address }.

Definition Subgraph_eta (r : Subgraph) : Subgraph :=
  mkSubgraph (entities r) (fundingRatePeriods r) (perpsMarketSources r).
#[global] Instance set_entities : Setter entities :=
  ltac:(build_setter Subgraph_eta entities).
#[global] Instance set_fundingRatePeriods : Setter fundingRatePeriods :=
  ltac:(build_setter Subgraph_eta fundingRatePeriods).
#[global] Instance set_perpsMarketSources : Setter perpsMarketSources :=
  ltac:(build_setter Subgraph_eta perpsMarketSources).

Definition emptySubgraph : Subgraph := mkSubgraph emptyStore ∅ [].

Definition saveMarket (id : string) (e : FuturesMarketEntity.t) (st : Store) : Store :=
  st <| markets := <[id := e]> (markets st) |>.
Definition saveFundingRateUpdate (id : string) (e : FundingRateUpdate.t) (st : Store)
    : Store :=
  st <| fundingRateUpdates := <[id := e]> (fundingRateUpdates st) |>.

(** [String.endsWith]. *)
Definition endsWith (s search : string) : bool :=
  bool_decide (String.length search ≤ String.length s)%nat
  && bool_decide
       (String.substring (String.length s - String.length search) (String.length search) s
        = search).

Section MarketsAndFunding.

(** [Bytes.toString], as for the delayed orders. *)
Variable bytesToString : Bytes -> string.

(** [FUNDING_RATE_PERIODS] and [FUNDING_RATE_PERIOD_TYPES] of
    [./lib/helpers], which is not among the sources: the two arrays are
    left open, and the properties hold for every value of them. *)
Variable FUNDING_RATE_PERIODS : list BigInt.
Variable FUNDING_RATE_PERIOD_TYPES : list string.

Definition handleV2MarketAdded (event : MAE.t) (sg : Subgraph) : option Subgraph :=
  let marketKey := bytesToString (MAE.marketKey event) in
  let st := entities sg in
  let marketEntity :=
    {| FuturesMarketEntity.asset := MAE.asset event;
       FuturesMarketEntity.marketKey := MAE.marketKey event;
       FuturesMarketEntity.marketStats := toHex (MAE.marketKey event) |} in
  let marketStats := getOrCreateMarketCumulativeStats (toHex (MAE.marketKey event)) st in
  let st := saveCumulativeStat (toHex (MAE.marketKey event)) marketStats st in
  let st := saveMarket (toHex (MAE.market event)) marketEntity st in
  let sg := sg <| entities := st |> in
  if endsWith marketKey "PERP"
  then Some (sg <| perpsMarketSources := perpsMarketSources sg ++ [MAE.market event] |>)
  else Some sg.

Definition fundingRatePeriodIdOf (asset periodType : string) (periodId : BigInt)
    : string :=
  asset +:+ "-" +:+ periodType +:+ "-" +:+ toString periodId.

(** The body of the loop of [updateFundingRatePeriods] at index [p]; an
    index past the end of [FUNDING_RATE_PERIOD_TYPES] aborts the handler. *)
Definition updateFundingRatePeriod (timestamp : BigInt) (asset : string)
    (rate : FundingRateUpdate.t) (p : nat) (periodSeconds : BigInt)
    (periods : gmap string FundingRatePeriod.t)
    : option (gmap string FundingRatePeriod.t) :=
  periodType ← FUNDING_RATE_PERIOD_TYPES !! p;
  periodId ← getTimeID timestamp periodSeconds;
  let id := fundingRatePeriodIdOf asset periodType periodId in
  match periods !! id with
  | None =>
      remainder ← mod_ timestamp periodSeconds;
      let newPeriod :=
        {| FundingRatePeriod.fundingRate := FundingRateUpdate.fundingRate rate;
           FundingRatePeriod.asset := FundingRateUpdate.asset rate;
           FundingRatePeriod.marketKey := FundingRateUpdate.marketKey rate;
           FundingRatePeriod.period := periodType;
           FundingRatePeriod.timestamp := timestamp - remainder |} in
      Some (<[id := newPeriod]> periods)
  | Some existingPeriod =>
      let existingPeriod :=
        existingPeriod
          <| FundingRatePeriod.fundingRate := FundingRateUpdate.fundingRate rate |> in
      Some (<[id := existingPeriod]> periods)
  end.

(** [for (let p = 0; p < FUNDING_RATE_PERIODS.length; p++)], from index [p]
    on the periods that are left. *)
Fixpoint updateFundingRatePeriodsFrom (p : nat) (rest : list BigInt)
    (timestamp : BigInt) (asset : string) (rate : FundingRateUpdate.t)
    (periods : gmap string FundingRatePeriod.t)
    : option (gmap string FundingRatePeriod.t) :=
  match rest with
  | [] => Some periods
  | periodSeconds :: rest =>
      periods ← updateFundingRatePeriod timestamp asset rate p periodSeconds periods;
      updateFundingRatePeriodsFrom (S p) rest timestamp asset rate periods
  end.

Definition updateFundingRatePeriods (timestamp : BigInt) (asset : string)
    (rate : FundingRateUpdate.t) (periods : gmap string FundingRatePeriod.t)
    : option (gmap string FundingRatePeriod.t) :=
  updateFundingRatePeriodsFrom 0 FUNDING_RATE_PERIODS timestamp asset rate periods.

Definition handleFundingRecomputed (event : FRE.t) (sg : Subgraph) : option Subgraph :=
  let futuresMarketAddress := Ev.address (FRE.base event) in
  let marketEntity := markets (entities sg) !! toHex futuresMarketAddress in
  let fundingRateUpdateEntity :=
    {| FundingRateUpdate.timestamp := FRE.timestamp event;
       FundingRateUpdate.market := futuresMarketAddress;
       FundingRateUpdate.sequenceLength := FRE.index event;
       FundingRateUpdate.funding := FRE.funding event;
       FundingRateUpdate.fundingRate := FRE.fundingRate event;
       FundingRateUpdate.asset := ZERO_ADDRESS;
       FundingRateUpdate.marketKey := ZERO_ADDRESS |} in
  '(fundingRateUpdateEntity, periods) ←
    match marketEntity with
    | Some marketEntity =>
        let fundingRateUpdateEntity :=
          fundingRateUpdateEntity
            <| FundingRateUpdate.asset := FuturesMarketEntity.asset marketEntity |> in
        let fundingRateUpdateEntity :=
          fundingRateUpdateEntity
            <| FundingRateUpdate.marketKey :=
                 FuturesMarketEntity.marketKey marketEntity |> in
        periods ←
          updateFundingRatePeriods (FRE.timestamp event)
            (bytesToString (FuturesMarketEntity.asset marketEntity))
            fundingRateUpdateEntity (fundingRatePeriods sg);
        Some (fundingRateUpdateEntity, periods)
    | None => Some (fundingRateUpdateEntity, fundingRatePeriods sg)
    end;
  Some (sg <| entities :=
                saveFundingRateUpdate
                  (fundingRateUpdateIdOf futuresMarketAddress (FRE.index event))
                  fundingRateUpdateEntity (entities sg) |>
           <| fundingRatePeriods := periods |>).

End MarketsAndFunding.

(** ** The events of a market, in order *)

(** The events of a market contract whose handlers work on the tables
    of [Store], each with the handler that takes it as its parameter,
    and a list of them handled in order: the store one handler leaves
    is the store the next one finds, and the run aborts with the first
    handler that does. *)
Inductive MarketEvent :=
  | PositionModified (event : PME.t)
  | PositionModifiedV2 (event : PositionModifiedV2Event.t)
  | PositionLiquidated (event : PLE.t)
  | PositionLiquidatedV2 (event : PLE2.t)
  | MarginTransferred (event : MTE.t)
  | DelayedOrderSubmitted (event : DOS.t)
  | DelayedOrderRemoved (event : DOR.t).

Section MarketEvents.

Variable bytesToString : Bytes -> string.

Definition handleMarketEvent (e : MarketEvent) (st : Store) : option Store :=
  match e with
  | PositionModified event => handlePositionModified event st
  | PositionModifiedV2 event => handlePositionModifiedV2 event st
  | PositionLiquidated event => handlePositionLiquidated event st
  | PositionLiquidatedV2 event => handlePositionLiquidatedV2 event st
  | MarginTransferred event => handleMarginTransferred event st
  | DelayedOrderSubmitted event => handleDelayedOrderSubmitted bytesToString event st
  | DelayedOrderRemoved event => handleDelayedOrderRemoved bytesToString event st
  end.

Fixpoint runMarketEvents (events : list MarketEvent) (st : Store) : option Store :=
  match events with
  | [] => Some st
  | e :: rest => st' ← handleMarketEvent e st; runMarketEvents rest st'
  end.

End MarketEvents.

(** ** Views of the handlers used by the proofs *)

(** The locals of [handlePositionModified] before its first block, the
    entities the other handlers save, and the run of a list of events. *)
Definition pmAccount (event : PME.t) (st : Store) : Address :=
  resolveAccount (PME.account event) st.

Definition pmPositionId (event : PME.t) : string :=
  positionIdOf (Ev.address (PME.base event)) (PME.id event).

Definition pmPosition0 (event : PME.t) (st : Store) : Pos.t :=
  positionOrNew event (pmAccount event st) (PME.account event)
    (resolveAccountType (PME.account event) st)
    (markets st !! toHex (Ev.address (PME.base event)))
    (positions st !! pmPositionId event).

Definition pmStat0 (event : PME.t) (st : Store) : Stat.t :=
  (statOrNew (pmAccount event st) (stats st !! toHex (pmAccount event st))
     (getOrCreateCumulativeEntity st)).1.

Definition pmCumulative0 (event : PME.t) (st : Store) : Cum.t :=
  (statOrNew (pmAccount event st) (stats st !! toHex (pmAccount event st))
     (getOrCreateCumulativeEntity st)).2.

(** The branch on the trade size, lines 194-381. *)
Definition pmBranch (event : PME.t) (st0 : Store) (fundingAccrued : BigInt)
    (positionEntity : Pos.t) (statEntity : Stat.t) (st : Store)
    : option (Pos.t * Stat.t * Cum.t * Store) :=
  let sendingAccount := PME.account event in
  let account := pmAccount event st0 in
  let accountType := resolveAccountType sendingAccount st0 in
  if negb (isZero (PME.tradeSize event)) then
    recordTrade event account sendingAccount accountType (pmPositionId event)
      (markets st0 !! toHex (Ev.address (PME.base event)))
      fundingAccrued positionEntity statEntity (pmCumulative0 event st0) st
  else
    '(positionEntity, statEntity, st) ←
      marginTransferOrLiquidation event account sendingAccount accountType
        (pmPositionId event) fundingAccrued positionEntity statEntity st;
    Some (positionEntity, statEntity, pmCumulative0 event st0, st).

(** The position [handlePositionLiquidated] saves. *)
Definition liquidatedPosition (event : PLE.t) (p : Pos.t) : Pos.t :=
  p <| Pos.isLiquidated := true |> <| Pos.isOpen := false |>
    <| Pos.closeTimestamp := Some (Ev.block_timestamp (PLE.base event)) |>
    <| Pos.feesPaid := Pos.feesPaid p + PLE.fee event |>
    <| Pos.pnl := Pos.pnl p + PLE.fee event |>
    <| Pos.pnlWithFeesPaid :=
         Pos.pnl p + PLE.fee event - (Pos.feesPaid p + PLE.fee event)
         + Pos.netFunding p |>.

Definition liquidatedStat (event : PLE.t) (s : Stat.t) : Stat.t :=
  s <| Stat.liquidations := Stat.liquidations s + 1 |>
    <| Stat.feesPaid := Stat.feesPaid s + PLE.fee event |>
    <| Stat.pnl := Stat.pnl s + PLE.fee event |>
    <| Stat.pnlWithFeesPaid :=
         Stat.pnl s + PLE.fee event - (Stat.feesPaid s + PLE.fee event) |>.

(** The funding payment [accrueFunding] emits. *)
Definition fundingPaymentOf (event : PME.t) (st : Store) (p : Pos.t) (amount : BigInt)
    : FundingPayment.t :=
  {| FundingPayment.timestamp := Ev.block_timestamp (PME.base event);
     FundingPayment.account := pmAccount event st;
     FundingPayment.positionId := pmPositionId event;
     FundingPayment.marketKey := Pos.marketKey p;
     FundingPayment.asset := Pos.asset p;
     FundingPayment.amount := amount |}.

(** The events of a list, handled in order. *)
Fixpoint runPositionModified (events : list PME.t) (st : Store) : option Store :=
  match events with
  | [] => Some st
  | event :: rest => st' ← handlePositionModified event st; runPositionModified rest st'
  end.

(** ** Predicates of the statements *)

(** A position carries its asset and its market key: the two fields are
    set, so that their getters return. A position created by an event of
    a market the store knows does; one created by an event of an
    unknown market does not (lines 122-126). *)
Definition readable (p : Pos.t) : Prop :=
  is_Some (Pos.marketKey p) ∧ is_Some (Pos.asset p).

(** The store knows the market of the event. *)
Definition ofKnownMarket (st : Store) (event : PME.t) : Prop :=
  is_Some (markets st !! toHex (Ev.address (PME.base event))).

(** When the trade branch returns: the counters it divides by are not
    zero, and the position of a known market carries its asset. *)
Definition canRecordTrade (me : option FuturesMarketEntity.t) (p : Pos.t) (c : Cum.t)
    (st : Store) : Prop :=
  Cum.totalTrades c + 1 ≠ 0
  ∧ ∀ m, me = Some m →
      Cum.totalTrades
        (getOrCreateMarketCumulativeStats (toHex (FuturesMarketEntity.asset m)) st) + 1 ≠ 0
      ∧ is_Some (Pos.marketKey p) ∧ is_Some (Pos.asset p).

(** The stores on which the handlers return for the events of known
    markets: no counter of trades is negative, and every position carries
    its asset and its market key. The empty store is one, and the
    handlers keep the property on the events of known markets. *)
Definition wellFormed (st : Store) : Prop :=
  (∀ k c, cumulativeStats st !! k = Some c → 0 ≤ Cum.totalTrades c)
  ∧ (∀ id p, positions st !! id = Some p → readable p).

(** No character of the string is a dash. *)
Fixpoint dashFree (s : string) : Prop :=
  match s with
  | EmptyString => True
  | String c rest => c ≠ "-"%char ∧ dashFree rest
  end.

(** The side of the position changes with the event. *)
Definition sideFlip (oldSize newSize : BigInt) : Prop :=
  (oldSize < 0 ∧ 0 < newSize) ∨ (0 < oldSize ∧ newSize < 0).

(** Both sizes are long, or both are short. *)
Definition sameSide (oldSize newSize : BigInt) : Prop :=
  (0 < oldSize ∧ 0 < newSize) ∨ (oldSize < 0 ∧ newSize < 0).

(** An event of position [pid] that leaves its size at [size] without a
    trade: a margin transfer or a funding update. *)
Definition keepsSize (pid : string) (size : BigInt) (event : PME.t) : Prop :=
  pmPositionId event = pid ∧ PME.tradeSize event = 0 ∧ PME.size event = size.

(** An event of position [pid] that adds its trade size to a position of
    size [oldSize] on the same side, at a price that is not negative. *)
Definition isIncrease (pid : string) (oldSize : BigInt) (event : PME.t) : Prop :=
  pmPositionId event = pid
  ∧ PME.tradeSize event ≠ 0
  ∧ sameSide oldSize (PME.size event)
  ∧ Z.abs (PME.size event) = Z.abs oldSize + Z.abs (PME.tradeSize event)
  ∧ 0 ≤ PME.lastPrice event.

(** Consecutive increases of position [pid], starting at size [oldSize]. *)
Fixpoint increases (pid : string) (oldSize : BigInt) (events : list PME.t) : Prop :=
  match events with
  | [] => True
  | event :: rest => isIncrease pid oldSize event ∧ increases pid (PME.size event) rest
  end.

(** The volume the events add, and its cost. *)
Fixpoint addedVolume (events : list PME.t) : BigInt :=
  match events with
  | [] => 0
  | event :: rest => Z.abs (PME.tradeSize event) + addedVolume rest
  end.

Fixpoint addedCost (events : list PME.t) : BigInt :=
  match events with
  | [] => 0
  | event :: rest =>
      Z.abs (PME.tradeSize event) * PME.lastPrice event + addedCost rest
  end.

(** The counters after a liquidation event of position [pid], account
    [account] and fee [fee]. *)
Definition liquidationCounted (pid : string) (account : Address) (fee : BigInt)
    (st st' : Store) : Prop :=
  (∃ c', cumulativeStats st' !! SINGLE_INDEX = Some c'
         ∧ Cum.totalLiquidations c'
           = Cum.totalLiquidations (getOrCreateCumulativeEntity st) + 1)
  ∧ (∀ p,
       positions st !! pid = Some p →
       ∃ asset,
         Pos.asset p = Some asset
         ∧ ∃ m', cumulativeStats st' !! toHex asset = Some m'
                 ∧ Cum.totalLiquidations m'
                   = Cum.totalLiquidations
                       (getOrCreateMarketCumulativeStats (toHex asset) st) + 1)
  ∧ (∀ p s,
       positions st !! pid = Some p → stats st !! toHex account = Some s →
       ∃ s', stats st' !! toHex account = Some s'
             ∧ Stat.liquidations s' = Stat.liquidations s + 1
             ∧ Stat.feesPaid s' = Stat.feesPaid s + fee
             ∧ Stat.pnl s' = Stat.pnl s + fee)
  ∧ (positions st !! pid = None → stats st' = stats st).

(** ** Scenarios *)

Definition market1 : Address := [x01].
Definition alice : Address := [xa1].
Definition hash1 : Bytes := [xff].

Definition at1 (logIndex : BigInt) : Ev.t :=
  {| Ev.address := market1; Ev.logIndex := logIndex; Ev.block_timestamp := 1000;
     Ev.transaction_hash := hash1; Ev.transaction_from := alice |}.

(** The opening event of the spec's scenario: size 10, margin 1000,
    price 100, fee 5. *)
Definition openEvent : PME.t :=
  {| PME.base := at1 1; PME.id := 7; PME.account := alice; PME.margin := 1000;
     PME.size := 10; PME.tradeSize := 10; PME.lastPrice := 100;
     PME.fundingIndex := 0; PME.fee := 5 |}.

Definition liquidationEvent : PLE.t :=
  {| PLE.base := at1 5; PLE.id := 7; PLE.account := alice; PLE.size := 10;
     PLE.fee := 3 |}.

Definition liquidationEventV2 : PLE2.t :=
  {| PLE2.base := at1 5; PLE2.id := 7; PLE2.account := alice; PLE2.size := 10;
     PLE2.flaggerFee := 1; PLE2.liquidatorFee := 1; PLE2.stakersFee := 1 |}.

(** The store after the opening event. *)
Definition openedStore : Store :=
  default emptyStore (handlePositionModified openEvent emptyStore).

(** A store that knows [market1], the sETH market. *)
Definition market1Entity : FuturesMarketEntity.t :=
  {| FuturesMarketEntity.asset := String.list_byte_of_string "sETH";
     FuturesMarketEntity.marketKey := String.list_byte_of_string "sETHPERP";
     FuturesMarketEntity.marketStats := toHex (String.list_byte_of_string "sETHPERP") |}.

Definition marketStore : Store :=
  emptyStore <| markets := {[toHex market1 := market1Entity]} |>.

(** The store after the opening event in a store that knows [market1]:
    the position carries the asset and the key of the market. *)
Definition marketOpenedStore : Store :=
  default emptyStore (handlePositionModified openEvent marketStore).

(** The second event of the spec's scenario: size 15 after a trade of 5
    at price 110. *)
Definition increaseEvent : PME.t :=
  {| PME.base := at1 2; PME.id := 7; PME.account := alice; PME.margin := 1000;
     PME.size := 15; PME.tradeSize := 5; PME.lastPrice := 110;
     PME.fundingIndex := 0; PME.fee := 0 |}.

Definition increasedStore : Store :=
  default emptyStore (handlePositionModified increaseEvent openedStore).

(** The second scenario of the spec: a margin transfer of 500 at log 3,
    then an event of log 4 with trade size, size and margin zero. *)
Definition transferEvent : MTE.t :=
  {| MTE.base := at1 3; MTE.account := alice; MTE.marginDelta := 500 |}.

Definition afterTransferEvent : PME.t :=
  {| PME.base := at1 4; PME.id := 9; PME.account := alice; PME.margin := 0;
     PME.size := 0; PME.tradeSize := 0; PME.lastPrice := 100;
     PME.fundingIndex := 0; PME.fee := 0 |}.

Definition transferredStore : Store :=
  default emptyStore (handleMarginTransferred transferEvent emptyStore).

(** Two funding checkpoints of [market1], added to the store of the
    position opened in the known market: cumulative funding 0 at index 0
    and 2 units at index 1. *)
Definition checkpoint (index funding : BigInt) : FundingRateUpdate.t :=
  {| FundingRateUpdate.timestamp := 1000; FundingRateUpdate.market := market1;
     FundingRateUpdate.sequenceLength := index; FundingRateUpdate.funding := funding;
     FundingRateUpdate.fundingRate := 0; FundingRateUpdate.asset := ZERO_ADDRESS;
     FundingRateUpdate.marketKey := ZERO_ADDRESS |}.

Definition fundedStore : Store :=
  marketOpenedStore
    <| fundingRateUpdates :=
         <[fundingRateUpdateIdOf market1 1 := checkpoint 1 (2 * ETHER)]>
           (<[fundingRateUpdateIdOf market1 0 := checkpoint 0 0]> ∅) |>.

(** An event of the open position at funding index 1. *)
Definition fundingEvent : PME.t :=
  {| PME.base := at1 2; PME.id := 7; PME.account := alice; PME.margin := 1000;
     PME.size := 10; PME.tradeSize := 0; PME.lastPrice := 100;
     PME.fundingIndex := 1; PME.fee := 0 |}.

Definition afterFundingStore : Store :=
  default emptyStore (handlePositionModified fundingEvent fundedStore).

(** A liquidation event of a position that was never recorded (id 8),
    for the trader whose stats entity exists. *)
Definition strayLiquidationEvent : PLE.t :=
  {| PLE.base := at1 5; PLE.id := 8; PLE.account := alice; PLE.size := 10;
     PLE.fee := 3 |}.

(** [Bytes.toString] on ASCII bytes. *)
Definition asciiToString (b : Bytes) : string := String.string_of_list_byte b.

(** A second trader. *)
Definition carol : Address := [xc1].

Definition submitEvent (account : Address) : DOS.t :=
  {| DOS.base := at1 0; DOS.account := account; DOS.isOffchain := true;
     DOS.sizeDelta := 10; DOS.targetRoundId := 3 |}.

(** The removal of the order of [account] in the log after [openEvent],
    the trade of [alice]. *)
Definition removeEvent (account : Address) : DOR.t :=
  {| DOR.base := at1 2; DOR.account := account; DOR.targetRoundId := 3;
     DOR.keeperDeposit := 1; DOR.trackingCode := String.list_byte_of_string "KWENTA" |}.

(** The order of [account] is submitted, then [alice] trades. *)
Definition tradedStore (account : Address) : Store :=
  default emptyStore
    (st ← handleDelayedOrderSubmitted asciiToString (submitEvent account) marketStore;
     handlePositionModified openEvent st).

(** The precursor of the liquidation of the position opened by
    [openEvent], at log 4 before [liquidationEvent], with a fee. *)
Definition precursorEvent (fee : BigInt) : PME.t :=
  {| PME.base := at1 4; PME.id := 7; PME.account := alice; PME.margin := 0;
     PME.size := 0; PME.tradeSize := 0; PME.lastPrice := 90;
     PME.fundingIndex := 0; PME.fee := fee |}.

(** A round trip at the 18-decimal scale: 10 units opened at 100, a
    margin-only event, and the close at 120. *)
Definition unitOpenEvent : PME.t :=
  {| PME.base := at1 1; PME.id := 11; PME.account := alice;
     PME.margin := 1000 * ETHER; PME.size := 10 * ETHER; PME.tradeSize := 10 * ETHER;
     PME.lastPrice := 100 * ETHER; PME.fundingIndex := 0; PME.fee := 5 * ETHER |}.

Definition unitTouchEvent : PME.t :=
  {| PME.base := at1 2; PME.id := 11; PME.account := alice;
     PME.margin := 1500 * ETHER; PME.size := 10 * ETHER; PME.tradeSize := 0;
     PME.lastPrice := 110 * ETHER; PME.fundingIndex := 0; PME.fee := 0 |}.

Definition unitCloseEvent : PME.t :=
  {| PME.base := at1 3; PME.id := 11; PME.account := alice;
     PME.margin := 1700 * ETHER; PME.size := 0; PME.tradeSize := -10 * ETHER;
     PME.lastPrice := 120 * ETHER; PME.fundingIndex := 0; PME.fee := 5 * ETHER |}.

Definition unitOpenedStore : Store :=
  default emptyStore (handlePositionModified unitOpenEvent emptyStore).

Definition unitTouchedStore : Store :=
  default emptyStore (runPositionModified [unitTouchEvent] unitOpenedStore).

Definition unitClosedStore : Store :=
  default emptyStore (handlePositionModified unitCloseEvent unitTouchedStore).

(** One unit opened at 100 and one wei, then two units added at 110,
    in two events or in one. *)
Definition splitOpenEvent : PME.t :=
  {| PME.base := at1 1; PME.id := 12; PME.account := alice;
     PME.margin := 1000 * ETHER; PME.size := 1 * ETHER; PME.tradeSize := 1 * ETHER;
     PME.lastPrice := 100 * ETHER + 1; PME.fundingIndex := 0; PME.fee := 0 |}.

Definition addEvent (logIndex newSize tradeSize : BigInt) : PME.t :=
  {| PME.base := at1 logIndex; PME.id := 12; PME.account := alice;
     PME.margin := 1000 * ETHER; PME.size := newSize; PME.tradeSize := tradeSize;
     PME.lastPrice := 110 * ETHER; PME.fundingIndex := 0; PME.fee := 0 |}.

Definition splitOpenedStore : Store :=
  default emptyStore (handlePositionModified splitOpenEvent emptyStore).

Definition inTwoSteps : list PME.t :=
  [addEvent 2 (2 * ETHER) (1 * ETHER); addEvent 3 (3 * ETHER) (1 * ETHER)].

Definition inOneStep : list PME.t := [addEvent 2 (3 * ETHER) (2 * ETHER)].

Definition inTwoStepsStore : Store :=
  default emptyStore (runPositionModified inTwoSteps splitOpenedStore).

(** ** Views and scenarios of the further properties *)

(** The aggregate row [new] is the row [old] after one rollup of the
    deltas for an account of the given type. *)
Definition rolledUp (accountType : AccountType)
    (trades volume feesSynthetix feesKwenta : BigInt)
    (old new : FuturesAggregateStat.t) : Prop :=
  FuturesAggregateStat.trades new = FuturesAggregateStat.trades old + trades
  ∧ FuturesAggregateStat.volume new = FuturesAggregateStat.volume old + volume
  ∧ FuturesAggregateStat.feesSynthetix new
    = FuturesAggregateStat.feesSynthetix old + feesSynthetix
  ∧ FuturesAggregateStat.feesKwenta new = FuturesAggregateStat.feesKwenta old + feesKwenta
  ∧ FuturesAggregateStat.feesCrossMarginAccounts new
    = FuturesAggregateStat.feesCrossMarginAccounts old
      + (if decide (accountType = smart_margin) then feesSynthetix + feesKwenta else 0)
  ∧ FuturesAggregateStat.period new = FuturesAggregateStat.period old
  ∧ FuturesAggregateStat.timestamp new = FuturesAggregateStat.timestamp old
  ∧ FuturesAggregateStat.marketKey new = FuturesAggregateStat.marketKey old
  ∧ FuturesAggregateStat.asset new = FuturesAggregateStat.asset old.

(** The row a funding checkpoint creates for a period type and a bucket. *)
Definition freshPeriod (rate : FundingRateUpdate.t) (periodType : string) (start : BigInt)
    : FundingRatePeriod.t :=
  {| FundingRatePeriod.fundingRate := FundingRateUpdate.fundingRate rate;
     FundingRatePeriod.asset := FundingRateUpdate.asset rate;
     FundingRatePeriod.marketKey := FundingRateUpdate.marketKey rate;
     FundingRatePeriod.period := periodType;
     FundingRatePeriod.timestamp := start |}.

(** The entity of the checkpoint [handleFundingRecomputed] saves. *)
Definition checkpointOf (event : FRE.t) (marketEntity : option FuturesMarketEntity.t)
    : FundingRateUpdate.t :=
  {| FundingRateUpdate.timestamp := FRE.timestamp event;
     FundingRateUpdate.market := Ev.address (FRE.base event);
     FundingRateUpdate.sequenceLength := FRE.index event;
     FundingRateUpdate.funding := FRE.funding event;
     FundingRateUpdate.fundingRate := FRE.fundingRate event;
     FundingRateUpdate.asset :=
       match marketEntity with
       | Some m => FuturesMarketEntity.asset m
       | None => ZERO_ADDRESS
       end;
     FundingRateUpdate.marketKey :=
       match marketEntity with
       | Some m => FuturesMarketEntity.marketKey m
       | None => ZERO_ADDRESS
       end |}.

(** [MarketAdded] for [market1], the sETH market, and the events of two
    funding checkpoints of it; the two arrays of funding-rate periods of
    the scenarios. *)
Definition addMarket1 : MAE.t :=
  {| MAE.base := at1 0; MAE.market := market1;
     MAE.asset := String.list_byte_of_string "sETH";
     MAE.marketKey := String.list_byte_of_string "sETHPERP" |}.

Definition recomputeEvent (index funding rate timestamp : BigInt) : FRE.t :=
  {| FRE.base := at1 0; FRE.funding := funding; FRE.fundingRate := rate;
     FRE.index := index; FRE.timestamp := timestamp |}.

Definition twoPeriods : list BigInt := [3600; 86400].
Definition twoPeriodTypes : list string := ["hour"; "day"].

Definition market1Subgraph : Subgraph :=
  default emptySubgraph (handleV2MarketAdded asciiToString addMarket1 emptySubgraph).

(** A checkpoint of [market1] at index 1, recorded by the handler with
    the two periods of the scenarios, and one of index 0 before it. *)
Definition checkpointedSubgraph : Subgraph :=
  default emptySubgraph
    (handleFundingRecomputed asciiToString twoPeriods twoPeriodTypes
       (recomputeEvent 1 (2 * ETHER) 7 90061) market1Subgraph).

(** The position of [openEvent] at funding index 0, opened in the known
    market [market1], the checkpoints of the indices 0 and 1 recorded by
    the handler, and the event of [fundingEvent] at index 1. *)
Definition openedSubgraph : Subgraph :=
  emptySubgraph <| entities := marketOpenedStore |>.

Definition recomputedSubgraph0 : Subgraph :=
  default emptySubgraph
    (handleFundingRecomputed asciiToString twoPeriods twoPeriodTypes
       (recomputeEvent 0 0 0 1000) openedSubgraph).

Definition recomputedSubgraph1 : Subgraph :=
  default emptySubgraph
    (handleFundingRecomputed asciiToString twoPeriods twoPeriodTypes
       (recomputeEvent 1 (2 * ETHER) 7 1000) recomputedSubgraph0).

Definition afterRecomputedFundingStore : Store :=
  default emptyStore (handlePositionModified fundingEvent (entities recomputedSubgraph1)).

(** The volume of the trade of an event: [|tradeSize * lastPrice / ETHER|]. *)
Definition tradeVolume (event : PME.t) : BigInt :=
  Z.abs (Z.quot (PME.tradeSize event * PME.lastPrice event) ETHER).

(** The cumulative entity [new] is [old] after one more trade of the
    given volume. *)
Definition tradeCounted (volume : BigInt) (old new : Cum.t) : Prop :=
  Cum.totalTrades new = Cum.totalTrades old + 1
  ∧ Cum.totalVolume new = Cum.totalVolume old + volume
  ∧ Cum.averageTradeSize new
    = Z.quot (Cum.totalVolume old + volume) (Cum.totalTrades old + 1)
  ∧ Cum.totalLiquidations new = Cum.totalLiquidations old
  ∧ Cum.totalTraders new = Cum.totalTraders old.

(** The position of [unitOpenEvent] reduced to 4 units at price 110, or
    flipped to a short of 5 units at price 110. *)
Definition reduceEvent : PME.t :=
  {| PME.base := at1 2; PME.id := 11; PME.account := alice; PME.margin := 1000 * ETHER;
     PME.size := 4 * ETHER; PME.tradeSize := -6 * ETHER; PME.lastPrice := 110 * ETHER;
     PME.fundingIndex := 0; PME.fee := 0 |}.

Definition unitFlipEvent : PME.t :=
  {| PME.base := at1 2; PME.id := 11; PME.account := alice; PME.margin := 1000 * ETHER;
     PME.size := -5 * ETHER; PME.tradeSize := -15 * ETHER; PME.lastPrice := 110 * ETHER;
     PME.fundingIndex := 0; PME.fee := 0 |}.

Definition unitFlippedStore : Store :=
  default emptyStore (handlePositionModified unitFlipEvent unitOpenedStore).

Definition unitReducedStore : Store :=
  default emptyStore (handlePositionModified reduceEvent unitOpenedStore).

(** The first trade of [market1] after it was added. *)
Definition market1TradedStore : Store :=
  default emptyStore (handlePositionModified openEvent (entities market1Subgraph)).

(** The margin account a [MarginTransferred] event loads or creates. *)
Definition marginAccountOrNew (event : MTE.t) (st : Store) : FuturesMarginAccount.t :=
  match marginAccounts st
          !! marginAccountIdOf (MTE.account event) (Ev.address (MTE.base event)) with
  | Some marginAccountEntity => marginAccountEntity
  | None =>
      {| FuturesMarginAccount.timestamp := Ev.block_timestamp (MTE.base event);
         FuturesMarginAccount.account := MTE.account event;
         FuturesMarginAccount.market := Ev.address (MTE.base event);
         FuturesMarginAccount.margin := ZERO;
         FuturesMarginAccount.deposits := ZERO;
         FuturesMarginAccount.withdrawals := ZERO;
         FuturesMarginAccount.asset :=
           FuturesMarketEntity.asset
             <$> markets st !! toHex (Ev.address (MTE.base event)) |}
  end.

(** Two transfers of [alice] in [market1] after the market was added. *)
Definition secondTransferEvent : MTE.t :=
  {| MTE.base := at1 6; MTE.account := alice; MTE.marginDelta := -200 |}.

Definition market1TransferredStore : Store :=
  default emptyStore (handleMarginTransferred transferEvent (entities market1Subgraph)).

Definition market1TransferredTwiceStore : Store :=
  default emptyStore (handleMarginTransferred secondTransferEvent market1TransferredStore).

(** The store after [transferEvent] and the event of the next log. *)
Definition afterTransferStore : Store :=
  default emptyStore (handlePositionModified afterTransferEvent transferredStore).

(** The trade [handlePositionLiquidated] saves. *)
Definition liquidatedTrade (event : PLE.t) (t : Trade.t) : Trade.t :=
  t <| Trade.size := PLE.size event * -1 |> <| Trade.positionSize := ZERO |>
    <| Trade.feesPaid := Trade.feesPaid t + PLE.fee event |>
    <| Trade.pnl := Trade.pnl t + PLE.fee event |>.

(** The liquidation of the position of [openEvent], opened in the known
    market [market1], after its precursor without fee, in the next log
    of the transaction. *)
Definition precursorStore : Store :=
  default emptyStore (handlePositionModified (precursorEvent 0) marketOpenedStore).

Definition liquidatedStore : Store :=
  default emptyStore (handlePositionLiquidated liquidationEvent precursorStore).

(** The order type a filled order leaves on its trade: the type of the
    smart-margin order of the sender when one is pending with a type,
    the type of the order otherwise. *)
Definition filledOrderType (smartMarginOrderEntity : option SmartMarginOrder.t)
    (futuresOrderEntity : FuturesOrder.t) : string :=
  match smartMarginOrderEntity with
  | Some smartMarginOrderEntity =>
      match SmartMarginOrder.recordTrade smartMarginOrderEntity,
            SmartMarginOrder.orderType smartMarginOrderEntity with
      | true, Some orderType => orderType
      | _, _ => FuturesOrder.orderType futuresOrderEntity
      end
  | None => FuturesOrder.orderType futuresOrderEntity
  end.

(** The removal of the order of [account] by a transaction of [keeper],
    in the log after [openEvent]. *)
Definition keeperRemoveEvent (account keeper : Address) : DOR.t :=
  {| DOR.base :=
       {| Ev.address := market1; Ev.logIndex := 2; Ev.block_timestamp := 1000;
          Ev.transaction_hash := hash1; Ev.transaction_from := keeper |};
     DOR.account := account; DOR.targetRoundId := 3;
     DOR.keeperDeposit := 1; DOR.trackingCode := String.list_byte_of_string "KWENTA" |}.

Definition keeperFilledStore : Store :=
  default emptyStore
    (handleDelayedOrderRemoved asciiToString (keeperRemoveEvent alice carol)
       (tradedStore alice)).

Definition submittedStore : Store :=
  default emptyStore
    (handleDelayedOrderSubmitted asciiToString (submitEvent alice) marketStore).

Definition cancelledStore : Store :=
  default emptyStore
    (handleDelayedOrderRemoved asciiToString (removeEvent alice) submittedStore).

(** [PositionModified] as [handlePositionModifiedV2] hands it on. *)
Definition withoutSkew (event : PositionModifiedV2Event.t) : PME.t :=
  {| PME.base := PositionModifiedV2Event.base event;
     PME.id := PositionModifiedV2Event.id event;
     PME.account := PositionModifiedV2Event.account event;
     PME.margin := PositionModifiedV2Event.margin event;
     PME.size := PositionModifiedV2Event.size event;
     PME.tradeSize := PositionModifiedV2Event.tradeSize event;
     PME.lastPrice := PositionModifiedV2Event.lastPrice event;
     PME.fundingIndex := PositionModifiedV2Event.fundingIndex event;
     PME.fee := PositionModifiedV2Event.fee event |}.

(** [PositionLiquidated] with the three fees of the newer event summed. *)
Definition withTotalFee (event : PLE2.t) : PLE.t :=
  {| PLE.base := PLE2.base event; PLE.id := PLE2.id event;
     PLE.account := PLE2.account event; PLE.size := PLE2.size event;
     PLE.fee := PLE2.flaggerFee event + PLE2.liquidatorFee event
                + PLE2.stakersFee event |}.

(** An event of a position, of either version, comes from a market the
    store knows; the other events are not restricted. *)
Definition fromKnownMarket (st : Store) (e : MarketEvent) : Prop :=
  match e with
  | PositionModified event => ofKnownMarket st event
  | PositionModifiedV2 event => ofKnownMarket st (withoutSkew event)
  | _ => True
  end.

(** A stats entity whose smart-margin volume is a part of its volume. *)
Definition volumesInOrder (s : Stat.t) : Prop :=
  0 ≤ Stat.smartMarginVolume s ≤ Stat.totalVolume s.

(** A cumulative entity whose average trade size is its volume divided
    by its trades, and zero before the first trade. *)
Definition averageInOrder (c : Cum.t) : Prop :=
  0 ≤ Cum.totalTrades c ∧ 0 ≤ Cum.totalVolume c
  ∧ Cum.averageTradeSize c
    = if decide (Cum.totalTrades c = 0) then 0
      else Z.quot (Cum.totalVolume c) (Cum.totalTrades c).

(** The entity of a key counts no more trades, volume and liquidations
    than the entity of all markets. *)
Definition withinGlobal (st : Store) (k : string) : Prop :=
  let c := getOrCreateMarketCumulativeStats k st in
  let g := getOrCreateCumulativeEntity st in
  Cum.totalTrades c ≤ Cum.totalTrades g
  ∧ Cum.totalVolume c ≤ Cum.totalVolume g
  ∧ Cum.totalLiquidations c ≤ Cum.totalLiquidations g.

(** The counters of a cumulative entity moved by a number of trades, a
    volume and a number of liquidations; the average is kept when no
    trade is added and taken again when one is. *)
Definition bumped (trades volume liquidations : BigInt) (old new : Cum.t) : Prop :=
  Cum.totalTrades new = Cum.totalTrades old + trades
  ∧ Cum.totalVolume new = Cum.totalVolume old + volume
  ∧ Cum.totalLiquidations new = Cum.totalLiquidations old + liquidations
  ∧ Cum.averageTradeSize new
    = if decide (trades = 0) then Cum.averageTradeSize old
      else Z.quot (Cum.totalVolume old + volume) (Cum.totalTrades old + trades).

(** What one event does to the cumulative entities: the entity of all
    markets moves by some counts, and the entity of any other key by
    the same counts or by none. *)
Definition cumulativeStep (st st' : Store) : Prop :=
  ∃ dt dv dl,
    0 ≤ dt ∧ 0 ≤ dv ∧ 0 ≤ dl ∧ (dt = 0 → dv = 0)
    ∧ bumped dt dv dl (getOrCreateCumulativeEntity st) (getOrCreateCumulativeEntity st')
    ∧ ∀ k,
        bumped dt dv dl (getOrCreateMarketCumulativeStats k st)
          (getOrCreateMarketCumulativeStats k st')
        ∨ bumped 0 0 0 (getOrCreateMarketCumulativeStats k st)
            (getOrCreateMarketCumulativeStats k st').

(** What one event does to the stats entities: a saved entity has the
    volumes of the stored one, or none, and a trade on top of them, the
    smart-margin volume of which is a part. *)
Definition statsStep (st st' : Store) : Prop :=
  ∀ k s',
    stats st' !! k = Some s' →
    ∃ dv dsv,
      0 ≤ dsv ≤ dv
      ∧ ((∃ s, stats st !! k = Some s
               ∧ Stat.totalVolume s' = Stat.totalVolume s + dv
               ∧ Stat.smartMarginVolume s' = Stat.smartMarginVolume s + dsv)
         ∨ (Stat.totalVolume s' = dv ∧ Stat.smartMarginVolume s' = dsv)).

(** A day in [market1] at the 18-decimal scale. [alice] submits an
    order and opens ten units at 100, a keeper removes the order, she
    deposits, a smart-margin account of hers opens two units at 50, she
    sells six of the ten at 110 and is liquidated. *)
Definition smartAccount1 : Address := [xb1].

Definition smartStore : Store :=
  marketStore
    <| smartMarginAccounts := {[toHex smartAccount1 := SmartMarginAccount.mk alice]} |>.

Definition smartOpenEvent : PositionModifiedV2Event.t :=
  {| PositionModifiedV2Event.base := at1 5; PositionModifiedV2Event.id := 13;
     PositionModifiedV2Event.account := smartAccount1;
     PositionModifiedV2Event.margin := 100 * ETHER;
     PositionModifiedV2Event.size := 2 * ETHER;
     PositionModifiedV2Event.tradeSize := 2 * ETHER;
     PositionModifiedV2Event.lastPrice := 50 * ETHER;
     PositionModifiedV2Event.fundingIndex := 0;
     PositionModifiedV2Event.fee := 1 * ETHER;
     PositionModifiedV2Event.skew := 0 |}.

Definition sellEvent : PME.t :=
  {| PME.base := at1 6; PME.id := 11; PME.account := alice; PME.margin := 1000 * ETHER;
     PME.size := 4 * ETHER; PME.tradeSize := -6 * ETHER; PME.lastPrice := 110 * ETHER;
     PME.fundingIndex := 0; PME.fee := 0 |}.

Definition seizedEvent : PME.t :=
  {| PME.base := at1 7; PME.id := 11; PME.account := alice; PME.margin := 0;
     PME.size := 0; PME.tradeSize := 0; PME.lastPrice := 90 * ETHER;
     PME.fundingIndex := 0; PME.fee := 0 |}.

Definition unitLiquidationEvent : PLE2.t :=
  {| PLE2.base := at1 8; PLE2.id := 11; PLE2.account := alice; PLE2.size := 4 * ETHER;
     PLE2.flaggerFee := 1 * ETHER; PLE2.liquidatorFee := 1 * ETHER;
     PLE2.stakersFee := 1 * ETHER |}.

Definition tradingDay : list MarketEvent :=
  [DelayedOrderSubmitted (submitEvent alice); PositionModified unitOpenEvent;
   DelayedOrderRemoved (keeperRemoveEvent alice carol);
   MarginTransferred transferEvent; PositionModified afterTransferEvent;
   PositionModifiedV2 smartOpenEvent; PositionModified sellEvent;
   PositionModified seizedEvent; PositionLiquidatedV2 unitLiquidationEvent].

Definition tradingDayStore : Store :=
  default emptyStore (runMarketEvents asciiToString tradingDay smartStore).

(** * Properties *)

Arguments toHex : simpl never.
Arguments bigIntToHex : simpl never.
Arguments toString : simpl never.
Arguments positionIdOf : simpl never.
Arguments tradeIdOf : simpl never.
Arguments marginTransferIdOf : simpl never.
Arguments fundingRateUpdateIdOf : simpl never.
Arguments fundingPaymentIdOf : simpl never.
Arguments marginAccountIdOf : simpl never.
Arguments aggregateStatId : simpl never.
Arguments ETHER : simpl never.
Arguments ZERO_ADDRESS : simpl never.
Arguments Z.mul : simpl never.
Arguments Z.add : simpl never.
Arguments Z.sub : simpl never.
Arguments Z.quot : simpl never.
Arguments Z.rem : simpl never.
Arguments Z.abs : simpl never.

(** ** Arithmetic of [BigInt] *)

Lemma div_Some x y : y ≠ 0 → div x y = Some (Z.quot x y).
Proof. intros Hy. unfold div. by rewrite bool_decide_eq_false_2. Qed.

Lemma div_ETHER x : div x ETHER = Some (Z.quot x ETHER).
Proof. by apply div_Some. Qed.

Lemma div_inv x y q : div x y = Some q → y ≠ 0 ∧ q = Z.quot x y.
Proof. unfold div. case_bool_decide; naive_solver. Qed.

Lemma mod_Some x y : y ≠ 0 → mod_ x y = Some (Z.rem x y).
Proof. intros Hy. unfold mod_. by rewrite bool_decide_eq_false_2. Qed.

Lemma isZero_true x : isZero x = true ↔ x = 0.
Proof. unfold isZero. by rewrite bool_decide_eq_true. Qed.

Lemma isZero_false x : isZero x = false ↔ x ≠ 0.
Proof. unfold isZero. by rewrite bool_decide_eq_false. Qed.

Lemma gt_true x y : gt x y = true ↔ y < x.
Proof. unfold gt. by rewrite bool_decide_eq_true. Qed.

Lemma gt_false x y : gt x y = false ↔ x ≤ y.
Proof. unfold gt. rewrite bool_decide_eq_false. lia. Qed.

Lemma lt_true x y : lt x y = true ↔ x < y.
Proof. unfold lt. by rewrite bool_decide_eq_true. Qed.

Lemma lt_false x y : lt x y = false ↔ y ≤ x.
Proof. unfold lt. rewrite bool_decide_eq_false. lia. Qed.

(** ** Ids *)

(** The id of the global cumulative entity is the id of no market: every
    [toHex] starts with the prefix. *)
Lemma toHex_not_SINGLE_INDEX (b : Bytes) : toHex b ≠ SINGLE_INDEX.
Proof. unfold toHex, SINGLE_INDEX. cbn. discriminate. Qed.

(** ** The structure of [handlePositionModified] *)

Lemma handlePositionModified_unfold event st :
  handlePositionModified event st =
    '(fundingAccrued, positionEntity, statEntity, st1) ←
      accrueFunding event (pmAccount event st) (pmPositionId event)
        (pmPosition0 event st) (pmStat0 event st) st;
    '(positionEntity, statEntity, cumulativeEntity, st2) ←
      pmBranch event st fundingAccrued positionEntity statEntity st1;
    Some (updateGlobalValues event (PME.account event) (pmAccount event st)
            (pmPositionId event)
            (marginAccounts st
               !! marginAccountIdOf (PME.account event) (Ev.address (PME.base event)))
            positionEntity statEntity cumulativeEntity st2).
Proof.
  unfold handlePositionModified, pmBranch, pmPosition0, pmStat0, pmCumulative0,
    pmAccount, pmPositionId.
  destruct (statOrNew _ _ _) as [s c]. reflexivity.
Qed.

Lemma handlePositionModified_inv event st st' :
  handlePositionModified event st = Some st' →
  ∃ fundingAccrued p1 s1 st1 p2 s2 c2 st2,
    accrueFunding event (pmAccount event st) (pmPositionId event)
      (pmPosition0 event st) (pmStat0 event st) st = Some (fundingAccrued, p1, s1, st1)
    ∧ pmBranch event st fundingAccrued p1 s1 st1 = Some (p2, s2, c2, st2)
    ∧ st' = updateGlobalValues event (PME.account event) (pmAccount event st)
              (pmPositionId event)
              (marginAccounts st
                 !! marginAccountIdOf (PME.account event) (Ev.address (PME.base event)))
              p2 s2 c2 st2.
Proof.
  rewrite handlePositionModified_unfold. intros H.
  destruct (accrueFunding _ _ _ _ _ _) as [[[[fa p1] s1] st1]|] eqn:Hf; [|done].
  cbn in H.
  destruct (pmBranch _ _ _ _ _ _) as [[[[p2 s2] c2] st2]|] eqn:Hb; [|done].
  cbn in H. injection H as <-. by eexists _, _, _, _, _, _, _, _.
Qed.

Lemma updateGlobalValues_positions event sa acc pid ma p s c st :
  positions (updateGlobalValues event sa acc pid ma p s c st)
  = <[pid := updatePositionValues event p]> (positions st).
Proof. unfold updateGlobalValues. by destruct ma. Qed.

Lemma updateGlobalValues_stats event sa acc pid ma p s c st :
  stats (updateGlobalValues event sa acc pid ma p s c st)
  = <[toHex acc := updateStatValues event s]> (stats st).
Proof. unfold updateGlobalValues. by destruct ma. Qed.

Lemma updateGlobalValues_cumulativeStats event sa acc pid ma p s c st :
  cumulativeStats (updateGlobalValues event sa acc pid ma p s c st)
  = <[SINGLE_INDEX := c]> (cumulativeStats st).
Proof. unfold updateGlobalValues. by destruct ma. Qed.

Lemma updateGlobalValues_trades event sa acc pid ma p s c st :
  trades (updateGlobalValues event sa acc pid ma p s c st) = trades st.
Proof. unfold updateGlobalValues. by destruct ma. Qed.

Lemma updateGlobalValues_fundingPayments event sa acc pid ma p s c st :
  fundingPayments (updateGlobalValues event sa acc pid ma p s c st) = fundingPayments st.
Proof. unfold updateGlobalValues. by destruct ma. Qed.

(** What [accrueFunding] does, by cases on the two checkpoints. *)
Lemma accrueFunding_inv event acc pid p s st fa p1 s1 st1 :
  accrueFunding event acc pid p s st = Some (fa, p1, s1, st1) →
  let past :=
    fundingRateUpdates st
      !! fundingRateUpdateIdOf (Ev.address (PME.base event)) (Pos.fundingIndex p) in
  let current :=
    fundingRateUpdates st
      !! fundingRateUpdateIdOf (Ev.address (PME.base event)) (PME.fundingIndex event) in
  ((Pos.fundingIndex p = PME.fundingIndex event ∨ past = None ∨ current = None)
   ∧ fa = 0 ∧ p1 = p ∧ s1 = s ∧ st1 = st)
  ∨ (∃ pastFundingEntity currentFundingEntity,
       Pos.fundingIndex p ≠ PME.fundingIndex event
       ∧ past = Some pastFundingEntity ∧ current = Some currentFundingEntity
       ∧ fa = Z.quot ((FundingRateUpdate.funding currentFundingEntity
                       - FundingRateUpdate.funding pastFundingEntity) * Pos.size p) ETHER
       ∧ p1 = p <| Pos.netFunding := Pos.netFunding p + fa |>
                <| Pos.fundingIndex := PME.fundingIndex event |>
       ∧ s1 = s <| Stat.feesPaid := Stat.feesPaid s - fa |>
       ∧ st1 = if bool_decide (fa ≠ 0)
               then saveFundingPayment
                      (fundingPaymentIdOf pid (Ev.transaction_hash (PME.base event))
                         (Ev.logIndex (PME.base event)))
                      {| FundingPayment.timestamp := Ev.block_timestamp (PME.base event);
                         FundingPayment.account := acc;
                         FundingPayment.positionId := pid;
                         FundingPayment.marketKey := Pos.marketKey p;
                         FundingPayment.asset := Pos.asset p;
                         FundingPayment.amount := fa |} st
               else st).
Proof.
  intros H past current. unfold accrueFunding in H.
  case_bool_decide as Hidx.
  - cbv zeta in H. fold past current in H.
    destruct past as [pf|] eqn:Hp, current as [cf|] eqn:Hc;
      try (injection H as <- <- <- <-; left; naive_solver).
    rewrite div_ETHER in H. cbn [mbind option_bind] in H.
    set (fa0 := Z.quot _ ETHER) in H.
    assert (gt (Z.abs fa0) ZERO = bool_decide (fa0 ≠ 0)) as Hgt.
    { unfold gt, ZERO. case_bool_decide; case_bool_decide; try done; lia. }
    rewrite Hgt in H. right. exists pf, cf.
    destruct (bool_decide (fa0 ≠ 0)) eqn:Hb.
    + destruct (Pos.marketKey p) as [marketKey|]; [|done].
      destruct (Pos.asset p) as [asset|]; [|done].
      cbn in H. injection H as <- <- <- <-. rewrite Hb. repeat split; done.
    + cbn in H. injection H as <- <- <- <-. rewrite Hb. repeat split; done.
  - injection H as <- <- <- <-. left. split; [left|done].
    by destruct (decide (Pos.fundingIndex p = PME.fundingIndex event)).
Qed.

(** A funding payment is written from the market key and the asset of the
    position: when funding accrues, the position carries them. *)
Lemma accrueFunding_reads event acc pid p s st fa p1 s1 st1 :
  accrueFunding event acc pid p s st = Some (fa, p1, s1, st1) →
  fa ≠ 0 → readable p.
Proof.
  intros H Hfa. unfold accrueFunding in H.
  case_bool_decide as Hidx; [|by injection H as <- <- <- <-].
  cbv zeta in H.
  destruct (fundingRateUpdates st !! _) as [pf|];
    [|by injection H as <- <- <- <-].
  destruct (fundingRateUpdates st !! _) as [cf|];
    [|by injection H as <- <- <- <-].
  rewrite div_ETHER in H. cbn [mbind option_bind] in H.
  set (fa0 := Z.quot _ ETHER) in H.
  destruct (gt (Z.abs fa0) ZERO) eqn:Hgt.
  - destruct (Pos.marketKey p) as [marketKey|] eqn:Hk; [|done].
    destruct (Pos.asset p) as [asset|] eqn:Ha; [|done].
    split; by eexists.
  - cbn in H. injection H as <- <- <- <-.
    unfold gt, ZERO in Hgt. apply bool_decide_eq_false in Hgt. lia.
Qed.

(** [accrueFunding] returns when the position carries its asset and its
    market key, and when the funding index of the position is the one of
    the event. *)
Lemma accrueFunding_returns event acc pid p s st :
  readable p ∨ Pos.fundingIndex p = PME.fundingIndex event →
  is_Some (accrueFunding event acc pid p s st).
Proof.
  intros Hr. unfold accrueFunding. case_bool_decide as Hidx; [|done].
  destruct Hr as [[[marketKey Hk] [asset Ha]]|Hr]; [|done].
  rewrite Hk, Ha. repeat case_match; rewrite ?div_ETHER; cbn; by repeat case_match.
Qed.

(** ** Frames: the tables a block leaves alone *)

Lemma Store_eta_id (st : Store) : Store_eta st = st.
Proof. by destruct st. Qed.

Lemma forEachPeriod_frame (body : BigInt → Store → option Store) periods :
  (∀ q st st', body q st = Some st' →
     st' = st <| aggregateStats := aggregateStats st' |>) →
  ∀ st st', forEachPeriod body periods st = Some st' →
    st' = st <| aggregateStats := aggregateStats st' |>.
Proof.
  intros Hbody. induction periods as [|q periods IH]; intros st st' H; cbn in H.
  - injection H as <-. by destruct st.
  - destruct (body q st) as [st1|] eqn:Hq; [|done]. cbn in H.
    apply Hbody in Hq. apply IH in H. rewrite H, Hq. by destruct st.
Qed.

Lemma updateAggregateStatPeriod_frame at_ mk_ asset ts tr vol fs fk q st st' :
  updateAggregateStatPeriod at_ mk_ asset ts tr vol fs fk q st = Some st' →
  st' = st <| aggregateStats := aggregateStats st' |>.
Proof.
  intros H. unfold updateAggregateStatPeriod in H.
  destruct (getTimeID ts q) as [agg|]; [|done].
  cbn [mbind option_bind] in H. apply (inj Some) in H. by rewrite <- H.
Qed.

Lemma updateAggregateStatEntities_frame at_ mk_ asset ts tr vol fs fk st st' :
  updateAggregateStatEntities at_ mk_ asset ts tr vol fs fk st = Some st' →
  st' = st <| aggregateStats := aggregateStats st' |>.
Proof.
  apply forEachPeriod_frame. intros q s s'. apply updateAggregateStatPeriod_frame.
Qed.

Lemma updateAggregateStatPeriod_total at_ mk_ asset ts tr vol fs fk q st :
  q ≠ 0 → is_Some (updateAggregateStatPeriod at_ mk_ asset ts tr vol fs fk q st).
Proof.
  intros Hq. unfold updateAggregateStatPeriod, getTimeID.
  rewrite mod_Some by done. by eexists.
Qed.

Lemma forEachPeriod_total (body : BigInt → Store → option Store) periods :
  (∀ q st, q ∈ periods → is_Some (body q st)) →
  ∀ st, is_Some (forEachPeriod body periods st).
Proof.
  induction periods as [|q periods IH]; intros Hbody st; cbn; [done|].
  destruct (Hbody q st) as [st1 ->]; [left|]. cbn.
  apply IH. intros q' st' Hq'. apply Hbody. by right.
Qed.

(** The aggregation periods are not zero: the rollup always returns. *)
Lemma updateAggregateStatEntities_total at_ mk_ asset ts tr vol fs fk st :
  is_Some (updateAggregateStatEntities at_ mk_ asset ts tr vol fs fk st).
Proof.
  apply forEachPeriod_total. intros q s Hq.
  apply updateAggregateStatPeriod_total.
  unfold AGG_PERIODS in Hq.
  apply elem_of_cons in Hq as [->|Hq]; [done|].
  by apply list_elem_of_singleton in Hq as ->.
Qed.

Lemma accrueFunding_frame event acc pid p s st fa p1 s1 st1 :
  accrueFunding event acc pid p s st = Some (fa, p1, s1, st1) →
  st1 = st <| fundingPayments := fundingPayments st1 |>.
Proof.
  intros H. apply accrueFunding_inv in H as [(_ & _ & _ & _ & ->)|H].
  - by destruct st.
  - destruct H as (pf & cf & _ & _ & _ & _ & _ & _ & ->).
    case_bool_decide; by destruct st.
Qed.

(** What [accrueFunding] never touches. *)
Lemma accrueFunding_preserved event acc pid p s st fa p1 s1 st1 :
  accrueFunding event acc pid p s st = Some (fa, p1, s1, st1) →
  Pos.entryPrice p1 = Pos.entryPrice p ∧ Pos.avgEntryPrice p1 = Pos.avgEntryPrice p
  ∧ Pos.size p1 = Pos.size p ∧ Pos.pnl p1 = Pos.pnl p
  ∧ Pos.asset p1 = Pos.asset p ∧ Pos.marketKey p1 = Pos.marketKey p
  ∧ Pos.feesPaid p1 = Pos.feesPaid p ∧ Pos.initialMargin p1 = Pos.initialMargin p
  ∧ Pos.netTransfers p1 = Pos.netTransfers p
  ∧ Pos.totalDeposits p1 = Pos.totalDeposits p
  ∧ Stat.pnl s1 = Stat.pnl s ∧ Stat.liquidations s1 = Stat.liquidations s.
Proof.
  intros H. apply accrueFunding_inv in H as [(_ & _ & -> & -> & _)|H]; [done|].
  by destruct H as (pf & cf & _ & _ & _ & _ & -> & -> & _).
Qed.

(** ** The four cases of [updatePnlAndEntryPrice] *)

Lemma sideFlip_test oldSize newSize :
  (lt oldSize ZERO && gt newSize ZERO) || (gt oldSize ZERO && lt newSize ZERO) = true
  ↔ sideFlip oldSize newSize.
Proof.
  unfold sideFlip, lt, gt, ZERO.
  rewrite orb_true_iff, !andb_true_iff, !bool_decide_eq_true. done.
Qed.

Lemma sideFlip_test_false oldSize newSize :
  (lt oldSize ZERO && gt newSize ZERO) || (gt oldSize ZERO && lt newSize ZERO) = false
  ↔ ¬ sideFlip oldSize newSize.
Proof. rewrite <- sideFlip_test. by destruct (_ || _). Qed.

Lemma updatePnlAndEntryPrice_close event t p s :
  PME.size event = 0 →
  updatePnlAndEntryPrice event t p s =
    let newPnl := Z.quot ((PME.lastPrice event - Pos.avgEntryPrice p) * Pos.size p) ETHER in
    Some (t <| Trade.pnl := newPnl |>,
          p <| Pos.pnl := Pos.pnl p + newPnl |> <| Pos.isOpen := false |>
            <| Pos.exitPrice := Some (PME.lastPrice event) |>
            <| Pos.closeTimestamp := Some (Ev.block_timestamp (PME.base event)) |>,
          s <| Stat.pnl := Stat.pnl s + newPnl |>).
Proof.
  intros Hz. unfold updatePnlAndEntryPrice.
  rewrite (proj2 (isZero_true _) Hz), div_ETHER. done.
Qed.

Lemma updatePnlAndEntryPrice_flip event t p s :
  PME.size event ≠ 0 → sideFlip (Pos.size p) (PME.size event) →
  updatePnlAndEntryPrice event t p s =
    let newPnl := Z.quot ((PME.lastPrice event - Pos.avgEntryPrice p) * Pos.size p) ETHER in
    Some (t <| Trade.pnl := newPnl |>,
          p <| Pos.pnl := Pos.pnl p + newPnl |>
            <| Pos.entryPrice := PME.lastPrice event |>
            <| Pos.avgEntryPrice := PME.lastPrice event |>,
          s <| Stat.pnl := Stat.pnl s + newPnl |>).
Proof.
  intros Hz Hflip. unfold updatePnlAndEntryPrice.
  rewrite (proj2 (isZero_false _) Hz), (proj2 (sideFlip_test _ _) Hflip), div_ETHER.
  done.
Qed.

Lemma updatePnlAndEntryPrice_increase event t p s :
  PME.size event ≠ 0 → ¬ sideFlip (Pos.size p) (PME.size event) →
  Z.abs (Pos.size p) < Z.abs (PME.size event) →
  updatePnlAndEntryPrice event t p s =
    let price :=
      Z.quot (Z.abs (Pos.size p) * Pos.entryPrice p
              + Z.abs (PME.tradeSize event) * PME.lastPrice event)
             (Z.abs (PME.size event)) in
    Some (t, p <| Pos.entryPrice := price |> <| Pos.avgEntryPrice := price |>, s).
Proof.
  intros Hz Hflip Hinc. unfold updatePnlAndEntryPrice.
  rewrite (proj2 (isZero_false _) Hz), (proj2 (sideFlip_test_false _ _) Hflip),
    (proj2 (gt_true _ _) Hinc).
  rewrite !div_Some by lia. done.
Qed.

Lemma updatePnlAndEntryPrice_reduce event t p s :
  PME.size event ≠ 0 → ¬ sideFlip (Pos.size p) (PME.size event) →
  Z.abs (PME.size event) ≤ Z.abs (Pos.size p) →
  updatePnlAndEntryPrice event t p s =
    let newPnl :=
      Z.quot ((PME.lastPrice event - Pos.avgEntryPrice p) * Z.abs (PME.tradeSize event)
              * (if gt (PME.size event) ZERO then 1 else -1)) ETHER in
    Some (t <| Trade.pnl := newPnl |>,
          p <| Pos.pnl := Pos.pnl p + newPnl |>,
          s <| Stat.pnl := Stat.pnl s + newPnl |>).
Proof.
  intros Hz Hflip Hred. unfold updatePnlAndEntryPrice.
  rewrite (proj2 (isZero_false _) Hz), (proj2 (sideFlip_test_false _ _) Hflip),
    (proj2 (gt_false _ _) Hred), div_ETHER.
  done.
Qed.

(** The four cases cover every event. *)
Lemma updatePnlAndEntryPrice_cases event (p : Pos.t) :
  PME.size event = 0
  ∨ (PME.size event ≠ 0 ∧ sideFlip (Pos.size p) (PME.size event))
  ∨ (PME.size event ≠ 0 ∧ ¬ sideFlip (Pos.size p) (PME.size event)
     ∧ Z.abs (Pos.size p) < Z.abs (PME.size event))
  ∨ (PME.size event ≠ 0 ∧ ¬ sideFlip (Pos.size p) (PME.size event)
     ∧ Z.abs (PME.size event) ≤ Z.abs (Pos.size p)).
Proof. unfold sideFlip. lia. Qed.

Lemma updatePnlAndEntryPrice_total event t p s :
  is_Some (updatePnlAndEntryPrice event t p s).
Proof.
  destruct (updatePnlAndEntryPrice_cases event p) as [H|[[??]|[(?&?&?)|(?&?&?)]]].
  - by rewrite updatePnlAndEntryPrice_close.
  - by rewrite updatePnlAndEntryPrice_flip.
  - by rewrite updatePnlAndEntryPrice_increase.
  - by rewrite updatePnlAndEntryPrice_reduce.
Qed.

(** ** The branch of a trade *)

Lemma recordTrade_inv event acc sa at_ pid me fa p s c st p2 s2 c2 st2 :
  recordTrade event acc sa at_ pid me fa p s c st = Some (p2, s2, c2, st2) →
  ∃ t1 p1 s1,
    updatePnlAndEntryPrice event (newTrade event acc sa at_ pid me fa) p s
      = Some (t1, p1, s1)
    ∧ p2 = p1 <| Pos.trades := Pos.trades p1 + 1 |>
              <| Pos.totalVolume :=
                   Pos.totalVolume p1
                   + Z.abs (Z.quot (Trade.size t1 * Trade.price t1) ETHER) |>
    ∧ Stat.pnl s2 = Stat.pnl s1 ∧ Stat.feesPaid s2 = Stat.feesPaid s1
    ∧ Stat.liquidations s2 = Stat.liquidations s1
    ∧ Cum.totalLiquidations c2 = Cum.totalLiquidations c
    ∧ Cum.totalTraders c2 = Cum.totalTraders c
    ∧ Cum.totalTrades c2 = Cum.totalTrades c + 1
    ∧ Cum.totalTrades c + 1 ≠ 0
    ∧ st2 = st <| trades :=
                    <[tradeIdOf (Ev.transaction_hash (PME.base event))
                        (Ev.logIndex (PME.base event)) := t1]> (trades st) |>
               <| cumulativeStats := cumulativeStats st2 |>
               <| aggregateStats := aggregateStats st2 |>.
Proof.
  intros H. unfold recordTrade in H.
  apply bind_Some in H as ([[t1 p1] s1] & Hu & H).
  exists t1, p1, s1. split; [done|].
  apply bind_Some in H as (q & Hq & H). rewrite div_ETHER in Hq.
  apply (inj Some) in Hq as <-.
  apply bind_Some in H as (avg & Havg & H).
  apply div_inv in Havg as [Hnz _]. cbn in Hnz.
  apply bind_Some in H as (st3 & Hm & H).
  apply (inj Some) in H.
  apply pair_equal_spec in H as [H <-].
  apply pair_equal_spec in H as [H <-].
  apply pair_equal_spec in H as [<- <-].
  repeat split; try done.
  - by destruct (decide _).
  - by destruct (decide _).
  - by destruct (decide _).
  - destruct me as [m|].
    + apply bind_Some in Hm as (mavg & _ & Hm).
      apply bind_Some in Hm as (k & _ & Hm).
      apply bind_Some in Hm as (a & _ & Hm).
      apply updateAggregateStatEntities_frame in Hm. by rewrite Hm.
    + apply (inj Some) in Hm. rewrite <- Hm. by destruct st.
Qed.

(** What [updatePnlAndEntryPrice] never touches. *)
Lemma updatePnlAndEntryPrice_preserved event t p s t1 p1 s1 :
  updatePnlAndEntryPrice event t p s = Some (t1, p1, s1) →
  Pos.asset p1 = Pos.asset p ∧ Pos.marketKey p1 = Pos.marketKey p
  ∧ Pos.size p1 = Pos.size p ∧ Pos.feesPaid p1 = Pos.feesPaid p
  ∧ Pos.netFunding p1 = Pos.netFunding p ∧ Pos.fundingIndex p1 = Pos.fundingIndex p
  ∧ Pos.initialMargin p1 = Pos.initialMargin p
  ∧ Pos.netTransfers p1 = Pos.netTransfers p
  ∧ Pos.totalDeposits p1 = Pos.totalDeposits p
  ∧ Stat.feesPaid s1 = Stat.feesPaid s ∧ Stat.liquidations s1 = Stat.liquidations s.
Proof.
  destruct (updatePnlAndEntryPrice_cases event p) as [H|[[??]|[(?&?&?)|(?&?&?)]]].
  - rewrite updatePnlAndEntryPrice_close by done. intros [= <- <- <-]. done.
  - rewrite updatePnlAndEntryPrice_flip by done. intros [= <- <- <-]. done.
  - rewrite updatePnlAndEntryPrice_increase by done. intros [= <- <- <-]. done.
  - rewrite updatePnlAndEntryPrice_reduce by done. intros [= <- <- <-]. done.
Qed.

Lemma bind_is_Some {A B : Type} (m : option A) (f : A → option B) :
  is_Some m → (∀ a, m = Some a → is_Some (f a)) → is_Some (m ≫= f).
Proof. intros [a ->] Hf. cbn. by apply Hf. Qed.

Lemma recordTrade_total event acc sa at_ pid me fa p s c st :
  canRecordTrade me p c st →
  is_Some (recordTrade event acc sa at_ pid me fa p s c st).
Proof.
  intros [Hc Hm]. unfold recordTrade.
  apply bind_is_Some; [apply updatePnlAndEntryPrice_total|].
  intros [[t1 p1] s1] Hu.
  apply updatePnlAndEntryPrice_preserved in Hu as (Ha & Hk & _).
  apply bind_is_Some; [by rewrite div_ETHER|]. intros q _.
  apply bind_is_Some; [by rewrite div_Some|]. intros avg _.
  apply bind_is_Some; [|by eexists].
  destruct me as [m|]; [|by eexists].
  destruct (Hm m eq_refl) as (Hmc & [k Hk'] & [a Ha']).
  apply bind_is_Some; [rewrite div_Some; [done|exact Hmc]|]. intros mavg _.
  apply bind_is_Some; [cbn; rewrite Hk, Hk'; done|]. intros k' _.
  apply bind_is_Some; [cbn; rewrite Ha, Ha'; done|]. intros a' _.
  apply updateAggregateStatEntities_total.
Qed.

Lemma newTrade_pnl event acc sa at_ pid me fa :
  Trade.pnl (newTrade event acc sa at_ pid me fa) = 0.
Proof. unfold newTrade. by destruct me, (isZero (PME.size event)). Qed.

Lemma recordTrade_cumulativeStats event acc sa at_ pid me fa p s c st p2 s2 c2 st2 :
  recordTrade event acc sa at_ pid me fa p s c st = Some (p2, s2, c2, st2) →
  match me with
  | Some m =>
      ∃ marketCumulativeStats,
        cumulativeStats st2
        = <[toHex (FuturesMarketEntity.asset m) := marketCumulativeStats]>
            (cumulativeStats st)
        ∧ Cum.totalTrades marketCumulativeStats
          = Cum.totalTrades
              (getOrCreateMarketCumulativeStats (toHex (FuturesMarketEntity.asset m)) st)
            + 1
  | None => cumulativeStats st2 = cumulativeStats st
  end.
Proof.
  intros H. unfold recordTrade in H.
  apply bind_Some in H as ([[t1 p1] s1] & Hu & H).
  apply bind_Some in H as (q & Hq & H).
  apply bind_Some in H as (avg & Havg & H).
  apply bind_Some in H as (st3 & Hm & H).
  apply (inj Some) in H. apply pair_equal_spec in H as [_ <-].
  destruct me as [m|].
  - apply bind_Some in Hm as (mavg & _ & Hm).
    apply bind_Some in Hm as (k & _ & Hm).
    apply bind_Some in Hm as (a & _ & Hm).
    apply updateAggregateStatEntities_frame in Hm. rewrite Hm.
    eexists. split; reflexivity.
  - apply (inj Some) in Hm. by rewrite <- Hm.
Qed.

(** ** The branch of a zero trade size *)

Lemma marginTransferOrLiquidation_transfer event acc sa at_ pid fa p s st mt :
  marginTransfers st
    !! marginTransferIdOf (Ev.address (PME.base event))
         (Ev.transaction_hash (PME.base event)) (Ev.logIndex (PME.base event) - 1)
    = Some mt →
  marginTransferOrLiquidation event acc sa at_ pid fa p s st =
    Some
      (let p1 :=
         p <| Pos.netTransfers := Pos.netTransfers p + FuturesMarginTransfer.size mt |> in
       if gt (FuturesMarginTransfer.size mt) ZERO
       then p1 <| Pos.totalDeposits :=
                    Pos.totalDeposits p + FuturesMarginTransfer.size mt |>
       else p1,
       s, st).
Proof. intros Hmt. unfold marginTransferOrLiquidation. rewrite Hmt. done. Qed.

(** The synthetic trade of a liquidation is built exactly when the
    position carries its asset and its market key. *)
Lemma newLiquidationTrade_returns event acc sa at_ pid fa p pnl :
  readable p → is_Some (newLiquidationTrade event acc sa at_ pid fa p pnl).
Proof.
  intros [[marketKey Hk] [asset Ha]]. unfold newLiquidationTrade.
  rewrite Ha, Hk. by eexists.
Qed.

Lemma newLiquidationTrade_inv event acc sa at_ pid fa p pnl t :
  newLiquidationTrade event acc sa at_ pid fa p pnl = Some t →
  readable p
  ∧ Trade.asset t = Pos.asset p ∧ Trade.marketKey t = Pos.marketKey p
  ∧ Trade.pnl t = pnl ∧ Trade.size t = 0 ∧ Trade.margin t = 0
  ∧ Trade.positionSize t = 0 ∧ Trade.positionClosed t = true
  ∧ Trade.feesPaid t = PME.fee event ∧ Trade.fundingAccrued t = fa
  ∧ Trade.keeperFeesPaid t = 0 ∧ Trade.orderType t = "Liquidation"
  ∧ Trade.trackingCode t = ZERO_ADDRESS ∧ Trade.positionId t = pid
  ∧ Trade.price t = PME.lastPrice event
  ∧ Trade.account t = acc ∧ Trade.abstractAccount t = sa
  ∧ Trade.accountType t = at_
  ∧ Trade.timestamp t = Ev.block_timestamp (PME.base event).
Proof.
  unfold newLiquidationTrade, readable.
  destruct (Pos.asset p) as [asset|]; [|done].
  destruct (Pos.marketKey p) as [marketKey|]; [|done].
  cbn. intros [= <-]. cbn. repeat split; by eexists.
Qed.

Lemma marginTransferOrLiquidation_liquidation event acc sa at_ pid fa p s st :
  marginTransfers st
    !! marginTransferIdOf (Ev.address (PME.base event))
         (Ev.transaction_hash (PME.base event)) (Ev.logIndex (PME.base event) - 1)
    = None →
  PME.size event = 0 → PME.margin event = 0 →
  marginTransferOrLiquidation event acc sa at_ pid fa p s st =
    let newPositionPnl :=
      (Pos.initialMargin p + Pos.netTransfers p) * -1 + Pos.feesPaid p
      - Pos.netFunding p in
    tradeEntity ←
      newLiquidationTrade event acc sa at_ pid fa p (newPositionPnl - Pos.pnl p);
    Some
      (p <| Pos.pnl := newPositionPnl |>
         <| Pos.pnlWithFeesPaid := (Pos.initialMargin p + Pos.netTransfers p) * -1 |>,
       s <| Stat.pnl := Stat.pnl s + (newPositionPnl - Pos.pnl p) |>,
       saveTrade
         (tradeIdOf (Ev.transaction_hash (PME.base event))
            (Ev.logIndex (PME.base event)))
         tradeEntity st).
Proof.
  intros Hmt Hs Hm. unfold marginTransferOrLiquidation.
  rewrite Hmt, (proj2 (isZero_true _) Hs), (proj2 (isZero_true _) Hm). done.
Qed.

Lemma marginTransferOrLiquidation_neither event acc sa at_ pid fa p s st :
  marginTransfers st
    !! marginTransferIdOf (Ev.address (PME.base event))
         (Ev.transaction_hash (PME.base event)) (Ev.logIndex (PME.base event) - 1)
    = None →
  ¬ (PME.size event = 0 ∧ PME.margin event = 0) →
  marginTransferOrLiquidation event acc sa at_ pid fa p s st = Some (p, s, st).
Proof.
  intros Hmt Hnz. unfold marginTransferOrLiquidation. rewrite Hmt.
  destruct (isZero (PME.size event)) eqn:Hs, (isZero (PME.margin event)) eqn:Hm;
    try done.
  apply isZero_true in Hs, Hm. naive_solver.
Qed.

(** The three cases cover every event without a trade size. *)
Lemma marginTransferOrLiquidation_cases event (st : Store) :
  let found :=
    marginTransfers st
      !! marginTransferIdOf (Ev.address (PME.base event))
           (Ev.transaction_hash (PME.base event)) (Ev.logIndex (PME.base event) - 1) in
  (∃ mt, found = Some mt)
  ∨ (found = None ∧ PME.size event = 0 ∧ PME.margin event = 0)
  ∨ (found = None ∧ ¬ (PME.size event = 0 ∧ PME.margin event = 0)).
Proof.
  intros found. destruct found as [mt|]; [by left; eexists|right].
  destruct (decide (PME.size event = 0 ∧ PME.margin event = 0)) as [[??]|?];
    [left|right]; done.
Qed.

(** What the branch on the trade size never touches. *)
Lemma pmBranch_preserved event st0 fa p s st p2 s2 c2 st2 :
  pmBranch event st0 fa p s st = Some (p2, s2, c2, st2) →
  Pos.asset p2 = Pos.asset p ∧ Pos.marketKey p2 = Pos.marketKey p
  ∧ Pos.feesPaid p2 = Pos.feesPaid p ∧ Pos.netFunding p2 = Pos.netFunding p
  ∧ Pos.fundingIndex p2 = Pos.fundingIndex p
  ∧ Pos.initialMargin p2 = Pos.initialMargin p
  ∧ Stat.feesPaid s2 = Stat.feesPaid s ∧ Stat.liquidations s2 = Stat.liquidations s
  ∧ Cum.totalLiquidations c2 = Cum.totalLiquidations (pmCumulative0 event st0)
  ∧ Cum.totalTraders c2 = Cum.totalTraders (pmCumulative0 event st0)
  ∧ st2 = st <| trades := trades st2 |> <| cumulativeStats := cumulativeStats st2 |>
             <| aggregateStats := aggregateStats st2 |>.
Proof.
  unfold pmBranch. destruct (isZero (PME.tradeSize event)); cbn [negb].
  - destruct (marginTransferOrLiquidation_cases event st) as [[mt H]|[(H&?&?)|[H ?]]].
    + rewrite (marginTransferOrLiquidation_transfer _ _ _ _ _ _ _ _ _ _ H).
      cbn [mbind option_bind]. intros [= <- <- <- <-].
      destruct (gt _ _); by destruct st.
    + rewrite marginTransferOrLiquidation_liquidation by done.
      cbv zeta. destruct (newLiquidationTrade _ _ _ _ _ _ _ _) as [t|]; [|done].
      cbn [mbind option_bind]. intros [= <- <- <- <-]. by destruct st.
    + rewrite marginTransferOrLiquidation_neither by done.
      cbn [mbind option_bind]. intros [= <- <- <- <-]. by destruct st.
  - intros H. apply recordTrade_inv in H
      as (t1 & p1 & s1 & Hu & -> & ? & ? & ? & ? & ? & ? & ? & Hst).
    apply updatePnlAndEntryPrice_preserved in Hu
      as (? & ? & ? & ? & ? & ? & ? & ? & ? & ? & ?).
    repeat split; try done; try congruence.
    assert (trades st2 = <[tradeIdOf (Ev.transaction_hash (PME.base event))
                             (Ev.logIndex (PME.base event)) := t1]> (trades st)) as ->
      by (by rewrite Hst).
    exact Hst.
Qed.

(** ** The store after [handlePositionModified] *)

Lemma handlePositionModified_spec event st st' :
  handlePositionModified event st = Some st' →
  ∃ fundingAccrued p1 s1 st1 p2 s2 c2 st2,
    accrueFunding event (pmAccount event st) (pmPositionId event)
      (pmPosition0 event st) (pmStat0 event st) st = Some (fundingAccrued, p1, s1, st1)
    ∧ pmBranch event st fundingAccrued p1 s1 st1 = Some (p2, s2, c2, st2)
    ∧ positions st' = <[pmPositionId event := updatePositionValues event p2]> (positions st)
    ∧ stats st' = <[toHex (pmAccount event st) := updateStatValues event s2]> (stats st)
    ∧ cumulativeStats st' = <[SINGLE_INDEX := c2]> (cumulativeStats st2)
    ∧ trades st' = trades st2
    ∧ fundingPayments st' = fundingPayments st1
    ∧ marginTransfers st' = marginTransfers st
    ∧ fundingRateUpdates st' = fundingRateUpdates st
    ∧ markets st' = markets st
    ∧ smartMarginAccounts st' = smartMarginAccounts st
    ∧ orders st' = orders st.
Proof.
  intros H. apply handlePositionModified_inv in H
    as (fa & p1 & s1 & st1 & p2 & s2 & c2 & st2 & Hf & Hb & ->).
  exists fa, p1, s1, st1, p2, s2, c2, st2. split; [done|]. split; [done|].
  pose proof (accrueFunding_frame _ _ _ _ _ _ _ _ _ _ Hf) as Hst1.
  apply pmBranch_preserved in Hb as (_&_&_&_&_&_&_&_&_&_&Hst2).
  rewrite updateGlobalValues_positions, updateGlobalValues_stats,
    updateGlobalValues_cumulativeStats, updateGlobalValues_trades,
    updateGlobalValues_fundingPayments.
  assert (positions st2 = positions st) as -> by (by rewrite Hst2, Hst1).
  assert (stats st2 = stats st) as -> by (by rewrite Hst2, Hst1).
  assert (fundingPayments st2 = fundingPayments st1) as -> by (by rewrite Hst2).
  repeat split; try done.
  all: unfold updateGlobalValues; rewrite Hst2, Hst1; by case_match.
Qed.

(** The trailing update recomputes [pnlWithFeesPaid] of the position from
    the final [pnl], [feesPaid] and [netFunding]. *)
Lemma updatePositionValues_pnlWithFeesPaid event p :
  Pos.pnlWithFeesPaid (updatePositionValues event p)
  = Pos.pnl (updatePositionValues event p) - Pos.feesPaid (updatePositionValues event p)
    + Pos.netFunding (updatePositionValues event p).
Proof. reflexivity. Qed.

(** The handler returns as soon as its branch on the trade size does. *)
Lemma handlePositionModified_intro event st fa p1 s1 st1 p2 s2 c2 st2 :
  accrueFunding event (pmAccount event st) (pmPositionId event)
    (pmPosition0 event st) (pmStat0 event st) st = Some (fa, p1, s1, st1) →
  pmBranch event st fa p1 s1 st1 = Some (p2, s2, c2, st2) →
  handlePositionModified event st
  = Some (updateGlobalValues event (PME.account event) (pmAccount event st)
            (pmPositionId event)
            (marginAccounts st
               !! marginAccountIdOf (PME.account event) (Ev.address (PME.base event)))
            p2 s2 c2 st2).
Proof.
  intros Hf Hb. rewrite handlePositionModified_unfold, Hf.
  cbn [mbind option_bind]. by rewrite Hb.
Qed.

(** Without a trade size the handler returns when the funding accrual
    and the branch of a zero trade size do. *)
Lemma handlePositionModified_no_trade event st st' :
  PME.tradeSize event = 0 →
  handlePositionModified event st = Some st' →
  ∃ fa p1 s1 st1 p2 s2 st2,
    accrueFunding event (pmAccount event st) (pmPositionId event)
      (pmPosition0 event st) (pmStat0 event st) st = Some (fa, p1, s1, st1)
    ∧ marginTransferOrLiquidation event (pmAccount event st) (PME.account event)
        (resolveAccountType (PME.account event) st) (pmPositionId event) fa p1 s1 st1
      = Some (p2, s2, st2)
    ∧ pmBranch event st fa p1 s1 st1 = Some (p2, s2, pmCumulative0 event st, st2).
Proof.
  intros Hts H. apply handlePositionModified_inv in H
    as (fa & p1 & s1 & st1 & p2 & s2 & c2 & st2 & Hf & Hb & _).
  pose proof Hb as Hb'. unfold pmBranch in Hb'.
  rewrite (proj2 (isZero_true _) Hts) in Hb'. cbn [negb] in Hb'.
  destruct (marginTransferOrLiquidation _ _ _ _ _ _ _ _ _) as [[[p2' s2'] st2']|] eqn:Hm;
    [|done].
  cbn in Hb'. injection Hb' as <- <- <- <-.
  by eexists fa, p1, s1, st1, _, _, _.
Qed.

Lemma handlePositionModified_no_trade_returns event st fa p1 s1 st1 r :
  PME.tradeSize event = 0 →
  accrueFunding event (pmAccount event st) (pmPositionId event)
    (pmPosition0 event st) (pmStat0 event st) st = Some (fa, p1, s1, st1) →
  marginTransferOrLiquidation event (pmAccount event st) (PME.account event)
    (resolveAccountType (PME.account event) st) (pmPositionId event) fa p1 s1 st1
  = Some r →
  is_Some (handlePositionModified event st).
Proof.
  intros Hts Hf Hm. destruct r as [[p2 s2] st2].
  erewrite handlePositionModified_intro; [by eexists|exact Hf|].
  unfold pmBranch. rewrite (proj2 (isZero_true _) Hts). cbn [negb]. by rewrite Hm.
Qed.

(** An event with a trade size: the position, stats and trade entities
    the handler saves, from the result of [updatePnlAndEntryPrice]. *)
Lemma handlePositionModified_trade event st st' :
  PME.tradeSize event ≠ 0 →
  handlePositionModified event st = Some st' →
  ∃ fa p1 s1 st1 t2 p2 s2 p' s',
    accrueFunding event (pmAccount event st) (pmPositionId event)
      (pmPosition0 event st) (pmStat0 event st) st = Some (fa, p1, s1, st1)
    ∧ updatePnlAndEntryPrice event
        (newTrade event (pmAccount event st) (PME.account event)
           (resolveAccountType (PME.account event) st) (pmPositionId event)
           (markets st !! toHex (Ev.address (PME.base event))) fa) p1 s1
      = Some (t2, p2, s2)
    ∧ positions st' !! pmPositionId event = Some p'
    ∧ stats st' !! toHex (pmAccount event st) = Some s'
    ∧ trades st'
        !! tradeIdOf (Ev.transaction_hash (PME.base event)) (Ev.logIndex (PME.base event))
      = Some t2
    ∧ Pos.pnl p' = Pos.pnl p2 ∧ Pos.avgEntryPrice p' = Pos.avgEntryPrice p2
    ∧ Pos.entryPrice p' = Pos.entryPrice p2 ∧ Pos.isOpen p' = Pos.isOpen p2
    ∧ Pos.exitPrice p' = Pos.exitPrice p2
    ∧ Pos.closeTimestamp p' = Pos.closeTimestamp p2
    ∧ Pos.size p' = PME.size event
    ∧ Stat.pnl s' = Stat.pnl s2.
Proof.
  intros Hts H.
  apply handlePositionModified_spec in H
    as (fa & p1 & s1 & st1 & p2' & s2' & c2 & st2 & Hf & Hb & Hpos & Hstats & _ & Htr & _).
  unfold pmBranch in Hb. rewrite (proj2 (isZero_false _) Hts) in Hb. cbn [negb] in Hb.
  apply recordTrade_inv in Hb
    as (t2 & p2 & s2 & Hu & -> & Hspnl & _ & _ & _ & _ & _ & _ & Hst2).
  exists fa, p1, s1, st1, t2, p2, s2, (updatePositionValues event
    (p2 <| Pos.trades := Pos.trades p2 + 1 |>
        <| Pos.totalVolume :=
             Pos.totalVolume p2
             + Z.abs (Z.quot (Trade.size t2 * Trade.price t2) ETHER) |>)),
    (updateStatValues event s2').
  rewrite Hpos, Hstats, !lookup_insert_eq, Htr.
  repeat split; try done.
  rewrite Hst2. cbn. apply lookup_insert_eq.
Qed.

(** An event without a trade size on an open position (its size is not
    zero): nothing is realised, and the entry prices stay. *)
Lemma handlePositionModified_no_trade_open event st st' p :
  positions st !! pmPositionId event = Some p →
  PME.tradeSize event = 0 → PME.size event ≠ 0 →
  handlePositionModified event st = Some st' →
  ∃ p',
    positions st' !! pmPositionId event = Some p'
    ∧ Pos.pnl p' = Pos.pnl p ∧ Pos.avgEntryPrice p' = Pos.avgEntryPrice p
    ∧ Pos.entryPrice p' = Pos.entryPrice p ∧ Pos.size p' = PME.size event
    ∧ markets st' = markets st.
Proof.
  intros Hp Hts Hsz Hrun.
  destruct (handlePositionModified_no_trade event st st' Hts Hrun)
    as (fa & p1 & s1 & st1 & p2 & s2 & st2 & Hf & Hm & Hb).
  pose proof (handlePositionModified_intro _ _ _ _ _ _ _ _ _ _ Hf Hb) as Hrun'.
  rewrite Hrun in Hrun'. apply (inj Some) in Hrun'.
  apply handlePositionModified_spec in Hrun
    as (_&_&_&_&_&_&_&_&_&_&_&_&_&_&_&_&_& Hmk &_).
  exists (updatePositionValues event p2).
  split; [by rewrite Hrun', updateGlobalValues_positions, lookup_insert_eq|].
  assert (pmPosition0 event st = p) as Hp0
    by (unfold pmPosition0, positionOrNew; by rewrite Hp).
  rewrite Hp0 in Hf.
  apply accrueFunding_preserved in Hf as (He & Ha & _ & Hpnl & _).
  change (Pos.pnl p2 = Pos.pnl p ∧ Pos.avgEntryPrice p2 = Pos.avgEntryPrice p
          ∧ Pos.entryPrice p2 = Pos.entryPrice p ∧ PME.size event = PME.size event
          ∧ markets st' = markets st).
  rewrite <- Hpnl, <- Ha, <- He.
  destruct (marginTransferOrLiquidation_cases event st1) as [[mt H]|[(H&?&?)|[H ?]]].
  - rewrite (marginTransferOrLiquidation_transfer _ _ _ _ _ _ _ _ _ _ H) in Hm.
    apply (inj Some) in Hm.
    apply pair_equal_spec in Hm as [Hm _]. apply pair_equal_spec in Hm as [<- _].
    by destruct (gt _ _).
  - done.
  - rewrite marginTransferOrLiquidation_neither in Hm by done.
    apply (inj Some) in Hm.
    apply pair_equal_spec in Hm as [Hm _]. by apply pair_equal_spec in Hm as [<- _].
Qed.

(** ** The liquidation handlers *)

(** [handlePositionLiquidatedV2] is [handlePositionLiquidated] at the sum
    of the three fees. *)
Lemma handlePositionLiquidatedV2_eq event st :
  handlePositionLiquidatedV2 event st =
  handlePositionLiquidated
    {| PLE.base := PLE2.base event; PLE.id := PLE2.id event;
       PLE.account := PLE2.account event; PLE.size := PLE2.size event;
       PLE.fee := PLE2.flaggerFee event + PLE2.liquidatorFee event
                  + PLE2.stakersFee event |} st.
Proof. reflexivity. Qed.

(** [handlePositionLiquidated] reads the asset of the position it finds
    (line 480): it returns exactly when the position is not stored or
    carries its asset. *)
Lemma handlePositionLiquidated_returns event st :
  is_Some (handlePositionLiquidated event st)
  ↔ ∀ p, positions st !! positionIdOf (Ev.address (PLE.base event)) (PLE.id event)
         = Some p → is_Some (Pos.asset p).
Proof.
  unfold handlePositionLiquidated.
  destruct (positions st !! _) as [p|]; cbv beta iota zeta.
  - lazymatch goal with
    | |- context [Pos.asset ?x] => change (Pos.asset x) with (Pos.asset p)
    end.
    split.
    + intros H p' [= <-]. destruct (Pos.asset p); [by eexists|].
      by destruct H.
    + intros H. destruct (H p eq_refl) as [asset ->]. by eexists.
  - split; [by intros _ p [=]|by eexists].
Qed.

Lemma handlePositionLiquidated_positions event st st' :
  handlePositionLiquidated event st = Some st' →
  positions st' =
    match positions st !! positionIdOf (Ev.address (PLE.base event)) (PLE.id event) with
    | Some p =>
        <[positionIdOf (Ev.address (PLE.base event)) (PLE.id event)
            := liquidatedPosition event p]> (positions st)
    | None => positions st
    end.
Proof.
  unfold handlePositionLiquidated.
  destruct (positions st !! _) as [p|]; cbv beta iota zeta.
  - cbn [mbind option_bind].
    lazymatch goal with
    | |- context [Pos.asset ?x] => change (Pos.asset x) with (Pos.asset p)
    end.
    destruct (Pos.asset p); [|done]. cbn [mbind option_bind].
    destruct (stats st !! _), (trades st !! _);
      intros H; apply (inj Some) in H; by subst st'.
  - intros H. apply (inj Some) in H. by subst st'.
Qed.

Lemma handlePositionLiquidated_stats event st st' :
  handlePositionLiquidated event st = Some st' →
  stats st' =
    match positions st !! positionIdOf (Ev.address (PLE.base event)) (PLE.id event),
          stats st !! toHex (resolveAccount (PLE.account event) st) with
    | Some _, Some s =>
        <[toHex (resolveAccount (PLE.account event) st) := liquidatedStat event s]>
          (stats st)
    | _, _ => stats st
    end.
Proof.
  unfold handlePositionLiquidated.
  destruct (positions st !! _) as [p|]; cbv beta iota zeta.
  - cbn [mbind option_bind].
    lazymatch goal with
    | |- context [Pos.asset ?x] => change (Pos.asset x) with (Pos.asset p)
    end.
    destruct (Pos.asset p); [|done]. cbn [mbind option_bind].
    destruct (stats st !! _), (trades st !! _);
      intros H; apply (inj Some) in H; by subst st'.
  - intros H. apply (inj Some) in H. by subst st'.
Qed.

Lemma handlePositionLiquidated_cumulativeStats event st st' :
  handlePositionLiquidated event st = Some st' →
  let global :=
    (getOrCreateCumulativeEntity st)
      <| Cum.totalLiquidations :=
           Cum.totalLiquidations (getOrCreateCumulativeEntity st) + 1 |> in
  cumulativeStats st' =
    match positions st !! positionIdOf (Ev.address (PLE.base event)) (PLE.id event)
          ≫= Pos.asset with
    | Some asset =>
        <[toHex asset :=
            (getOrCreateMarketCumulativeStats (toHex asset) st)
              <| Cum.totalLiquidations :=
                   Cum.totalLiquidations
                     (getOrCreateMarketCumulativeStats (toHex asset) st) + 1 |>]>
          (<[SINGLE_INDEX := global]> (cumulativeStats st))
    | None => <[SINGLE_INDEX := global]> (cumulativeStats st)
    end.
Proof.
  unfold handlePositionLiquidated.
  destruct (positions st !! _) as [p|]; cbv beta iota zeta.
  - cbn [mbind option_bind].
    lazymatch goal with
    | |- context [Pos.asset ?x] => change (Pos.asset x) with (Pos.asset p)
    end.
    destruct (Pos.asset p) as [asset|].
    + assert (∀ st0 : Store,
                cumulativeStats st0 = cumulativeStats st →
                ∀ c, getOrCreateMarketCumulativeStats (toHex asset)
                       (saveCumulativeStat SINGLE_INDEX c st0)
                     = getOrCreateMarketCumulativeStats (toHex asset) st) as Hm.
      { intros st0 Hst0 c. unfold getOrCreateMarketCumulativeStats, saveCumulativeStat.
        cbn. rewrite lookup_insert_ne by (symmetry; apply toHex_not_SINGLE_INDEX).
        by rewrite Hst0. }
      destruct (stats st !! _), (trades st !! _);
        intros H; apply (inj Some) in H; subst st'; rewrite Hm by done; reflexivity.
    + done.
  - intros H. apply (inj Some) in H. by subst st'.
Qed.

Lemma handlePositionLiquidated_markets event st st' :
  handlePositionLiquidated event st = Some st' → markets st' = markets st.
Proof.
  unfold handlePositionLiquidated.
  destruct (positions st !! _) as [p|]; cbv beta iota zeta.
  - cbn [mbind option_bind].
    lazymatch goal with
    | |- context [Pos.asset ?x] => change (Pos.asset x) with (Pos.asset p)
    end.
    destruct (Pos.asset p); [|done]. cbn [mbind option_bind].
    destruct (stats st !! _), (trades st !! _);
      intros H; apply (inj Some) in H; by subst st'.
  - intros H. apply (inj Some) in H. by subst st'.
Qed.

(** ** The order handlers *)

Section DelayedOrders.

Variable bytesToString : Bytes → string.

Lemma fillOrder_total event acc at_ m smo o s tid t st :
  ∃ st', fillOrder bytesToString event acc at_ m smo o s tid t st
         = Some (o <| FuturesOrder.status := "Filled" |>, st')
         ∧ orders st' = orders st.
Proof.
  unfold fillOrder. cbv zeta.
  set (r := match smo with
            | Some smartMarginOrderEntity => _
            | None => _
            end).
  assert (orders r.2 = orders st) as Hr
    by (subst r; destruct smo as [x|]; [destruct x as [[] []]|]; done).
  destruct r as [t1 st1]. cbn [snd] in Hr.
  case_bool_decide as Hk.
  - set (st2 := match positions st !! Trade.positionId t with
                | Some positionEntity => _
                | None => st1
                end).
    assert (orders st2 = orders st) as Hst2
      by (subst st2; by destruct (positions st !! _)).
    case_bool_decide as Hcode.
    + match goal with
      | |- context [updateAggregateStatEntities ?a ?b ?c ?d ?e ?f ?g ?h ?i] =>
          destruct (updateAggregateStatEntities_total a b c d e f g h i) as [st3 Hst3];
          pose proof (updateAggregateStatEntities_frame _ _ _ _ _ _ _ _ _ _ Hst3) as Hfr;
          rewrite Hst3
      end.
      cbn [mbind option_bind]. eexists. split; [reflexivity|].
      cbn. rewrite Hfr. cbn. done.
    + cbn [mbind option_bind]. eexists. split; [reflexivity|]. cbn. done.
  - cbn [mbind option_bind]. eexists. split; [reflexivity|]. cbn. done.
Qed.

Lemma fillOrder_tables event acc at_ m smo o s tid t st o' st' :
  fillOrder bytesToString event acc at_ m smo o s tid t st = Some (o', st') →
  cumulativeStats st' = cumulativeStats st ∧ markets st' = markets st
  ∧ (positions st' = positions st
     ∨ ∃ p0, positions st !! Trade.positionId t = Some p0
             ∧ positions st'
               = <[Trade.positionId t
                   := p0 <| Pos.feesPaid := Pos.feesPaid p0 + DOR.keeperDeposit event |>]>
                   (positions st)).
Proof.
  intros H. unfold fillOrder in H. cbv zeta in H.
  set (r := match smo with
            | Some smartMarginOrderEntity => _
            | None => _
            end) in H.
  assert (positions r.2 = positions st ∧ markets r.2 = markets st
          ∧ cumulativeStats r.2 = cumulativeStats st
          ∧ Trade.positionId r.1 = Trade.positionId t) as (Hpos & Hmk & Hcum & Hpid)
    by (subst r; destruct smo as [x|]; [destruct x as [[] []]|]; done).
  destruct r as [t1 st1]. cbn [fst snd] in *.
  apply bind_Some in H as ([t2 st2] & H & Hend).
  apply (inj Some) in Hend. apply pair_equal_spec in Hend as [_ <-].
  change (cumulativeStats st2 = cumulativeStats st ∧ markets st2 = markets st
          ∧ (positions st2 = positions st
             ∨ ∃ p0, positions st !! Trade.positionId t = Some p0
                     ∧ positions st2
                       = <[Trade.positionId t
                           := p0 <| Pos.feesPaid :=
                                      Pos.feesPaid p0 + DOR.keeperDeposit event |>]>
                           (positions st))).
  case_bool_decide as Hk.
  - apply bind_Some in H as (st4 & H & Hend).
    apply (inj Some) in Hend. apply pair_equal_spec in Hend as [_ <-].
    change (cumulativeStats st4 = cumulativeStats st ∧ markets st4 = markets st
            ∧ (positions st4 = positions st
               ∨ ∃ p0, positions st !! Trade.positionId t = Some p0
                       ∧ positions st4
                         = <[Trade.positionId t
                             := p0 <| Pos.feesPaid :=
                                        Pos.feesPaid p0 + DOR.keeperDeposit event |>]>
                             (positions st))).
    assert (∃ st3, (st4 = st3 ∨ st4 = st3 <| aggregateStats := aggregateStats st4 |>)
                   ∧ cumulativeStats st3 = cumulativeStats st
                   ∧ markets st3 = markets st
                   ∧ (positions st3 = positions st
                      ∨ ∃ p0, positions st !! Trade.positionId t = Some p0
                              ∧ positions st3
                                = <[Trade.positionId t
                                    := p0 <| Pos.feesPaid :=
                                               Pos.feesPaid p0
                                               + DOR.keeperDeposit event |>]>
                                    (positions st)))
      as (st3 & Hst4 & Hc3 & Hm3 & Hp3).
    { destruct (positions st !! Trade.positionId t) as [p0|] eqn:Hp0.
      - eexists. split; [|split; [|split]].
        + case_bool_decide; [right; by apply updateAggregateStatEntities_frame in H|].
          left. by apply (inj Some) in H as <-.
        + done.
        + done.
        + right. exists p0. split; [done|]. cbn. by rewrite Hpos, Hpid.
      - eexists. split; [|split; [|split]].
        + case_bool_decide; [right; by apply updateAggregateStatEntities_frame in H|].
          left. by apply (inj Some) in H as <-.
        + done.
        + done.
        + by left. }
    destruct Hst4 as [->| ->]; done.
  - apply (inj Some) in H. apply pair_equal_spec in H as [_ <-]. by repeat split; [..|left].
Qed.

End DelayedOrders.

(** ** When the handlers return *)

(** *** The hex of an address has no dash *)

Lemma byteToHex_spec (b : byte) :
  ∃ c d, byteToHex b = String c (String d "") ∧ c ≠ "-"%char ∧ d ≠ "-"%char.
Proof. destruct b; vm_compute; eexists _, _; (split; [reflexivity|split; discriminate]). Qed.

(** A dash-free string is determined by what precedes the first dash. *)

Lemma dashFree_prefix_inj (s s' t t' : string) :
  dashFree s → dashFree s' →
  s +:+ "-" +:+ t = s' +:+ "-" +:+ t' → s = s'.
Proof.
  revert s'. induction s as [|c s IH]; intros [|c' s'] Hs Hs' Heq;
    lazy [String.append] in Heq; fold String.append in Heq; cbn [dashFree] in *.
  - done.
  - injection Heq as Hc _. destruct Hs' as [Hc' _]. congruence.
  - injection Heq as Hc _. destruct Hs as [Hc' _]. congruence.
  - injection Heq as -> Heq. f_equal. apply IH; [tauto|tauto|done].
Qed.

Lemma toHex_dashFree (b : Bytes) : dashFree (toHex b).
Proof.
  unfold toHex. lazy [String.append dashFree]. split; [discriminate|].
  split; [discriminate|]. fold dashFree.
  induction b as [|x b IH]; [done|]. cbn [foldr].
  destruct (byteToHex_spec x) as (c & d & -> & Hc & Hd).
  lazy [String.append]. cbn [dashFree]. tauto.
Qed.

(** *** The counters of trades stay non-negative *)

Lemma getOrCreateMarketCumulativeStats_nonneg k st :
  (∀ k c, cumulativeStats st !! k = Some c → 0 ≤ Cum.totalTrades c) →
  0 ≤ Cum.totalTrades (getOrCreateMarketCumulativeStats k st).
Proof.
  intros Hwf. unfold getOrCreateMarketCumulativeStats.
  destruct (cumulativeStats st !! k) as [c|] eqn:Hc; [by apply (Hwf k)|done].
Qed.

Lemma pmCumulative0_totalTrades event st :
  Cum.totalTrades (pmCumulative0 event st)
  = Cum.totalTrades (getOrCreateMarketCumulativeStats SINGLE_INDEX st).
Proof.
  unfold pmCumulative0, statOrNew. by destruct (stats st !! _).
Qed.

(** *** The handlers return on well-formed stores and keep them so *)

Lemma wellFormed_emptyStore : wellFormed emptyStore.
Proof. split; intros *; cbn; by rewrite lookup_empty. Qed.

Lemma pmPosition0_readable event st :
  wellFormed st → ofKnownMarket st event → readable (pmPosition0 event st).
Proof.
  intros [_ Hwf] Hm. unfold pmPosition0, positionOrNew.
  destruct (positions st !! pmPositionId event) as [p|] eqn:Hp.
  - by apply (Hwf _ _ Hp).
  - destruct Hm as [m ->]. cbn. by split; eexists.
Qed.

(** The funding accrual of the handler returns when the stored position,
    if there is one, carries its asset and its market key: a new
    position is at the funding index of the event. *)
Lemma accrueFunding_returns_stored event st :
  (∀ p, positions st !! pmPositionId event = Some p → readable p) →
  is_Some (accrueFunding event (pmAccount event st) (pmPositionId event)
             (pmPosition0 event st) (pmStat0 event st) st).
Proof.
  intros Hp. apply accrueFunding_returns. unfold pmPosition0, positionOrNew.
  destruct (positions st !! pmPositionId event) as [p|]; [left; by apply Hp|by right].
Qed.

(** The branch of a zero trade size returns on a position that carries
    its asset and its market key. *)
Lemma marginTransferOrLiquidation_returns event acc sa at_ pid fa p s st :
  readable p → is_Some (marginTransferOrLiquidation event acc sa at_ pid fa p s st).
Proof.
  intros Hr.
  destruct (marginTransferOrLiquidation_cases event st) as [[mt Hx]|[(Hx&?&?)|[Hx ?]]].
  - by rewrite (marginTransferOrLiquidation_transfer _ _ _ _ _ _ _ _ _ _ Hx).
  - rewrite marginTransferOrLiquidation_liquidation by done. cbv zeta.
    destruct (newLiquidationTrade_returns event acc sa at_ pid fa p
                ((Pos.initialMargin p + Pos.netTransfers p) * -1 + Pos.feesPaid p
                 - Pos.netFunding p - Pos.pnl p) Hr) as [t ->].
    by eexists.
  - by rewrite marginTransferOrLiquidation_neither.
Qed.

(** The branch of a zero trade size leaves the cumulative entities. *)
Lemma marginTransferOrLiquidation_cumulativeStats event acc sa at_ pid fa p s st p' s' st' :
  marginTransferOrLiquidation event acc sa at_ pid fa p s st = Some (p', s', st') →
  cumulativeStats st' = cumulativeStats st.
Proof.
  destruct (marginTransferOrLiquidation_cases event st) as [[mt Hx]|[(Hx&?&?)|[Hx ?]]].
  - rewrite (marginTransferOrLiquidation_transfer _ _ _ _ _ _ _ _ _ _ Hx).
    by intros [= _ _ <-].
  - rewrite marginTransferOrLiquidation_liquidation by done. cbv zeta.
    destruct (newLiquidationTrade _ _ _ _ _ _ _ _) as [t|]; [|done].
    cbn [mbind option_bind]. by intros [= _ _ <-].
  - rewrite marginTransferOrLiquidation_neither by done. by intros [= _ _ <-].
Qed.

Theorem handlePositionModified_total event st :
  wellFormed st → ofKnownMarket st event → is_Some (handlePositionModified event st).
Proof.
  intros Hwf Hm.
  pose proof (pmPosition0_readable event st Hwf Hm) as Hr.
  destruct (accrueFunding_returns event (pmAccount event st) (pmPositionId event)
              (pmPosition0 event st) (pmStat0 event st) st (or_introl Hr))
    as [[[[fa p1] s1] st1] Hf].
  assert (readable p1) as Hr1.
  { pose proof (accrueFunding_preserved _ _ _ _ _ _ _ _ _ _ Hf)
      as (_&_&_&_& Ha & Hk &_). unfold readable. by rewrite Ha, Hk. }
  destruct (decide (PME.tradeSize event = 0)) as [Hts|Hts].
  - destruct (marginTransferOrLiquidation_returns event (pmAccount event st)
                (PME.account event) (resolveAccountType (PME.account event) st)
                (pmPositionId event) fa p1 s1 st1 Hr1) as [r Hb].
    by apply (handlePositionModified_no_trade_returns event st fa p1 s1 st1 r).
  - assert (is_Some (pmBranch event st fa p1 s1 st1)) as [[[[p2 s2] c2] st2] Hb].
    { unfold pmBranch. rewrite (proj2 (isZero_false _) Hts). cbn [negb].
      apply recordTrade_total. split.
      - rewrite pmCumulative0_totalTrades.
        pose proof (getOrCreateMarketCumulativeStats_nonneg SINGLE_INDEX st
                      (proj1 Hwf)). lia.
      - intros m Hmk.
        pose proof (accrueFunding_frame _ _ _ _ _ _ _ _ _ _ Hf) as Hst1.
        assert (getOrCreateMarketCumulativeStats (toHex (FuturesMarketEntity.asset m)) st1
                = getOrCreateMarketCumulativeStats (toHex (FuturesMarketEntity.asset m)) st)
          as -> by (unfold getOrCreateMarketCumulativeStats; by rewrite Hst1).
        pose proof (getOrCreateMarketCumulativeStats_nonneg
                      (toHex (FuturesMarketEntity.asset m)) st (proj1 Hwf)).
        split; [lia|]. exact Hr1. }
    rewrite (handlePositionModified_intro _ _ _ _ _ _ _ _ _ _ Hf Hb). by eexists.
Qed.

Theorem handlePositionModified_wellFormed event st st' :
  wellFormed st → ofKnownMarket st event →
  handlePositionModified event st = Some st' → wellFormed st'.
Proof.
  intros Hwf Hm H.
  pose proof H as Hspec. apply handlePositionModified_spec in Hspec
    as (fa & p1 & s1 & st1 & p2 & s2 & c2 & st2 & Hf & Hb & Hpos & _ & Hcum & _ & _ & _
        & _ & Hmk & _).
  pose proof (accrueFunding_frame _ _ _ _ _ _ _ _ _ _ Hf) as Hst1.
  assert (cumulativeStats st1 = cumulativeStats st) as Hc1 by (by rewrite Hst1).
  split.
  - (* counters *)
    assert (0 ≤ Cum.totalTrades c2
            ∧ ∀ k c, cumulativeStats st2 !! k = Some c → 0 ≤ Cum.totalTrades c)
      as [Hc2 Hst2].
    { pose proof (getOrCreateMarketCumulativeStats_nonneg SINGLE_INDEX st (proj1 Hwf))
        as H0. rewrite <- pmCumulative0_totalTrades with (event := event) in H0.
      unfold pmBranch in Hb. destruct (isZero (PME.tradeSize event)); cbn [negb] in Hb.
      - destruct (marginTransferOrLiquidation _ _ _ _ _ _ _ _ _)
          as [[[p' s'] st3]|] eqn:Hmt; [|done].
        cbn [mbind option_bind] in Hb.
        apply (inj Some) in Hb. apply pair_equal_spec in Hb as [Hb <-].
        apply pair_equal_spec in Hb as [_ <-]. split; [done|].
        rewrite (marginTransferOrLiquidation_cumulativeStats _ _ _ _ _ _ _ _ _ _ _ _ Hmt).
        rewrite Hc1. apply Hwf.
      - pose proof (recordTrade_cumulativeStats _ _ _ _ _ _ _ _ _ _ _ _ _ _ _ Hb) as Hcs.
        apply recordTrade_inv in Hb as (_&_&_&_&_&_&_&_&_&_& Htt &_).
        split; [lia|]. intros k c.
        destruct (markets st !! _) as [m|].
        + destruct Hcs as (mcs & -> & Hmcs).
          rewrite lookup_insert. case_decide.
          * intros [= <-]. rewrite Hmcs.
            pose proof (getOrCreateMarketCumulativeStats_nonneg
                          (toHex (FuturesMarketEntity.asset m)) st1) as Hn.
            rewrite Hc1 in Hn. specialize (Hn (proj1 Hwf)). lia.
          * rewrite Hc1. apply Hwf.
        + rewrite Hcs, Hc1. apply Hwf. }
    intros k c. rewrite Hcum, lookup_insert. case_decide; [by intros [= <-]|apply Hst2].
  - (* positions *)
    intros id p. rewrite Hpos, lookup_insert. case_decide as Hk.
    + intros [= <-].
      apply pmBranch_preserved in Hb as (Ha & Hkey & _).
      apply accrueFunding_preserved in Hf as (_&_&_&_& Ha1 & Hk1 &_).
      change (is_Some (Pos.marketKey p2) ∧ is_Some (Pos.asset p2)).
      rewrite Ha, Hkey, Ha1, Hk1. by apply pmPosition0_readable.
    + apply Hwf.
Qed.

Lemma handlePositionModified_markets event st st' :
  handlePositionModified event st = Some st' → markets st' = markets st.
Proof.
  intros H. by apply handlePositionModified_spec in H
    as (_&_&_&_&_&_&_&_&_&_&_&_&_&_&_&_&_& Hmk &_).
Qed.

Lemma runPositionModified_markets events st st' :
  runPositionModified events st = Some st' → markets st' = markets st.
Proof.
  revert st. induction events as [|event rest IH]; intros st H; cbn in H.
  - by apply (inj Some) in H as ->.
  - apply bind_Some in H as (st1 & H1 & H).
    by rewrite (IH _ H), (handlePositionModified_markets _ _ _ H1).
Qed.

(** Every list of events of markets the store knows runs to the end from
    a well-formed store. *)
Theorem runPositionModified_total events st :
  wellFormed st → Forall (ofKnownMarket st) events →
  ∃ st', runPositionModified events st = Some st' ∧ wellFormed st'.
Proof.
  intros Hwf Hall. revert st Hwf Hall.
  induction events as [|event rest IH]; intros st Hwf Hall; cbn.
  - by exists st.
  - apply Forall_cons in Hall as [Hm Hall].
    destruct (handlePositionModified_total event st Hwf Hm) as [st1 H1]. rewrite H1. cbn.
    apply IH; [by apply (handlePositionModified_wellFormed event st)|].
    unfold ofKnownMarket. by rewrite (handlePositionModified_markets _ _ _ H1).
Qed.

Theorem handlePositionLiquidated_total event st :
  wellFormed st → is_Some (handlePositionLiquidated event st).
Proof.
  intros [_ Hp]. apply handlePositionLiquidated_returns. intros p Hpos.
  by apply (Hp _ _ Hpos).
Qed.

Theorem handlePositionLiquidated_wellFormed event st st' :
  wellFormed st → handlePositionLiquidated event st = Some st' → wellFormed st'.
Proof.
  intros [Hc Hp] H.
  pose proof (handlePositionLiquidated_positions _ _ _ H) as Hpos.
  pose proof (handlePositionLiquidated_cumulativeStats _ _ _ H) as Hcum.
  cbv zeta in Hcum. split.
  - assert (0 ≤ Cum.totalTrades (getOrCreateCumulativeEntity st)) as H0
      by apply (getOrCreateMarketCumulativeStats_nonneg SINGLE_INDEX st Hc).
    intros k c. rewrite Hcum. destruct (_ ≫= _) as [asset|].
    + rewrite lookup_insert. case_decide.
      * intros [= <-].
        apply (getOrCreateMarketCumulativeStats_nonneg (toHex asset) st Hc).
      * rewrite lookup_insert. case_decide; [by intros [= <-]|apply Hc].
    + rewrite lookup_insert. case_decide; [by intros [= <-]|apply Hc].
  - intros id p. rewrite Hpos.
    destruct (positions st !! positionIdOf (Ev.address (PLE.base event)) (PLE.id event))
      as [p0|] eqn:Hp0; [|apply Hp].
    rewrite lookup_insert. case_decide as Hk; [|apply Hp].
    intros [= <-]. by apply (Hp _ _ Hp0).
Qed.

Theorem handleMarginTransferred_wellFormed event st :
  wellFormed st →
  ∃ st', handleMarginTransferred event st = Some st' ∧ wellFormed st'.
Proof.
  intros [Hc Hp]. unfold handleMarginTransferred. cbv zeta.
  set (r := match marginAccounts st !! _ with
            | Some marginAccountEntity => _
            | None => _
            end).
  assert (positions r.2 = positions st ∧ markets r.2 = markets st
          ∧ ∀ k c, cumulativeStats r.2 !! k = Some c → 0 ≤ Cum.totalTrades c)
    as (Hpos & Hmk & Hcum).
  { subst r. destruct (marginAccounts st !! _); [done|].
    destruct (markets st !! _) as [m|]; [|done].
    split; [done|]. split; [done|]. intros k c. cbn. rewrite lookup_insert.
    case_decide; [|apply Hc]. intros [= <-].
    apply (getOrCreateMarketCumulativeStats_nonneg _ st Hc). }
  destruct r as [ma st1]. cbn [snd] in *. eexists. split; [reflexivity|].
  split.
  - intros k c. apply Hcum.
  - intros id p. cbn. rewrite Hpos. apply Hp.
Qed.

Section DelayedOrdersWellFormed.

Variable bytesToString : Bytes → string.

Theorem handleDelayedOrderSubmitted_wellFormed event st :
  wellFormed st →
  ∃ st', handleDelayedOrderSubmitted bytesToString event st = Some st'
         ∧ wellFormed st'.
Proof.
  intros Hwf. unfold handleDelayedOrderSubmitted.
  destruct (markets st !! _) as [m|]; eexists; (split; [reflexivity|]); [|done].
  destruct Hwf as [Hc Hp]. split; [apply Hc|apply Hp].
Qed.

Lemma fillOrder_wellFormed event acc at_ m smo o s tid t st o' st' :
  wellFormed st →
  fillOrder bytesToString event acc at_ m smo o s tid t st = Some (o', st') →
  wellFormed st'.
Proof.
  intros [Hc Hp] H. apply fillOrder_tables in H as (Hcum & Hmk & Hpos).
  split; [rewrite Hcum; apply Hc|].
  intros id p.
  destruct Hpos as [->|(p0 & Hp0 & ->)]; [apply Hp|].
  rewrite lookup_insert. case_decide as Hid; [|apply Hp].
  intros [= <-]. exact (Hp _ _ Hp0).
Qed.

Theorem handleDelayedOrderRemoved_wellFormed event st :
  wellFormed st →
  ∃ st', handleDelayedOrderRemoved bytesToString event st = Some st'
         ∧ wellFormed st'.
Proof.
  intros Hwf. unfold handleDelayedOrderRemoved.
  destruct (markets st !! _) as [m|]; [|by eexists]. cbv zeta.
  destruct (orders st !! _) as [o|]; [|by eexists].
  destruct (stats st !! toHex (resolveAccount (DOR.account event) st)) as [s|];
    destruct (trades st !! tradeIdOf (Ev.transaction_hash (DOR.base event))
                             (Ev.logIndex (DOR.base event) - 1)) as [t|].
  2-4: cbn [mbind option_bind]; eexists; (split; [reflexivity|]);
       destruct Hwf as [Hc Hp]; (split; [apply Hc|apply Hp]).
  match goal with
  | |- context [fillOrder ?b ?e ?a ?at_ ?m ?smo ?o ?s ?tid ?t ?st] =>
      destruct (fillOrder_total b e a at_ m smo o s tid t st) as (st1 & Hfill & _);
      pose proof (fillOrder_wellFormed _ _ _ _ _ _ _ _ _ _ _ _ Hwf Hfill) as [Hc1 Hp1];
      rewrite Hfill
  end.
  cbn [mbind option_bind]. eexists. split; [reflexivity|].
  split; [apply Hc1|apply Hp1].
Qed.

End DelayedOrdersWellFormed.

(** ** C1: the pnl identity of a saved position *)

(** C1. The position entity saved by [handlePositionModified], by
    [handlePositionLiquidated] and by [handlePositionLiquidatedV2]
    satisfies [pnlWithFeesPaid = pnl - feesPaid + netFunding]. The two
    liquidation handlers read the asset of the position they find (lines
    480 and 545): on a stored position that carries its asset they
    return and save the position, with the identity. *)
Theorem position_pnlWithFeesPaid_identity :
  (∀ event st st',
     handlePositionModified event st = Some st' →
     ∃ p, positions st' !! pmPositionId event = Some p
          ∧ Pos.pnlWithFeesPaid p = Pos.pnl p - Pos.feesPaid p + Pos.netFunding p)
  ∧ (∀ event st p0,
       positions st !! positionIdOf (Ev.address (PLE.base event)) (PLE.id event)
         = Some p0 →
       is_Some (Pos.asset p0) →
       ∃ st' p,
         handlePositionLiquidated event st = Some st'
         ∧ positions st' !! positionIdOf (Ev.address (PLE.base event)) (PLE.id event)
           = Some p
         ∧ Pos.pnlWithFeesPaid p = Pos.pnl p - Pos.feesPaid p + Pos.netFunding p)
  ∧ (∀ event st p0,
       positions st !! positionIdOf (Ev.address (PLE2.base event)) (PLE2.id event)
         = Some p0 →
       is_Some (Pos.asset p0) →
       ∃ st' p,
         handlePositionLiquidatedV2 event st = Some st'
         ∧ positions st' !! positionIdOf (Ev.address (PLE2.base event)) (PLE2.id event)
           = Some p
         ∧ Pos.pnlWithFeesPaid p = Pos.pnl p - Pos.feesPaid p + Pos.netFunding p).
Proof.
  assert (∀ event st p0,
    positions st !! positionIdOf (Ev.address (PLE.base event)) (PLE.id event)
      = Some p0 →
    is_Some (Pos.asset p0) →
    ∃ st' p,
      handlePositionLiquidated event st = Some st'
      ∧ positions st' !! positionIdOf (Ev.address (PLE.base event)) (PLE.id event)
        = Some p
      ∧ Pos.pnlWithFeesPaid p = Pos.pnl p - Pos.feesPaid p + Pos.netFunding p) as Hliq.
  { intros event st p0 Hp0 Ha.
    destruct (proj2 (handlePositionLiquidated_returns event st)) as [st' Hst'].
    { intros p Hp. rewrite Hp0 in Hp. by injection Hp as <-. }
    exists st', (liquidatedPosition event p0). split; [done|].
    apply handlePositionLiquidated_positions in Hst'. rewrite Hst', Hp0.
    by rewrite lookup_insert_eq. }
  split; [|split].
  - intros event st st' H.
    apply handlePositionModified_spec in H
      as (fa & p1 & s1 & st1 & p2 & s2 & c2 & st2 & _ & _ & Hpos & _).
    exists (updatePositionValues event p2). rewrite Hpos, lookup_insert_eq.
    split; [done|]. apply updatePositionValues_pnlWithFeesPaid.
  - exact Hliq.
  - intros event st p0 Hp0 Ha. rewrite handlePositionLiquidatedV2_eq.
    by apply (Hliq (PLE.mk _ _ _ _ _) st p0).
Qed.

Lemma position_pnlWithFeesPaid_identity_witness :
  (∃ p, positions marketOpenedStore !! pmPositionId openEvent = Some p
        ∧ Pos.pnlWithFeesPaid p = Pos.pnl p - Pos.feesPaid p + Pos.netFunding p)
  ∧ (∃ st' p,
       handlePositionLiquidated liquidationEvent marketOpenedStore = Some st'
       ∧ positions st' !! positionIdOf market1 7 = Some p
       ∧ Pos.pnlWithFeesPaid p = Pos.pnl p - Pos.feesPaid p + Pos.netFunding p)
  ∧ (∃ st' p,
       handlePositionLiquidatedV2 liquidationEventV2 marketOpenedStore = Some st'
       ∧ positions st' !! positionIdOf market1 7 = Some p
       ∧ Pos.pnlWithFeesPaid p = Pos.pnl p - Pos.feesPaid p + Pos.netFunding p).
Proof.
  split; [|split].
  - apply (proj1 position_pnlWithFeesPaid_identity openEvent marketStore
             marketOpenedStore).
    vm_compute. reflexivity.
  - refine (proj1 (proj2 position_pnlWithFeesPaid_identity)
              liquidationEvent marketOpenedStore
              (pmPosition0 openEvent marketOpenedStore) _ _).
    + vm_compute. reflexivity.
    + vm_compute. by eexists.
  - refine (proj2 (proj2 position_pnlWithFeesPaid_identity)
              liquidationEventV2 marketOpenedStore
              (pmPosition0 openEvent marketOpenedStore) _ _).
    + vm_compute. reflexivity.
    + vm_compute. by eexists.
Defined.

(** ** C2: the pnl identity of the stats entity *)

(** The trailing update of the stats entity computes [pnlWithFeesPaid]
    before it adds the fee of the event: the saved entity is off by that
    fee. *)
Lemma stat_pnlWithFeesPaid_lags_by_fee event st st' :
  handlePositionModified event st = Some st' →
  ∃ s, stats st' !! toHex (pmAccount event st) = Some s
       ∧ Stat.pnlWithFeesPaid s = Stat.pnl s - Stat.feesPaid s + PME.fee event.
Proof.
  intros H. apply handlePositionModified_spec in H
    as (fa & p1 & s1 & st1 & p2 & s2 & c2 & st2 & _ & _ & _ & Hstats & _).
  exists (updateStatValues event s2). rewrite Hstats, lookup_insert_eq.
  split; [done|]. cbn. lia.
Qed.

(** C2. On the opening event of the spec's scenario (fee 5, first event of
    the trader) the saved stats entity has [pnl = 0], [feesPaid = 5] and
    [pnlWithFeesPaid = 0]: the identity [pnlWithFeesPaid = pnl - feesPaid]
    does not hold on it. *)
Theorem stat_identity_fails_at_open :
  ∃ st' s,
    handlePositionModified openEvent emptyStore = Some st'
    ∧ stats st' !! toHex alice = Some s
    ∧ Stat.pnl s = 0 ∧ Stat.feesPaid s = 5 ∧ Stat.pnlWithFeesPaid s = 0
    ∧ Stat.pnlWithFeesPaid s ≠ Stat.pnl s - Stat.feesPaid s.
Proof.
  eexists _, _. split; [vm_compute; reflexivity|].
  split; [vm_compute; reflexivity|]. by vm_compute.
Qed.

(** ** C3: the average entry price of an increase *)

Lemma sameSide_not_sideFlip oldSize newSize :
  sameSide oldSize newSize → newSize ≠ 0 ∧ ¬ sideFlip oldSize newSize.
Proof. unfold sameSide, sideFlip. lia. Qed.

(** One increase: what the handler saves. *)
Lemma handlePositionModified_increase event st st' p :
  positions st !! pmPositionId event = Some p →
  PME.tradeSize event ≠ 0 →
  sameSide (Pos.size p) (PME.size event) →
  Z.abs (Pos.size p) < Z.abs (PME.size event) →
  handlePositionModified event st = Some st' →
  let price :=
    Z.quot (Z.abs (Pos.size p) * Pos.entryPrice p
            + Z.abs (PME.tradeSize event) * PME.lastPrice event)
           (Z.abs (PME.size event)) in
  ∃ p' s' t,
    positions st' !! pmPositionId event = Some p'
    ∧ stats st' !! toHex (pmAccount event st) = Some s'
    ∧ trades st'
        !! tradeIdOf (Ev.transaction_hash (PME.base event)) (Ev.logIndex (PME.base event))
      = Some t
    ∧ Trade.pnl t = 0
    ∧ Pos.pnl p' = Pos.pnl p
    ∧ Stat.pnl s' = Stat.pnl (pmStat0 event st)
    ∧ Pos.avgEntryPrice p' = price
    ∧ Pos.entryPrice p' = price
    ∧ Pos.size p' = PME.size event.
Proof.
  intros Hp Hts Hside Hinc H price.
  apply sameSide_not_sideFlip in Hside as [Hnz Hflip].
  apply handlePositionModified_trade in H
    as (fa & p1 & s1 & st1 & t2 & p2 & s2 & p' & s' & Hf & Hu & Hp' & Hs' & Ht
        & Hpnl & Havg & Hentry & _ & _ & _ & Hsize & Hspnl); [|done].
  assert (pmPosition0 event st = p) as Hp0
    by (unfold pmPosition0, positionOrNew; by rewrite Hp).
  rewrite Hp0 in Hf.
  apply accrueFunding_preserved in Hf
    as (He & _ & Hs & Hp1 & _ & _ & _ & _ & _ & _ & Hs1 & _).
  rewrite updatePnlAndEntryPrice_increase in Hu by (by rewrite ?Hs).
  cbv zeta in Hu. apply (inj Some) in Hu. apply pair_equal_spec in Hu as [Hu <-].
  apply pair_equal_spec in Hu as [<- <-].
  eexists p', s', _. split; [done|]. split; [done|]. split; [exact Ht|].
  rewrite Hpnl, Havg, Hentry, Hspnl, Hsize. cbn. rewrite He, Hs, Hp1, Hs1.
  by rewrite newTrade_pnl.
Qed.

(** The truncated quotient of a cost that is not negative loses less than
    the divisor. *)
Lemma quot_bounds cost volume :
  0 ≤ cost → 0 < volume →
  0 ≤ Z.quot cost volume
  ∧ volume * Z.quot cost volume ≤ cost
  ∧ cost ≤ volume * Z.quot cost volume + (volume - 1).
Proof.
  intros Hc Hv. rewrite Z.quot_div_nonneg by lia.
  pose proof (Z.div_pos cost volume Hc Hv).
  pose proof (Z.mul_div_le cost volume Hv).
  pose proof (Z.mul_succ_div_gt cost volume Hv). lia.
Qed.

(** A run of increases keeps the average entry price within the
    truncation of one division a step of the volume-weighted average. *)
Lemma runPositionModified_increases pid events :
  ∀ st st' p,
    positions st !! pid = Some p →
    Pos.entryPrice p = Pos.avgEntryPrice p →
    0 ≤ Pos.avgEntryPrice p → Pos.size p ≠ 0 →
    increases pid (Pos.size p) events →
    runPositionModified events st = Some st' →
    ∃ p',
      positions st' !! pid = Some p'
      ∧ Z.abs (Pos.size p') = Z.abs (Pos.size p) + addedVolume events
      ∧ Z.abs (Pos.size p') * Pos.avgEntryPrice p'
        ≤ Z.abs (Pos.size p) * Pos.avgEntryPrice p + addedCost events
      ∧ Z.abs (Pos.size p) * Pos.avgEntryPrice p + addedCost events
        ≤ Z.abs (Pos.size p') * Pos.avgEntryPrice p'
          + Z.of_nat (length events) * (Z.abs (Pos.size p') - 1).
Proof.
  induction events as [|event rest IH]; intros st st' p Hp Heq Hpos Hnz Hinc Hrun.
  - apply (inj Some) in Hrun as <-. exists p. cbn. split; [done|]. lia.
  - cbn in Hrun. apply bind_Some in Hrun as (st1 & H1 & Hrun).
    destruct Hinc as ((Hpid & Hts & Hside & Hvol & Hprice) & Hrest).
    rewrite <- Hpid in Hp.
    pose proof (handlePositionModified_increase event st st1 p Hp Hts Hside
                  ltac:(lia) H1) as Hstep.
    cbv zeta in Hstep.
    destruct Hstep
      as (p1 & s1 & t1 & Hp1 & _ & _ & _ & _ & _ & Havg1 & Hentry1 & Hsize1).
    rewrite Hpid in Hp1. rewrite Heq in Havg1.
    assert (0 < Z.abs (PME.size event)) as Hv by lia.
    assert (0 ≤ Z.abs (Pos.size p) * Pos.avgEntryPrice p
                + Z.abs (PME.tradeSize event) * PME.lastPrice event) as Hc by nia.
    destruct (quot_bounds _ _ Hc Hv) as (Hq0 & Hq1 & Hq2).
    rewrite <- Havg1 in Hq0, Hq1, Hq2.
    destruct (IH st1 st' p1 Hp1) as (p' & Hp' & Hvol' & Hlo & Hhi);
      [congruence|done|by rewrite Hsize1; destruct Hside; lia|by rewrite Hsize1|done|].
    rewrite Hsize1 in Hvol', Hlo, Hhi.
    exists p'. split; [done|]. cbn [addedVolume addedCost length].
    assert (0 ≤ addedVolume rest) as Hrest0.
    { clear. induction rest as [|e r IHr]; cbn; lia. }
    split; [lia|]. split; [lia|]. nia.
Qed.

(** C3, with the truncation of [BigInt.div]. A same-side increase of an
    existing position (trade size not zero, the new size larger in
    magnitude) realises no pnl — the trade entity has pnl zero, the pnl of
    the position and of the stats entity stay — and writes to
    [avgEntryPrice] and [entryPrice] the truncated quotient
    [(|oldSize| * entryPrice + |tradeSize| * lastPrice) / |newSize|].
    Over [n] consecutive increases at prices that are not negative, each
    adding its trade size, the final average is the volume-weighted
    average up to the truncation of the [n] divisions: the final volume
    times the average is at most the total cost, and the total cost
    exceeds it by at most [n * (volume - 1)]. *)
Theorem increase_updates_average_entry_price :
  (∀ event st st' p,
     positions st !! pmPositionId event = Some p →
     PME.tradeSize event ≠ 0 →
     sameSide (Pos.size p) (PME.size event) →
     Z.abs (Pos.size p) < Z.abs (PME.size event) →
     handlePositionModified event st = Some st' →
     let price :=
       Z.quot (Z.abs (Pos.size p) * Pos.entryPrice p
               + Z.abs (PME.tradeSize event) * PME.lastPrice event)
              (Z.abs (PME.size event)) in
     ∃ p' s' t,
       positions st' !! pmPositionId event = Some p'
       ∧ stats st' !! toHex (pmAccount event st) = Some s'
       ∧ trades st'
           !! tradeIdOf (Ev.transaction_hash (PME.base event))
                (Ev.logIndex (PME.base event)) = Some t
       ∧ Trade.pnl t = 0
       ∧ Pos.pnl p' = Pos.pnl p
       ∧ Stat.pnl s' = Stat.pnl (pmStat0 event st)
       ∧ Pos.avgEntryPrice p' = price
       ∧ Pos.entryPrice p' = price
       ∧ Pos.size p' = PME.size event)
  ∧ (∀ pid events st st' p,
       positions st !! pid = Some p →
       Pos.entryPrice p = Pos.avgEntryPrice p →
       0 ≤ Pos.avgEntryPrice p → Pos.size p ≠ 0 →
       increases pid (Pos.size p) events →
       runPositionModified events st = Some st' →
       ∃ p',
         positions st' !! pid = Some p'
         ∧ Z.abs (Pos.size p') = Z.abs (Pos.size p) + addedVolume events
         ∧ Z.abs (Pos.size p') * Pos.avgEntryPrice p'
           ≤ Z.abs (Pos.size p) * Pos.avgEntryPrice p + addedCost events
         ∧ Z.abs (Pos.size p) * Pos.avgEntryPrice p + addedCost events
           ≤ Z.abs (Pos.size p') * Pos.avgEntryPrice p'
             + Z.of_nat (length events) * (Z.abs (Pos.size p') - 1)).
Proof.
  split.
  - exact handlePositionModified_increase.
  - intros pid events. apply runPositionModified_increases.
Qed.

(** The average depends on the split: the same two units at the same price give
    an average of 106.666666666666666666 when added in two events and of
    106.666666666666666667, the volume-weighted average of the three
    units, when added in one. *)
Lemma average_depends_on_the_split :
  ∃ st2 st1 p2 p1,
    runPositionModified inTwoSteps splitOpenedStore = Some st2
    ∧ runPositionModified inOneStep splitOpenedStore = Some st1
    ∧ positions st2 !! pmPositionId splitOpenEvent = Some p2
    ∧ positions st1 !! pmPositionId splitOpenEvent = Some p1
    ∧ Pos.size p2 = 3 * ETHER ∧ Pos.size p1 = 3 * ETHER
    ∧ Pos.avgEntryPrice p2 = 106666666666666666666
    ∧ Pos.avgEntryPrice p1 = 106666666666666666667
    ∧ Z.quot (1 * ETHER * (100 * ETHER + 1) + addedCost inTwoSteps) (3 * ETHER)
      = 106666666666666666667
    ∧ addedCost inTwoSteps = addedCost inOneStep.
Proof.
  eexists _, _, _, _. split; [vm_compute; reflexivity|].
  split; [vm_compute; reflexivity|]. split; [vm_compute; reflexivity|].
  split; [vm_compute; reflexivity|]. by vm_compute.
Qed.

Lemma increase_updates_average_entry_price_witness :
  (∃ p' s' t,
     positions inTwoStepsStore !! pmPositionId (addEvent 3 (3 * ETHER) (1 * ETHER))
       = Some p'
     ∧ stats inTwoStepsStore !! toHex alice = Some s'
     ∧ trades inTwoStepsStore !! tradeIdOf hash1 3 = Some t
     ∧ Trade.pnl t = 0
     ∧ Pos.pnl p' = 0
     ∧ Stat.pnl s' = 0
     ∧ Pos.avgEntryPrice p' = 106666666666666666666
     ∧ Pos.entryPrice p' = 106666666666666666666
     ∧ Pos.size p' = 3 * ETHER)
  ∧ (∃ p',
       positions inTwoStepsStore !! pmPositionId splitOpenEvent = Some p'
       ∧ Z.abs (Pos.size p') = Z.abs (1 * ETHER) + addedVolume inTwoSteps
       ∧ Z.abs (Pos.size p') * Pos.avgEntryPrice p'
         ≤ Z.abs (1 * ETHER) * (100 * ETHER + 1) + addedCost inTwoSteps
       ∧ Z.abs (1 * ETHER) * (100 * ETHER + 1) + addedCost inTwoSteps
         ≤ Z.abs (Pos.size p') * Pos.avgEntryPrice p'
           + Z.of_nat (length inTwoSteps) * (Z.abs (Pos.size p') - 1)).
Proof.
  split.
  - refine (proj1 increase_updates_average_entry_price
              (addEvent 3 (3 * ETHER) (1 * ETHER))
              (default emptyStore
                 (handlePositionModified (addEvent 2 (2 * ETHER) (1 * ETHER))
                    splitOpenedStore))
              inTwoStepsStore
              (pmPosition0 (addEvent 3 (3 * ETHER) (1 * ETHER))
                 (default emptyStore
                    (handlePositionModified (addEvent 2 (2 * ETHER) (1 * ETHER))
                       splitOpenedStore)))
              _ _ _ _ _).
    + vm_compute. reflexivity.
    + vm_compute. discriminate.
    + left. vm_compute. done.
    + vm_compute. reflexivity.
    + vm_compute. reflexivity.
  - refine (proj2 increase_updates_average_entry_price
              (pmPositionId splitOpenEvent) inTwoSteps splitOpenedStore inTwoStepsStore
              (pmPosition0 splitOpenEvent splitOpenedStore) _ _ _ _ _ _).
    + vm_compute. reflexivity.
    + vm_compute. reflexivity.
    + vm_compute. discriminate.
    + vm_compute. discriminate.
    + vm_compute. repeat split; (discriminate || (left; done) || done).
    + vm_compute. reflexivity.
Defined.

(** ** C4: the pnl of a full close *)

Lemma runPositionModified_keepsSize pid size events st st' p :
  size ≠ 0 →
  Forall (keepsSize pid size) events →
  positions st !! pid = Some p →
  runPositionModified events st = Some st' →
  ∃ p', positions st' !! pid = Some p'
        ∧ Pos.pnl p' = Pos.pnl p ∧ Pos.avgEntryPrice p' = Pos.avgEntryPrice p
        ∧ Pos.entryPrice p' = Pos.entryPrice p
        ∧ (events ≠ [] → Pos.size p' = size).
Proof.
  intros Hsz Hall. revert st p.
  induction Hall as [|event rest (Hpid & Hts & Hsize) _ IH]; intros st p Hp Hrun.
  - apply (inj Some) in Hrun as <-. by exists p.
  - cbn in Hrun. apply bind_Some in Hrun as (st1 & H1 & Hrun).
    rewrite <- Hpid in Hp.
    destruct (handlePositionModified_no_trade_open event st st1 p Hp Hts)
      as (p1 & Hp1 & Hpnl & Ha & He & Hs & _); [by rewrite Hsize|done|].
    rewrite Hpid in Hp1.
    destruct (IH st1 p1 Hp1 Hrun) as (p' & Hp' & Hpnl' & Ha' & He' & Hs').
    exists p'. repeat split; try congruence.
    intros _. destruct rest as [|e rest]; [|by apply Hs'].
    apply (inj Some) in Hrun as <-. rewrite Hp1 in Hp'.
    apply (inj Some) in Hp' as <-. congruence.
Qed.

(** The full close of an existing position. *)
Lemma handlePositionModified_close event st st' p :
  positions st !! pmPositionId event = Some p →
  PME.tradeSize event ≠ 0 → PME.size event = 0 →
  handlePositionModified event st = Some st' →
  let newPnl :=
    Z.quot ((PME.lastPrice event - Pos.avgEntryPrice p) * Pos.size p) ETHER in
  ∃ p' s' t,
    positions st' !! pmPositionId event = Some p'
    ∧ stats st' !! toHex (pmAccount event st) = Some s'
    ∧ trades st'
        !! tradeIdOf (Ev.transaction_hash (PME.base event))
             (Ev.logIndex (PME.base event)) = Some t
    ∧ Trade.pnl t = newPnl
    ∧ Pos.pnl p' = Pos.pnl p + newPnl
    ∧ Stat.pnl s' = Stat.pnl (pmStat0 event st) + newPnl
    ∧ Pos.isOpen p' = false
    ∧ Pos.exitPrice p' = Some (PME.lastPrice event)
    ∧ Pos.closeTimestamp p' = Some (Ev.block_timestamp (PME.base event)).
Proof.
  intros Hp Hts Hsz H newPnl.
  apply handlePositionModified_trade in H
    as (fa & p1 & s1 & st1 & t2 & p2 & s2 & p' & s' & Hf & Hu & Hp' & Hs' & Ht
        & Hpnl & _ & _ & Hopen & Hexit & Hct & _ & Hspnl); [|done].
  assert (pmPosition0 event st = p) as Hp0
    by (unfold pmPosition0, positionOrNew; by rewrite Hp).
  rewrite Hp0 in Hf.
  apply accrueFunding_preserved in Hf
    as (_ & Ha & Hs & Hp1 & _ & _ & _ & _ & _ & _ & Hs1 & _).
  rewrite updatePnlAndEntryPrice_close in Hu by done. cbv zeta in Hu.
  apply (inj Some) in Hu. apply pair_equal_spec in Hu as [Hu <-].
  apply pair_equal_spec in Hu as [<- <-].
  eexists p', s', _. split; [done|]. split; [done|]. split; [exact Ht|].
  rewrite Hpnl, Hspnl, Hopen, Hexit, Hct. cbn. rewrite Ha, Hs, Hp1, Hs1. done.
Qed.

(** A position opened, left without a trade, and closed. *)
Lemma round_trip_pnl opening between closing st st1 st2 st3 :
  positions st !! pmPositionId opening = None →
  PME.tradeSize opening ≠ 0 → PME.size opening ≠ 0 →
  Forall (keepsSize (pmPositionId opening) (PME.size opening)) between →
  pmPositionId closing = pmPositionId opening →
  PME.tradeSize closing ≠ 0 → PME.size closing = 0 →
  handlePositionModified opening st = Some st1 →
  runPositionModified between st1 = Some st2 →
  handlePositionModified closing st2 = Some st3 →
  let roundTrip :=
    Z.quot ((PME.lastPrice closing - PME.lastPrice opening) * PME.size opening)
      ETHER in
  ∃ p t,
    positions st3 !! pmPositionId opening = Some p
    ∧ trades st3
        !! tradeIdOf (Ev.transaction_hash (PME.base closing))
             (Ev.logIndex (PME.base closing)) = Some t
    ∧ Trade.pnl t = roundTrip ∧ Pos.pnl p = roundTrip ∧ Pos.isOpen p = false.
Proof.
  intros Hnone Hts1 Hsz1 Hall Hpid Hts2 Hsz2 H1 H2 H3 roundTrip.
  (* the opening event *)
  apply handlePositionModified_trade in H1
    as (fa & p1 & s1 & st1' & t2 & p2 & s2 & pa & sa & Hf & Hu & Hpa & _ & _
        & Hpnl & Havg & _ & _ & _ & _ & Hsize & _); [|done].
  assert (pmPosition0 opening st
          = newPosition opening (pmAccount opening st) (PME.account opening)
              (resolveAccountType (PME.account opening) st)
              (markets st !! toHex (Ev.address (PME.base opening)))) as Hp0
    by (unfold pmPosition0, positionOrNew; by rewrite Hnone).
  rewrite Hp0 in Hf.
  apply accrueFunding_preserved in Hf as (_ & Ha1 & Hs1 & Hp1 & _).
  cbn in Ha1, Hs1, Hp1.
  assert (Pos.pnl p2 = 0 ∧ Pos.avgEntryPrice p2 = PME.lastPrice opening) as [Hp2 Ha2].
  { rewrite updatePnlAndEntryPrice_reduce in Hu; [|done|unfold sideFlip; lia|lia].
    cbv zeta in Hu. apply (inj Some) in Hu. apply pair_equal_spec in Hu as [Hu _].
    apply pair_equal_spec in Hu as [_ <-]. cbn.
    rewrite Ha1, Hp1, Z.sub_diag, !Z.mul_0_l. done. }
  (* the events in between *)
  destruct (runPositionModified_keepsSize _ _ _ _ _ _ Hsz1 Hall Hpa H2)
    as (pb & Hpb & Hpnlb & Havgb & _ & Hsizeb).
  assert (Pos.size pb = PME.size opening) as Hsb.
  { destruct between as [|e rest]; [|by apply Hsizeb].
    apply (inj Some) in H2 as <-. rewrite Hpa in Hpb.
    by apply (inj Some) in Hpb as <-. }
  (* the closing event *)
  rewrite <- Hpid in Hpb.
  pose proof (handlePositionModified_close closing st2 st3 pb Hpb Hts2 Hsz2 H3)
    as Hclose.
  cbv zeta in Hclose.
  destruct Hclose as (p' & s' & t & Hp' & _ & Ht & Htp & Hpp & _ & Hopen & _).
  exists p', t. rewrite <- Hpid. split; [done|]. split; [done|].
  rewrite Htp, Hpp, Hpnlb, Havgb, Hsb, Hpnl, Havg, Hp2, Ha2.
  subst roundTrip. repeat split; done.
Qed.

(** C4. A full close (trade size not zero, new size zero) of an existing
    position realises [(lastPrice - avgEntryPrice) * oldSize / ETHER]: it
    is the pnl of the trade entity and is added to the pnl of the position
    and of the stats entity; the position is saved closed, with the exit
    price and the close timestamp of the event. In particular a position
    opened with size [S] at price [P1], touched by no trade until it is
    closed at price [P2], ends with trade pnl and position pnl
    [(P2 - P1) * S / ETHER]. *)
Theorem full_close_realises_pnl :
  (∀ event st st' p,
     positions st !! pmPositionId event = Some p →
     PME.tradeSize event ≠ 0 → PME.size event = 0 →
     handlePositionModified event st = Some st' →
     let newPnl :=
       Z.quot ((PME.lastPrice event - Pos.avgEntryPrice p) * Pos.size p) ETHER in
     ∃ p' s' t,
       positions st' !! pmPositionId event = Some p'
       ∧ stats st' !! toHex (pmAccount event st) = Some s'
       ∧ trades st'
           !! tradeIdOf (Ev.transaction_hash (PME.base event))
                (Ev.logIndex (PME.base event)) = Some t
       ∧ Trade.pnl t = newPnl
       ∧ Pos.pnl p' = Pos.pnl p + newPnl
       ∧ Stat.pnl s' = Stat.pnl (pmStat0 event st) + newPnl
       ∧ Pos.isOpen p' = false
       ∧ Pos.exitPrice p' = Some (PME.lastPrice event)
       ∧ Pos.closeTimestamp p' = Some (Ev.block_timestamp (PME.base event)))
  ∧ (∀ opening between closing st st1 st2 st3,
       positions st !! pmPositionId opening = None →
       PME.tradeSize opening ≠ 0 → PME.size opening ≠ 0 →
       Forall (keepsSize (pmPositionId opening) (PME.size opening)) between →
       pmPositionId closing = pmPositionId opening →
       PME.tradeSize closing ≠ 0 → PME.size closing = 0 →
       handlePositionModified opening st = Some st1 →
       runPositionModified between st1 = Some st2 →
       handlePositionModified closing st2 = Some st3 →
       let roundTrip :=
         Z.quot ((PME.lastPrice closing - PME.lastPrice opening) * PME.size opening)
           ETHER in
       ∃ p t,
         positions st3 !! pmPositionId opening = Some p
         ∧ trades st3
             !! tradeIdOf (Ev.transaction_hash (PME.base closing))
                  (Ev.logIndex (PME.base closing)) = Some t
         ∧ Trade.pnl t = roundTrip ∧ Pos.pnl p = roundTrip ∧ Pos.isOpen p = false).
Proof.
  split.
  - exact handlePositionModified_close.
  - exact round_trip_pnl.
Qed.

Lemma full_close_realises_pnl_witness :
  (∃ p' s' t,
     positions unitClosedStore !! pmPositionId unitCloseEvent = Some p'
     ∧ stats unitClosedStore !! toHex alice = Some s'
     ∧ trades unitClosedStore !! tradeIdOf hash1 3 = Some t
     ∧ Trade.pnl t = 200 * ETHER
     ∧ Pos.pnl p' = 0 + 200 * ETHER
     ∧ Stat.pnl s' = 0 + 200 * ETHER
     ∧ Pos.isOpen p' = false
     ∧ Pos.exitPrice p' = Some (120 * ETHER)
     ∧ Pos.closeTimestamp p' = Some 1000)
  ∧ (∃ p t,
       positions unitClosedStore !! pmPositionId unitOpenEvent = Some p
       ∧ trades unitClosedStore !! tradeIdOf hash1 3 = Some t
       ∧ Trade.pnl t = 200 * ETHER ∧ Pos.pnl p = 200 * ETHER ∧ Pos.isOpen p = false).
Proof.
  split.
  - refine (proj1 full_close_realises_pnl unitCloseEvent unitTouchedStore
              unitClosedStore (pmPosition0 unitCloseEvent unitTouchedStore) _ _ _ _).
    + vm_compute. reflexivity.
    + vm_compute. discriminate.
    + reflexivity.
    + vm_compute. reflexivity.
  - refine (proj2 full_close_realises_pnl unitOpenEvent [unitTouchEvent]
              unitCloseEvent emptyStore unitOpenedStore unitTouchedStore
              unitClosedStore _ _ _ _ _ _ _ _ _ _).
    + reflexivity.
    + vm_compute. discriminate.
    + vm_compute. discriminate.
    + repeat constructor.
    + reflexivity.
    + vm_compute. discriminate.
    + reflexivity.
    + vm_compute. reflexivity.
    + vm_compute. reflexivity.
    + vm_compute. reflexivity.
Defined.

(** ** C5: a margin transfer is not a liquidation *)

(** C5. An event without a trade size whose preceding log is a margin
    transfer of the same transaction and market is a margin transfer.
    Whenever the handler returns on it, the signed size of the transfer
    is added to [netTransfers] of the position the handler works on
    (loaded, or new with zero totals), it is added to [totalDeposits]
    when positive, and no trade entity is written, whatever the size and
    margin of the event. The funding accrual runs first and reads the
    asset and the market key of the position when it pays funding (lines
    179-180): the handler returns when the stored position, if there is
    one, carries them. *)
Theorem margin_transfer_is_not_liquidation event st mt :
  PME.tradeSize event = 0 →
  marginTransfers st
    !! marginTransferIdOf (Ev.address (PME.base event))
         (Ev.transaction_hash (PME.base event)) (Ev.logIndex (PME.base event) - 1)
    = Some mt →
  ((∀ p, positions st !! pmPositionId event = Some p → readable p) →
   is_Some (handlePositionModified event st))
  ∧ ∀ st',
      handlePositionModified event st = Some st' →
      trades st' = trades st
      ∧ ∃ p',
          positions st' !! pmPositionId event = Some p'
          ∧ Pos.netTransfers p'
            = Pos.netTransfers (pmPosition0 event st) + FuturesMarginTransfer.size mt
          ∧ Pos.totalDeposits p'
            = Pos.totalDeposits (pmPosition0 event st)
              + (if bool_decide (0 < FuturesMarginTransfer.size mt)
                 then FuturesMarginTransfer.size mt else 0).
Proof.
  intros Hts Hmt.
  assert (∀ fa p1 s1 st1,
            accrueFunding event (pmAccount event st) (pmPositionId event)
              (pmPosition0 event st) (pmStat0 event st) st = Some (fa, p1, s1, st1) →
            marginTransferOrLiquidation event (pmAccount event st) (PME.account event)
              (resolveAccountType (PME.account event) st) (pmPositionId event)
              fa p1 s1 st1
            = Some ((let p2 :=
                       p1 <| Pos.netTransfers :=
                               Pos.netTransfers p1 + FuturesMarginTransfer.size mt |> in
                     if gt (FuturesMarginTransfer.size mt) ZERO
                     then p2 <| Pos.totalDeposits :=
                                  Pos.totalDeposits p1 + FuturesMarginTransfer.size mt |>
                     else p2), s1, st1)) as Hbranch.
  { intros fa p1 s1 st1 Hf.
    pose proof (accrueFunding_frame _ _ _ _ _ _ _ _ _ _ Hf) as Hst1.
    apply marginTransferOrLiquidation_transfer. by rewrite Hst1. }
  split.
  - intros Hread.
    destruct (accrueFunding_returns_stored event st Hread) as [[[[fa p1] s1] st1] Hf].
    exact (handlePositionModified_no_trade_returns event st fa p1 s1 st1 _ Hts Hf
             (Hbranch _ _ _ _ Hf)).
  - intros st' H.
    destruct (handlePositionModified_no_trade event st st' Hts H)
      as (fa & p1 & s1 & st1 & p2 & s2 & st2 & Hf & Hm & Hb).
    pose proof (handlePositionModified_intro _ _ _ _ _ _ _ _ _ _ Hf Hb) as Hrun.
    rewrite H in Hrun. apply (inj Some) in Hrun.
    pose proof (accrueFunding_frame _ _ _ _ _ _ _ _ _ _ Hf) as Hst1.
    rewrite (Hbranch _ _ _ _ Hf) in Hm. cbv zeta in Hm. apply (inj Some) in Hm.
    apply pair_equal_spec in Hm as [Hm <-]. apply pair_equal_spec in Hm as [<- <-].
    apply accrueFunding_preserved in Hf as (_&_&_&_&_&_&_&_& Hnt & Htd & _).
    rewrite Hrun, updateGlobalValues_trades, updateGlobalValues_positions,
      lookup_insert_eq.
    split; [by rewrite Hst1|]. eexists. split; [done|].
    unfold gt, ZERO. case_bool_decide; cbn; rewrite ?Hnt, ?Htd; split; lia.
Qed.

Lemma margin_transfer_is_not_liquidation_witness :
  ∃ st' p',
    handlePositionModified afterTransferEvent transferredStore = Some st'
    ∧ trades st' = trades transferredStore
    ∧ positions st' !! pmPositionId afterTransferEvent = Some p'
    ∧ Pos.netTransfers p' = 0 + 500
    ∧ Pos.totalDeposits p' = 0 + 500.
Proof.
  destruct (margin_transfer_is_not_liquidation afterTransferEvent transferredStore
              (FuturesMarginTransfer.mk 1000 alice market1 500 (toHex hash1) None None))
    as [Hret Hrun].
  - reflexivity.
  - vm_compute. reflexivity.
  - destruct Hret as [st' H].
    { intros p Hp. vm_compute in Hp. discriminate. }
    destruct (Hrun st' H) as (Htr & p' & Hp' & Hn & Hd).
    exists st', p'. split; [exact H|]. split; [exact Htr|]. split; [exact Hp'|].
    split; [exact Hn|exact Hd].
Defined.

(** ** C6: a liquidation is a full loss *)

(** The precursor of a liquidation followed by the liquidation event of
    the same position. The precursor reads the asset and the market key
    of the position for the synthetic trade (lines 352-353), and the
    liquidation handler reads the asset (line 480): on a position that
    carries them both handlers return, the synthetic trade is stored, and
    the loss of the position is off the full-loss identity by the fee of
    the precursor event, which the handler adds to [feesPaid] after it
    has fixed [pnl]. *)
Lemma liquidation_after_precursor pm pl st :
  PME.tradeSize pm = 0 → PME.size pm = 0 → PME.margin pm = 0 →
  marginTransfers st
    !! marginTransferIdOf (Ev.address (PME.base pm)) (Ev.transaction_hash (PME.base pm))
         (Ev.logIndex (PME.base pm) - 1) = None →
  readable (pmPosition0 pm st) →
  Ev.address (PLE.base pl) = Ev.address (PME.base pm) → PLE.id pl = PME.id pm →
  ∃ st1 st2 t p,
    handlePositionModified pm st = Some st1
    ∧ trades st1
        !! tradeIdOf (Ev.transaction_hash (PME.base pm)) (Ev.logIndex (PME.base pm))
      = Some t
    ∧ Trade.orderType t = "Liquidation"
    ∧ handlePositionLiquidated pl st1 = Some st2
    ∧ positions st2 !! pmPositionId pm = Some p
    ∧ Pos.pnl p
      = - (Pos.initialMargin p + Pos.netTransfers p) + Pos.feesPaid p
        - Pos.netFunding p - PME.fee pm.
Proof.
  intros Hts Hsz Hmg Hmt Hread Haddr Hid.
  destruct (accrueFunding_returns pm (pmAccount pm st) (pmPositionId pm)
              (pmPosition0 pm st) (pmStat0 pm st) st (or_introl Hread))
    as [[[[fa p1] s1] st1'] Hf].
  assert (readable p1) as Hr1.
  { pose proof (accrueFunding_preserved _ _ _ _ _ _ _ _ _ _ Hf)
      as (_&_&_&_& Ha & Hk &_). unfold readable. by rewrite Ha, Hk. }
  pose proof (accrueFunding_frame _ _ _ _ _ _ _ _ _ _ Hf) as Hst1.
  pose proof (marginTransferOrLiquidation_liquidation pm (pmAccount pm st)
                (PME.account pm) (resolveAccountType (PME.account pm) st)
                (pmPositionId pm) fa p1 s1 st1') as Hm.
  cbv zeta in Hm.
  destruct (newLiquidationTrade_returns pm (pmAccount pm st) (PME.account pm)
              (resolveAccountType (PME.account pm) st) (pmPositionId pm) fa p1
              ((Pos.initialMargin p1 + Pos.netTransfers p1) * -1 + Pos.feesPaid p1
               - Pos.netFunding p1 - Pos.pnl p1) Hr1) as [t Ht].
  rewrite Ht in Hm. cbn [mbind option_bind] in Hm.
  specialize (Hm ltac:(by rewrite Hst1) Hsz Hmg).
  match type of Hm with _ = Some (?p2, ?s2, ?st2) =>
    assert (pmBranch pm st fa p1 s1 st1' = Some (p2, s2, pmCumulative0 pm st, st2))
      as Hb
  end.
  { unfold pmBranch. rewrite (proj2 (isZero_true _) Hts). cbn [negb]. by rewrite Hm. }
  pose proof (handlePositionModified_intro _ _ _ _ _ _ _ _ _ _ Hf Hb) as Hrun.
  match type of Hrun with _ = Some ?s => set (st1 := s) in * end.
  assert (positions st1 !! pmPositionId pm
          = Some (updatePositionValues pm
                    (p1 <| Pos.pnl := (Pos.initialMargin p1 + Pos.netTransfers p1) * -1
                                      + Pos.feesPaid p1 - Pos.netFunding p1 |>
                        <| Pos.pnlWithFeesPaid :=
                             (Pos.initialMargin p1 + Pos.netTransfers p1) * -1 |>)))
    as Hp1.
  { subst st1. by rewrite updateGlobalValues_positions, lookup_insert_eq. }
  assert (positionIdOf (Ev.address (PLE.base pl)) (PLE.id pl) = pmPositionId pm) as Hpid
    by (unfold pmPositionId; by rewrite Haddr, Hid).
  destruct (proj2 (handlePositionLiquidated_returns pl st1)) as [st2 Hliq].
  { intros p. rewrite Hpid, Hp1. intros [= <-]. exact (proj2 Hr1). }
  pose proof (handlePositionLiquidated_positions _ _ _ Hliq) as Hpos2.
  rewrite Hpid in Hpos2. rewrite Hp1 in Hpos2.
  apply newLiquidationTrade_inv in Ht as (_&_&_&_&_&_&_&_&_&_&_& Hty &_).
  eexists st1, st2, t, _. split; [exact Hrun|].
  split; [subst st1; rewrite updateGlobalValues_trades; apply lookup_insert_eq|].
  split; [done|]. split; [exact Hliq|].
  split; [rewrite Hpos2; apply lookup_insert_eq|].
  cbn. lia.
Qed.

(** The same with the three fees of [handlePositionLiquidatedV2]. *)
Lemma liquidation_after_precursor_V2 pm pl st :
  PME.tradeSize pm = 0 → PME.size pm = 0 → PME.margin pm = 0 →
  marginTransfers st
    !! marginTransferIdOf (Ev.address (PME.base pm)) (Ev.transaction_hash (PME.base pm))
         (Ev.logIndex (PME.base pm) - 1) = None →
  readable (pmPosition0 pm st) →
  Ev.address (PLE2.base pl) = Ev.address (PME.base pm) → PLE2.id pl = PME.id pm →
  ∃ st1 st2 p,
    handlePositionModified pm st = Some st1
    ∧ handlePositionLiquidatedV2 pl st1 = Some st2
    ∧ positions st2 !! pmPositionId pm = Some p
    ∧ Pos.pnl p
      = - (Pos.initialMargin p + Pos.netTransfers p) + Pos.feesPaid p
        - Pos.netFunding p - PME.fee pm.
Proof.
  intros Hts Hsz Hmg Hmt Hread Haddr Hid.
  destruct (liquidation_after_precursor pm
              (PLE.mk (PLE2.base pl) (PLE2.id pl) (PLE2.account pl) (PLE2.size pl)
                 (PLE2.flaggerFee pl + PLE2.liquidatorFee pl + PLE2.stakersFee pl))
              st Hts Hsz Hmg Hmt Hread Haddr Hid)
    as (st1 & st2 & t & p & H1 & _ & _ & H2 & H3 & H4).
  exists st1, st2, p. by rewrite handlePositionLiquidatedV2_eq.
Qed.

(** C6, for the events the protocol emits. When the precursor event
    carries no fee, as the events of a liquidation do, and the position
    carries the asset and the market key the two handlers read (lines
    352-353 and 480), as a position created by an event of a known market
    does, both handlers return and the position saved by the liquidation
    handler satisfies
    [pnl = -(initialMargin + netTransfers) + feesPaid - netFunding]
    exactly, whatever else the store held before, where [feesPaid] is the
    total after both events. *)
Theorem liquidation_forces_full_loss pm pl st :
  PME.tradeSize pm = 0 → PME.size pm = 0 → PME.margin pm = 0 → PME.fee pm = 0 →
  marginTransfers st
    !! marginTransferIdOf (Ev.address (PME.base pm)) (Ev.transaction_hash (PME.base pm))
         (Ev.logIndex (PME.base pm) - 1) = None →
  readable (pmPosition0 pm st) →
  Ev.address (PLE.base pl) = Ev.address (PME.base pm) → PLE.id pl = PME.id pm →
  ∃ st1 st2 t p,
    handlePositionModified pm st = Some st1
    ∧ trades st1
        !! tradeIdOf (Ev.transaction_hash (PME.base pm)) (Ev.logIndex (PME.base pm))
      = Some t
    ∧ Trade.orderType t = "Liquidation"
    ∧ handlePositionLiquidated pl st1 = Some st2
    ∧ positions st2 !! pmPositionId pm = Some p
    ∧ Pos.pnl p
      = - (Pos.initialMargin p + Pos.netTransfers p) + Pos.feesPaid p
        - Pos.netFunding p.
Proof.
  intros Hts Hsz Hmg Hfee Hmt Hread Haddr Hid.
  destruct (liquidation_after_precursor pm pl st Hts Hsz Hmg Hmt Hread Haddr Hid)
    as (st1 & st2 & t & p & H1 & H2 & H3 & H4 & H5 & H6).
  exists st1, st2, t, p. repeat split; try done. lia.
Qed.

Lemma liquidation_forces_full_loss_witness :
  ∃ st1 st2 t p,
    handlePositionModified (precursorEvent 0) marketOpenedStore = Some st1
    ∧ trades st1 !! tradeIdOf hash1 4 = Some t
    ∧ Trade.orderType t = "Liquidation"
    ∧ handlePositionLiquidated liquidationEvent st1 = Some st2
    ∧ positions st2 !! pmPositionId (precursorEvent 0) = Some p
    ∧ Pos.pnl p
      = - (Pos.initialMargin p + Pos.netTransfers p) + Pos.feesPaid p
        - Pos.netFunding p.
Proof.
  refine (liquidation_forces_full_loss (precursorEvent 0) liquidationEvent
            marketOpenedStore _ _ _ _ _ _ _ _); try reflexivity.
  vm_compute. split; by eexists.
Defined.

(** The identity needs the precursor without fee: with a fee of 1 on it the
    position, opened in the known market [market1], ends with
    [pnl = -997], [initialMargin = 1005], [feesPaid = 9] and no funding
    or transfers, and [-(1005 + 0) + 9 - 0 = -996]. *)
Lemma liquidation_identity_fails_with_precursor_fee :
  ∃ st1 st2 p,
    handlePositionModified (precursorEvent 1) marketOpenedStore = Some st1
    ∧ handlePositionLiquidated liquidationEvent st1 = Some st2
    ∧ positions st2 !! pmPositionId (precursorEvent 1) = Some p
    ∧ Pos.pnl p = -997
    ∧ - (Pos.initialMargin p + Pos.netTransfers p) + Pos.feesPaid p - Pos.netFunding p
      = -996.
Proof.
  eexists _, _, _. split; [vm_compute; reflexivity|].
  split; [vm_compute; reflexivity|]. split; [vm_compute; reflexivity|].
  by vm_compute.
Qed.

(** ** C7: funding accrual *)

(** C7. For an existing position whose stored funding index differs from
    the event's: when both checkpoints exist, the accrued funding
    [(currentFunding - pastFunding) * size / ETHER] is added to
    [netFunding], subtracted from [feesPaid] of the stats entity (which
    also gets the fee of the event), a funding payment is saved when the
    amount is not zero and none otherwise, and the stored index becomes
    the event's; the payment is written from the market key and the asset
    of the position (lines 179-180), so the handler has returned with an
    amount that is not zero only on a position that carries them. When a
    checkpoint is missing, [netFunding] and the stored index are
    unchanged, no payment is saved and the stats entity only gets the
    fee. *)
Theorem funding_accrues_iff_both_checkpoints event st st' p :
  positions st !! pmPositionId event = Some p →
  Pos.fundingIndex p ≠ PME.fundingIndex event →
  handlePositionModified event st = Some st' →
  ∃ p' s',
    positions st' !! pmPositionId event = Some p'
    ∧ stats st' !! toHex (pmAccount event st) = Some s'
    ∧ match fundingRateUpdates st
              !! fundingRateUpdateIdOf (Ev.address (PME.base event)) (Pos.fundingIndex p),
            fundingRateUpdates st
              !! fundingRateUpdateIdOf (Ev.address (PME.base event))
                   (PME.fundingIndex event) with
      | Some pastFundingEntity, Some currentFundingEntity =>
          let fundingAccrued :=
            Z.quot ((FundingRateUpdate.funding currentFundingEntity
                     - FundingRateUpdate.funding pastFundingEntity) * Pos.size p) ETHER in
          Pos.netFunding p' = Pos.netFunding p + fundingAccrued
          ∧ Stat.feesPaid s'
            = Stat.feesPaid (pmStat0 event st) - fundingAccrued + PME.fee event
          ∧ Pos.fundingIndex p' = PME.fundingIndex event
          ∧ fundingPayments st'
            = (if bool_decide (fundingAccrued ≠ 0)
               then <[fundingPaymentIdOf (pmPositionId event)
                        (Ev.transaction_hash (PME.base event))
                        (Ev.logIndex (PME.base event))
                      := fundingPaymentOf event st p fundingAccrued]> (fundingPayments st)
               else fundingPayments st)
          ∧ (fundingAccrued ≠ 0 → readable p)
      | _, _ =>
          Pos.netFunding p' = Pos.netFunding p
          ∧ Stat.feesPaid s' = Stat.feesPaid (pmStat0 event st) + PME.fee event
          ∧ Pos.fundingIndex p' = Pos.fundingIndex p
          ∧ fundingPayments st' = fundingPayments st
      end.
Proof.
  intros Hp Hidx H.
  apply handlePositionModified_spec in H
    as (fa & p1 & s1 & st1 & p2 & s2 & c2 & st2 & Hf & Hb & Hpos & Hstats & _ & _
        & Hfp & _).
  exists (updatePositionValues event p2), (updateStatValues event s2).
  rewrite Hpos, Hstats, !lookup_insert_eq, Hfp. split; [done|]. split; [done|].
  apply pmBranch_preserved in Hb as (_ & _ & _ & Hnf & Hfi & _ & Hsf & _).
  assert (pmPosition0 event st = p) as Hp0
    by (unfold pmPosition0, positionOrNew; by rewrite Hp).
  rewrite Hp0 in Hf.
  change (Pos.netFunding (updatePositionValues event p2)) with (Pos.netFunding p2).
  change (Pos.fundingIndex (updatePositionValues event p2)) with (Pos.fundingIndex p2).
  change (Stat.feesPaid (updateStatValues event s2))
    with (Stat.feesPaid s2 + PME.fee event).
  rewrite Hnf, Hfi, Hsf.
  pose proof (accrueFunding_reads _ _ _ _ _ _ _ _ _ _ Hf) as Hread.
  apply accrueFunding_inv in Hf as [([?|[Hn|Hn]] & _ & -> & -> & ->)|Hf]; [done|..].
  - cbv zeta in Hn. rewrite Hn. done.
  - cbv zeta in Hn. rewrite Hn. by case_match.
  - destruct Hf as (pf & cf & _ & Hpf & Hcf & -> & -> & -> & ->).
    cbv zeta in Hpf, Hcf. rewrite Hpf, Hcf. cbv zeta.
    split; [done|]. split; [done|]. split; [done|].
    split; [by case_bool_decide|exact Hread].
Qed.

Lemma funding_accrues_iff_both_checkpoints_witness :
  ∃ p' s',
    positions afterFundingStore !! pmPositionId fundingEvent = Some p'
    ∧ stats afterFundingStore !! toHex alice = Some s'
    ∧ Pos.netFunding p' = 0 + 20
    ∧ Stat.feesPaid s' = 5 - 20 + 0
    ∧ Pos.fundingIndex p' = 1
    ∧ fundingPayments afterFundingStore
      = <[fundingPaymentIdOf (pmPositionId fundingEvent) hash1 2
          := fundingPaymentOf fundingEvent fundedStore
               (pmPosition0 fundingEvent fundedStore) 20]> ∅
    ∧ (20 ≠ 0 → readable (pmPosition0 fundingEvent fundedStore)).
Proof.
  refine (funding_accrues_iff_both_checkpoints fundingEvent fundedStore
            afterFundingStore (pmPosition0 fundingEvent fundedStore) _ _ _).
  - vm_compute. reflexivity.
  - vm_compute. discriminate.
  - vm_compute. reflexivity.
Defined.

(** ** C8: the counters of liquidations *)

Lemma handlePositionLiquidated_counted event st st' :
  handlePositionLiquidated event st = Some st' →
  liquidationCounted (positionIdOf (Ev.address (PLE.base event)) (PLE.id event))
    (resolveAccount (PLE.account event) st) (PLE.fee event) st st'.
Proof.
  intros H.
  pose proof (handlePositionLiquidated_cumulativeStats _ _ _ H) as Hc.
  pose proof (handlePositionLiquidated_stats _ _ _ H) as Hs.
  pose proof (proj1 (handlePositionLiquidated_returns event st)
                (ex_intro _ st' H)) as Hasset.
  cbv zeta in Hc. repeat split.
  - rewrite Hc. destruct (_ ≫= _) as [asset|].
    + eexists. rewrite lookup_insert_ne by (apply toHex_not_SINGLE_INDEX).
      by rewrite lookup_insert_eq.
    + eexists. by rewrite lookup_insert_eq.
  - intros p Hp. destruct (Hasset p Hp) as [asset Ha]. exists asset.
    split; [done|]. rewrite Hc, Hp. cbn [mbind option_bind]. rewrite Ha.
    eexists. by rewrite lookup_insert_eq.
  - intros p s Hp Hst. rewrite Hs, Hp, Hst. eexists. by rewrite lookup_insert_eq.
  - intros Hp. by rewrite Hs, Hp.
Qed.

(** C8, with the guards of the code. Both liquidation handlers read the
    asset of the position they find (lines 480 and 545), through a getter
    that aborts on a position created by an event of an unknown market:
    they return exactly when the position is not stored or carries its
    asset. When they return, they have added one to [totalLiquidations]
    of the global cumulative entity whether or not the position exists;
    one to the counter of the market of the position when the position
    exists; when the position exists and the trader has a stats entity,
    one to its [liquidations] and the fee to its [feesPaid] and [pnl];
    without the position the stats entities are left as they are. *)
Theorem liquidation_counters :
  (∀ event st,
     let pid := positionIdOf (Ev.address (PLE.base event)) (PLE.id event) in
     (is_Some (handlePositionLiquidated event st)
      ↔ ∀ p, positions st !! pid = Some p → is_Some (Pos.asset p))
     ∧ ∀ st', handlePositionLiquidated event st = Some st' →
              liquidationCounted pid (resolveAccount (PLE.account event) st)
                (PLE.fee event) st st')
  ∧ (∀ event st,
       let pid := positionIdOf (Ev.address (PLE2.base event)) (PLE2.id event) in
       (is_Some (handlePositionLiquidatedV2 event st)
        ↔ ∀ p, positions st !! pid = Some p → is_Some (Pos.asset p))
       ∧ ∀ st', handlePositionLiquidatedV2 event st = Some st' →
                liquidationCounted pid (resolveAccount (PLE2.account event) st)
                  (PLE2.flaggerFee event + PLE2.liquidatorFee event
                   + PLE2.stakersFee event) st st').
Proof.
  split.
  - intros event st pid. split; [apply handlePositionLiquidated_returns|].
    intros st'. apply handlePositionLiquidated_counted.
  - intros event st pid. rewrite handlePositionLiquidatedV2_eq.
    split;
      [apply (handlePositionLiquidated_returns (PLE.mk _ _ _ _ _))|].
    intros st' H. exact (handlePositionLiquidated_counted _ _ _ H).
Qed.

(** Without the position the stats entity is skipped: the trader has a
    stats entity, the event is processed and counted globally, and the
    [liquidations] counter of the stats entity stays at zero because the
    position is not in the store. *)
Lemma liquidation_of_unknown_position_skips_stat :
  ∃ st' s s',
    stats openedStore !! toHex (resolveAccount alice openedStore) = Some s
    ∧ handlePositionLiquidated strayLiquidationEvent openedStore = Some st'
    ∧ stats st' !! toHex (resolveAccount alice openedStore) = Some s'
    ∧ Stat.liquidations s' = Stat.liquidations s
    ∧ Stat.liquidations s' ≠ Stat.liquidations s + 1.
Proof.
  eexists _, _, _. split; [vm_compute; reflexivity|].
  split; [vm_compute; reflexivity|]. split; [vm_compute; reflexivity|].
  by vm_compute.
Qed.

(** The liquidation of a position that was opened by an event of an
    unknown market is lost: the handler aborts on the asset the position
    does not carry, and nothing is counted. *)
Lemma liquidation_of_position_without_asset_aborts :
  (∃ p, positions openedStore !! positionIdOf market1 7 = Some p
        ∧ Pos.asset p = None)
  ∧ handlePositionLiquidated liquidationEvent openedStore = None
  ∧ handlePositionLiquidatedV2 liquidationEventV2 openedStore = None.
Proof.
  split; [eexists; split; vm_compute; reflexivity|].
  split; vm_compute; reflexivity.
Qed.

Lemma liquidation_counters_witness :
  ∃ st', handlePositionLiquidated liquidationEvent marketOpenedStore = Some st'
         ∧ liquidationCounted (positionIdOf market1 7)
             (resolveAccount alice marketOpenedStore) 3 marketOpenedStore st'.
Proof.
  destruct (proj1 liquidation_counters liquidationEvent marketOpenedStore)
    as [Hret Hcount].
  destruct (proj2 Hret) as [st' Hst'].
  { intros p Hp. vm_compute in Hp. injection Hp as <-. by eexists. }
  exists st'. split; [exact Hst'|]. exact (Hcount st' Hst').
Defined.

(** ** C9: the status of a removed order *)

Section DelayedOrderRemoved.

Variable bytesToString : Bytes → string.

(** C9, with the guard of the code. For an order found by
    [handleDelayedOrderRemoved] (the market entity exists and the order is
    stored under the id built from the market's asset, the sender and the
    target round): the handler
    returns and saves the order with the transaction sender as keeper; its
    status is [Filled] when both a trade exists at (transaction,
    logIndex - 1) and the resolved account has a stats entity, and
    [Cancelled] in every other case. *)
Theorem delayed_order_removed_status event st m o :
  markets st !! toHex (Ev.address (DOR.base event)) = Some m →
  orders st
    !! futuresOrderIdOf bytesToString (FuturesMarketEntity.asset m) (DOR.account event)
         (DOR.targetRoundId event)
    = Some o →
  ∃ st' o',
    handleDelayedOrderRemoved bytesToString event st = Some st'
    ∧ orders st'
        !! futuresOrderIdOf bytesToString (FuturesMarketEntity.asset m)
             (DOR.account event) (DOR.targetRoundId event)
      = Some o'
    ∧ FuturesOrder.keeper o' = Ev.transaction_from (DOR.base event)
    ∧ FuturesOrder.status o'
      = match stats st !! toHex (resolveAccount (DOR.account event) st),
              trades st
                !! tradeIdOf (Ev.transaction_hash (DOR.base event))
                     (Ev.logIndex (DOR.base event) - 1) with
        | Some _, Some _ => "Filled"
        | _, _ => "Cancelled"
        end.
Proof.
  intros Hm Ho. unfold handleDelayedOrderRemoved. rewrite Hm. cbv zeta. rewrite Ho.
  destruct (stats st !! toHex (resolveAccount (DOR.account event) st)) as [s|];
    destruct (trades st !! tradeIdOf (Ev.transaction_hash (DOR.base event))
                             (Ev.logIndex (DOR.base event) - 1)) as [t|].
  2-4: cbn [mbind option_bind]; eexists _, _; split; [reflexivity|];
       unfold saveOrder; cbn; by rewrite lookup_insert_eq.
  match goal with
  | |- context [fillOrder ?b ?e ?a ?at_ ?m ?smo ?o ?s ?tid ?t ?st] =>
      destruct (fillOrder_total b e a at_ m smo o s tid t st) as (st1 & -> & Host1)
  end.
  cbn [mbind option_bind]. eexists _, _. split; [reflexivity|].
  unfold saveOrder. cbn. by rewrite lookup_insert_eq.
Qed.

End DelayedOrderRemoved.

Lemma delayed_order_removed_status_witness :
  ∃ st' o',
    handleDelayedOrderRemoved asciiToString (removeEvent alice) (tradedStore alice)
      = Some st'
    ∧ orders st' !! futuresOrderIdOf asciiToString (String.list_byte_of_string "sETH") alice 3
      = Some o'
    ∧ FuturesOrder.keeper o' = alice
    ∧ FuturesOrder.status o' = "Filled".
Proof.
  refine (delayed_order_removed_status asciiToString (removeEvent alice)
            (tradedStore alice) market1Entity _ _ _).
  - vm_compute. reflexivity.
  - vm_compute. reflexivity.
Defined.

(** A trade alone does not fill the order: the trade of [alice] is stored at
    (transaction, logIndex - 1) when the order of [carol], who has no
    stats entity, is removed, and the order is saved as [Cancelled]. *)
Lemma trade_without_stat_is_cancelled :
  ∃ st' t o',
    trades (tradedStore carol) !! tradeIdOf hash1 (2 - 1) = Some t
    ∧ handleDelayedOrderRemoved asciiToString (removeEvent carol) (tradedStore carol)
      = Some st'
    ∧ orders st' !! futuresOrderIdOf asciiToString (String.list_byte_of_string "sETH") carol 3
      = Some o'
    ∧ FuturesOrder.status o' = "Cancelled"
    ∧ FuturesOrder.status o' ≠ "Filled".
Proof.
  eexists _, _, _. split; [vm_compute; reflexivity|].
  split; [vm_compute; reflexivity|]. split; [vm_compute; reflexivity|].
  by vm_compute.
Qed.

(** ** C10: the deprecated entry price *)

Lemma pmBranch_entryPrice event st0 fa p s st p2 s2 c2 st2 :
  pmBranch event st0 fa p s st = Some (p2, s2, c2, st2) →
  Pos.entryPrice p = Pos.avgEntryPrice p →
  Pos.entryPrice p2 = Pos.avgEntryPrice p2.
Proof.
  unfold pmBranch. destruct (isZero (PME.tradeSize event)); cbn [negb].
  - destruct (marginTransferOrLiquidation_cases event st) as [[mt H]|[(H&?&?)|[H ?]]].
    + rewrite (marginTransferOrLiquidation_transfer _ _ _ _ _ _ _ _ _ _ H).
      cbn [mbind option_bind]. intros [= <- <- <- <-]. by destruct (gt _ _).
    + rewrite marginTransferOrLiquidation_liquidation by done.
      cbv zeta. destruct (newLiquidationTrade _ _ _ _ _ _ _ _) as [t|]; [|done].
      cbn [mbind option_bind]. by intros [= <- <- <- <-].
    + rewrite marginTransferOrLiquidation_neither by done.
      cbn [mbind option_bind]. by intros [= <- <- <- <-].
  - intros H Heq. apply recordTrade_inv in H as (t1 & p1 & s1 & Hu & -> & _).
    change (Pos.entryPrice p1 = Pos.avgEntryPrice p1). revert Hu.
    destruct (updatePnlAndEntryPrice_cases event p) as [?|[[??]|[(?&?&?)|(?&?&?)]]].
    + rewrite updatePnlAndEntryPrice_close by done. by intros [= <- <- <-].
    + rewrite updatePnlAndEntryPrice_flip by done. by intros [= <- <- <-].
    + rewrite updatePnlAndEntryPrice_increase by done. by intros [= <- <- <-].
    + rewrite updatePnlAndEntryPrice_reduce by done. by intros [= <- <- <-].
Qed.

(** C10. [handlePositionModified] keeps the deprecated [entryPrice] equal
    to [avgEntryPrice] on every position of the store: a new position gets
    [lastPrice] in both, the side flip resets both to [lastPrice], the
    increase writes the same weighted average to both, and no other branch
    writes either. *)
Theorem entryPrice_tracks_avgEntryPrice event st st' :
  (∀ k p, positions st !! k = Some p → Pos.entryPrice p = Pos.avgEntryPrice p) →
  handlePositionModified event st = Some st' →
  ∀ k p, positions st' !! k = Some p → Pos.entryPrice p = Pos.avgEntryPrice p.
Proof.
  intros Hinv H k p Hk.
  apply handlePositionModified_spec in H
    as (fa & p1 & s1 & st1 & p2 & s2 & c2 & st2 & Hf & Hb & Hpos & _).
  rewrite Hpos in Hk. apply lookup_insert_Some in Hk as [[_ <-]|[_ Hk]].
  - change (Pos.entryPrice p2 = Pos.avgEntryPrice p2).
    apply (pmBranch_entryPrice _ _ _ _ _ _ _ _ _ _ Hb).
    apply accrueFunding_preserved in Hf as (-> & -> & _).
    unfold pmPosition0, positionOrNew.
    destruct (positions st !! pmPositionId event) as [p0|] eqn:Hp0; [|done].
    by apply (Hinv _ _ Hp0).
  - by apply (Hinv _ _ Hk).
Qed.

Lemma entryPrice_tracks_avgEntryPrice_witness :
  ∃ p, positions increasedStore !! pmPositionId increaseEvent = Some p
       ∧ Pos.entryPrice p = Pos.avgEntryPrice p
       ∧ Pos.avgEntryPrice p = 103.
Proof.
  eexists. split; [vm_compute; reflexivity|].
  split; [|vm_compute; reflexivity].
  refine (entryPrice_tracks_avgEntryPrice increaseEvent openedStore increasedStore
            _ _ (pmPositionId increaseEvent) _ _).
  - refine (entryPrice_tracks_avgEntryPrice openEvent emptyStore openedStore _ _).
    + intros k p Hk. vm_compute in Hk. discriminate Hk.
    + vm_compute. reflexivity.
  - vm_compute. reflexivity.
  - vm_compute. reflexivity.
Defined.


(** ** The same runs from a well-formed store

    From a well-formed store the handlers return on the events of the
    markets the store knows, so such runs of C3 and of C4 reach their end
    and the saved entities are as stated. *)

(** A position opened on a well-formed store, left without a trade, and
    closed, by events of markets the store knows: the run returns, and
    the closing trade realises the pnl of the round trip. *)
Corollary round_trip_returns opening between closing st :
  wellFormed st →
  Forall (ofKnownMarket st) (opening :: between ++ [closing]) →
  positions st !! pmPositionId opening = None →
  PME.tradeSize opening ≠ 0 → PME.size opening ≠ 0 →
  Forall (keepsSize (pmPositionId opening) (PME.size opening)) between →
  pmPositionId closing = pmPositionId opening →
  PME.tradeSize closing ≠ 0 → PME.size closing = 0 →
  let roundTrip :=
    Z.quot ((PME.lastPrice closing - PME.lastPrice opening) * PME.size opening)
      ETHER in
  ∃ st3 p t,
    runPositionModified (opening :: between ++ [closing]) st = Some st3
    ∧ positions st3 !! pmPositionId opening = Some p
    ∧ trades st3
        !! tradeIdOf (Ev.transaction_hash (PME.base closing))
             (Ev.logIndex (PME.base closing)) = Some t
    ∧ Trade.pnl t = roundTrip ∧ Pos.pnl p = roundTrip ∧ Pos.isOpen p = false.
Proof.
  intros Hwf Hknown Hnone Hts1 Hsz1 Hall Hpid Hts2 Hsz2 roundTrip.
  apply Forall_cons in Hknown as [Hk1 Hknown].
  apply Forall_app in Hknown as [Hk2 Hk3].
  apply (proj1 (Forall_singleton _ _)) in Hk3.
  destruct (handlePositionModified_total opening st Hwf Hk1) as [st1 H1].
  pose proof (handlePositionModified_wellFormed _ _ _ Hwf Hk1 H1) as Hwf1.
  pose proof (handlePositionModified_markets _ _ _ H1) as Hm1.
  destruct (runPositionModified_total between st1 Hwf1) as (st2 & H2 & Hwf2).
  { unfold ofKnownMarket in *. by rewrite Hm1. }
  pose proof (runPositionModified_markets _ _ _ H2) as Hm2.
  destruct (handlePositionModified_total closing st2 Hwf2) as [st3 H3].
  { unfold ofKnownMarket in *. by rewrite Hm2, Hm1. }
  destruct (round_trip_pnl opening between closing st st1 st2 st3
              Hnone Hts1 Hsz1 Hall Hpid Hts2 Hsz2 H1 H2 H3)
    as (p & t & Hp & Ht & Hrest).
  exists st3, p, t. split; [|done].
  cbn [runPositionModified]. rewrite H1. cbn [mbind option_bind].
  clear -H2 H3. revert st1 H2.
  induction between as [|event rest IH]; intros st1 H2; cbn in H2 |- *.
  - apply (inj Some) in H2 as ->. by rewrite H3.
  - apply bind_Some in H2 as (sta & Ha & H2). rewrite Ha. cbn [mbind option_bind].
    by apply IH.
Qed.

(** A run of increases of markets the store knows returns on a
    well-formed store, and the final average entry price is the
    volume-weighted one up to the truncation of the divisions. *)
Corollary increases_return pid events st p :
  wellFormed st →
  Forall (ofKnownMarket st) events →
  positions st !! pid = Some p →
  Pos.entryPrice p = Pos.avgEntryPrice p →
  0 ≤ Pos.avgEntryPrice p → Pos.size p ≠ 0 →
  increases pid (Pos.size p) events →
  ∃ st' p',
    runPositionModified events st = Some st'
    ∧ positions st' !! pid = Some p'
    ∧ Z.abs (Pos.size p') = Z.abs (Pos.size p) + addedVolume events
    ∧ Z.abs (Pos.size p') * Pos.avgEntryPrice p'
      ≤ Z.abs (Pos.size p) * Pos.avgEntryPrice p + addedCost events
    ∧ Z.abs (Pos.size p) * Pos.avgEntryPrice p + addedCost events
      ≤ Z.abs (Pos.size p') * Pos.avgEntryPrice p'
        + Z.of_nat (length events) * (Z.abs (Pos.size p') - 1).
Proof.
  intros Hwf Hknown Hp Heq Hpos Hnz Hinc.
  destruct (runPositionModified_total events st Hwf Hknown) as (st' & Hrun & _).
  destruct (runPositionModified_increases pid events st st' p Hp Heq Hpos Hnz Hinc Hrun)
    as (p' & Hrest).
  by exists st', p'.
Qed.

(** * Further properties of the handlers *)

(** ** The ids determine their components *)

Lemma hexDigit_inj (m n : N) :
  (m < 16)%N → (n < 16)%N → hexDigit m = hexDigit n → m = n.
Proof.
  intros Hm Hn.
  assert (∀ k, (k < 16)%N →
            k = 0 ∨ k = 1 ∨ k = 2 ∨ k = 3 ∨ k = 4 ∨ k = 5 ∨ k = 6 ∨ k = 7 ∨ k = 8
            ∨ k = 9 ∨ k = 10 ∨ k = 11 ∨ k = 12 ∨ k = 13 ∨ k = 14 ∨ k = 15)%N as Hcases
    by (intros; lia).
  destruct (Hcases m Hm)
    as [->|[->|[->|[->|[->|[->|[->|[->|
       [->|[->|[->|[->|[->|[->|[->| ->]]]]]]]]]]]]]]];
  destruct (Hcases n Hn)
    as [->|[->|[->|[->|[->|[->|[->|[->|
       [->|[->|[->|[->|[->|[->|[->| ->]]]]]]]]]]]]]]];
  vm_compute; intros H; first [reflexivity|discriminate H].
Qed.

Lemma hexDigit_length (n : N) : (n < 16)%N → ∃ c, hexDigit n = String c "".
Proof.
  intros Hn.
  assert (n = 0 ∨ n = 1 ∨ n = 2 ∨ n = 3 ∨ n = 4 ∨ n = 5 ∨ n = 6 ∨ n = 7 ∨ n = 8
          ∨ n = 9 ∨ n = 10 ∨ n = 11 ∨ n = 12 ∨ n = 13 ∨ n = 14 ∨ n = 15)%N
    as [->|[->|[->|[->|[->|[->|[->|[->|[->|[->|[->|[->|[->|[->|[->| ->]]]]]]]]]]]]]]] by lia;
    vm_compute; by eexists.
Qed.

Lemma byteToHex_inj (b b' : byte) : byteToHex b = byteToHex b' → b = b'.
Proof.
  unfold byteToHex. intros H.
  pose proof (Byte.to_N_bounded b) as Hb. pose proof (Byte.to_N_bounded b') as Hb'.
  assert (Byte.to_N b / 16 < 16)%N as H1 by (apply N.Div0.div_lt_upper_bound; lia).
  assert (Byte.to_N b' / 16 < 16)%N as H1' by (apply N.Div0.div_lt_upper_bound; lia).
  assert (Byte.to_N b mod 16 < 16)%N as H2 by (by apply N.mod_lt).
  assert (Byte.to_N b' mod 16 < 16)%N as H2' by (by apply N.mod_lt).
  destruct (hexDigit_length _ H1) as [c Hc], (hexDigit_length _ H1') as [c' Hc'].
  destruct (hexDigit_length _ H2) as [d Hd], (hexDigit_length _ H2') as [d' Hd'].
  rewrite Hc, Hc', Hd, Hd' in H. lazy [String.append] in H.
  injection H as -> ->.
  rewrite <- Hc' in Hc. rewrite <- Hd' in Hd.
  apply hexDigit_inj in Hc, Hd; [|done..].
  assert (Byte.to_N b = Byte.to_N b') as Heq.
  { rewrite (N.div_mod (Byte.to_N b) 16), (N.div_mod (Byte.to_N b') 16) by done.
    by rewrite Hc, Hd. }
  apply (inj Some). by rewrite <- !Byte.of_to_N, Heq.
Qed.

Lemma byteToHex_length (b : byte) : ∃ c d, byteToHex b = String c (String d "").
Proof. destruct (byteToHex_spec b) as (c & d & H & _). by exists c, d. Qed.

(** [toHex] loses nothing of the bytes. *)
Lemma toHex_inj (b b' : Bytes) : toHex b = toHex b' → b = b'.
Proof.
  unfold toHex. intros H. apply (inj (String.append "0x")) in H.
  revert b' H. induction b as [|x b IH]; intros [|x' b'] H; cbn [foldr] in H.
  - done.
  - destruct (byteToHex_length x') as (c & d & Hx). rewrite Hx in H.
    lazy [String.append] in H. discriminate.
  - destruct (byteToHex_length x) as (c & d & Hx). rewrite Hx in H.
    lazy [String.append] in H. discriminate.
  - destruct (byteToHex_length x) as (c & d & Hx).
    destruct (byteToHex_length x') as (c' & d' & Hx').
    assert (byteToHex x = byteToHex x' ∧
            foldr (λ x acc, byteToHex x +:+ acc) "" b
            = foldr (λ x acc, byteToHex x +:+ acc) "" b') as [Hh Ht].
    { rewrite Hx, Hx' in H |- *. lazy [String.append] in H.
      fold String.append in H. injection H as -> -> H. done. }
    f_equal; [by apply byteToHex_inj|by apply IH].
Qed.

(** [BigInt.toHex] loses the sign only. *)
Lemma bigIntToHex_inj (x y : BigInt) :
  bigIntToHex x = bigIntToHex y → Z.abs x = Z.abs y.
Proof.
  unfold bigIntToHex. intros H. apply (inj (String.append "0x")) in H.
  assert (∀ n, N.to_hex_uint n ≠ Hexadecimal.Nil) as Hnil.
  { intros n Hn. pose proof (Unsigned.of_to n) as Hof. rewrite Hn in Hof.
    cbn in Hof. subst n. discriminate Hn. }
  assert (N.to_hex_uint (Z.abs_N x) = N.to_hex_uint (Z.abs_N y)) as Hu.
  { apply (inj Some). rewrite <- !NilZero.usu by apply Hnil. by rewrite H. }
  apply Unsigned.to_uint_inj in Hu. lia.
Qed.

Lemma toString_inj (x y : BigInt) : toString x = toString y → x = y.
Proof. unfold toString. apply (inj pretty). Qed.

Lemma dashFree_app (s t : string) : dashFree s → dashFree t → dashFree (s +:+ t).
Proof.
  induction s as [|c s IH]; intros Hs Ht; lazy [String.append]; fold String.append;
    [done|]. cbn [dashFree] in *. split; [tauto|]. apply IH; tauto.
Qed.

(** Two strings with a dash after dash-free prefixes agree on both sides
    of the dash. *)
Lemma dash_split_inj (s s' t t' : string) :
  dashFree s → dashFree s' →
  s +:+ "-" +:+ t = s' +:+ "-" +:+ t' → s = s' ∧ t = t'.
Proof.
  intros Hs Hs' H. pose proof (dashFree_prefix_inj _ _ _ _ Hs Hs' H) as ->.
  split; [done|]. apply (inj (String.append s')) in H.
  by apply (inj (String.append "-")) in H.
Qed.

Lemma pretty_N_go_dashFree (x : N) (s : string) :
  dashFree s → dashFree (pretty_N_go x s).
Proof.
  revert s. induction (N.lt_wf_0 x) as [x _ IH]; intros s Hs.
  assert (x = 0 ∨ 0 < x)%N as [->|Hx] by lia.
  - by rewrite pretty_N_go_0.
  - rewrite pretty_N_go_step by done. apply IH; [by apply N.div_lt|].
    cbn [dashFree]. split; [|done].
    unfold pretty_N_char. by repeat case_match.
Qed.

(** The decimal form of a number that is not negative has no dash. *)
Lemma toString_dashFree (x : BigInt) : 0 ≤ x → dashFree (toString x).
Proof.
  intros Hx. unfold toString, pretty, pretty_Z.
  destruct x as [|p|p]; [cbn; split; [discriminate|done]| |lia].
  unfold pretty, pretty_positive, pretty, pretty_N.
  case_decide; [done|]. by apply pretty_N_go_dashFree.
Qed.

Lemma positionIdOf_inj market id market' id' :
  positionIdOf market id = positionIdOf market' id' →
  market = market' ∧ Z.abs id = Z.abs id'.
Proof.
  unfold positionIdOf. intros H.
  apply dash_split_inj in H as [Hm Hi]; [|apply toHex_dashFree..].
  split; [by apply toHex_inj|by apply bigIntToHex_inj].
Qed.

Lemma tradeIdOf_inj hash logIndex hash' logIndex' :
  tradeIdOf hash logIndex = tradeIdOf hash' logIndex' →
  hash = hash' ∧ logIndex = logIndex'.
Proof.
  unfold tradeIdOf. intros H.
  apply dash_split_inj in H as [Hh Hl]; [|apply toHex_dashFree..].
  split; [by apply toHex_inj|by apply toString_inj].
Qed.

Lemma fundingRateUpdateIdOf_inj market index market' index' :
  fundingRateUpdateIdOf market index = fundingRateUpdateIdOf market' index' →
  market = market' ∧ index = index'.
Proof.
  unfold fundingRateUpdateIdOf. intros H.
  apply dash_split_inj in H as [Hh Hl]; [|apply toHex_dashFree..].
  split; [by apply toHex_inj|by apply toString_inj].
Qed.

Lemma marginAccountIdOf_inj account market account' market' :
  marginAccountIdOf account market = marginAccountIdOf account' market' →
  account = account' ∧ market = market'.
Proof.
  unfold marginAccountIdOf. intros H.
  apply dash_split_inj in H as [Hh Hl]; [|apply toHex_dashFree..].
  split; by apply toHex_inj.
Qed.

Lemma marginTransferIdOf_inj market hash logIndex market' hash' logIndex' :
  marginTransferIdOf market hash logIndex = marginTransferIdOf market' hash' logIndex' →
  market = market' ∧ hash = hash' ∧ logIndex = logIndex'.
Proof.
  unfold marginTransferIdOf. intros H.
  apply dash_split_inj in H as [Hm H]; [|apply toHex_dashFree..].
  apply dash_split_inj in H as [Hh Hl]; [|apply toHex_dashFree..].
  split; [by apply toHex_inj|]. split; [by apply toHex_inj|by apply toString_inj].
Qed.

Lemma aggregateStatId_inj timestamp period asset timestamp' period' asset' :
  0 ≤ timestamp → 0 ≤ timestamp' → 0 ≤ period → 0 ≤ period' →
  aggregateStatId timestamp period asset = aggregateStatId timestamp' period' asset' →
  timestamp = timestamp' ∧ period = period' ∧ asset = asset'.
Proof.
  unfold aggregateStatId. intros Ht Ht' Hp Hp' H.
  apply dash_split_inj in H as [Hts H]; [|by apply toString_dashFree..].
  apply dash_split_inj in H as [Hq Ha]; [|by apply toString_dashFree..].
  split; [by apply toString_inj|]. split; [by apply toString_inj|by apply toHex_inj].
Qed.

(** X1. The keys of positions, trades, margin transfers, funding
    checkpoints and margin accounts determine the values they are built
    from: two keys are equal only for the same market, transaction hash,
    log index, funding index and account. The number of a position is
    determined up to its sign, which [BigInt.toHex] drops. *)
Theorem entity_ids_are_injective :
  (∀ market id market' id',
     positionIdOf market id = positionIdOf market' id' →
     market = market' ∧ Z.abs id = Z.abs id')
  ∧ (∀ hash logIndex hash' logIndex',
       tradeIdOf hash logIndex = tradeIdOf hash' logIndex' →
       hash = hash' ∧ logIndex = logIndex')
  ∧ (∀ market hash logIndex market' hash' logIndex',
       marginTransferIdOf market hash logIndex
       = marginTransferIdOf market' hash' logIndex' →
       market = market' ∧ hash = hash' ∧ logIndex = logIndex')
  ∧ (∀ market index market' index',
       fundingRateUpdateIdOf market index = fundingRateUpdateIdOf market' index' →
       market = market' ∧ index = index')
  ∧ (∀ account market account' market',
       marginAccountIdOf account market = marginAccountIdOf account' market' →
       account = account' ∧ market = market').
Proof.
  split; [exact positionIdOf_inj|]. split; [exact tradeIdOf_inj|].
  split; [exact marginTransferIdOf_inj|]. split; [exact fundingRateUpdateIdOf_inj|].
  exact marginAccountIdOf_inj.
Qed.

Lemma entity_ids_are_injective_witness :
  positionIdOf market1 7 = positionIdOf market1 (-7)
  ∧ market1 = market1 ∧ Z.abs 7 = Z.abs (-7).
Proof.
  split; [vm_compute; reflexivity|].
  apply (proj1 entity_ids_are_injective). vm_compute. reflexivity.
Defined.

(** ** The buckets of [getTimeID] *)

Lemma getTimeID_Some timestamp num :
  num ≠ 0 → getTimeID timestamp num = Some (timestamp - Z.rem timestamp num).
Proof. intros Hn. unfold getTimeID. by rewrite mod_Some. Qed.

Lemma getTimeID_nonneg timestamp num start :
  0 ≤ timestamp → 0 < num → getTimeID timestamp num = Some start →
  start = num * (timestamp / num) ∧ 0 ≤ start ≤ timestamp ∧ timestamp < start + num.
Proof.
  intros Ht Hn. rewrite getTimeID_Some by lia. intros [= <-].
  rewrite Z.rem_mod_nonneg by lia.
  pose proof (Z.div_mod timestamp num ltac:(lia)) as Hdm.
  pose proof (Z.mod_pos_bound timestamp num Hn) as Hb.
  pose proof (Z.div_pos timestamp num Ht Hn) as Hq.
  split; [lia|]. split; [nia|lia].
Qed.

(** X2. For a timestamp that is not negative and a positive period,
    [getTimeID] returns the start of the bucket of the timestamp: a
    multiple of the period, at most the timestamp and less than a period
    before it; every timestamp of the bucket is sent to the same start. *)
Theorem getTimeID_partition timestamp period :
  0 ≤ timestamp → 0 < period →
  ∃ start,
    getTimeID timestamp period = Some start
    ∧ start ≤ timestamp < start + period
    ∧ (period | start)
    ∧ ∀ other, start ≤ other < start + period → getTimeID other period = Some start.
Proof.
  intros Ht Hp. exists (timestamp - Z.rem timestamp period).
  assert (period ≠ 0) as Hnz by lia.
  pose proof (getTimeID_nonneg timestamp period _ Ht Hp
                (getTimeID_Some timestamp period Hnz)) as (Hstart & Hlo & Hhi).
  split; [apply getTimeID_Some; lia|]. split; [lia|].
  split; [rewrite Hstart; by apply Z.divide_factor_l|].
  intros other Ho. rewrite getTimeID_Some by lia. f_equal.
  rewrite Z.rem_mod_nonneg by lia. rewrite Hstart in *.
  assert (other / period = timestamp / period) as Hq.
  { symmetry. apply (Z.div_unique_pos other period _ (other - period * (timestamp / period))).
      - lia.
      - lia. }
  pose proof (Z.div_mod other period ltac:(lia)). rewrite Hq in *. lia.
Qed.

Lemma getTimeID_partition_witness :
  ∃ start,
    getTimeID 90061 ONE_HOUR_SECONDS = Some start
    ∧ start ≤ 90061 < start + ONE_HOUR_SECONDS
    ∧ (ONE_HOUR_SECONDS | start)
    ∧ ∀ other, start ≤ other < start + ONE_HOUR_SECONDS →
        getTimeID other ONE_HOUR_SECONDS = Some start.
Proof. apply getTimeID_partition; [lia|reflexivity]. Defined.

(** ** The rollup of [updateAggregateStatEntities] *)

(** One turn of the loop: the row of the asset, then the row of all
    markets, read after the first was saved. *)
Lemma updateAggregateStatPeriod_rows at_ mk_ asset ts tr vol fs fk q st start :
  getTimeID ts q = Some start →
  ∃ marketRow globalRow,
    updateAggregateStatPeriod at_ mk_ asset ts tr vol fs fk q st
    = Some (st <| aggregateStats :=
                   <[aggregateStatId start q [] := globalRow]>
                     (<[aggregateStatId start q asset := marketRow]>
                        (aggregateStats st)) |>)
    ∧ rolledUp at_ tr vol fs fk
        (getOrCreateMarketAggregateStats mk_ asset start q st) marketRow
    ∧ rolledUp at_ tr vol fs fk
        (getOrCreateMarketAggregateStats [] [] start q
           (st <| aggregateStats :=
                    <[aggregateStatId start q asset := marketRow]>
                      (aggregateStats st) |>)) globalRow.
Proof.
  intros Hstart. unfold updateAggregateStatPeriod. rewrite Hstart.
  cbn [mbind option_bind]. cbv zeta. eexists _, _.
  split; [reflexivity|]. split; by repeat split.
Qed.

Lemma aggregateStatId_asset start q asset asset' :
  aggregateStatId start q asset = aggregateStatId start q asset' → asset = asset'.
Proof.
  unfold aggregateStatId. intros H.
  apply (inj (String.append (toString start))) in H.
  apply (inj (String.append "-")) in H.
  apply (inj (String.append (toString q))) in H.
  apply (inj (String.append "-")) in H. by apply toHex_inj.
Qed.

Lemma getOrCreateMarketAggregateStats_ne mk_ asset start q id row st :
  id ≠ aggregateStatId start q asset →
  getOrCreateMarketAggregateStats mk_ asset start q
    (st <| aggregateStats := <[id := row]> (aggregateStats st) |>)
  = getOrCreateMarketAggregateStats mk_ asset start q st.
Proof.
  intros Hne. unfold getOrCreateMarketAggregateStats. cbn.
  by rewrite lookup_insert_ne.
Qed.

Lemma getOrCreateMarketAggregateStats_eq mk_ asset start q row st :
  getOrCreateMarketAggregateStats mk_ asset start q
    (st <| aggregateStats :=
             <[aggregateStatId start q asset := row]> (aggregateStats st) |>)
  = row.
Proof.
  unfold getOrCreateMarketAggregateStats. cbn. by rewrite lookup_insert_eq.
Qed.

Lemma rolledUp_twice at_ tr vol fs fk old mid new :
  rolledUp at_ tr vol fs fk old mid → rolledUp at_ tr vol fs fk mid new →
  rolledUp at_ (tr + tr) (vol + vol) (fs + fs) (fk + fk) old new.
Proof.
  unfold rolledUp. intros (?&?&?&?&?&?&?&?&?) (?&?&?&?&?&?&?&?&?).
  repeat split; try (destruct (decide _)); lia || congruence.
Qed.

(** Any two periods of [AGG_PERIODS] at one timestamp have different rows. *)
Lemma AGG_PERIODS_rows ts :
  0 ≤ ts →
  ∃ hour day,
    getTimeID ts ONE_HOUR_SECONDS = Some hour ∧ getTimeID ts DAY_SECONDS = Some day
    ∧ 0 ≤ hour ∧ 0 ≤ day
    ∧ ∀ a a',
        aggregateStatId hour ONE_HOUR_SECONDS a ≠ aggregateStatId day DAY_SECONDS a'.
Proof.
  intros Hts.
  assert (ONE_HOUR_SECONDS ≠ 0) as Hh by done. assert (DAY_SECONDS ≠ 0) as Hd by done.
  pose proof (getTimeID_nonneg ts ONE_HOUR_SECONDS _ Hts eq_refl (getTimeID_Some ts _ Hh))
    as (_ & Hh0 & _).
  pose proof (getTimeID_nonneg ts DAY_SECONDS _ Hts eq_refl (getTimeID_Some ts _ Hd))
    as (_ & Hd0 & _).
  eexists _, _. split; [by apply getTimeID_Some|]. split; [by apply getTimeID_Some|].
  split; [lia|]. split; [lia|]. intros a a' H.
  apply aggregateStatId_inj in H as (_ & H & _); [done|lia|lia|done|done].
Qed.

Lemma updateAggregateStatEntities_unfold at_ mk_ asset ts tr vol fs fk st :
  updateAggregateStatEntities at_ mk_ asset ts tr vol fs fk st
  = st1 ← updateAggregateStatPeriod at_ mk_ asset ts tr vol fs fk ONE_HOUR_SECONDS st;
    updateAggregateStatPeriod at_ mk_ asset ts tr vol fs fk DAY_SECONDS st1.
Proof.
  unfold updateAggregateStatEntities, AGG_PERIODS. cbn [forEachPeriod].
  destruct (updateAggregateStatPeriod _ _ _ _ _ _ _ _ ONE_HOUR_SECONDS st) as [st1|];
    [|done].
  cbn [mbind option_bind].
  by destruct (updateAggregateStatPeriod _ _ _ _ _ _ _ _ DAY_SECONDS st1).
Qed.

(** The rows after the rollup, whatever the asset. *)
Lemma updateAggregateStatEntities_rows at_ mk_ asset ts tr vol fs fk st :
  0 ≤ ts →
  ∃ hour day hourRow hourAll dayRow dayAll,
    getTimeID ts ONE_HOUR_SECONDS = Some hour ∧ getTimeID ts DAY_SECONDS = Some day
    ∧ (∀ a a',
         aggregateStatId hour ONE_HOUR_SECONDS a ≠ aggregateStatId day DAY_SECONDS a')
    ∧ updateAggregateStatEntities at_ mk_ asset ts tr vol fs fk st
      = Some (st <| aggregateStats :=
                <[aggregateStatId day DAY_SECONDS [] := dayAll]>
                  (<[aggregateStatId day DAY_SECONDS asset := dayRow]>
                     (<[aggregateStatId hour ONE_HOUR_SECONDS [] := hourAll]>
                        (<[aggregateStatId hour ONE_HOUR_SECONDS asset := hourRow]>
                           (aggregateStats st)))) |>)
    ∧ rolledUp at_ tr vol fs fk
        (getOrCreateMarketAggregateStats mk_ asset hour ONE_HOUR_SECONDS st) hourRow
    ∧ rolledUp at_ tr vol fs fk
        (getOrCreateMarketAggregateStats mk_ asset day DAY_SECONDS st) dayRow
    ∧ (asset ≠ [] →
       rolledUp at_ tr vol fs fk
         (getOrCreateMarketAggregateStats [] [] hour ONE_HOUR_SECONDS st) hourAll
       ∧ rolledUp at_ tr vol fs fk
           (getOrCreateMarketAggregateStats [] [] day DAY_SECONDS st) dayAll)
    ∧ (asset = [] →
       rolledUp at_ tr vol fs fk hourRow hourAll ∧ rolledUp at_ tr vol fs fk dayRow dayAll).
Proof.
  intros Hts. destruct (AGG_PERIODS_rows ts Hts) as (hour & day & Hh & Hd & _ & _ & Hne).
  destruct (updateAggregateStatPeriod_rows at_ mk_ asset ts tr vol fs fk _ st _ Hh)
    as (hourRow & hourAll & H1 & Hr1 & Ha1).
  set (st1 := st <| aggregateStats :=
                     <[aggregateStatId hour ONE_HOUR_SECONDS [] := hourAll]>
                       (<[aggregateStatId hour ONE_HOUR_SECONDS asset := hourRow]>
                          (aggregateStats st)) |>) in *.
  destruct (updateAggregateStatPeriod_rows at_ mk_ asset ts tr vol fs fk _ st1 _ Hd)
    as (dayRow & dayAll & H2 & Hr2 & Ha2).
  exists hour, day, hourRow, hourAll, dayRow, dayAll.
  split; [done|]. split; [done|]. split; [done|].
  split.
  { rewrite updateAggregateStatEntities_unfold, H1. cbn [mbind option_bind].
    rewrite H2. by destruct st. }
  assert (∀ k a, getOrCreateMarketAggregateStats k a day DAY_SECONDS st1
                 = getOrCreateMarketAggregateStats k a day DAY_SECONDS st) as Hday.
  { intros k a. unfold st1, getOrCreateMarketAggregateStats. cbn.
    rewrite !lookup_insert_ne; [done|apply Hne..]. }
  split; [done|]. split; [by rewrite <- Hday|].
  split.
  - intros Hasset. split.
    + rewrite getOrCreateMarketAggregateStats_ne in Ha1; [done|].
      intros H. by apply aggregateStatId_asset in H.
    + rewrite getOrCreateMarketAggregateStats_ne in Ha2.
      * by rewrite <- Hday.
      * intros H. by apply aggregateStatId_asset in H.
  - intros ->. rewrite getOrCreateMarketAggregateStats_eq in Ha1, Ha2. done.
Qed.

(** The rows after the rollup of an asset that is not empty. *)
Lemma updateAggregateStatEntities_spec accountType marketKey asset timestamp
    trades volume feesSynthetix feesKwenta st :
  0 ≤ timestamp → asset ≠ [] →
  ∃ st',
    updateAggregateStatEntities accountType marketKey asset timestamp trades volume
      feesSynthetix feesKwenta st = Some st'
    ∧ st' = st <| aggregateStats := aggregateStats st' |>
    ∧ (∀ period, period ∈ AGG_PERIODS →
       ∃ start marketRow globalRow,
         getTimeID timestamp period = Some start
         ∧ aggregateStats st' !! aggregateStatId start period asset = Some marketRow
         ∧ rolledUp accountType trades volume feesSynthetix feesKwenta
             (getOrCreateMarketAggregateStats marketKey asset start period st) marketRow
         ∧ aggregateStats st' !! aggregateStatId start period [] = Some globalRow
         ∧ rolledUp accountType trades volume feesSynthetix feesKwenta
             (getOrCreateMarketAggregateStats [] [] start period st) globalRow)
    ∧ (∀ id,
         (∀ period start a,
            period ∈ AGG_PERIODS → getTimeID timestamp period = Some start →
            a = asset ∨ a = [] → id ≠ aggregateStatId start period a) →
         aggregateStats st' !! id = aggregateStats st !! id).
Proof.
  intros Hts Hasset.
  destruct (updateAggregateStatEntities_rows accountType marketKey asset timestamp
              trades volume feesSynthetix feesKwenta st Hts)
    as (hour & day & hourRow & hourAll & dayRow & dayAll & Hh & Hd & Hne & Hrun
        & Hr1 & Hr2 & Hall & _).
  destruct (Hall Hasset) as [Ha1 Ha2].
  assert (∀ start q, aggregateStatId start q [] ≠ aggregateStatId start q asset) as Hrow.
  { intros start q H. apply aggregateStatId_asset in H. congruence. }
  eexists. split; [exact Hrun|]. split; [by destruct st|]. split.
  - intros period Hin. unfold AGG_PERIODS in Hin.
    apply elem_of_cons in Hin as [->|Hin];
      [|apply list_elem_of_singleton in Hin as ->].
    + exists hour, hourRow, hourAll. split; [done|]. cbn.
      split; [|split; [done|split; [|done]]].
      * rewrite lookup_insert_ne by (intros H; by apply (Hne asset [])).
        rewrite lookup_insert_ne by (intros H; by apply (Hne asset asset)).
        rewrite lookup_insert_ne by apply Hrow. apply lookup_insert_eq.
      * rewrite lookup_insert_ne by (intros H; by apply (Hne [] [])).
        rewrite lookup_insert_ne by (intros H; by apply (Hne [] asset)).
        apply lookup_insert_eq.
    + exists day, dayRow, dayAll. split; [done|]. cbn.
      split; [|split; [done|split; [|done]]].
      * rewrite lookup_insert_ne by apply Hrow. apply lookup_insert_eq.
      * apply lookup_insert_eq.
  - intros id Hid. cbn.
    assert (ONE_HOUR_SECONDS ∈ AGG_PERIODS) as Hin1 by (unfold AGG_PERIODS; left).
    assert (DAY_SECONDS ∈ AGG_PERIODS) as Hin2
      by (unfold AGG_PERIODS; right; left).
    rewrite !lookup_insert_ne; [done|..]; apply not_eq_sym.
    + by apply (Hid _ _ asset Hin1 Hh); left.
    + by apply (Hid _ _ [] Hin1 Hh); right.
    + by apply (Hid _ _ asset Hin2 Hd); left.
    + by apply (Hid _ _ [] Hin2 Hd); right.
Qed.

(** X3. The rollup of an asset that is not the empty byte string, at a
    timestamp that is not negative, returns; for the hour and for the
    day it saves the row of the asset and the row of all markets, each
    with the trades, the volume and the two fees added to what the row
    held (zero for a new row), and with the sum of the fees added to
    [feesCrossMarginAccounts] for a smart-margin account only. Every
    other row and every other table is left as it was. *)
Theorem updateAggregateStatEntities_rolls_up accountType marketKey asset timestamp
    trades volume feesSynthetix feesKwenta st :
  0 ≤ timestamp → asset ≠ [] →
  ∃ st',
    updateAggregateStatEntities accountType marketKey asset timestamp trades volume
      feesSynthetix feesKwenta st = Some st'
    ∧ st' = st <| aggregateStats := aggregateStats st' |>
    ∧ (∀ period, period ∈ AGG_PERIODS →
       ∃ start marketRow globalRow,
         getTimeID timestamp period = Some start
         ∧ aggregateStats st' !! aggregateStatId start period asset = Some marketRow
         ∧ rolledUp accountType trades volume feesSynthetix feesKwenta
             (getOrCreateMarketAggregateStats marketKey asset start period st) marketRow
         ∧ aggregateStats st' !! aggregateStatId start period [] = Some globalRow
         ∧ rolledUp accountType trades volume feesSynthetix feesKwenta
             (getOrCreateMarketAggregateStats [] [] start period st) globalRow)
    ∧ (∀ id,
         (∀ period start a,
            period ∈ AGG_PERIODS → getTimeID timestamp period = Some start →
            a = asset ∨ a = [] → id ≠ aggregateStatId start period a) →
         aggregateStats st' !! id = aggregateStats st !! id).
Proof. apply updateAggregateStatEntities_spec. Qed.

Lemma updateAggregateStatEntities_rolls_up_witness :
  ∃ st',
    updateAggregateStatEntities smart_margin [x02] [x01] 90061 1 50 3 4 emptyStore
    = Some st'
    ∧ st' = emptyStore <| aggregateStats := aggregateStats st' |>
    ∧ (∀ period, period ∈ AGG_PERIODS →
       ∃ start marketRow globalRow,
         getTimeID 90061 period = Some start
         ∧ aggregateStats st' !! aggregateStatId start period [x01] = Some marketRow
         ∧ rolledUp smart_margin 1 50 3 4
             (getOrCreateMarketAggregateStats [x02] [x01] start period emptyStore)
             marketRow
         ∧ aggregateStats st' !! aggregateStatId start period [] = Some globalRow
         ∧ rolledUp smart_margin 1 50 3 4
             (getOrCreateMarketAggregateStats [] [] start period emptyStore) globalRow)
    ∧ (∀ id,
         (∀ period start a,
            period ∈ AGG_PERIODS → getTimeID 90061 period = Some start →
            a = [x01] ∨ a = [] → id ≠ aggregateStatId start period a) →
         aggregateStats st' !! id = aggregateStats emptyStore !! id).
Proof. apply updateAggregateStatEntities_rolls_up; [lia|discriminate]. Defined.

(** X4. When the asset is the empty byte string the row of the asset is
    the row of all markets, so every turn of the loop adds the deltas to
    it twice: the second load reads the row the first save wrote. *)
Theorem updateAggregateStatEntities_empty_asset accountType marketKey timestamp
    trades volume feesSynthetix feesKwenta st :
  0 ≤ timestamp →
  ∃ st',
    updateAggregateStatEntities accountType marketKey [] timestamp trades volume
      feesSynthetix feesKwenta st = Some st'
    ∧ ∀ period, period ∈ AGG_PERIODS →
      ∃ start row,
        getTimeID timestamp period = Some start
        ∧ aggregateStats st' !! aggregateStatId start period [] = Some row
        ∧ rolledUp accountType (trades + trades) (volume + volume)
            (feesSynthetix + feesSynthetix) (feesKwenta + feesKwenta)
            (getOrCreateMarketAggregateStats marketKey [] start period st) row.
Proof.
  intros Hts.
  destruct (updateAggregateStatEntities_rows accountType marketKey [] timestamp
              trades volume feesSynthetix feesKwenta st Hts)
    as (hour & day & hourRow & hourAll & dayRow & dayAll & Hh & Hd & Hne & Hrun
        & Hr1 & Hr2 & _ & Hsame).
  destruct (Hsame eq_refl) as [Ha1 Ha2].
  eexists. split; [exact Hrun|].
  intros period Hin. unfold AGG_PERIODS in Hin.
  apply elem_of_cons in Hin as [->|Hin];
    [|apply list_elem_of_singleton in Hin as ->].
  - exists hour, hourAll. split; [done|]. cbn. split.
    + rewrite lookup_insert_ne by (intros H; by apply (Hne [] [])).
      rewrite lookup_insert_ne by (intros H; by apply (Hne [] [])).
      apply lookup_insert_eq.
    + by apply (rolledUp_twice _ _ _ _ _ _ hourRow).
  - exists day, dayAll. split; [done|]. cbn. split; [apply lookup_insert_eq|].
    by apply (rolledUp_twice _ _ _ _ _ _ dayRow).
Qed.

Lemma updateAggregateStatEntities_empty_asset_witness :
  ∃ st',
    updateAggregateStatEntities isolated_margin [x02] [] 90061 1 50 3 4 emptyStore
    = Some st'
    ∧ ∀ period, period ∈ AGG_PERIODS →
      ∃ start row,
        getTimeID 90061 period = Some start
        ∧ aggregateStats st' !! aggregateStatId start period [] = Some row
        ∧ rolledUp isolated_margin (1 + 1) (50 + 50) (3 + 3) (4 + 4)
            (getOrCreateMarketAggregateStats [x02] [] start period emptyStore) row.
Proof. apply updateAggregateStatEntities_empty_asset. lia. Defined.

(** ** Markets *)

Section MarketsAndFunding.

Variable bytesToString : Bytes → string.
Variable FUNDING_RATE_PERIODS : list BigInt.
Variable FUNDING_RATE_PERIOD_TYPES : list string.

Lemma handleV2MarketAdded_eq event sg :
  handleV2MarketAdded bytesToString event sg
  = Some (sg <| entities :=
                  (entities sg)
                    <| cumulativeStats :=
                         <[toHex (MAE.marketKey event)
                           := getOrCreateMarketCumulativeStats
                                (toHex (MAE.marketKey event)) (entities sg)]>
                           (cumulativeStats (entities sg)) |>
                    <| markets :=
                         <[toHex (MAE.market event)
                           := {| FuturesMarketEntity.asset := MAE.asset event;
                                 FuturesMarketEntity.marketKey := MAE.marketKey event;
                                 FuturesMarketEntity.marketStats :=
                                   toHex (MAE.marketKey event) |}]>
                           (markets (entities sg)) |> |>
             <| perpsMarketSources :=
                  perpsMarketSources sg
                  ++ (if endsWith (bytesToString (MAE.marketKey event)) "PERP"
                      then [MAE.market event] else []) |>).
Proof.
  unfold handleV2MarketAdded. destruct (endsWith _ _); [done|].
  cbn. by rewrite app_nil_r.
Qed.

Lemma getOrCreateMarketCumulativeStats_saved k id st :
  getOrCreateMarketCumulativeStats k
    (st <| cumulativeStats :=
             <[id := getOrCreateMarketCumulativeStats id st]> (cumulativeStats st) |>)
  = getOrCreateMarketCumulativeStats k st.
Proof.
  unfold getOrCreateMarketCumulativeStats. cbn.
  destruct (decide (id = k)) as [->|Hne].
  - by rewrite lookup_insert_eq.
  - by rewrite lookup_insert_ne.
Qed.

(** X5. [handleV2MarketAdded] always returns. It saves the market under
    the address of the event with the asset and the key of the event and
    a link to the cumulative entity keyed by the hex of the market key,
    which it saves as it was loaded or created: no counter of any
    cumulative entity changes, and no other market, position, trade or
    stats entity is touched. A data source is created for the market
    exactly when the text of the market key ends with PERP. *)
Theorem handleV2MarketAdded_registers event sg :
  ∃ sg',
    handleV2MarketAdded bytesToString event sg = Some sg'
    ∧ markets (entities sg') !! toHex (MAE.market event)
      = Some {| FuturesMarketEntity.asset := MAE.asset event;
                FuturesMarketEntity.marketKey := MAE.marketKey event;
                FuturesMarketEntity.marketStats := toHex (MAE.marketKey event) |}
    ∧ (∀ other, other ≠ MAE.market event →
         markets (entities sg') !! toHex other = markets (entities sg) !! toHex other)
    ∧ is_Some (cumulativeStats (entities sg') !! toHex (MAE.marketKey event))
    ∧ (∀ k, getOrCreateMarketCumulativeStats k (entities sg')
            = getOrCreateMarketCumulativeStats k (entities sg))
    ∧ entities sg'
      = (entities sg) <| cumulativeStats := cumulativeStats (entities sg') |>
                    <| markets := markets (entities sg') |>
    ∧ fundingRatePeriods sg' = fundingRatePeriods sg
    ∧ perpsMarketSources sg'
      = perpsMarketSources sg
        ++ (if endsWith (bytesToString (MAE.marketKey event)) "PERP"
            then [MAE.market event] else []).
Proof.
  eexists. split; [apply handleV2MarketAdded_eq|]. cbn.
  split; [apply lookup_insert_eq|].
  split.
  { intros other Hne. apply lookup_insert_ne. intros H. by apply toHex_inj in H. }
  split; [rewrite lookup_insert_eq; by eexists|].
  split.
  { intros k.
    apply (getOrCreateMarketCumulativeStats_saved k (toHex (MAE.marketKey event))
             (entities sg)). }
  split; [by destruct (entities sg)|]. done.
Qed.

(** A market that is added again: the store stays, one more data source
    is created. *)
Lemma handleV2MarketAdded_again event sg sg1 sg2 :
  handleV2MarketAdded bytesToString event sg = Some sg1 →
  handleV2MarketAdded bytesToString event sg1 = Some sg2 →
  entities sg2 = entities sg1.
Proof.
  rewrite !handleV2MarketAdded_eq. intros [= <-] [= <-]. cbn.
  unfold getOrCreateMarketCumulativeStats. cbn.
  rewrite lookup_insert_eq, !insert_insert_eq. by destruct (entities sg).
Qed.

End MarketsAndFunding.

(** ** Funding checkpoints and funding-rate periods *)

Section FundingRates.

Variable bytesToString : Bytes → string.
Variable FUNDING_RATE_PERIODS : list BigInt.
Variable FUNDING_RATE_PERIOD_TYPES : list string.

(** One turn of the loop. *)
Lemma updateFundingRatePeriod_inv ts asset rate p q tbl tbl' :
  updateFundingRatePeriod FUNDING_RATE_PERIOD_TYPES ts asset rate p q tbl = Some tbl' →
  ∃ periodType start,
    FUNDING_RATE_PERIOD_TYPES !! p = Some periodType
    ∧ q ≠ 0 ∧ getTimeID ts q = Some start ∧ start = ts - Z.rem ts q
    ∧ tbl' = <[fundingRatePeriodIdOf asset periodType start
               := match tbl !! fundingRatePeriodIdOf asset periodType start with
                  | None => freshPeriod rate periodType start
                  | Some existingPeriod =>
                      existingPeriod <| FundingRatePeriod.fundingRate :=
                                          FundingRateUpdate.fundingRate rate |>
                  end]> tbl.
Proof.
  unfold updateFundingRatePeriod. intros H.
  apply bind_Some in H as (periodType & Hty & H).
  apply bind_Some in H as (start & Hstart & H).
  assert (q ≠ 0) as Hq.
  { intros ->. unfold getTimeID, mod_ in Hstart. by rewrite bool_decide_eq_true_2 in Hstart. }
  pose proof Hstart as Hstart'. rewrite getTimeID_Some in Hstart' by done.
  apply (inj Some) in Hstart'.
  exists periodType, start. split; [done|]. split; [done|]. split; [done|].
  split; [done|].
  destruct (tbl !! _) as [old|].
  - by apply (inj Some) in H.
  - rewrite mod_Some in H by done. cbn in H. apply (inj Some) in H. by subst.
Qed.

Lemma updateFundingRatePeriod_total ts asset rate p q tbl :
  q ≠ 0 → is_Some (FUNDING_RATE_PERIOD_TYPES !! p) →
  is_Some (updateFundingRatePeriod FUNDING_RATE_PERIOD_TYPES ts asset rate p q tbl).
Proof.
  intros Hq [periodType Hty]. unfold updateFundingRatePeriod. rewrite Hty. cbn.
  rewrite getTimeID_Some by done. cbn.
  destruct (tbl !! _); [by eexists|]. rewrite mod_Some by done. by eexists.
Qed.

(** The loop returns when every period it reaches is not zero and has a type. *)
Lemma updateFundingRatePeriodsFrom_is_Some p rest ts asset rate tbl :
  is_Some (updateFundingRatePeriodsFrom FUNDING_RATE_PERIOD_TYPES p rest ts asset rate tbl)
  ↔ ∀ i q, rest !! i = Some q →
      q ≠ 0 ∧ is_Some (FUNDING_RATE_PERIOD_TYPES !! (p + i)%nat).
Proof.
  revert p tbl. induction rest as [|q0 rest IH]; intros p tbl; cbn.
  - split; [intros _ i q Hi; by rewrite lookup_nil in Hi|by eexists].
  - split.
    + intros [tbl' H]. apply bind_Some in H as (tbl1 & H1 & H).
      apply updateFundingRatePeriod_inv in H1 as (ty & start & Hty & Hq & _).
      intros [|i] q Hi; cbn in Hi.
      * apply (inj Some) in Hi as <-. rewrite Nat.add_0_r. split; [done|by eexists].
      * replace (p + S i)%nat with (S p + i)%nat by lia.
        by apply (proj1 (IH (S p) tbl1) (mk_is_Some _ _ H) i q).
    + intros Hall.
      destruct (Hall 0%nat q0 eq_refl) as [Hq Hty]. rewrite Nat.add_0_r in Hty.
      destruct (updateFundingRatePeriod_total ts asset rate p q0 tbl Hq Hty)
        as [tbl1 ->].
      cbn. apply IH. intros i q Hi.
      replace (S p + i)%nat with (p + S i)%nat by lia. by apply Hall.
Qed.

(** What the loop leaves in the table. *)
Lemma updateFundingRatePeriodsFrom_spec p rest ts asset rate tbl tbl' :
  updateFundingRatePeriodsFrom FUNDING_RATE_PERIOD_TYPES p rest ts asset rate tbl
  = Some tbl' →
  (∀ i q, rest !! i = Some q →
     ∃ periodType start row,
       FUNDING_RATE_PERIOD_TYPES !! (p + i)%nat = Some periodType
       ∧ getTimeID ts q = Some start
       ∧ tbl' !! fundingRatePeriodIdOf asset periodType start = Some row
       ∧ FundingRatePeriod.fundingRate row = FundingRateUpdate.fundingRate rate)
  ∧ (∀ id old, tbl !! id = Some old →
       tbl' !! id = Some old
       ∨ tbl' !! id
         = Some (old <| FundingRatePeriod.fundingRate :=
                          FundingRateUpdate.fundingRate rate |>))
  ∧ (∀ id row, tbl !! id = None → tbl' !! id = Some row →
       ∃ i q periodType start,
         rest !! i = Some q
         ∧ FUNDING_RATE_PERIOD_TYPES !! (p + i)%nat = Some periodType
         ∧ getTimeID ts q = Some start ∧ start = ts - Z.rem ts q
         ∧ id = fundingRatePeriodIdOf asset periodType start
         ∧ row = freshPeriod rate periodType start).
Proof.
  revert p tbl. induction rest as [|q0 rest IH]; intros p tbl H; cbn in H.
  - apply (inj Some) in H as <-. split; [intros i q Hi; by rewrite lookup_nil in Hi|].
    split; [by left|]. intros id row Hno Hyes. congruence.
  - apply bind_Some in H as (tbl1 & H1 & H).
    apply updateFundingRatePeriod_inv in H1
      as (ty0 & start0 & Hty0 & Hq0 & Hstart0 & Hrem0 & ->).
    set (id0 := fundingRatePeriodIdOf asset ty0 start0) in *.
    set (row0 := match tbl !! id0 with
                 | None => freshPeriod rate ty0 start0
                 | Some existingPeriod =>
                     existingPeriod <| FundingRatePeriod.fundingRate :=
                                         FundingRateUpdate.fundingRate rate |>
                 end) in *.
    assert (FundingRatePeriod.fundingRate row0 = FundingRateUpdate.fundingRate rate)
      as Hrate0 by (unfold row0; by destruct (tbl !! id0)).
    assert (row0 <| FundingRatePeriod.fundingRate := FundingRateUpdate.fundingRate rate |>
            = row0) as Hidem.
    { destruct row0 as [fr a k pe t]. cbn in Hrate0 |- *. by rewrite Hrate0. }
    destruct (IH (S p) _ H) as (Ha & Hb & Hc).
    split; [|split].
    + intros [|i] q Hi; cbn in Hi.
      * apply (inj Some) in Hi as <-. rewrite Nat.add_0_r.
        exists ty0, start0. fold id0.
        destruct (Hb id0 row0 (lookup_insert_eq _ _ _)) as [Hrow|Hrow];
          eexists; (split; [done|split; [done|split; [exact Hrow|]]]); [done|].
        by rewrite Hidem.
      * replace (p + S i)%nat with (S p + i)%nat by lia. by apply Ha.
    + intros id old Hold. destruct (decide (id = id0)) as [->|Hne].
      * assert (row0 = old <| FundingRatePeriod.fundingRate :=
                                FundingRateUpdate.fundingRate rate |>) as Hrow0
          by (unfold row0; by rewrite Hold).
        right. destruct (Hb id0 row0 (lookup_insert_eq _ _ _)) as [Hrow|Hrow].
        -- by rewrite Hrow, Hrow0.
        -- by rewrite Hrow, Hidem, Hrow0.
      * apply Hb. by rewrite lookup_insert_ne.
    + intros id row Hno Hyes. destruct (decide (id = id0)) as [->|Hne].
      * assert (row0 = freshPeriod rate ty0 start0) as Hrow0
          by (unfold row0; by rewrite Hno).
        exists 0%nat, q0, ty0, start0. rewrite Nat.add_0_r.
        split; [done|]. split; [done|]. split; [done|]. split; [done|].
        split; [done|].
        destruct (Hb id0 row0 (lookup_insert_eq _ _ _)) as [Hrow|Hrow].
        -- rewrite Hrow in Hyes. apply (inj Some) in Hyes. by rewrite <- Hyes.
        -- rewrite Hrow, Hidem in Hyes. apply (inj Some) in Hyes. by rewrite <- Hyes.
      * destruct (Hc id row) as (i & q & ty & start & Hi & Hty & Hst & Hrem & Hid & Hrow);
          [by rewrite lookup_insert_ne|done|].
        exists (S i), q, ty, start. replace (p + S i)%nat with (S p + i)%nat by lia.
        done.
Qed.

Lemma handleFundingRecomputed_inv event sg sg' :
  handleFundingRecomputed bytesToString FUNDING_RATE_PERIODS FUNDING_RATE_PERIOD_TYPES
    event sg = Some sg' →
  let marketEntity := markets (entities sg) !! toHex (Ev.address (FRE.base event)) in
  ∃ periods,
    match marketEntity with
    | Some m =>
        updateFundingRatePeriods FUNDING_RATE_PERIODS FUNDING_RATE_PERIOD_TYPES
          (FRE.timestamp event)
          (bytesToString (FuturesMarketEntity.asset m))
          (checkpointOf event marketEntity) (fundingRatePeriods sg) = Some periods
    | None => periods = fundingRatePeriods sg
    end
    ∧ sg' = sg <| entities :=
                    (entities sg)
                      <| fundingRateUpdates :=
                           <[fundingRateUpdateIdOf (Ev.address (FRE.base event))
                               (FRE.index event) := checkpointOf event marketEntity]>
                             (fundingRateUpdates (entities sg)) |> |>
               <| fundingRatePeriods := periods |>.
Proof.
  intros H marketEntity. unfold handleFundingRecomputed in H.
  fold marketEntity in H. destruct marketEntity as [m|].
  - apply bind_Some in H as ([r periods] & Hp & H).
    apply bind_Some in Hp as (periods' & Hp & Heq).
    apply (inj Some) in Heq. apply pair_equal_spec in Heq as [<- <-].
    apply (inj Some) in H as <-. exists periods'. split; [exact Hp|done].
  - cbn in H. apply (inj Some) in H as <-. by eexists.
Qed.

(** X6. The checkpoint a [FundingRecomputed] event leaves. When the
    handler returns, the checkpoint is saved under the market of the
    event and its index, with the funding, the rate and the timestamp
    of the event, and with the asset and the key of the market entity,
    or the zero address when the market is unknown. The checkpoints of
    every other market and index, every other table of the store and
    the data sources stay; when the market is unknown no funding-rate
    period is written. *)
Theorem handleFundingRecomputed_checkpoint event sg sg' :
  handleFundingRecomputed bytesToString FUNDING_RATE_PERIODS FUNDING_RATE_PERIOD_TYPES
    event sg = Some sg' →
  let market := Ev.address (FRE.base event) in
  ∃ r,
    fundingRateUpdates (entities sg') !! fundingRateUpdateIdOf market (FRE.index event)
    = Some r
    ∧ FundingRateUpdate.funding r = FRE.funding event
    ∧ FundingRateUpdate.fundingRate r = FRE.fundingRate event
    ∧ FundingRateUpdate.timestamp r = FRE.timestamp event
    ∧ FundingRateUpdate.sequenceLength r = FRE.index event
    ∧ FundingRateUpdate.market r = market
    ∧ match markets (entities sg) !! toHex market with
      | Some m =>
          FundingRateUpdate.asset r = FuturesMarketEntity.asset m
          ∧ FundingRateUpdate.marketKey r = FuturesMarketEntity.marketKey m
      | None =>
          FundingRateUpdate.asset r = ZERO_ADDRESS
          ∧ FundingRateUpdate.marketKey r = ZERO_ADDRESS
          ∧ fundingRatePeriods sg' = fundingRatePeriods sg
      end
    ∧ (∀ market' index',
         (market', index') ≠ (market, FRE.index event) →
         fundingRateUpdates (entities sg') !! fundingRateUpdateIdOf market' index'
         = fundingRateUpdates (entities sg) !! fundingRateUpdateIdOf market' index')
    ∧ entities sg'
      = (entities sg) <| fundingRateUpdates := fundingRateUpdates (entities sg') |>
    ∧ perpsMarketSources sg' = perpsMarketSources sg.
Proof.
  intros H market. apply handleFundingRecomputed_inv in H as (periods & Hp & ->).
  cbv zeta in Hp. fold market in Hp |- *. eexists. cbn.
  split; [apply lookup_insert_eq|]. do 5 (split; [done|]).
  split; [by destruct (markets (entities sg) !! toHex market)|].
  split.
  { intros market' index' Hne. apply lookup_insert_ne. intros Heq.
    apply fundingRateUpdateIdOf_inj in Heq as [<- <-]. done. }
  split; [by destruct (entities sg)|done].
Qed.

(** X7. The funding-rate periods a [FundingRecomputed] event of a known
    market leaves. Every configured period has, under the text of the
    asset, its type and the start of the bucket of the event's
    timestamp, a row with the rate of the event. A row that existed
    keeps its asset, market key, period type and timestamp: at most its
    rate is replaced. A row that did not exist is the row of one of
    the configured periods, stamped with the start of the bucket. *)
Theorem handleFundingRecomputed_periods event sg sg' m :
  markets (entities sg) !! toHex (Ev.address (FRE.base event)) = Some m →
  handleFundingRecomputed bytesToString FUNDING_RATE_PERIODS FUNDING_RATE_PERIOD_TYPES
    event sg = Some sg' →
  let asset := bytesToString (FuturesMarketEntity.asset m) in
  (∀ p periodSeconds,
     FUNDING_RATE_PERIODS !! p = Some periodSeconds →
     ∃ periodType start row,
       FUNDING_RATE_PERIOD_TYPES !! p = Some periodType
       ∧ getTimeID (FRE.timestamp event) periodSeconds = Some start
       ∧ fundingRatePeriods sg' !! fundingRatePeriodIdOf asset periodType start = Some row
       ∧ FundingRatePeriod.fundingRate row = FRE.fundingRate event)
  ∧ (∀ id old,
       fundingRatePeriods sg !! id = Some old →
       fundingRatePeriods sg' !! id = Some old
       ∨ fundingRatePeriods sg' !! id
         = Some (old <| FundingRatePeriod.fundingRate := FRE.fundingRate event |>))
  ∧ (∀ id row,
       fundingRatePeriods sg !! id = None →
       fundingRatePeriods sg' !! id = Some row →
       ∃ p periodSeconds periodType,
         FUNDING_RATE_PERIODS !! p = Some periodSeconds
         ∧ FUNDING_RATE_PERIOD_TYPES !! p = Some periodType
         ∧ periodSeconds ≠ 0
         ∧ id = fundingRatePeriodIdOf asset periodType
                  (FRE.timestamp event - Z.rem (FRE.timestamp event) periodSeconds)
         ∧ row
           = {| FundingRatePeriod.fundingRate := FRE.fundingRate event;
                FundingRatePeriod.asset := FuturesMarketEntity.asset m;
                FundingRatePeriod.marketKey := FuturesMarketEntity.marketKey m;
                FundingRatePeriod.period := periodType;
                FundingRatePeriod.timestamp :=
                  FRE.timestamp event
                  - Z.rem (FRE.timestamp event) periodSeconds |}).
Proof.
  intros Hm H asset. apply handleFundingRecomputed_inv in H as (periods & Hp & ->).
  cbv zeta in Hp. rewrite Hm in Hp. fold asset in Hp.
  apply updateFundingRatePeriodsFrom_spec in Hp as (Ha & Hb & Hc). cbn.
  split; [exact Ha|]. split; [exact Hb|].
  intros id row Hno Hyes.
  destruct (Hc id row Hno Hyes)
    as (p & q & ty & start & Hq & Hty & Hstart & -> & -> & ->).
  exists p, q, ty. split; [done|]. split; [done|]. split; [|done].
  intros ->. unfold getTimeID, mod_ in Hstart. by rewrite bool_decide_eq_true_2 in Hstart.
Qed.

(** X8. [handleFundingRecomputed] aborts only in the loop over the
    funding-rate periods: it returns exactly when the market of the
    event is unknown, or no configured period is zero and every one of
    them has a period type at its index. *)
Theorem handleFundingRecomputed_returns_iff event sg :
  is_Some (handleFundingRecomputed bytesToString FUNDING_RATE_PERIODS
             FUNDING_RATE_PERIOD_TYPES event sg)
  ↔ markets (entities sg) !! toHex (Ev.address (FRE.base event)) = None
    ∨ (Forall (λ periodSeconds, periodSeconds ≠ 0) FUNDING_RATE_PERIODS
       ∧ (length FUNDING_RATE_PERIODS ≤ length FUNDING_RATE_PERIOD_TYPES)%nat).
Proof.
  assert ((∀ i q, FUNDING_RATE_PERIODS !! i = Some q →
             q ≠ 0 ∧ is_Some (FUNDING_RATE_PERIOD_TYPES !! (0 + i)%nat))
          ↔ Forall (λ q, q ≠ 0) FUNDING_RATE_PERIODS
            ∧ (length FUNDING_RATE_PERIODS ≤ length FUNDING_RATE_PERIOD_TYPES)%nat)
    as Hcfg.
  { rewrite Forall_lookup. split.
    - intros Hall. split; [intros i q Hi; by apply (Hall i q)|].
      destruct (decide (length FUNDING_RATE_PERIODS = 0)%nat) as [->|Hlen]; [lia|].
      destruct (lookup_lt_is_Some_2 FUNDING_RATE_PERIODS
                  (length FUNDING_RATE_PERIODS - 1)) as [q Hq]; [lia|].
      destruct (Hall _ _ Hq) as [_ Hty]. apply lookup_lt_is_Some_1 in Hty. lia.
    - intros [Hnz Hlen] i q Hi. split; [by apply (Hnz i q)|].
      apply lookup_lt_is_Some_2. apply lookup_lt_Some in Hi. lia. }
  unfold handleFundingRecomputed.
  destruct (markets (entities sg) !! _) as [m|] eqn:Hm.
  - rewrite <- Hcfg.
    rewrite <- (updateFundingRatePeriodsFrom_is_Some 0 FUNDING_RATE_PERIODS
                  (FRE.timestamp event) (bytesToString (FuturesMarketEntity.asset m))
                  (checkpointOf event (Some m)) (fundingRatePeriods sg)).
    fold (updateFundingRatePeriods FUNDING_RATE_PERIODS FUNDING_RATE_PERIOD_TYPES
            (FRE.timestamp event)
            (bytesToString (FuturesMarketEntity.asset m))
            (checkpointOf event (Some m)) (fundingRatePeriods sg)).
    change ({| FundingRateUpdate.timestamp := FRE.timestamp event;
               FundingRateUpdate.market := Ev.address (FRE.base event);
               FundingRateUpdate.sequenceLength := FRE.index event;
               FundingRateUpdate.funding := FRE.funding event;
               FundingRateUpdate.fundingRate := FRE.fundingRate event;
               FundingRateUpdate.asset := ZERO_ADDRESS;
               FundingRateUpdate.marketKey := ZERO_ADDRESS |}
              <| FundingRateUpdate.asset := FuturesMarketEntity.asset m |>
              <| FundingRateUpdate.marketKey := FuturesMarketEntity.marketKey m |>)
      with (checkpointOf event (Some m)).
    destruct (updateFundingRatePeriods FUNDING_RATE_PERIODS FUNDING_RATE_PERIOD_TYPES
                _ _ _ _) as [periods|]; cbn.
    + split; [intros _; right; by eexists|by eexists].
    + split; [by intros [? ?]|]. intros [?|[? ?]]; done.
  - cbn. split; [by left|by eexists].
Qed.

End FundingRates.

Lemma handleFundingRecomputed_checkpoint_witness :
  ∃ r,
    fundingRateUpdates (entities checkpointedSubgraph) !! fundingRateUpdateIdOf market1 1
    = Some r
    ∧ FundingRateUpdate.funding r = 2 * ETHER
    ∧ FundingRateUpdate.fundingRate r = 7
    ∧ FundingRateUpdate.asset r = String.list_byte_of_string "sETH"
    ∧ FundingRateUpdate.marketKey r = String.list_byte_of_string "sETHPERP".
Proof.
  destruct (handleFundingRecomputed_checkpoint asciiToString twoPeriods twoPeriodTypes
              (recomputeEvent 1 (2 * ETHER) 7 90061) market1Subgraph
              checkpointedSubgraph)
    as (r & Hr & Hf & Hfr & _ & _ & _ & Hm & _).
  - vm_compute. reflexivity.
  - exists r. split; [exact Hr|]. split; [exact Hf|]. split; [exact Hfr|]. exact Hm.
Defined.

Lemma handleFundingRecomputed_periods_witness :
  ∃ hourRow dayRow,
    fundingRatePeriods checkpointedSubgraph !! fundingRatePeriodIdOf "sETH" "hour" 90000
    = Some hourRow
    ∧ FundingRatePeriod.fundingRate hourRow = 7
    ∧ fundingRatePeriods checkpointedSubgraph !! fundingRatePeriodIdOf "sETH" "day" 86400
      = Some dayRow
    ∧ FundingRatePeriod.fundingRate dayRow = 7.
Proof.
  destruct (handleFundingRecomputed_periods asciiToString twoPeriods twoPeriodTypes
              (recomputeEvent 1 (2 * ETHER) 7 90061) market1Subgraph
              checkpointedSubgraph market1Entity) as (Hrows & _).
  - vm_compute. reflexivity.
  - vm_compute. reflexivity.
  - destruct (Hrows 0%nat 3600 eq_refl) as (ty1 & s1 & row1 & Hty1 & Hs1 & Hrow1 & Hr1).
    destruct (Hrows 1%nat 86400 eq_refl) as (ty2 & s2 & row2 & Hty2 & Hs2 & Hrow2 & Hr2).
    injection Hty1 as <-. injection Hty2 as <-.
    injection Hs1 as <-. injection Hs2 as <-.
    exists row1, row2. split; [exact Hrow1|]. split; [exact Hr1|].
    split; [exact Hrow2|exact Hr2].
Defined.

(** ** Funding, from the checkpoints to the position *)

(** The accrual of [handlePositionModified] when both checkpoints exist. *)
Lemma handlePositionModified_accrues event st st' p pastFundingEntity currentFundingEntity :
  positions st !! pmPositionId event = Some p →
  Pos.fundingIndex p ≠ PME.fundingIndex event →
  fundingRateUpdates st
    !! fundingRateUpdateIdOf (Ev.address (PME.base event)) (Pos.fundingIndex p)
  = Some pastFundingEntity →
  fundingRateUpdates st
    !! fundingRateUpdateIdOf (Ev.address (PME.base event)) (PME.fundingIndex event)
  = Some currentFundingEntity →
  handlePositionModified event st = Some st' →
  ∃ p' s',
    positions st' !! pmPositionId event = Some p'
    ∧ stats st' !! toHex (pmAccount event st) = Some s'
    ∧ Pos.netFunding p'
      = Pos.netFunding p
        + Z.quot ((FundingRateUpdate.funding currentFundingEntity
                   - FundingRateUpdate.funding pastFundingEntity) * Pos.size p) ETHER
    ∧ Stat.feesPaid s'
      = Stat.feesPaid (pmStat0 event st)
        - Z.quot ((FundingRateUpdate.funding currentFundingEntity
                   - FundingRateUpdate.funding pastFundingEntity) * Pos.size p) ETHER
        + PME.fee event
    ∧ Pos.fundingIndex p' = PME.fundingIndex event.
Proof.
  intros Hp Hidx Hpast Hcur H.
  apply handlePositionModified_spec in H
    as (fa & p1 & s1 & st1 & p2 & s2 & c2 & st2 & Hf & Hb & Hpos & Hstats & _).
  exists (updatePositionValues event p2), (updateStatValues event s2).
  rewrite Hpos, Hstats, !lookup_insert_eq. split; [done|]. split; [done|].
  apply pmBranch_preserved in Hb as (_ & _ & _ & Hnf & Hfi & _ & Hsf & _).
  assert (pmPosition0 event st = p) as Hp0
    by (unfold pmPosition0, positionOrNew; by rewrite Hp).
  rewrite Hp0 in Hf.
  change (Pos.netFunding (updatePositionValues event p2)) with (Pos.netFunding p2).
  change (Pos.fundingIndex (updatePositionValues event p2)) with (Pos.fundingIndex p2).
  change (Stat.feesPaid (updateStatValues event s2))
    with (Stat.feesPaid s2 + PME.fee event).
  rewrite Hnf, Hfi, Hsf.
  apply accrueFunding_inv in Hf as [([?|[Hn|Hn]] & _)|Hf]; [done|..].
  - cbv zeta in Hn. congruence.
  - cbv zeta in Hn. congruence.
  - destruct Hf as (pf & cf & _ & Hpf & Hcf & -> & -> & -> & _).
    cbv zeta in Hpf, Hcf. rewrite Hpast in Hpf. rewrite Hcur in Hcf.
    apply (inj Some) in Hpf as <-. apply (inj Some) in Hcf as <-. done.
Qed.

Section FundingToPosition.

Variable bytesToString : Bytes → string.
Variable FUNDING_RATE_PERIODS : list BigInt.
Variable FUNDING_RATE_PERIOD_TYPES : list string.

(** X9. The checkpoints [handleFundingRecomputed] writes are the ones
    [handlePositionModified] reads. After the checkpoints of the index
    stored in a position and of the index of an event of that position
    are recorded for its market, in this order, the event accrues the
    difference of the two cumulative fundings times the size of the
    position, divided by the unit: it is added to the net funding of the
    position and subtracted from the fees of the trader, and the funding
    index of the position advances. *)
Theorem recomputed_funding_is_accrued past current event sg sg1 sg2 st3 p :
  Ev.address (FRE.base past) = Ev.address (PME.base event) →
  Ev.address (FRE.base current) = Ev.address (PME.base event) →
  FRE.index past = Pos.fundingIndex p →
  FRE.index current = PME.fundingIndex event →
  Pos.fundingIndex p ≠ PME.fundingIndex event →
  positions (entities sg) !! pmPositionId event = Some p →
  handleFundingRecomputed bytesToString FUNDING_RATE_PERIODS FUNDING_RATE_PERIOD_TYPES
    past sg = Some sg1 →
  handleFundingRecomputed bytesToString FUNDING_RATE_PERIODS FUNDING_RATE_PERIOD_TYPES
    current sg1 = Some sg2 →
  handlePositionModified event (entities sg2) = Some st3 →
  let fundingAccrued :=
    Z.quot ((FRE.funding current - FRE.funding past) * Pos.size p) ETHER in
  ∃ p' s',
    positions st3 !! pmPositionId event = Some p'
    ∧ stats st3 !! toHex (pmAccount event (entities sg2)) = Some s'
    ∧ Pos.netFunding p' = Pos.netFunding p + fundingAccrued
    ∧ Stat.feesPaid s'
      = Stat.feesPaid (pmStat0 event (entities sg2)) - fundingAccrued + PME.fee event
    ∧ Pos.fundingIndex p' = PME.fundingIndex event.
Proof.
  intros Ha1 Ha2 Hi1 Hi2 Hidx Hp H1 H2 H3 fundingAccrued.
  apply handleFundingRecomputed_inv in H1 as (periods1 & _ & ->).
  apply handleFundingRecomputed_inv in H2 as (periods2 & _ & ->).
  cbv zeta in H3. cbn [entities set set_entities set_fundingRatePeriods] in H3.
  match type of H3 with
  | handlePositionModified _ ?s = _ => set (st2 := s) in H3
  end.
  assert (positions st2 = positions (entities sg)) as Hpos by reflexivity.
  rewrite <- Hpos in Hp.
  assert (fundingRateUpdates st2
            !! fundingRateUpdateIdOf (Ev.address (PME.base event)) (Pos.fundingIndex p)
          = Some (checkpointOf past
                    (markets (entities sg) !! toHex (Ev.address (FRE.base past)))))
    as Hpast.
  { unfold st2. cbn. rewrite lookup_insert_ne.
    - rewrite Ha1, Hi1. apply lookup_insert_eq.
    - intros Heq. apply fundingRateUpdateIdOf_inj in Heq as [_ Heq]. congruence. }
  assert (∃ m, fundingRateUpdates st2
            !! fundingRateUpdateIdOf (Ev.address (PME.base event)) (PME.fundingIndex event)
          = Some (checkpointOf current m)) as [m Hcur].
  { eexists. unfold st2. cbn. rewrite Ha2, Hi2. apply lookup_insert_eq. }
  exact (handlePositionModified_accrues event st2 st3 p _ _ Hp Hidx Hpast Hcur H3).
Qed.

End FundingToPosition.

Lemma recomputed_funding_is_accrued_witness :
  ∃ p' s',
    positions afterRecomputedFundingStore !! pmPositionId fundingEvent = Some p'
    ∧ stats afterRecomputedFundingStore !! toHex alice = Some s'
    ∧ Pos.netFunding p' = 0 + 20
    ∧ Stat.feesPaid s' = 5 - 20 + 0
    ∧ Pos.fundingIndex p' = 1.
Proof.
  refine (recomputed_funding_is_accrued asciiToString twoPeriods twoPeriodTypes
            (recomputeEvent 0 0 0 1000) (recomputeEvent 1 (2 * ETHER) 7 1000)
            fundingEvent openedSubgraph recomputedSubgraph0 recomputedSubgraph1
            afterRecomputedFundingStore (pmPosition0 fundingEvent marketOpenedStore)
            _ _ _ _ _ _ _ _ _).
  - reflexivity.
  - reflexivity.
  - vm_compute. reflexivity.
  - reflexivity.
  - vm_compute. discriminate.
  - vm_compute. reflexivity.
  - vm_compute. reflexivity.
  - vm_compute. reflexivity.
  - vm_compute. reflexivity.
Defined.

(** ** The counters of a trade *)

(** What [updatePnlAndEntryPrice] leaves of the trade, the position and
    the stats entity. *)
Lemma updatePnlAndEntryPrice_counters event t p s t1 p1 s1 :
  updatePnlAndEntryPrice event t p s = Some (t1, p1, s1) →
  Trade.size t1 = Trade.size t ∧ Trade.price t1 = Trade.price t
  ∧ Trade.feesPaid t1 = Trade.feesPaid t ∧ Trade.orderType t1 = Trade.orderType t
  ∧ Trade.positionId t1 = Trade.positionId t ∧ Trade.account t1 = Trade.account t
  ∧ Pos.trades p1 = Pos.trades p ∧ Pos.totalVolume p1 = Pos.totalVolume p
  ∧ Pos.account p1 = Pos.account p ∧ Pos.abstractAccount p1 = Pos.abstractAccount p
  ∧ Pos.accountType p1 = Pos.accountType p ∧ Pos.openTimestamp p1 = Pos.openTimestamp p
  ∧ Pos.isLiquidated p1 = Pos.isLiquidated p ∧ Pos.market p1 = Pos.market p
  ∧ Stat.totalTrades s1 = Stat.totalTrades s ∧ Stat.totalVolume s1 = Stat.totalVolume s
  ∧ Stat.smartMarginVolume s1 = Stat.smartMarginVolume s
  ∧ Stat.account s1 = Stat.account s
  ∧ Stat.pnlWithFeesPaid s1 = Stat.pnlWithFeesPaid s.
Proof.
  destruct (updatePnlAndEntryPrice_cases event p) as [H|[[??]|[(?&?&?)|(?&?&?)]]].
  - rewrite updatePnlAndEntryPrice_close by done. intros [= <- <- <-]. done.
  - rewrite updatePnlAndEntryPrice_flip by done. intros [= <- <- <-]. done.
  - rewrite updatePnlAndEntryPrice_increase by done. intros [= <- <- <-]. done.
  - rewrite updatePnlAndEntryPrice_reduce by done. intros [= <- <- <-]. done.
Qed.

Lemma newTrade_fields event acc sa at_ pid me fa :
  let t := newTrade event acc sa at_ pid me fa in
  Trade.size t = PME.tradeSize event ∧ Trade.price t = PME.lastPrice event
  ∧ Trade.feesPaid t = PME.fee event ∧ Trade.orderType t = "Market"
  ∧ Trade.positionId t = pid ∧ Trade.account t = acc
  ∧ Trade.abstractAccount t = sa ∧ Trade.accountType t = at_
  ∧ Trade.keeperFeesPaid t = 0 ∧ Trade.trackingCode t = ZERO_ADDRESS
  ∧ Trade.positionClosed t = isZero (PME.size event)
  ∧ Trade.positionSize t = PME.size event
  ∧ Trade.margin t = PME.margin event + PME.fee event
  ∧ Trade.fundingAccrued t = fa
  ∧ Trade.timestamp t = Ev.block_timestamp (PME.base event).
Proof. unfold newTrade. by destruct me, (isZero (PME.size event)). Qed.

Lemma recordTrade_counters event acc sa at_ pid me fa p s c st p2 s2 c2 st2 :
  recordTrade event acc sa at_ pid me fa p s c st = Some (p2, s2, c2, st2) →
  tradeCounted (tradeVolume event) c c2
  ∧ Cum.totalTrades c + 1 ≠ 0
  ∧ Stat.totalTrades s2 = Stat.totalTrades s + 1
  ∧ Stat.totalVolume s2 = Stat.totalVolume s + tradeVolume event
  ∧ Stat.smartMarginVolume s2
    = Stat.smartMarginVolume s
      + (if decide (at_ = smart_margin) then tradeVolume event else 0)
  ∧ Stat.account s2 = Stat.account s
  ∧ Pos.trades p2 = Pos.trades p + 1
  ∧ Pos.totalVolume p2 = Pos.totalVolume p + tradeVolume event
  ∧ match me with
    | Some m =>
        ∃ marketCumulativeStats,
          cumulativeStats st2
          = <[toHex (FuturesMarketEntity.asset m) := marketCumulativeStats]>
              (cumulativeStats st)
          ∧ tradeCounted (tradeVolume event)
              (getOrCreateMarketCumulativeStats (toHex (FuturesMarketEntity.asset m)) st)
              marketCumulativeStats
          ∧ Cum.totalTrades
              (getOrCreateMarketCumulativeStats (toHex (FuturesMarketEntity.asset m)) st)
            + 1 ≠ 0
    | None => cumulativeStats st2 = cumulativeStats st
    end.
Proof.
  intros H. unfold recordTrade in H.
  apply bind_Some in H as ([[t1 p1] s1] & Hu & H).
  apply updatePnlAndEntryPrice_counters in Hu
    as (Hts & Htp & _ & _ & _ & _ & Hpt & Hpv & _ & _ & _ & _ & _ & _ & Hst & Hsv & Hsm
        & Hsa & _).
  pose proof (newTrade_fields event acc sa at_ pid me fa) as Hnew. cbv zeta in Hnew.
  destruct Hnew as (Hns & Hnp & _). rewrite Hns in Hts. rewrite Hnp in Htp.
  apply bind_Some in H as (q & Hq & H). rewrite div_ETHER in Hq.
  apply (inj Some) in Hq as <-. rewrite Hts, Htp in H.
  fold (tradeVolume event) in H.
  apply bind_Some in H as (avg & Havg & H).
  apply div_inv in Havg as [Hnz ->]. cbn in Hnz.
  apply bind_Some in H as (st3 & Hm & H).
  apply (inj Some) in H.
  apply pair_equal_spec in H as [H <-].
  apply pair_equal_spec in H as [H <-].
  apply pair_equal_spec in H as [<- <-].
  split; [by repeat split|]. split; [done|].
  split; [by destruct (decide _); cbn; rewrite ?Hst|].
  split; [by destruct (decide _); cbn; rewrite ?Hsv|].
  split; [destruct (decide _); cbn; rewrite ?Hsm; lia|].
  split; [by destruct (decide _); cbn; rewrite ?Hsa|].
  split; [by cbn; rewrite Hpt|]. split; [by cbn; rewrite Hpv|].
  destruct me as [m|].
  - apply bind_Some in Hm as (mavg & Hmavg & Hm).
    apply div_inv in Hmavg as [Hmnz ->]. cbn in Hmnz.
    apply bind_Some in Hm as (k & _ & Hm).
    apply bind_Some in Hm as (a & _ & Hm).
    apply updateAggregateStatEntities_frame in Hm. rewrite Hm.
    eexists. split; [reflexivity|]. split; [by repeat split|done].
  - apply (inj Some) in Hm. by rewrite <- Hm.
Qed.

Lemma pmCumulative0_fields event st :
  Cum.totalTrades (pmCumulative0 event st)
  = Cum.totalTrades (getOrCreateCumulativeEntity st)
  ∧ Cum.totalVolume (pmCumulative0 event st)
    = Cum.totalVolume (getOrCreateCumulativeEntity st)
  ∧ Cum.averageTradeSize (pmCumulative0 event st)
    = Cum.averageTradeSize (getOrCreateCumulativeEntity st)
  ∧ Cum.totalLiquidations (pmCumulative0 event st)
    = Cum.totalLiquidations (getOrCreateCumulativeEntity st)
  ∧ Cum.totalTraders (pmCumulative0 event st)
    = Cum.totalTraders (getOrCreateCumulativeEntity st)
      + match stats st !! toHex (pmAccount event st) with Some _ => 0 | None => 1 end.
Proof.
  unfold pmCumulative0, statOrNew.
  destruct (stats st !! toHex (pmAccount event st)); cbn; repeat split; lia.
Qed.

(** The tables [handlePositionModified] reads before its branch are those
    of the store after the accrual of funding. *)
Lemma accrueFunding_tables event acc pid p s st fa p1 s1 st1 :
  accrueFunding event acc pid p s st = Some (fa, p1, s1, st1) →
  cumulativeStats st1 = cumulativeStats st ∧ trades st1 = trades st
  ∧ marginTransfers st1 = marginTransfers st ∧ aggregateStats st1 = aggregateStats st
  ∧ marginAccounts st1 = marginAccounts st ∧ positions st1 = positions st
  ∧ stats st1 = stats st ∧ markets st1 = markets st.
Proof. intros H. apply accrueFunding_frame in H. by rewrite H. Qed.

(** The entities of an event with a trade size, with their counters. *)
Lemma handlePositionModified_trade_counters event st st' :
  PME.tradeSize event ≠ 0 →
  handlePositionModified event st = Some st' →
  ∃ p' s' c',
    positions st' !! pmPositionId event = Some p'
    ∧ stats st' !! toHex (pmAccount event st) = Some s'
    ∧ cumulativeStats st' !! SINGLE_INDEX = Some c'
    ∧ Pos.trades p' = Pos.trades (pmPosition0 event st) + 1
    ∧ Pos.totalVolume p' = Pos.totalVolume (pmPosition0 event st) + tradeVolume event
    ∧ Stat.totalTrades s' = Stat.totalTrades (pmStat0 event st) + 1
    ∧ Stat.totalVolume s' = Stat.totalVolume (pmStat0 event st) + tradeVolume event
    ∧ Stat.smartMarginVolume s'
      = Stat.smartMarginVolume (pmStat0 event st)
        + (if decide (resolveAccountType (PME.account event) st = smart_margin)
           then tradeVolume event else 0)
    ∧ tradeCounted (tradeVolume event) (pmCumulative0 event st) c'
    ∧ match markets st !! toHex (Ev.address (PME.base event)) with
      | Some m =>
          ∃ marketCumulativeStats,
            cumulativeStats st'
            = <[SINGLE_INDEX := c']>
                (<[toHex (FuturesMarketEntity.asset m) := marketCumulativeStats]>
                   (cumulativeStats st))
            ∧ tradeCounted (tradeVolume event)
                (getOrCreateMarketCumulativeStats
                   (toHex (FuturesMarketEntity.asset m)) st)
                marketCumulativeStats
      | None => cumulativeStats st' = <[SINGLE_INDEX := c']> (cumulativeStats st)
      end.
Proof.
  intros Hts H.
  apply handlePositionModified_spec in H
    as (fa & p1 & s1 & st1 & p2 & s2 & c2 & st2 & Hf & Hb & Hpos & Hstats & Hcum & _).
  unfold pmBranch in Hb. rewrite (proj2 (isZero_false _) Hts) in Hb. cbn [negb] in Hb.
  apply recordTrade_counters in Hb
    as (Hc & _ & Hst & Hsv & Hsm & _ & Hpt & Hpv & Hmk).
  pose proof (accrueFunding_tables _ _ _ _ _ _ _ _ _ _ Hf) as (Hc1 & _).
  assert (Pos.trades p1 = Pos.trades (pmPosition0 event st)
          ∧ Pos.totalVolume p1 = Pos.totalVolume (pmPosition0 event st)
          ∧ Stat.totalTrades s1 = Stat.totalTrades (pmStat0 event st)
          ∧ Stat.totalVolume s1 = Stat.totalVolume (pmStat0 event st)
          ∧ Stat.smartMarginVolume s1 = Stat.smartMarginVolume (pmStat0 event st))
    as (Hp1t & Hp1v & Hs1t & Hs1v & Hs1m).
  { apply accrueFunding_inv in Hf as [(_ & _ & -> & -> & _)|Hf]; [done|].
    by destruct Hf as (pf & cf & _ & _ & _ & _ & -> & -> & _). }
  exists (updatePositionValues event p2), (updateStatValues event s2), c2.
  rewrite Hpos, Hstats, Hcum, !lookup_insert_eq.
  split; [done|]. split; [done|]. split; [done|].
  split; [cbn; lia|]. split; [cbn; lia|]. split; [cbn; lia|]. split; [cbn; lia|].
  split; [cbn; lia|]. split; [done|].
  destruct (markets st !! toHex (Ev.address (PME.base event))) as [m|].
  - destruct Hmk as (mcs & -> & Hmcs & _). exists mcs. rewrite Hc1.
    split; [done|].
    unfold getOrCreateMarketCumulativeStats in Hmcs |- *. by rewrite Hc1 in Hmcs.
  - by rewrite Hmk, Hc1.
Qed.

(** X10. An event with a trade is counted once everywhere. The volume of
    the trade, [|tradeSize * lastPrice / ETHER|], is added to the total
    volume of the position, of the stats entity of the trader, of the
    global cumulative entity and, when the market is known, of the
    cumulative entity of its asset; each of their trade counters grows
    by one; the average trade size of the cumulative entities is the
    new volume divided by the new count; the smart-margin volume of the
    trader grows by the volume for a smart-margin account only. *)
Theorem trade_is_counted event st st' :
  PME.tradeSize event ≠ 0 →
  handlePositionModified event st = Some st' →
  ∃ p' s' c',
    positions st' !! pmPositionId event = Some p'
    ∧ stats st' !! toHex (pmAccount event st) = Some s'
    ∧ cumulativeStats st' !! SINGLE_INDEX = Some c'
    ∧ Pos.trades p' = Pos.trades (pmPosition0 event st) + 1
    ∧ Pos.totalVolume p' = Pos.totalVolume (pmPosition0 event st) + tradeVolume event
    ∧ Stat.totalTrades s' = Stat.totalTrades (pmStat0 event st) + 1
    ∧ Stat.totalVolume s' = Stat.totalVolume (pmStat0 event st) + tradeVolume event
    ∧ Stat.smartMarginVolume s'
      = Stat.smartMarginVolume (pmStat0 event st)
        + (if decide (resolveAccountType (PME.account event) st = smart_margin)
           then tradeVolume event else 0)
    ∧ Cum.totalTrades c' = Cum.totalTrades (getOrCreateCumulativeEntity st) + 1
    ∧ Cum.totalVolume c'
      = Cum.totalVolume (getOrCreateCumulativeEntity st) + tradeVolume event
    ∧ Cum.averageTradeSize c' = Z.quot (Cum.totalVolume c') (Cum.totalTrades c')
    ∧ Cum.totalLiquidations c' = Cum.totalLiquidations (getOrCreateCumulativeEntity st)
    ∧ ∀ m, markets st !! toHex (Ev.address (PME.base event)) = Some m →
        ∃ marketCumulativeStats,
          cumulativeStats st' !! toHex (FuturesMarketEntity.asset m)
          = Some marketCumulativeStats
          ∧ tradeCounted (tradeVolume event)
              (getOrCreateMarketCumulativeStats (toHex (FuturesMarketEntity.asset m)) st)
              marketCumulativeStats.
Proof.
  intros Hts H.
  destruct (handlePositionModified_trade_counters event st st' Hts H)
    as (p' & s' & c' & Hp & Hs & Hc & Hpt & Hpv & Hst & Hsv & Hsm & Hcount & Hmk).
  destruct (pmCumulative0_fields event st) as (H0t & H0v & _ & H0l & _).
  destruct Hcount as (Hct & Hcv & Hca & Hcl & _).
  exists p', s', c'. do 8 (split; [done|]).
  split; [lia|]. split; [lia|]. split; [by rewrite Hca, Hct, Hcv|]. split; [lia|].
  intros m Hm. rewrite Hm in Hmk. destruct Hmk as (mcs & Hcum & Hmcs).
  exists mcs. split; [|done]. rewrite Hcum.
  rewrite lookup_insert_ne by (apply not_eq_sym, toHex_not_SINGLE_INDEX).
  apply lookup_insert_eq.
Qed.

Lemma trade_is_counted_witness :
  ∃ p' s' c',
    positions increasedStore !! pmPositionId increaseEvent = Some p'
    ∧ stats increasedStore !! toHex alice = Some s'
    ∧ cumulativeStats increasedStore !! SINGLE_INDEX = Some c'
    ∧ Pos.trades p' = 2 ∧ Stat.totalTrades s' = 2 ∧ Cum.totalTrades c' = 2.
Proof.
  destruct (trade_is_counted increaseEvent openedStore increasedStore)
    as (p' & s' & c' & Hp & Hs & Hc & Hpt & _ & Hst & _ & _ & Hct & _).
  - vm_compute. discriminate.
  - vm_compute. reflexivity.
  - exists p', s', c'. split; [exact Hp|]. split; [exact Hs|]. split; [exact Hc|].
    split; [exact Hpt|]. split; [exact Hst|exact Hct].
Defined.

(** ** Traders are counted once *)

Lemma handlePositionModified_cumulative event st st' :
  handlePositionModified event st = Some st' →
  ∃ c',
    cumulativeStats st' !! SINGLE_INDEX = Some c'
    ∧ Cum.totalTraders c' = Cum.totalTraders (pmCumulative0 event st)
    ∧ Cum.totalLiquidations c' = Cum.totalLiquidations (pmCumulative0 event st)
    ∧ is_Some (stats st' !! toHex (pmAccount event st))
    ∧ smartMarginAccounts st' = smartMarginAccounts st.
Proof.
  intros H.
  apply handlePositionModified_spec in H
    as (fa & p1 & s1 & st1 & p2 & s2 & c2 & st2 & Hf & Hb & Hpos & Hstats & Hcum & _
        & _ & _ & _ & _ & Hsma & _).
  apply pmBranch_preserved in Hb as (_ & _ & _ & _ & _ & _ & _ & _ & Hl & Ht & _).
  exists c2. rewrite Hcum, Hstats, !lookup_insert_eq. by repeat split.
Qed.

(** X11. The global count of traders grows by one exactly when the
    account of the event has no stats entity yet, and the event leaves
    one: a later event of the same account does not count the trader
    again. *)
Theorem trader_is_counted_once event later st st1 st2 :
  handlePositionModified event st = Some st1 →
  PME.account later = PME.account event →
  handlePositionModified later st1 = Some st2 →
  ∃ c1 c2,
    cumulativeStats st1 !! SINGLE_INDEX = Some c1
    ∧ cumulativeStats st2 !! SINGLE_INDEX = Some c2
    ∧ Cum.totalTraders c1
      = Cum.totalTraders (getOrCreateCumulativeEntity st)
        + match stats st !! toHex (pmAccount event st) with Some _ => 0 | None => 1 end
    ∧ Cum.totalTraders c2 = Cum.totalTraders c1.
Proof.
  intros H1 Hacc H2.
  destruct (handlePositionModified_cumulative _ _ _ H1) as (c1 & Hc1 & Ht1 & _ & Hs1 & Hsma).
  destruct (handlePositionModified_cumulative _ _ _ H2) as (c2 & Hc2 & Ht2 & _).
  destruct (pmCumulative0_fields event st) as (_ & _ & _ & _ & H0).
  destruct (pmCumulative0_fields later st1) as (_ & _ & _ & _ & H0').
  assert (pmAccount later st1 = pmAccount event st) as Hsame.
  { unfold pmAccount, resolveAccount. by rewrite Hacc, Hsma. }
  rewrite Hsame in H0'. destruct Hs1 as [s1 Hs1]. rewrite Hs1 in H0'.
  exists c1, c2. split; [done|]. split; [done|]. split; [lia|].
  unfold getOrCreateCumulativeEntity in H0'. rewrite Hc1 in H0'. lia.
Qed.

Lemma trader_is_counted_once_witness :
  ∃ c1 c2,
    cumulativeStats openedStore !! SINGLE_INDEX = Some c1
    ∧ cumulativeStats increasedStore !! SINGLE_INDEX = Some c2
    ∧ Cum.totalTraders c1 = 0 + 1
    ∧ Cum.totalTraders c2 = Cum.totalTraders c1.
Proof.
  refine (trader_is_counted_once openEvent increaseEvent emptyStore openedStore
            increasedStore _ _ _).
  - vm_compute. reflexivity.
  - reflexivity.
  - vm_compute. reflexivity.
Defined.

(** ** The other cases of a trade: side flip, reduction, opening *)

Lemma sideFlip_sizes oldSize newSize :
  sideFlip oldSize newSize → newSize ≠ 0 ∧ oldSize ≠ 0.
Proof. unfold sideFlip. lia. Qed.

(** What the entities of an event with a trade keep of the stored ones. *)
(** More of what [accrueFunding] never touches. *)
Lemma accrueFunding_flags event acc pid p s st fa p1 s1 st1 :
  accrueFunding event acc pid p s st = Some (fa, p1, s1, st1) →
  Pos.isOpen p1 = Pos.isOpen p ∧ Pos.exitPrice p1 = Pos.exitPrice p
  ∧ Pos.closeTimestamp p1 = Pos.closeTimestamp p
  ∧ Pos.isLiquidated p1 = Pos.isLiquidated p
  ∧ Pos.account p1 = Pos.account p ∧ Pos.abstractAccount p1 = Pos.abstractAccount p
  ∧ Pos.accountType p1 = Pos.accountType p ∧ Pos.market p1 = Pos.market p
  ∧ Pos.openTimestamp p1 = Pos.openTimestamp p
  ∧ Pos.trades p1 = Pos.trades p ∧ Pos.totalVolume p1 = Pos.totalVolume p.
Proof.
  intros H. apply accrueFunding_inv in H as [(_ & _ & -> & -> & _)|H]; [done|].
  by destruct H as (pf & cf & _ & _ & _ & _ & -> & -> & _).
Qed.

(** X12. A trade that changes the side of an existing position realises
    the pnl of the whole old position, [(lastPrice - avgEntryPrice) *
    oldSize / ETHER], on the trade, the position and the stats entity,
    and resets both entry prices of the position to the price of the
    event; the position stays as open as it was. *)
Theorem side_flip_realises_pnl event st st' p :
  positions st !! pmPositionId event = Some p →
  PME.tradeSize event ≠ 0 →
  sideFlip (Pos.size p) (PME.size event) →
  handlePositionModified event st = Some st' →
  let newPnl :=
    Z.quot ((PME.lastPrice event - Pos.avgEntryPrice p) * Pos.size p) ETHER in
  ∃ p' s' t,
    positions st' !! pmPositionId event = Some p'
    ∧ stats st' !! toHex (pmAccount event st) = Some s'
    ∧ trades st'
        !! tradeIdOf (Ev.transaction_hash (PME.base event))
             (Ev.logIndex (PME.base event)) = Some t
    ∧ Trade.pnl t = newPnl
    ∧ Pos.pnl p' = Pos.pnl p + newPnl
    ∧ Stat.pnl s' = Stat.pnl (pmStat0 event st) + newPnl
    ∧ Pos.avgEntryPrice p' = PME.lastPrice event
    ∧ Pos.entryPrice p' = PME.lastPrice event
    ∧ Pos.size p' = PME.size event
    ∧ Pos.isOpen p' = Pos.isOpen p
    ∧ Pos.exitPrice p' = Pos.exitPrice p.
Proof.
  intros Hp Hts Hflip H newPnl.
  destruct (sideFlip_sizes _ _ Hflip) as [Hnz _].
  apply handlePositionModified_trade in H
    as (fa & p1 & s1 & st1 & t2 & p2 & s2 & p' & s' & Hf & Hu & Hp' & Hs' & Ht
        & Hpnl & Havg & Hentry & Hopen & Hexit & _ & Hsize & Hspnl); [|done].
  assert (pmPosition0 event st = p) as Hp0
    by (unfold pmPosition0, positionOrNew; by rewrite Hp).
  rewrite Hp0 in Hf.
  pose proof (accrueFunding_flags _ _ _ _ _ _ _ _ _ _ Hf) as (Ho & Hx & _).
  apply accrueFunding_preserved in Hf
    as (_ & Ha & Hs & Hp1 & _ & _ & _ & _ & _ & _ & Hs1 & _).
  rewrite updatePnlAndEntryPrice_flip in Hu by (by rewrite ?Hs). cbv zeta in Hu.
  apply (inj Some) in Hu. apply pair_equal_spec in Hu as [Hu <-].
  apply pair_equal_spec in Hu as [<- <-].
  eexists p', s', _. split; [done|]. split; [done|]. split; [exact Ht|].
  rewrite Hpnl, Havg, Hentry, Hopen, Hexit, Hsize, Hspnl. cbn.
  rewrite Ha, Hs, Hp1, Hs1, Ho, Hx. done.
Qed.

Lemma side_flip_realises_pnl_witness :
  ∃ p' t,
    positions unitFlippedStore !! pmPositionId unitFlipEvent = Some p'
    ∧ trades unitFlippedStore !! tradeIdOf hash1 2 = Some t
    ∧ Trade.pnl t = 100 * ETHER
    ∧ Pos.pnl p' = 100 * ETHER
    ∧ Pos.avgEntryPrice p' = 110 * ETHER
    ∧ Pos.size p' = -5 * ETHER.
Proof.
  destruct (side_flip_realises_pnl unitFlipEvent unitOpenedStore unitFlippedStore
              (pmPosition0 unitFlipEvent unitOpenedStore))
    as (p' & s' & t & Hp & _ & Ht & Htp & Hpp & _ & Ha & _ & Hs & _).
  - vm_compute. reflexivity.
  - vm_compute. discriminate.
  - right. split; vm_compute; reflexivity.
  - vm_compute. reflexivity.
  - exists p', t. split; [exact Hp|]. split; [exact Ht|]. split; [exact Htp|].
    split; [exact Hpp|]. split; [exact Ha|exact Hs].
Defined.

(** X13. A trade that leaves an existing position on its side with a
    size that is not larger realises the pnl of the part that is
    closed, [(lastPrice - avgEntryPrice) * |tradeSize| * sign(newSize) /
    ETHER], on the trade, the position and the stats entity; the entry
    prices of the position stay. *)
Theorem reduction_realises_pnl event st st' p :
  positions st !! pmPositionId event = Some p →
  PME.tradeSize event ≠ 0 →
  sameSide (Pos.size p) (PME.size event) →
  Z.abs (PME.size event) ≤ Z.abs (Pos.size p) →
  handlePositionModified event st = Some st' →
  let newPnl :=
    Z.quot ((PME.lastPrice event - Pos.avgEntryPrice p) * Z.abs (PME.tradeSize event)
            * Z.sgn (PME.size event)) ETHER in
  ∃ p' s' t,
    positions st' !! pmPositionId event = Some p'
    ∧ stats st' !! toHex (pmAccount event st) = Some s'
    ∧ trades st'
        !! tradeIdOf (Ev.transaction_hash (PME.base event))
             (Ev.logIndex (PME.base event)) = Some t
    ∧ Trade.pnl t = newPnl
    ∧ Pos.pnl p' = Pos.pnl p + newPnl
    ∧ Stat.pnl s' = Stat.pnl (pmStat0 event st) + newPnl
    ∧ Pos.avgEntryPrice p' = Pos.avgEntryPrice p
    ∧ Pos.entryPrice p' = Pos.entryPrice p
    ∧ Pos.size p' = PME.size event
    ∧ Pos.isOpen p' = Pos.isOpen p.
Proof.
  intros Hp Hts Hside Hred H newPnl.
  destruct (sameSide_not_sideFlip _ _ Hside) as [Hnz Hflip].
  apply handlePositionModified_trade in H
    as (fa & p1 & s1 & st1 & t2 & p2 & s2 & p' & s' & Hf & Hu & Hp' & Hs' & Ht
        & Hpnl & Havg & Hentry & Hopen & _ & _ & Hsize & Hspnl); [|done].
  assert (pmPosition0 event st = p) as Hp0
    by (unfold pmPosition0, positionOrNew; by rewrite Hp).
  rewrite Hp0 in Hf.
  pose proof (accrueFunding_flags _ _ _ _ _ _ _ _ _ _ Hf) as (Ho & _).
  apply accrueFunding_preserved in Hf
    as (He & Ha & Hs & Hp1 & _ & _ & _ & _ & _ & _ & Hs1 & _).
  rewrite updatePnlAndEntryPrice_reduce in Hu by (by rewrite ?Hs). cbv zeta in Hu.
  apply (inj Some) in Hu. apply pair_equal_spec in Hu as [Hu <-].
  apply pair_equal_spec in Hu as [<- <-].
  assert ((if gt (PME.size event) ZERO then 1 else -1) = Z.sgn (PME.size event)) as Hsgn.
  { unfold gt, ZERO. case_bool_decide; lia. }
  eexists p', s', _. split; [done|]. split; [done|]. split; [exact Ht|].
  rewrite Hpnl, Havg, Hentry, Hopen, Hsize, Hspnl. cbn.
  rewrite He, Ha, Hp1, Hs1, Ho, Hsgn. done.
Qed.

Lemma reduction_realises_pnl_witness :
  ∃ p' t,
    positions unitReducedStore !! pmPositionId reduceEvent = Some p'
    ∧ trades unitReducedStore !! tradeIdOf hash1 2 = Some t
    ∧ Trade.pnl t = 60 * ETHER
    ∧ Pos.pnl p' = 60 * ETHER
    ∧ Pos.avgEntryPrice p' = 100 * ETHER
    ∧ Pos.size p' = 4 * ETHER.
Proof.
  destruct (reduction_realises_pnl reduceEvent unitOpenedStore unitReducedStore
              (pmPosition0 reduceEvent unitOpenedStore))
    as (p' & s' & t & Hp & _ & Ht & Htp & Hpp & _ & Ha & _ & Hs & _).
  - vm_compute. reflexivity.
  - vm_compute. discriminate.
  - left. split; vm_compute; reflexivity.
  - vm_compute. discriminate.
  - vm_compute. reflexivity.
  - exists p', t. split; [exact Hp|]. split; [exact Ht|]. split; [exact Htp|].
    split; [exact Hpp|]. split; [exact Ha|exact Hs].
Defined.

(** The first event of a position with a trade: no funding accrues, and
    [updatePnlAndEntryPrice] realises nothing. *)
Lemma newPosition_trade event st :
  positions st !! pmPositionId event = None →
  let p0 := newPosition event (pmAccount event st) (PME.account event)
              (resolveAccountType (PME.account event) st)
              (markets st !! toHex (Ev.address (PME.base event))) in
  pmPosition0 event st = p0
  ∧ accrueFunding event (pmAccount event st) (pmPositionId event) p0 (pmStat0 event st) st
    = Some (0, p0, pmStat0 event st, st)
  ∧ ∀ t s,
      ∃ p1,
        updatePnlAndEntryPrice event t p0 s
        = Some (t <| Trade.pnl := 0 |>, p1, s <| Stat.pnl := Stat.pnl s + 0 |>)
        ∧ (p1 = p0 <| Pos.pnl := 0 |>
           ∨ p1 = p0 <| Pos.pnl := 0 |> <| Pos.isOpen := false |>
                     <| Pos.exitPrice := Some (PME.lastPrice event) |>
                     <| Pos.closeTimestamp :=
                          Some (Ev.block_timestamp (PME.base event)) |>)
        ∧ Pos.isOpen p1 = negb (isZero (PME.size event)).
Proof.
  intros Hnone p0.
  assert (pmPosition0 event st = p0) as Hp0
    by (unfold pmPosition0, positionOrNew; by rewrite Hnone).
  split; [done|]. split.
  { unfold accrueFunding. by rewrite bool_decide_eq_false_2 by (intros Hne; by apply Hne). }
  intros t s.
  assert (∀ y, Z.quot ((PME.lastPrice event - PME.lastPrice event) * y) ETHER = 0) as Hq.
  { intros y. by rewrite Z.sub_diag, Z.mul_0_l. }
  destruct (decide (PME.size event = 0)) as [Hz|Hz].
  - rewrite updatePnlAndEntryPrice_close by done. cbv zeta.
    change (Pos.avgEntryPrice p0) with (PME.lastPrice event). rewrite Hq.
    eexists. split; [reflexivity|]. split; [by right|].
    by rewrite (proj2 (isZero_true _) Hz).
  - rewrite updatePnlAndEntryPrice_reduce; [|done|unfold sideFlip; cbn; lia|cbn; lia].
    cbv zeta. change (Pos.avgEntryPrice p0) with (PME.lastPrice event).
    rewrite <- Z.mul_assoc, Hq.
    eexists. split; [reflexivity|]. split; [by left|].
    by rewrite (proj2 (isZero_false _) Hz).
Qed.

(** X14. The first event of a position, when it carries a trade, opens the
    position at the price of the event without realising anything: both
    entry prices are the price of the event, the pnl of the position and
    of the trade is zero, the initial margin is the margin plus the fee,
    the fee is the only fee paid, one trade of the volume of the event
    is counted, and the position is open unless the new size is zero.
    The position is attributed to the owner of a smart-margin account
    and carries the asset and the key of the market when it is known. *)
Theorem first_trade_opens_position event st st' :
  positions st !! pmPositionId event = None →
  PME.tradeSize event ≠ 0 →
  handlePositionModified event st = Some st' →
  ∃ p' t,
    positions st' !! pmPositionId event = Some p'
    ∧ trades st'
        !! tradeIdOf (Ev.transaction_hash (PME.base event))
             (Ev.logIndex (PME.base event)) = Some t
    ∧ Trade.pnl t = 0
    ∧ Pos.size p' = PME.size event
    ∧ Pos.margin p' = PME.margin event
    ∧ Pos.initialMargin p' = PME.margin event + PME.fee event
    ∧ Pos.avgEntryPrice p' = PME.lastPrice event
    ∧ Pos.entryPrice p' = PME.lastPrice event
    ∧ Pos.lastPrice p' = PME.lastPrice event
    ∧ Pos.pnl p' = 0
    ∧ Pos.feesPaid p' = PME.fee event
    ∧ Pos.netFunding p' = 0
    ∧ Pos.pnlWithFeesPaid p' = - PME.fee event
    ∧ Pos.netTransfers p' = 0
    ∧ Pos.trades p' = 1
    ∧ Pos.totalVolume p' = tradeVolume event
    ∧ Pos.fundingIndex p' = PME.fundingIndex event
    ∧ Pos.openTimestamp p' = Ev.block_timestamp (PME.base event)
    ∧ Pos.isOpen p' = negb (isZero (PME.size event))
    ∧ Pos.isLiquidated p' = false
    ∧ Pos.market p' = Ev.address (PME.base event)
    ∧ Pos.account p' = resolveAccount (PME.account event) st
    ∧ Pos.abstractAccount p' = PME.account event
    ∧ Pos.accountType p' = resolveAccountType (PME.account event) st
    ∧ Pos.asset p'
      = FuturesMarketEntity.asset <$> markets st !! toHex (Ev.address (PME.base event))
    ∧ Pos.marketKey p'
      = FuturesMarketEntity.marketKey
          <$> markets st !! toHex (Ev.address (PME.base event)).
Proof.
  intros Hnone Hts H.
  destruct (newPosition_trade event st Hnone) as (Hp0 & Hf0 & Hu0).
  apply handlePositionModified_spec in H
    as (fa & p1 & s1 & st1 & p2 & s2 & c2 & st2 & Hf & Hb & Hpos & _ & _ & Htr & _).
  rewrite Hp0, Hf0 in Hf. apply (inj Some) in Hf.
  apply pair_equal_spec in Hf as [Hf <-]. apply pair_equal_spec in Hf as [Hf <-].
  apply pair_equal_spec in Hf as [<- <-].
  unfold pmBranch in Hb. rewrite (proj2 (isZero_false _) Hts) in Hb. cbn [negb] in Hb.
  pose proof (recordTrade_counters _ _ _ _ _ _ _ _ _ _ _ _ _ _ _ Hb)
    as (_ & _ & _ & _ & _ & _ & Hpt & Hpv & _).
  apply recordTrade_inv in Hb as (t1 & p1 & s1 & Hu & Hp2 & _ & _ & _ & _ & _ & _ & _ & Hst2).
  destruct (Hu0 (newTrade event (pmAccount event st) (PME.account event)
                   (resolveAccountType (PME.account event) st) (pmPositionId event)
                   (markets st !! toHex (Ev.address (PME.base event))) 0)
                (pmStat0 event st)) as (p1' & Hu' & Hcases & Hopen).
  rewrite Hu' in Hu. apply (inj Some) in Hu.
  apply pair_equal_spec in Hu as [Hu _]. apply pair_equal_spec in Hu as [<- <-].
  exists (updatePositionValues event p2), (Trade.set_pnl 0
    (newTrade event (pmAccount event st) (PME.account event)
       (resolveAccountType (PME.account event) st) (pmPositionId event)
       (markets st !! toHex (Ev.address (PME.base event))) 0)).
  rewrite Hpos, lookup_insert_eq. split; [done|].
  split. { rewrite Htr, Hst2. cbn. apply lookup_insert_eq. }
  split; [done|].
  change (Pos.trades (updatePositionValues event p2)) with (Pos.trades p2).
  change (Pos.totalVolume (updatePositionValues event p2)) with (Pos.totalVolume p2).
  rewrite Hpt, Hpv.
  assert (Pos.isOpen p2 = Pos.isOpen p1') as Hopen2 by (by rewrite Hp2).
  change (Pos.isOpen (updatePositionValues event p2)) with (Pos.isOpen p2).
  rewrite Hopen2, Hopen.
  destruct Hcases as [-> | ->]; rewrite Hp2; cbn; repeat split; lia.
Qed.

Lemma first_trade_opens_position_witness :
  ∃ p' t,
    positions openedStore !! pmPositionId openEvent = Some p'
    ∧ trades openedStore !! tradeIdOf hash1 1 = Some t
    ∧ Trade.pnl t = 0
    ∧ Pos.size p' = 10
    ∧ Pos.margin p' = 1000
    ∧ Pos.initialMargin p' = 1000 + 5
    ∧ Pos.avgEntryPrice p' = 100.
Proof.
  destruct (first_trade_opens_position openEvent emptyStore openedStore)
    as (p' & t & Hp & Ht & Htp & Hs & Hm & Hi & Ha & _).
  - vm_compute. reflexivity.
  - vm_compute. discriminate.
  - vm_compute. reflexivity.
  - exists p', t. split; [exact Hp|]. split; [exact Ht|]. split; [exact Htp|].
    split; [exact Hs|]. split; [exact Hm|]. split; [exact Hi|exact Ha].
Defined.

(** ** What an event leaves alone *)

Lemma pmBranch_tables event st0 fa p s st p2 s2 c2 st2 :
  pmBranch event st0 fa p s st = Some (p2, s2, c2, st2) →
  (∀ id,
     id ≠ tradeIdOf (Ev.transaction_hash (PME.base event)) (Ev.logIndex (PME.base event)) →
     trades st2 !! id = trades st !! id)
  ∧ (PME.tradeSize event = 0 →
     cumulativeStats st2 = cumulativeStats st ∧ aggregateStats st2 = aggregateStats st
     ∧ c2 = pmCumulative0 event st0).
Proof.
  unfold pmBranch. destruct (isZero (PME.tradeSize event)) eqn:Hts; cbn [negb].
  - apply isZero_true in Hts.
    destruct (marginTransferOrLiquidation_cases event st) as [[mt H]|[(H&?&?)|[H ?]]].
    + rewrite (marginTransferOrLiquidation_transfer _ _ _ _ _ _ _ _ _ _ H).
      cbn [mbind option_bind]. intros [= <- <- <- <-]. done.
    + rewrite marginTransferOrLiquidation_liquidation by done.
      cbv zeta. destruct (newLiquidationTrade _ _ _ _ _ _ _ _) as [t|]; [|done].
      cbn [mbind option_bind]. intros [= <- <- <- <-]. split; [|done].
      intros id Hid. cbn. by rewrite lookup_insert_ne.
    + rewrite marginTransferOrLiquidation_neither by done.
      cbn [mbind option_bind]. intros [= <- <- <- <-]. done.
  - apply isZero_false in Hts. intros H. apply recordTrade_inv in H
      as (t1 & p1 & s1 & _ & _ & _ & _ & _ & _ & _ & _ & _ & Hst).
    split; [|done]. intros id Hid. rewrite Hst. cbn. by rewrite lookup_insert_ne.
Qed.

Lemma handlePositionModified_other_tables event st st' :
  handlePositionModified event st = Some st' →
  marginAccounts st'
  = match marginAccounts st
            !! marginAccountIdOf (PME.account event) (Ev.address (PME.base event)) with
    | Some marginAccountEntity =>
        <[marginAccountIdOf (PME.account event) (Ev.address (PME.base event))
          := marginAccountEntity
               <| FuturesMarginAccount.margin := PME.margin event |>
               <| FuturesMarginAccount.timestamp :=
                    Ev.block_timestamp (PME.base event) |>]> (marginAccounts st)
    | None => marginAccounts st
    end
  ∧ smartMarginOrders st' = smartMarginOrders st
  ∧ (∀ id,
       id ≠ tradeIdOf (Ev.transaction_hash (PME.base event))
              (Ev.logIndex (PME.base event)) →
       trades st' !! id = trades st !! id)
  ∧ (∀ id,
       id ≠ fundingPaymentIdOf (pmPositionId event)
              (Ev.transaction_hash (PME.base event)) (Ev.logIndex (PME.base event)) →
       fundingPayments st' !! id = fundingPayments st !! id)
  ∧ (PME.tradeSize event = 0 →
     aggregateStats st' = aggregateStats st
     ∧ cumulativeStats st'
       = <[SINGLE_INDEX := pmCumulative0 event st]> (cumulativeStats st)).
Proof.
  intros H. apply handlePositionModified_inv in H
    as (fa & p1 & s1 & st1 & p2 & s2 & c2 & st2 & Hf & Hb & ->).
  pose proof (pmBranch_tables _ _ _ _ _ _ _ _ _ _ Hb) as (Htr & Hzero).
  apply pmBranch_preserved in Hb as (_&_&_&_&_&_&_&_&_&_&Hst2).
  pose proof (accrueFunding_frame _ _ _ _ _ _ _ _ _ _ Hf) as Hst1.
  assert (marginAccounts st2 = marginAccounts st) as Hma by (by rewrite Hst2, Hst1).
  assert (smartMarginOrders st2 = smartMarginOrders st) as Hsmo by (by rewrite Hst2, Hst1).
  assert (trades st1 = trades st) as Htr1 by (by rewrite Hst1).
  assert (fundingPayments st2 = fundingPayments st1) as Hfp2 by (by rewrite Hst2).
  assert (cumulativeStats st1 = cumulativeStats st
          ∧ aggregateStats st1 = aggregateStats st) as [Hc1 Ha1]
    by (by rewrite Hst1).
  split; [|split; [|split; [|split]]].
  - unfold updateGlobalValues.
    destruct (marginAccounts st !! _) as [ma|]; cbn; by rewrite Hma.
  - unfold updateGlobalValues. destruct (marginAccounts st !! _); cbn; by rewrite Hsmo.
  - intros id Hid. rewrite updateGlobalValues_trades, (Htr id Hid). by rewrite Htr1.
  - intros id Hid. rewrite updateGlobalValues_fundingPayments, Hfp2.
    apply accrueFunding_inv in Hf as [(_ & _ & _ & _ & ->)|Hf]; [done|].
    destruct Hf as (pf & cf & _ & _ & _ & _ & _ & _ & ->).
    case_bool_decide; [|done]. cbn. by rewrite lookup_insert_ne.
  - intros Hts. destruct (Hzero Hts) as (Hc & Ha & ->).
    rewrite updateGlobalValues_cumulativeStats, Hc, Hc1. split; [|done].
    unfold updateGlobalValues. destruct (marginAccounts st !! _); cbn; by rewrite Ha, Ha1.
Qed.

(** X15. An event changes no position but its own, no stats entity but the
    one of its account, no trade and no funding payment but those keyed
    by its transaction and log index; it never writes a market, a
    smart-margin account, an order, a margin transfer or a funding
    checkpoint. The margin account of the sender in the market is never
    created: when it exists it gets the margin and the timestamp of the
    event and keeps its deposits and withdrawals. Without a trade size
    the aggregate rows stay, and so does every cumulative entity but the
    global one. *)
Theorem handlePositionModified_touches_only_its_entities event st st' :
  handlePositionModified event st = Some st' →
  (∀ id, id ≠ pmPositionId event → positions st' !! id = positions st !! id)
  ∧ (∀ id, id ≠ toHex (pmAccount event st) → stats st' !! id = stats st !! id)
  ∧ (∀ id,
       id ≠ tradeIdOf (Ev.transaction_hash (PME.base event))
              (Ev.logIndex (PME.base event)) →
       trades st' !! id = trades st !! id)
  ∧ (∀ id,
       id ≠ fundingPaymentIdOf (pmPositionId event)
              (Ev.transaction_hash (PME.base event)) (Ev.logIndex (PME.base event)) →
       fundingPayments st' !! id = fundingPayments st !! id)
  ∧ (∀ id,
       id ≠ marginAccountIdOf (PME.account event) (Ev.address (PME.base event)) →
       marginAccounts st' !! id = marginAccounts st !! id)
  ∧ marginAccounts st'
      !! marginAccountIdOf (PME.account event) (Ev.address (PME.base event))
    = (λ marginAccountEntity,
         marginAccountEntity
           <| FuturesMarginAccount.margin := PME.margin event |>
           <| FuturesMarginAccount.timestamp := Ev.block_timestamp (PME.base event) |>)
      <$> marginAccounts st
            !! marginAccountIdOf (PME.account event) (Ev.address (PME.base event))
  ∧ markets st' = markets st
  ∧ smartMarginAccounts st' = smartMarginAccounts st
  ∧ orders st' = orders st
  ∧ smartMarginOrders st' = smartMarginOrders st
  ∧ marginTransfers st' = marginTransfers st
  ∧ fundingRateUpdates st' = fundingRateUpdates st
  ∧ (PME.tradeSize event = 0 →
     aggregateStats st' = aggregateStats st
     ∧ ∀ id, id ≠ SINGLE_INDEX → cumulativeStats st' !! id = cumulativeStats st !! id).
Proof.
  intros H.
  pose proof (handlePositionModified_other_tables event st st' H)
    as (Hma & Hsmo & Htr & Hfp & Hzero).
  apply handlePositionModified_spec in H
    as (fa & p1 & s1 & st1 & p2 & s2 & c2 & st2 & _ & _ & Hpos & Hstats & _ & _ & _
        & Hmt & Hfr & Hmk & Hsma & Hord).
  split; [intros id Hid; by rewrite Hpos, lookup_insert_ne|].
  split; [intros id Hid; by rewrite Hstats, lookup_insert_ne|].
  split; [done|]. split; [done|].
  split.
  { intros id Hid. rewrite Hma. destruct (marginAccounts st !! _); [|done].
    by rewrite lookup_insert_ne. }
  split.
  { rewrite Hma.
    destruct (marginAccounts st !! marginAccountIdOf _ _) as [ma|] eqn:Hlook.
    - by rewrite lookup_insert_eq.
    - by rewrite Hlook. }
  do 6 (split; [done|]).
  intros Hts. destruct (Hzero Hts) as [Ha Hc]. split; [done|].
  intros id Hid. by rewrite Hc, lookup_insert_ne.
Qed.

Lemma handlePositionModified_touches_only_its_entities_witness :
  (∀ id, id ≠ pmPositionId increaseEvent →
     positions increasedStore !! id = positions openedStore !! id)
  ∧ (∀ id, id ≠ toHex alice → stats increasedStore !! id = stats openedStore !! id)
  ∧ (∀ id, id ≠ tradeIdOf hash1 2 →
       trades increasedStore !! id = trades openedStore !! id)
  ∧ markets increasedStore = markets openedStore.
Proof.
  destruct (handlePositionModified_touches_only_its_entities increaseEvent openedStore
              increasedStore) as (Hp & Hs & Ht & _ & _ & _ & Hm & _).
  - vm_compute. reflexivity.
  - split; [exact Hp|]. split; [exact Hs|]. split; [exact Ht|exact Hm].
Defined.

(** ** The cumulative entity a market links to *)

Section MarketStatsLink.

Variable bytesToString : Bytes → string.

(** X16. [handleV2MarketAdded] links a market to the cumulative entity
    keyed by the hex of its market key, while a trade of the market
    counts in the cumulative entity keyed by the hex of its asset. When
    the asset and the key of the market differ, a trade leaves the
    linked entity as it was and counts in the other one. *)
Theorem trades_count_under_the_asset_not_the_market_key added event sg sg1 st2 :
  handleV2MarketAdded bytesToString added sg = Some sg1 →
  Ev.address (PME.base event) = MAE.market added →
  MAE.asset added ≠ MAE.marketKey added →
  PME.tradeSize event ≠ 0 →
  handlePositionModified event (entities sg1) = Some st2 →
  ∃ m linked counted,
    markets st2 !! toHex (MAE.market added) = Some m
    ∧ FuturesMarketEntity.marketStats m = toHex (MAE.marketKey added)
    ∧ cumulativeStats (entities sg1) !! FuturesMarketEntity.marketStats m = Some linked
    ∧ cumulativeStats st2 !! FuturesMarketEntity.marketStats m = Some linked
    ∧ cumulativeStats st2 !! toHex (FuturesMarketEntity.asset m) = Some counted
    ∧ tradeCounted (tradeVolume event)
        (getOrCreateMarketCumulativeStats (toHex (FuturesMarketEntity.asset m))
           (entities sg1)) counted.
Proof.
  intros Hadd Haddr Hne Hts H.
  rewrite handleV2MarketAdded_eq in Hadd. apply (inj Some) in Hadd.
  assert (markets (entities sg1) !! toHex (MAE.market added)
          = Some {| FuturesMarketEntity.asset := MAE.asset added;
                    FuturesMarketEntity.marketKey := MAE.marketKey added;
                    FuturesMarketEntity.marketStats := toHex (MAE.marketKey added) |})
    as Hm by (rewrite <- Hadd; apply lookup_insert_eq).
  assert (∃ linked,
            cumulativeStats (entities sg1) !! toHex (MAE.marketKey added) = Some linked)
    as [linked Hlinked] by (rewrite <- Hadd; eexists; apply lookup_insert_eq).
  clear Hadd.
  destruct (handlePositionModified_trade_counters event (entities sg1) st2 Hts H)
    as (p' & s' & c' & _ & _ & _ & _ & _ & _ & _ & _ & _ & Hmk).
  rewrite Haddr, Hm in Hmk. destruct Hmk as (mcs & Hcum & Hmcs). cbn in Hcum, Hmcs.
  apply handlePositionModified_spec in H
    as (_&_&_&_&_&_&_&_&_&_&_&_&_&_&_&_&_& Hmarkets &_).
  eexists _, linked, mcs. rewrite Hmarkets. split; [exact Hm|]. cbn.
  split; [done|]. split; [done|]. rewrite Hcum.
  split; [|split; [|done]].
  - rewrite lookup_insert_ne by (apply not_eq_sym, toHex_not_SINGLE_INDEX).
    rewrite lookup_insert_ne; [done|]. intros Heq. by apply toHex_inj in Heq.
  - rewrite lookup_insert_ne by (apply not_eq_sym, toHex_not_SINGLE_INDEX).
    apply lookup_insert_eq.
Qed.

End MarketStatsLink.

Lemma trades_count_under_the_asset_not_the_market_key_witness :
  ∃ m linked counted,
    markets market1TradedStore !! toHex market1 = Some m
    ∧ cumulativeStats market1TradedStore !! FuturesMarketEntity.marketStats m
      = Some linked
    ∧ Cum.totalTrades linked = 0
    ∧ cumulativeStats market1TradedStore !! toHex (FuturesMarketEntity.asset m)
      = Some counted
    ∧ Cum.totalTrades counted = 1.
Proof.
  destruct (trades_count_under_the_asset_not_the_market_key asciiToString addMarket1
              openEvent emptySubgraph market1Subgraph market1TradedStore)
    as (m & linked & counted & Hm & _ & Hl1 & Hl2 & Hc & Hcount & _).
  - vm_compute. reflexivity.
  - reflexivity.
  - vm_compute. discriminate.
  - vm_compute. discriminate.
  - vm_compute. reflexivity.
  - exists m, linked, counted. split; [exact Hm|]. split; [exact Hl2|].
    assert (FuturesMarketEntity.marketStats m = toHex (MAE.marketKey addMarket1)
            ∧ FuturesMarketEntity.asset m = MAE.asset addMarket1) as [Hms Hma].
    { vm_compute in Hm. injection Hm as <-. by split. }
    split.
    { rewrite Hms in Hl1. vm_compute in Hl1. by injection Hl1 as <-. }
    split; [exact Hc|]. rewrite Hcount, Hma. vm_compute. reflexivity.
Defined.

(** ** Margin transfers *)

Lemma handleMarginTransferred_eq event st :
  let market := Ev.address (MTE.base event) in
  let old := marginAccountOrNew event st in
  ∃ marginAccountEntity marginTransferEntity cumulative,
    handleMarginTransferred event st
    = Some (st <| cumulativeStats := cumulative |>
               <| marginTransfers :=
                    <[marginTransferIdOf market (Ev.transaction_hash (MTE.base event))
                        (Ev.logIndex (MTE.base event)) := marginTransferEntity]>
                      (marginTransfers st) |>
               <| marginAccounts :=
                    <[marginAccountIdOf (MTE.account event) market
                      := marginAccountEntity]> (marginAccounts st) |>)
    ∧ FuturesMarginAccount.deposits marginAccountEntity
      = FuturesMarginAccount.deposits old + Z.max 0 (MTE.marginDelta event)
    ∧ FuturesMarginAccount.withdrawals marginAccountEntity
      = FuturesMarginAccount.withdrawals old + Z.max 0 (- MTE.marginDelta event)
    ∧ FuturesMarginAccount.margin marginAccountEntity = FuturesMarginAccount.margin old
    ∧ FuturesMarginAccount.timestamp marginAccountEntity
      = FuturesMarginAccount.timestamp old
    ∧ FuturesMarginAccount.account marginAccountEntity = FuturesMarginAccount.account old
    ∧ FuturesMarginAccount.market marginAccountEntity = FuturesMarginAccount.market old
    ∧ FuturesMarginAccount.asset marginAccountEntity = FuturesMarginAccount.asset old
    ∧ marginTransferEntity
      = {| FuturesMarginTransfer.timestamp := Ev.block_timestamp (MTE.base event);
           FuturesMarginTransfer.account := MTE.account event;
           FuturesMarginTransfer.market := market;
           FuturesMarginTransfer.size := MTE.marginDelta event;
           FuturesMarginTransfer.txHash := toHex (Ev.transaction_hash (MTE.base event));
           FuturesMarginTransfer.asset :=
             FuturesMarketEntity.asset <$> markets st !! toHex market;
           FuturesMarginTransfer.marketKey :=
             FuturesMarketEntity.marketKey <$> markets st !! toHex market |}
    ∧ cumulative
      = match markets st !! toHex market,
              marginAccounts st !! marginAccountIdOf (MTE.account event) market with
        | Some marketEntity, None =>
            <[toHex (FuturesMarketEntity.asset marketEntity)
              := let marketStats :=
                   getOrCreateMarketCumulativeStats
                     (toHex (FuturesMarketEntity.asset marketEntity)) st in
                 marketStats <| Cum.totalTraders := Cum.totalTraders marketStats + 1 |>]>
              (cumulativeStats st)
        | _, _ => cumulativeStats st
        end.
Proof.
  intros market old. unfold handleMarginTransferred, old, marginAccountOrNew.
  fold market.
  assert (∀ z, (if gt z ZERO then Z.abs z else 0) = Z.max 0 z) as Hgt
    by (intros z; unfold gt, ZERO; case_bool_decide; lia).
  assert (∀ z, (if lt z ZERO then Z.abs z else 0) = Z.max 0 (- z)) as Hlt
    by (intros z; unfold lt, ZERO; case_bool_decide; lia).
  specialize (Hgt (MTE.marginDelta event)). specialize (Hlt (MTE.marginDelta event)).
  destruct st as [sma mks pos trs sts cum agg fps fru mts mas ors smo].
  cbn [marginAccounts markets cumulativeStats marginTransfers].
  destruct (mas !! marginAccountIdOf (MTE.account event) market) as [ma|];
    [|destruct (mks !! toHex market) as [m|]].
  all: eexists _, _, _; split; [reflexivity|].
  all: split; [destruct (gt _ _), (lt _ _); cbn; lia|].
  all: split; [destruct (gt _ _), (lt _ _); cbn; lia|].
  all: repeat split; try (by destruct (gt _ _), (lt _ _)).
  by destruct (mks !! toHex market).
Qed.

(** X17. [handleMarginTransferred] always returns. It records the
    transfer under the market, the transaction and the log index of the
    event, with the signed amount of the event, and books the amount in
    the margin account of the sender in the market, created with zero
    balances when it is missing: a positive amount is added to the
    deposits, a negative one to the withdrawals, so that deposits minus
    withdrawals moves by the signed amount; the margin of the account
    is not changed. No position, trade or stats entity is touched, nor
    any other margin account or transfer. *)
Theorem margin_transfer_is_booked event st :
  let market := Ev.address (MTE.base event) in
  let old := marginAccountOrNew event st in
  ∃ st' marginAccountEntity marginTransferEntity,
    handleMarginTransferred event st = Some st'
    ∧ marginAccounts st' !! marginAccountIdOf (MTE.account event) market
      = Some marginAccountEntity
    ∧ marginTransfers st'
        !! marginTransferIdOf market (Ev.transaction_hash (MTE.base event))
             (Ev.logIndex (MTE.base event)) = Some marginTransferEntity
    ∧ FuturesMarginTransfer.size marginTransferEntity = MTE.marginDelta event
    ∧ FuturesMarginTransfer.account marginTransferEntity = MTE.account event
    ∧ FuturesMarginAccount.deposits marginAccountEntity
      = FuturesMarginAccount.deposits old + Z.max 0 (MTE.marginDelta event)
    ∧ FuturesMarginAccount.withdrawals marginAccountEntity
      = FuturesMarginAccount.withdrawals old + Z.max 0 (- MTE.marginDelta event)
    ∧ FuturesMarginAccount.deposits marginAccountEntity
      - FuturesMarginAccount.withdrawals marginAccountEntity
      = FuturesMarginAccount.deposits old - FuturesMarginAccount.withdrawals old
        + MTE.marginDelta event
    ∧ FuturesMarginAccount.margin marginAccountEntity = FuturesMarginAccount.margin old
    ∧ (∀ id, id ≠ marginAccountIdOf (MTE.account event) market →
         marginAccounts st' !! id = marginAccounts st !! id)
    ∧ (∀ id,
         id ≠ marginTransferIdOf market (Ev.transaction_hash (MTE.base event))
                (Ev.logIndex (MTE.base event)) →
         marginTransfers st' !! id = marginTransfers st !! id)
    ∧ positions st' = positions st ∧ trades st' = trades st ∧ stats st' = stats st
    ∧ markets st' = markets st ∧ orders st' = orders st
    ∧ aggregateStats st' = aggregateStats st
    ∧ fundingRateUpdates st' = fundingRateUpdates st
    ∧ smartMarginAccounts st' = smartMarginAccounts st.
Proof.
  intros market old.
  destruct (handleMarginTransferred_eq event st)
    as (ma & mt & cum & Hrun & Hd & Hw & Hm & _ & _ & _ & _ & Hmt & _).
  fold market old in Hrun, Hd, Hw, Hm, Hmt.
  eexists _, ma, mt. split; [exact Hrun|]. cbn.
  split; [apply lookup_insert_eq|]. split; [apply lookup_insert_eq|].
  split; [by rewrite Hmt|]. split; [by rewrite Hmt|].
  split; [done|]. split; [done|]. split; [lia|]. split; [done|].
  split; [intros id Hid; by rewrite lookup_insert_ne|].
  split; [intros id Hid; by rewrite lookup_insert_ne|]. done.
Qed.

(** X18. A trader is counted in a market once. The first transfer of an
    account in a market whose entity exists adds one to the traders of
    the cumulative entity keyed by the hex of the asset and changes no
    other counter; a transfer of an account that has its margin account
    in the market, and so every later transfer, changes no cumulative
    entity; nor does a transfer in an unknown market. *)
Theorem margin_transfer_counts_the_trader_once event later st st1 st2 :
  handleMarginTransferred event st = Some st1 →
  MTE.account later = MTE.account event →
  Ev.address (MTE.base later) = Ev.address (MTE.base event) →
  handleMarginTransferred later st1 = Some st2 →
  cumulativeStats st2 = cumulativeStats st1
  ∧ match markets st !! toHex (Ev.address (MTE.base event)),
          marginAccounts st
            !! marginAccountIdOf (MTE.account event) (Ev.address (MTE.base event)) with
    | Some marketEntity, None =>
        let marketId := toHex (FuturesMarketEntity.asset marketEntity) in
        let before := getOrCreateMarketCumulativeStats marketId st in
        ∃ marketStats,
          cumulativeStats st1 !! marketId = Some marketStats
          ∧ Cum.totalTraders marketStats = Cum.totalTraders before + 1
          ∧ Cum.totalTrades marketStats = Cum.totalTrades before
          ∧ Cum.totalVolume marketStats = Cum.totalVolume before
          ∧ Cum.averageTradeSize marketStats = Cum.averageTradeSize before
          ∧ Cum.totalLiquidations marketStats = Cum.totalLiquidations before
          ∧ ∀ id, id ≠ marketId → cumulativeStats st1 !! id = cumulativeStats st !! id
    | _, _ => cumulativeStats st1 = cumulativeStats st
    end.
Proof.
  intros H1 Hacc Haddr H2.
  destruct (handleMarginTransferred_eq event st)
    as (ma & mt & cum & Hrun & _ & _ & _ & _ & _ & _ & _ & _ & Hcum).
  cbv zeta in Hrun. rewrite Hrun in H1. apply (inj Some) in H1.
  destruct (handleMarginTransferred_eq later st1)
    as (ma' & mt' & cum' & Hrun' & _ & _ & _ & _ & _ & _ & _ & _ & Hcum').
  cbv zeta in Hrun'. rewrite Hrun' in H2. apply (inj Some) in H2 as <-.
  assert (marginAccounts st1
            !! marginAccountIdOf (MTE.account later) (Ev.address (MTE.base later))
          = Some ma) as Hma1.
  { rewrite <- H1, Hacc, Haddr. cbn. apply lookup_insert_eq. }
  rewrite Hma1 in Hcum'.
  assert (cumulativeStats st1 = cum) as Hc1 by (by rewrite <- H1).
  cbn. split.
  { rewrite Hcum'. by destruct (markets st1 !! _). }
  rewrite Hc1, Hcum.
  destruct (markets st !! _) as [m|]; [|done].
  destruct (marginAccounts st !! _); [done|].
  cbv zeta. eexists. split; [apply lookup_insert_eq|].
  do 5 (split; [done|]). intros id Hid. by rewrite lookup_insert_ne.
Qed.

Lemma margin_transfer_counts_the_trader_once_witness :
  cumulativeStats market1TransferredTwiceStore = cumulativeStats market1TransferredStore
  ∧ ∃ marketStats,
      cumulativeStats market1TransferredStore
        !! toHex (String.list_byte_of_string "sETH") = Some marketStats
      ∧ Cum.totalTraders marketStats = 0 + 1.
Proof.
  destruct (margin_transfer_counts_the_trader_once transferEvent secondTransferEvent
              (entities market1Subgraph) market1TransferredStore
              market1TransferredTwiceStore) as [Hsame Hfirst].
  - vm_compute. reflexivity.
  - reflexivity.
  - reflexivity.
  - vm_compute. reflexivity.
  - split; [exact Hsame|].
    change (markets (entities market1Subgraph) !! toHex (Ev.address (MTE.base transferEvent)))
      with (Some market1Entity) in Hfirst.
    change (marginAccounts (entities market1Subgraph)
              !! marginAccountIdOf (MTE.account transferEvent)
                   (Ev.address (MTE.base transferEvent)))
      with (@None FuturesMarginAccount.t) in Hfirst.
    cbv zeta in Hfirst. destruct Hfirst as (marketStats & Hlook & Htraders & _).
    exists marketStats. split; [exact Hlook|exact Htraders].
Defined.

(** ** A transfer and the event that follows it *)

(** X19. The transfer [handleMarginTransferred] records is the one the
    next log of the transaction finds. After a [MarginTransferred]
    event, a [PositionModified] event of the same market and
    transaction at the next log index, without a trade size, is a
    margin transfer whatever its size and margin: the signed amount is
    added to the net transfers of the position, and to its total
    deposits when positive; nothing is realised and no trade entity is
    written. When the sender of both events is the same, its margin
    account has the margin of the second event and keeps the deposits
    and withdrawals the transfer booked. *)
Theorem transfer_then_position_modified transfer event st st1 st2 :
  handleMarginTransferred transfer st = Some st1 →
  Ev.address (PME.base event) = Ev.address (MTE.base transfer) →
  Ev.transaction_hash (PME.base event) = Ev.transaction_hash (MTE.base transfer) →
  Ev.logIndex (PME.base event) = Ev.logIndex (MTE.base transfer) + 1 →
  PME.tradeSize event = 0 →
  handlePositionModified event st1 = Some st2 →
  ∃ p',
    positions st2 !! pmPositionId event = Some p'
    ∧ Pos.netTransfers p'
      = Pos.netTransfers (pmPosition0 event st) + MTE.marginDelta transfer
    ∧ Pos.totalDeposits p'
      = Pos.totalDeposits (pmPosition0 event st) + Z.max 0 (MTE.marginDelta transfer)
    ∧ Pos.pnl p' = Pos.pnl (pmPosition0 event st)
    ∧ Pos.margin p' = PME.margin event
    ∧ trades st2 = trades st
    ∧ (PME.account event = MTE.account transfer →
       ∃ marginAccountEntity,
         marginAccounts st2
           !! marginAccountIdOf (MTE.account transfer) (Ev.address (MTE.base transfer))
         = Some marginAccountEntity
         ∧ FuturesMarginAccount.margin marginAccountEntity = PME.margin event
         ∧ FuturesMarginAccount.deposits marginAccountEntity
           = FuturesMarginAccount.deposits (marginAccountOrNew transfer st)
             + Z.max 0 (MTE.marginDelta transfer)
         ∧ FuturesMarginAccount.withdrawals marginAccountEntity
           = FuturesMarginAccount.withdrawals (marginAccountOrNew transfer st)
             + Z.max 0 (- MTE.marginDelta transfer)).
Proof.
  intros H1 Haddr Hhash Hlog Hts H2.
  destruct (handleMarginTransferred_eq transfer st)
    as (ma & mt & cum & Hrun & Hd & Hw & _ & _ & _ & _ & _ & Hmt & _).
  cbv zeta in Hrun. rewrite Hrun in H1. apply (inj Some) in H1.
  assert (positions st1 = positions st ∧ markets st1 = markets st
          ∧ smartMarginAccounts st1 = smartMarginAccounts st ∧ trades st1 = trades st
          ∧ stats st1 = stats st) as (Hpos1 & Hmk1 & Hsma1 & Htr1 & Hst1)
    by (by rewrite <- H1).
  assert (marginTransfers st1
            !! marginTransferIdOf (Ev.address (PME.base event))
                 (Ev.transaction_hash (PME.base event)) (Ev.logIndex (PME.base event) - 1)
          = Some mt) as Hfound.
  { rewrite <- H1, Haddr, Hhash, Hlog. cbn.
    replace (Ev.logIndex (MTE.base transfer) + 1 - 1) with (Ev.logIndex (MTE.base transfer))
      by lia.
    apply lookup_insert_eq. }
  assert (marginAccounts st1
            !! marginAccountIdOf (MTE.account transfer) (Ev.address (MTE.base transfer))
          = Some ma) as Hma1 by (rewrite <- H1; cbn; apply lookup_insert_eq).
  assert (pmPosition0 event st1 = pmPosition0 event st) as Hp0.
  { unfold pmPosition0, pmAccount, resolveAccount, resolveAccountType.
    by rewrite Hpos1, Hmk1, Hsma1. }
  pose proof (handlePositionModified_other_tables event st1 st2 H2)
    as (Hmas & _ & _ & _ & _).
  destruct (handlePositionModified_no_trade event st1 st2 Hts H2)
    as (fa & p1 & s1 & sta & p2 & s2 & stb & Hf & Hm & Hb).
  pose proof (handlePositionModified_intro _ _ _ _ _ _ _ _ _ _ Hf Hb) as Hrun2.
  rewrite H2 in Hrun2. apply (inj Some) in Hrun2.
  pose proof (accrueFunding_tables _ _ _ _ _ _ _ _ _ _ Hf) as (_ & Htra & Hmta & _).
  rewrite <- Hmta in Hfound.
  rewrite (marginTransferOrLiquidation_transfer _ _ _ _ _ _ _ _ _ _ Hfound) in Hm.
  cbv zeta in Hm. apply (inj Some) in Hm. apply pair_equal_spec in Hm as [Hm <-].
  apply pair_equal_spec in Hm as [<- _].
  rewrite Hp0 in Hf.
  apply accrueFunding_preserved in Hf
    as (_ & _ & _ & Hpnl & _ & _ & _ & _ & Hnt & Htd & _).
  assert (FuturesMarginTransfer.size mt = MTE.marginDelta transfer) as Hsize
    by (by rewrite Hmt).
  exists (updatePositionValues event
            (if gt (FuturesMarginTransfer.size mt) ZERO
             then p1 <| Pos.netTransfers := Pos.netTransfers p1
                                            + FuturesMarginTransfer.size mt |>
                     <| Pos.totalDeposits := Pos.totalDeposits p1
                                             + FuturesMarginTransfer.size mt |>
             else p1 <| Pos.netTransfers := Pos.netTransfers p1
                                            + FuturesMarginTransfer.size mt |>)).
  split; [rewrite Hrun2, updateGlobalValues_positions; apply lookup_insert_eq|].
  split; [unfold gt, ZERO; case_bool_decide; cbn; lia|].
  split; [unfold gt, ZERO; case_bool_decide; cbn; lia|].
  split; [by destruct (gt _ _); cbn|]. split; [by destruct (gt _ _)|].
  split; [by rewrite Hrun2, updateGlobalValues_trades, Htra|].
  intros Hacc. rewrite Hmas, Hacc, Haddr, Hma1, lookup_insert_eq.
  eexists. split; [reflexivity|]. cbn. done.
Qed.

Lemma transfer_then_position_modified_witness :
  ∃ p',
    positions afterTransferStore !! pmPositionId afterTransferEvent = Some p'
    ∧ Pos.netTransfers p' = 0 + 500
    ∧ Pos.totalDeposits p' = 0 + 500
    ∧ trades afterTransferStore = trades emptyStore.
Proof.
  destruct (transfer_then_position_modified transferEvent afterTransferEvent emptyStore
              transferredStore afterTransferStore)
    as (p' & Hp & Hn & Hd & _ & _ & Ht & _).
  - vm_compute. reflexivity.
  - reflexivity.
  - reflexivity.
  - reflexivity.
  - reflexivity.
  - vm_compute. reflexivity.
  - exists p'. split; [exact Hp|]. split; [exact Hn|]. split; [exact Hd|exact Ht].
Defined.

(** ** The pnl an event realises *)

(** X20. The pnl is conserved between the entities of an event. What an
    event adds to the pnl of its position it adds to the pnl of the
    stats entity of its account; when the event has a trade size, or is
    the precursor of a liquidation, that amount is the pnl of the trade
    entity it writes; every other event writes no trade and realises
    nothing. *)
Theorem pnl_is_conserved event st st' :
  handlePositionModified event st = Some st' →
  let tradeId :=
    tradeIdOf (Ev.transaction_hash (PME.base event)) (Ev.logIndex (PME.base event)) in
  let found :=
    marginTransfers st
      !! marginTransferIdOf (Ev.address (PME.base event))
           (Ev.transaction_hash (PME.base event)) (Ev.logIndex (PME.base event) - 1) in
  ∃ p' s',
    positions st' !! pmPositionId event = Some p'
    ∧ stats st' !! toHex (pmAccount event st) = Some s'
    ∧ Stat.pnl s' - Stat.pnl (pmStat0 event st)
      = Pos.pnl p' - Pos.pnl (pmPosition0 event st)
    ∧ if bool_decide (PME.tradeSize event ≠ 0
                      ∨ (found = None ∧ PME.size event = 0 ∧ PME.margin event = 0))
      then ∃ t, trades st' !! tradeId = Some t
                ∧ Trade.pnl t = Pos.pnl p' - Pos.pnl (pmPosition0 event st)
      else trades st' = trades st ∧ Pos.pnl p' = Pos.pnl (pmPosition0 event st).
Proof.
  intros H tradeId found.
  destruct (decide (PME.tradeSize event = 0)) as [Hts|Hts].
  - destruct (handlePositionModified_no_trade event st st' Hts H)
      as (fa & p1 & s1 & st1 & p2 & s2 & st2 & Hf & Hm & Hb).
    pose proof (handlePositionModified_intro _ _ _ _ _ _ _ _ _ _ Hf Hb) as Hrun.
    rewrite H in Hrun. apply (inj Some) in Hrun.
    pose proof (accrueFunding_tables _ _ _ _ _ _ _ _ _ _ Hf) as (_ & Htr1 & Hmt1 & _).
    pose proof (accrueFunding_preserved _ _ _ _ _ _ _ _ _ _ Hf)
      as (_ & _ & _ & Hpnl & _ & _ & _ & _ & _ & _ & Hspnl & _).
    exists (updatePositionValues event p2), (updateStatValues event s2).
    rewrite Hrun, updateGlobalValues_positions, updateGlobalValues_stats,
      updateGlobalValues_trades, !lookup_insert_eq.
    split; [done|]. split; [done|].
    change (Pos.pnl (updatePositionValues event p2)) with (Pos.pnl p2).
    change (Stat.pnl (updateStatValues event s2)) with (Stat.pnl s2).
    rewrite <- Hpnl, <- Hspnl.
    destruct (marginTransferOrLiquidation_cases event st1) as [[mt Hc]|[(Hc&?&?)|[Hc ?]]];
      cbv zeta in Hc.
    + rewrite (marginTransferOrLiquidation_transfer _ _ _ _ _ _ _ _ _ _ Hc) in Hm.
      cbv zeta in Hm. apply (inj Some) in Hm. apply pair_equal_spec in Hm as [Hm <-].
      apply pair_equal_spec in Hm as [<- <-].
      rewrite Hmt1 in Hc. fold found in Hc.
      rewrite bool_decide_eq_false_2 by (rewrite Hc; intros [?|[? _]]; done).
      destruct (gt _ _); cbn; (split; [lia|]); by rewrite Htr1.
    + rewrite marginTransferOrLiquidation_liquidation in Hm by done.
      cbv zeta in Hm.
      destruct (newLiquidationTrade _ _ _ _ _ _ _ _) as [t|] eqn:Ht; [|done].
      cbn [mbind option_bind] in Hm. apply (inj Some) in Hm.
      apply pair_equal_spec in Hm as [Hm <-].
      apply pair_equal_spec in Hm as [<- <-].
      apply newLiquidationTrade_inv in Ht as (_ & _ & _ & Htp & _).
      rewrite Hmt1 in Hc. fold found in Hc.
      rewrite bool_decide_eq_true_2 by (by right).
      split; [cbn; lia|]. exists t. split; [cbn; apply lookup_insert_eq|].
      rewrite Htp. cbn. lia.
    + rewrite marginTransferOrLiquidation_neither in Hm by done.
      apply (inj Some) in Hm.
      apply pair_equal_spec in Hm as [Hm <-]. apply pair_equal_spec in Hm as [<- <-].
      rewrite Hmt1 in Hc. fold found in Hc.
      rewrite bool_decide_eq_false_2 by (intros [?|(_ & ? & ?)]; tauto).
      split; [lia|]. by rewrite Htr1.
  - rewrite bool_decide_eq_true_2 by (by left).
    apply handlePositionModified_trade in H
      as (fa & p1 & s1 & st1 & t2 & p2 & s2 & p' & s' & Hf & Hu & Hp' & Hs' & Ht
          & Hpnl & _ & _ & _ & _ & _ & _ & Hspnl); [|done].
    pose proof (accrueFunding_preserved _ _ _ _ _ _ _ _ _ _ Hf)
      as (_ & _ & _ & Hpnl1 & _ & _ & _ & _ & _ & _ & Hspnl1 & _).
    exists p', s'. split; [done|]. split; [done|].
    rewrite Hpnl, Hspnl, <- Hpnl1, <- Hspnl1.
    assert (Stat.pnl s2 - Stat.pnl s1 = Pos.pnl p2 - Pos.pnl p1
            ∧ Trade.pnl t2 = Pos.pnl p2 - Pos.pnl p1) as [Hs Htp].
    { destruct (updatePnlAndEntryPrice_cases event p1)
        as [Hz|[[Hz Hfl]|[(Hz&Hfl&Hi)|(Hz&Hfl&Hr)]]].
      - rewrite updatePnlAndEntryPrice_close in Hu by done. cbv zeta in Hu.
        apply (inj Some) in Hu. apply pair_equal_spec in Hu as [Hu <-].
        apply pair_equal_spec in Hu as [<- <-]. cbn. lia.
      - rewrite updatePnlAndEntryPrice_flip in Hu by done. cbv zeta in Hu.
        apply (inj Some) in Hu. apply pair_equal_spec in Hu as [Hu <-].
        apply pair_equal_spec in Hu as [<- <-]. cbn. lia.
      - rewrite updatePnlAndEntryPrice_increase in Hu by done. cbv zeta in Hu.
        apply (inj Some) in Hu. apply pair_equal_spec in Hu as [Hu <-].
        apply pair_equal_spec in Hu as [<- <-]. rewrite newTrade_pnl. cbn. lia.
      - rewrite updatePnlAndEntryPrice_reduce in Hu by done. cbv zeta in Hu.
        apply (inj Some) in Hu. apply pair_equal_spec in Hu as [Hu <-].
        apply pair_equal_spec in Hu as [<- <-]. cbn. lia. }
    split; [done|]. by exists t2.
Qed.

Lemma pnl_is_conserved_witness :
  ∃ p' s' t,
    positions unitClosedStore !! pmPositionId unitCloseEvent = Some p'
    ∧ stats unitClosedStore !! toHex alice = Some s'
    ∧ trades unitClosedStore !! tradeIdOf hash1 3 = Some t
    ∧ Stat.pnl s' - 0 = Pos.pnl p' - 0
    ∧ Trade.pnl t = Pos.pnl p' - 0.
Proof.
  destruct (pnl_is_conserved unitCloseEvent unitTouchedStore unitClosedStore)
    as (p' & s' & Hp & Hs & Hsp & Ht).
  - vm_compute. reflexivity.
  - rewrite bool_decide_eq_true_2 in Ht by (left; vm_compute; discriminate).
    destruct Ht as (t & Ht & Htp).
    exists p', s', t. split; [exact Hp|]. split; [exact Hs|]. split; [exact Ht|].
    split; [exact Hsp|exact Htp].
Defined.

(** ** The entities of a liquidation *)

Lemma handlePositionLiquidated_tables event st st' :
  handlePositionLiquidated event st = Some st' →
  let tradeId :=
    tradeIdOf (Ev.transaction_hash (PLE.base event)) (Ev.logIndex (PLE.base event) - 1) in
  trades st'
  = match positions st !! positionIdOf (Ev.address (PLE.base event)) (PLE.id event),
          trades st !! tradeId with
    | Some _, Some t => <[tradeId := liquidatedTrade event t]> (trades st)
    | _, _ => trades st
    end
  ∧ orders st' = orders st ∧ marginAccounts st' = marginAccounts st
  ∧ marginTransfers st' = marginTransfers st
  ∧ fundingRateUpdates st' = fundingRateUpdates st
  ∧ fundingPayments st' = fundingPayments st
  ∧ aggregateStats st' = aggregateStats st
  ∧ smartMarginAccounts st' = smartMarginAccounts st
  ∧ smartMarginOrders st' = smartMarginOrders st.
Proof.
  intros H tradeId. unfold handlePositionLiquidated in H. fold tradeId in H.
  destruct (positions st !! _) as [p|]; cbv beta iota zeta in H.
  - cbn [mbind option_bind] in H.
    lazymatch type of H with
    | context [Pos.asset ?x] => change (Pos.asset x) with (Pos.asset p) in H
    end.
    destruct (Pos.asset p); [|done].
    destruct (stats st !! _), (trades st !! tradeId);
      apply (inj Some) in H; by subst st'.
  - apply (inj Some) in H. by subst st'.
Qed.

(** X21. [handlePositionLiquidatedV2] is [handlePositionLiquidated] on the
    event with the same base, id, account and size and with the sum of
    the flagger, liquidator and stakers fees as its fee: the two
    handlers return the same store. *)
Theorem liquidated_V2_is_liquidated_with_the_fees_summed event st :
  handlePositionLiquidatedV2 event st
  = handlePositionLiquidated
      {| PLE.base := PLE2.base event; PLE.id := PLE2.id event;
         PLE.account := PLE2.account event; PLE.size := PLE2.size event;
         PLE.fee := PLE2.flaggerFee event + PLE2.liquidatorFee event
                    + PLE2.stakersFee event |} st.
Proof. apply handlePositionLiquidatedV2_eq. Qed.

(** X22. What a liquidation does to the entities it finds. The position
    is marked liquidated and closed at the timestamp of the event, and
    the fee is added to its fees and to its pnl, which leaves its
    [pnlWithFeesPaid] at [pnl - feesPaid + netFunding]. The trade of the
    previous log of the transaction, when there is one, gets the
    negated size of the event, a position size of zero and the fee on
    its fees and its pnl. The stats entity of the account, when there
    is one, is saved with [pnlWithFeesPaid = pnl - feesPaid]. Every
    other position, trade and stats entity stays, and so do the orders,
    margin accounts, transfers, funding and aggregate tables. *)
Theorem liquidation_closes_the_position event st st' p :
  let positionId := positionIdOf (Ev.address (PLE.base event)) (PLE.id event) in
  let tradeId :=
    tradeIdOf (Ev.transaction_hash (PLE.base event)) (Ev.logIndex (PLE.base event) - 1) in
  let accountId := toHex (resolveAccount (PLE.account event) st) in
  positions st !! positionId = Some p →
  handlePositionLiquidated event st = Some st' →
  (∃ p',
     positions st' !! positionId = Some p'
     ∧ Pos.isLiquidated p' = true ∧ Pos.isOpen p' = false
     ∧ Pos.closeTimestamp p' = Some (Ev.block_timestamp (PLE.base event))
     ∧ Pos.feesPaid p' = Pos.feesPaid p + PLE.fee event
     ∧ Pos.pnl p' = Pos.pnl p + PLE.fee event
     ∧ Pos.pnlWithFeesPaid p' = Pos.pnl p - Pos.feesPaid p + Pos.netFunding p
     ∧ Pos.size p' = Pos.size p ∧ Pos.margin p' = Pos.margin p
     ∧ Pos.avgEntryPrice p' = Pos.avgEntryPrice p)
  ∧ (∀ t, trades st !! tradeId = Some t →
       ∃ t',
         trades st' !! tradeId = Some t'
         ∧ Trade.size t' = - PLE.size event ∧ Trade.positionSize t' = 0
         ∧ Trade.feesPaid t' = Trade.feesPaid t + PLE.fee event
         ∧ Trade.pnl t' = Trade.pnl t + PLE.fee event
         ∧ Trade.orderType t' = Trade.orderType t
         ∧ Trade.positionId t' = Trade.positionId t)
  ∧ (∀ s, stats st !! accountId = Some s →
       ∃ s',
         stats st' !! accountId = Some s'
         ∧ Stat.pnlWithFeesPaid s' = Stat.pnl s' - Stat.feesPaid s'
         ∧ Stat.totalTrades s' = Stat.totalTrades s
         ∧ Stat.totalVolume s' = Stat.totalVolume s)
  ∧ (∀ id, id ≠ positionId → positions st' !! id = positions st !! id)
  ∧ (∀ id, id ≠ tradeId → trades st' !! id = trades st !! id)
  ∧ (∀ id, id ≠ accountId → stats st' !! id = stats st !! id)
  ∧ orders st' = orders st ∧ marginAccounts st' = marginAccounts st
  ∧ marginTransfers st' = marginTransfers st
  ∧ fundingRateUpdates st' = fundingRateUpdates st
  ∧ fundingPayments st' = fundingPayments st
  ∧ aggregateStats st' = aggregateStats st
  ∧ markets st' = markets st.
Proof.
  intros positionId tradeId accountId Hp H.
  pose proof (handlePositionLiquidated_positions _ _ _ H) as Hpos.
  pose proof (handlePositionLiquidated_stats _ _ _ H) as Hstats.
  pose proof (handlePositionLiquidated_markets _ _ _ H) as Hmk.
  pose proof (handlePositionLiquidated_tables _ _ _ H)
    as (Htr & Ho & Hma & Hmt & Hfr & Hfp & Hag & _).
  cbv zeta in Htr. fold positionId in Hpos, Hstats, Htr. fold tradeId in Htr.
  fold accountId in Hstats. rewrite Hp in Hpos, Hstats, Htr.
  split.
  { exists (liquidatedPosition event p). rewrite Hpos, lookup_insert_eq.
    split; [done|]. cbn. repeat split; lia. }
  split.
  { intros t Ht. rewrite Ht in Htr. exists (liquidatedTrade event t).
    rewrite Htr, lookup_insert_eq. split; [done|]. cbn. repeat split; lia. }
  split.
  { intros s Hs. rewrite Hs in Hstats. exists (liquidatedStat event s).
    rewrite Hstats, lookup_insert_eq. split; [done|]. cbn. repeat split; lia. }
  split; [intros id Hid; by rewrite Hpos, lookup_insert_ne|].
  split.
  { intros id Hid. rewrite Htr. destruct (trades st !! tradeId); [|done].
    by rewrite lookup_insert_ne. }
  split.
  { intros id Hid. rewrite Hstats. destruct (stats st !! accountId); [|done].
    by rewrite lookup_insert_ne. }
  done.
Qed.

Lemma liquidation_closes_the_position_witness :
  ∃ p' t',
    positions liquidatedStore !! pmPositionId openEvent = Some p'
    ∧ Pos.isLiquidated p' = true ∧ Pos.isOpen p' = false
    ∧ trades liquidatedStore !! tradeIdOf hash1 4 = Some t'
    ∧ Trade.size t' = -10 ∧ Trade.orderType t' = "Liquidation".
Proof.
  destruct (liquidation_closes_the_position liquidationEvent precursorStore
              liquidatedStore (pmPosition0 openEvent precursorStore))
    as ((p' & Hp & Hl & Ho & _) & Htrade & _).
  - vm_compute. reflexivity.
  - vm_compute. reflexivity.
  - assert (∃ t, trades precursorStore !! tradeIdOf hash1 4 = Some t
                 ∧ Trade.orderType t = "Liquidation") as (t & Ht0 & Hty0)
      by (eexists; split; vm_compute; reflexivity).
    destruct (Htrade t Ht0) as (t' & Ht & Hs & _ & _ & _ & Hty & _).
    exists p', t'. split; [exact Hp|]. split; [exact Hl|]. split; [exact Ho|].
    split; [exact Ht|]. split; [exact Hs|]. by rewrite Hty.
Defined.

(** ** Delayed orders, from the submission to the removal *)

Section DelayedOrderLifecycle.

Variable bytesToString : Bytes → string.

(** The smart-margin order and the trade after lines 838-846. *)
Lemma fillOrder_inv event acc at_ m smo o s tid t st o' st' :
  fillOrder bytesToString event acc at_ m smo o s tid t st = Some (o', st') →
  let t1 := t <| Trade.trackingCode := DOR.trackingCode event |>
              <| Trade.orderType := filledOrderType smo o |> in
  let t2 := t1 <| Trade.feesPaid := Trade.feesPaid t + DOR.keeperDeposit event |>
               <| Trade.keeperFeesPaid := DOR.keeperDeposit event |> in
  o' = o <| FuturesOrder.status := "Filled" |>
  ∧ (∀ id, id ≠ smartMarginOrderIdOf bytesToString (DOR.account event)
                  (FuturesMarketEntity.marketKey m) →
       smartMarginOrders st' !! id = smartMarginOrders st !! id)
  ∧ (∀ smartMarginOrderEntity orderType,
       smo = Some smartMarginOrderEntity →
       SmartMarginOrder.recordTrade smartMarginOrderEntity = true →
       SmartMarginOrder.orderType smartMarginOrderEntity = Some orderType →
       smartMarginOrders st'
         !! smartMarginOrderIdOf bytesToString (DOR.account event)
              (FuturesMarketEntity.marketKey m)
       = Some (smartMarginOrderEntity <| SmartMarginOrder.recordTrade := false |>))
  ∧ orders st' = orders st ∧ markets st' = markets st
  ∧ cumulativeStats st' = cumulativeStats st
  ∧ marginAccounts st' = marginAccounts st
  ∧ if bool_decide (FuturesOrder.keeper o ≠ FuturesOrder.account o) then
      trades st' = <[tid := t2]> (trades st)
      ∧ stats st'
        = <[toHex acc := s <| Stat.feesPaid := Stat.feesPaid s + DOR.keeperDeposit event |>]>
            (stats st)
      ∧ positions st'
        = match positions st !! Trade.positionId t with
          | Some positionEntity =>
              <[Trade.positionId t
                := positionEntity
                     <| Pos.feesPaid :=
                          Pos.feesPaid positionEntity + DOR.keeperDeposit event |>]>
                (positions st)
          | None => positions st
          end
      ∧ if bool_decide (bytesToString (DOR.trackingCode event) = "KWENTA") then
          ∃ st0 st1,
            aggregateStats st0 = aggregateStats st
            ∧ updateAggregateStatEntities at_ (FuturesMarketEntity.marketKey m)
                (FuturesMarketEntity.asset m) (Ev.block_timestamp (DOR.base event))
                ZERO ZERO ZERO (Trade.feesPaid t + DOR.keeperDeposit event) st0
              = Some st1
            ∧ aggregateStats st' = aggregateStats st1
        else aggregateStats st' = aggregateStats st
    else
      trades st' = <[tid := t1]> (trades st) ∧ stats st' = stats st
      ∧ positions st' = positions st ∧ aggregateStats st' = aggregateStats st.
Proof.
  intros H t1 t2. unfold fillOrder in H. cbv zeta in H.
  set (r := match smo with
            | Some smartMarginOrderEntity => _
            | None => _
            end) in H.
  assert (r.1 = t1
          ∧ positions r.2 = positions st ∧ markets r.2 = markets st
          ∧ cumulativeStats r.2 = cumulativeStats st ∧ orders r.2 = orders st
          ∧ trades r.2 = trades st ∧ stats r.2 = stats st
          ∧ aggregateStats r.2 = aggregateStats st
          ∧ marginAccounts r.2 = marginAccounts st
          ∧ (∀ id, id ≠ smartMarginOrderIdOf bytesToString (DOR.account event)
                          (FuturesMarketEntity.marketKey m) →
               smartMarginOrders r.2 !! id = smartMarginOrders st !! id)
          ∧ (∀ smartMarginOrderEntity orderType,
               smo = Some smartMarginOrderEntity →
               SmartMarginOrder.recordTrade smartMarginOrderEntity = true →
               SmartMarginOrder.orderType smartMarginOrderEntity = Some orderType →
               smartMarginOrders r.2
                 !! smartMarginOrderIdOf bytesToString (DOR.account event)
                      (FuturesMarketEntity.marketKey m)
               = Some (smartMarginOrderEntity <| SmartMarginOrder.recordTrade := false |>)))
    as (Ht1 & Hpos & Hmk & Hcum & Hord & Htr & Hst & Hagg & Hma & Hsmo & Hsmo').
  { clear H. subst r t1. destruct smo as [[[] [ty|]]|]; cbn; repeat split; try done.
    - intros id Hid. by rewrite lookup_insert_ne.
    - intros x ty' [= <-] _ [= <-]. by rewrite lookup_insert_eq.
    - by intros x ty' [= <-] _ [=].
    - by intros x ty' [= <-] [=].
    - by intros x ty' [= <-] [=]. }
  destruct r as [t1' st1]. cbn [fst snd] in *. subst t1'.
  apply bind_Some in H as ([t3 st3] & H & Hend).
  apply (inj Some) in Hend. apply pair_equal_spec in Hend as [<- <-].
  split; [done|].
  change (FuturesOrder.keeper (o <| FuturesOrder.status := "Filled" |>))
    with (FuturesOrder.keeper o) in H.
  change (FuturesOrder.account (o <| FuturesOrder.status := "Filled" |>))
    with (FuturesOrder.account o) in H.
  destruct (bool_decide (FuturesOrder.keeper o ≠ FuturesOrder.account o)) eqn:Hk.
  - apply bind_Some in H as (st4 & H & Hend).
    apply (inj Some) in Hend. apply pair_equal_spec in Hend as [<- <-].
    set (st2 := match positions st !! Trade.positionId t with
                | Some positionEntity => _
                | None => st1
                end) in H.
    assert (positions st2
            = match positions st !! Trade.positionId t with
              | Some positionEntity =>
                  <[Trade.positionId t
                    := positionEntity
                         <| Pos.feesPaid :=
                              Pos.feesPaid positionEntity + DOR.keeperDeposit event |>]>
                    (positions st)
              | None => positions st
              end
            ∧ markets st2 = markets st ∧ cumulativeStats st2 = cumulativeStats st
            ∧ orders st2 = orders st ∧ trades st2 = trades st ∧ stats st2 = stats st
            ∧ aggregateStats st2 = aggregateStats st
            ∧ marginAccounts st2 = marginAccounts st
            ∧ smartMarginOrders st2 = smartMarginOrders st1)
      as (Hpos2 & Hmk2 & Hcum2 & Hord2 & Htr2 & Hst2 & Hagg2 & Hma2 & Hsmo2).
    { subst st2. destruct (positions st !! Trade.positionId t); cbn;
        rewrite ?Hpos; done. }
    clearbody st2.
    assert (st4 = st2 <| aggregateStats := aggregateStats st4 |>) as Hst4.
    { destruct (bool_decide (bytesToString (DOR.trackingCode event) = "KWENTA"));
        [by apply updateAggregateStatEntities_frame in H|].
      apply (inj Some) in H as <-. by destruct st2. }
    split; [intros id Hid; cbn; rewrite Hst4; cbn; rewrite Hsmo2; by apply Hsmo|].
    split.
    { intros x ty Hx Hrt Hty. cbn. rewrite Hst4. cbn. rewrite Hsmo2.
      by apply (Hsmo' x ty). }
    cbn. rewrite Hst4. cbn.
    split; [done|]. split; [done|]. split; [done|]. split; [done|].
    split; [by rewrite Htr2|]. split; [by rewrite Hst2|]. split; [done|].
    destruct (bool_decide (bytesToString (DOR.trackingCode event) = "KWENTA")).
    + exists st2, st4. split; [done|]. split; [exact H|]. done.
    + apply (inj Some) in H as <-. done.
  - apply (inj Some) in H. apply pair_equal_spec in H as [<- <-].
    split; [done|]. split; [done|]. cbn.
    split; [done|]. split; [done|]. split; [done|]. split; [done|].
    split; [by rewrite Htr|]. done.
Qed.

Lemma handleDelayedOrderRemoved_fill event st m o s t :
  markets st !! toHex (Ev.address (DOR.base event)) = Some m →
  orders st
    !! futuresOrderIdOf bytesToString (FuturesMarketEntity.asset m) (DOR.account event)
         (DOR.targetRoundId event) = Some o →
  stats st !! toHex (resolveAccount (DOR.account event) st) = Some s →
  trades st
    !! tradeIdOf (Ev.transaction_hash (DOR.base event)) (Ev.logIndex (DOR.base event) - 1)
  = Some t →
  let keeper := Ev.transaction_from (DOR.base event) in
  ∃ st1,
    fillOrder bytesToString event (resolveAccount (DOR.account event) st)
      (resolveAccountType (DOR.account event) st) m
      (smartMarginOrders st
         !! smartMarginOrderIdOf bytesToString (DOR.account event)
              (FuturesMarketEntity.marketKey m))
      (o <| FuturesOrder.keeper := keeper |>) s
      (tradeIdOf (Ev.transaction_hash (DOR.base event)) (Ev.logIndex (DOR.base event) - 1))
      t st
    = Some (o <| FuturesOrder.keeper := keeper |> <| FuturesOrder.status := "Filled" |>, st1)
    ∧ handleDelayedOrderRemoved bytesToString event st
      = Some (saveOrder
                (futuresOrderIdOf bytesToString (FuturesMarketEntity.asset m)
                   (DOR.account event) (DOR.targetRoundId event))
                (o <| FuturesOrder.keeper := keeper |> <| FuturesOrder.status := "Filled" |>)
                st1).
Proof.
  intros Hm Ho Hs Ht keeper.
  destruct (fillOrder_total bytesToString event (resolveAccount (DOR.account event) st)
              (resolveAccountType (DOR.account event) st) m
              (smartMarginOrders st
                 !! smartMarginOrderIdOf bytesToString (DOR.account event)
                      (FuturesMarketEntity.marketKey m))
              (o <| FuturesOrder.keeper := keeper |>) s
              (tradeIdOf (Ev.transaction_hash (DOR.base event))
                 (Ev.logIndex (DOR.base event) - 1)) t st) as (st1 & Hfill & _).
  exists st1. split; [exact Hfill|].
  unfold handleDelayedOrderRemoved. rewrite Hm. cbv zeta. rewrite Ho, Hs, Ht.
  fold keeper. rewrite Hfill. reflexivity.
Qed.

(** X23. What the removal of a filled order books. For an order that is
    found, with a stats entity of the account and a trade in the
    previous log of the transaction, the trade gets the tracking code
    of the event and the order type of the order, or of the pending
    smart-margin order of the sender, whose flag is then cleared. When
    the sender of the transaction is not the account of the order, the
    keeper deposit is added to the fees of the trade, of the stats
    entity and of the position of the trade, and is the keeper fee of
    the trade; the [pnlWithFeesPaid] of the position and of the stats
    entity are not recomputed. When the order is executed by its own
    account, no fee is booked and no stats entity, position or
    aggregate row changes. *)
Theorem filled_order_books_the_keeper_deposit event st m o s t :
  let tradeId :=
    tradeIdOf (Ev.transaction_hash (DOR.base event)) (Ev.logIndex (DOR.base event) - 1) in
  let accountId := toHex (resolveAccount (DOR.account event) st) in
  let smartMarginOrderId :=
    smartMarginOrderIdOf bytesToString (DOR.account event)
      (FuturesMarketEntity.marketKey m) in
  markets st !! toHex (Ev.address (DOR.base event)) = Some m →
  orders st
    !! futuresOrderIdOf bytesToString (FuturesMarketEntity.asset m) (DOR.account event)
         (DOR.targetRoundId event) = Some o →
  stats st !! accountId = Some s →
  trades st !! tradeId = Some t →
  ∃ st' t',
    handleDelayedOrderRemoved bytesToString event st = Some st'
    ∧ trades st' !! tradeId = Some t'
    ∧ Trade.trackingCode t' = DOR.trackingCode event
    ∧ Trade.orderType t' = filledOrderType (smartMarginOrders st !! smartMarginOrderId) o
    ∧ Trade.pnl t' = Trade.pnl t ∧ Trade.size t' = Trade.size t
    ∧ (∀ smartMarginOrderEntity orderType,
         smartMarginOrders st !! smartMarginOrderId = Some smartMarginOrderEntity →
         SmartMarginOrder.recordTrade smartMarginOrderEntity = true →
         SmartMarginOrder.orderType smartMarginOrderEntity = Some orderType →
         smartMarginOrders st' !! smartMarginOrderId
         = Some (smartMarginOrderEntity <| SmartMarginOrder.recordTrade := false |>))
    ∧ if bool_decide (Ev.transaction_from (DOR.base event) ≠ FuturesOrder.account o) then
        Trade.feesPaid t' = Trade.feesPaid t + DOR.keeperDeposit event
        ∧ Trade.keeperFeesPaid t' = DOR.keeperDeposit event
        ∧ (∃ s',
             stats st' !! accountId = Some s'
             ∧ Stat.feesPaid s' = Stat.feesPaid s + DOR.keeperDeposit event
             ∧ Stat.pnl s' = Stat.pnl s
             ∧ Stat.pnlWithFeesPaid s' = Stat.pnlWithFeesPaid s)
        ∧ (∀ p, positions st !! Trade.positionId t = Some p →
             ∃ p',
               positions st' !! Trade.positionId t = Some p'
               ∧ Pos.feesPaid p' = Pos.feesPaid p + DOR.keeperDeposit event
               ∧ Pos.pnl p' = Pos.pnl p ∧ Pos.netFunding p' = Pos.netFunding p
               ∧ Pos.pnlWithFeesPaid p' = Pos.pnlWithFeesPaid p)
        ∧ (bytesToString (DOR.trackingCode event) ≠ "KWENTA" →
           aggregateStats st' = aggregateStats st)
      else
        Trade.feesPaid t' = Trade.feesPaid t
        ∧ Trade.keeperFeesPaid t' = Trade.keeperFeesPaid t
        ∧ stats st' = stats st ∧ positions st' = positions st
        ∧ aggregateStats st' = aggregateStats st.
Proof.
  intros tradeId accountId smartMarginOrderId Hm Ho Hs Ht.
  destruct (handleDelayedOrderRemoved_fill event st m o s t Hm Ho Hs Ht)
    as (st1 & Hfill & Hrun).
  cbv zeta in Hfill, Hrun.
  apply fillOrder_inv in Hfill as (_ & _ & Hsmo & _ & _ & _ & _ & Hcase).
  fold tradeId smartMarginOrderId accountId in Hsmo, Hcase.
  change (FuturesOrder.keeper (o <| FuturesOrder.keeper :=
                                     Ev.transaction_from (DOR.base event) |>))
    with (Ev.transaction_from (DOR.base event)) in Hcase.
  change (FuturesOrder.account (o <| FuturesOrder.keeper :=
                                      Ev.transaction_from (DOR.base event) |>))
    with (FuturesOrder.account o) in Hcase.
  change (filledOrderType (smartMarginOrders st !! smartMarginOrderId)
            (o <| FuturesOrder.keeper := Ev.transaction_from (DOR.base event) |>))
    with (filledOrderType (smartMarginOrders st !! smartMarginOrderId) o) in Hcase.
  match type of Hrun with
  | _ = Some ?x => set (st' := x) in Hrun
  end.
  assert (trades st' = trades st1 ∧ stats st' = stats st1
          ∧ positions st' = positions st1 ∧ aggregateStats st' = aggregateStats st1
          ∧ smartMarginOrders st' = smartMarginOrders st1)
    as (Etr & Est & Epos & Eagg & Esmo) by done.
  clearbody st'. exists st'. rewrite Etr, Est, Epos, Eagg, Esmo.
  destruct (bool_decide (Ev.transaction_from (DOR.base event)
                         ≠ FuturesOrder.account o)) eqn:Hk.
  - destruct Hcase as (Htr & Hst & Hpos & Hagg).
    eexists. split; [exact Hrun|].
    rewrite Htr, Hst, Hpos, !lookup_insert_eq.
    split; [done|]. split; [done|]. split; [done|]. split; [done|]. split; [done|].
    split; [exact Hsmo|]. split; [done|]. split; [done|].
    split; [eexists; split; [reflexivity|done]|].
    split.
    + intros p Hp. rewrite Hp, lookup_insert_eq. eexists. split; [reflexivity|done].
    + intros Hcode. by rewrite bool_decide_eq_false_2 in Hagg.
  - destruct Hcase as (Htr & Hst & Hpos & Hagg).
    eexists. split; [exact Hrun|].
    rewrite Htr, !lookup_insert_eq.
    split; [done|]. split; [done|]. split; [done|]. split; [done|]. split; [done|].
    split; [exact Hsmo|]. done.
Qed.

(** X24. The platform fee of a filled order. When an order is filled by a
    keeper that is not its account and the text of the tracking code is
    KWENTA, the fees of the trade after the keeper deposit are rolled up
    as platform fees: for the hour and the day of the block, the row of
    the asset of the market and the row of all markets get them added
    to [feesKwenta], and to [feesCrossMarginAccounts] for a smart-margin
    account; their trades, volume and protocol fees stay. *)
Theorem kwenta_fees_are_rolled_up event st m o s t :
  let tradeId :=
    tradeIdOf (Ev.transaction_hash (DOR.base event)) (Ev.logIndex (DOR.base event) - 1) in
  let accountType := resolveAccountType (DOR.account event) st in
  let timestamp := Ev.block_timestamp (DOR.base event) in
  let fees := Trade.feesPaid t + DOR.keeperDeposit event in
  markets st !! toHex (Ev.address (DOR.base event)) = Some m →
  orders st
    !! futuresOrderIdOf bytesToString (FuturesMarketEntity.asset m) (DOR.account event)
         (DOR.targetRoundId event) = Some o →
  stats st !! toHex (resolveAccount (DOR.account event) st) = Some s →
  trades st !! tradeId = Some t →
  Ev.transaction_from (DOR.base event) ≠ FuturesOrder.account o →
  bytesToString (DOR.trackingCode event) = "KWENTA" →
  FuturesMarketEntity.asset m ≠ [] → 0 ≤ timestamp →
  ∃ st',
    handleDelayedOrderRemoved bytesToString event st = Some st'
    ∧ ∀ period, period ∈ AGG_PERIODS →
      ∃ start marketRow globalRow,
        getTimeID timestamp period = Some start
        ∧ aggregateStats st' !! aggregateStatId start period (FuturesMarketEntity.asset m)
          = Some marketRow
        ∧ rolledUp accountType 0 0 0 fees
            (getOrCreateMarketAggregateStats (FuturesMarketEntity.marketKey m)
               (FuturesMarketEntity.asset m) start period st) marketRow
        ∧ aggregateStats st' !! aggregateStatId start period [] = Some globalRow
        ∧ rolledUp accountType 0 0 0 fees
            (getOrCreateMarketAggregateStats [] [] start period st) globalRow.
Proof.
  intros tradeId accountType timestamp fees Hm Ho Hs Ht Hkeeper Hcode Hasset Hts.
  destruct (handleDelayedOrderRemoved_fill event st m o s t Hm Ho Hs Ht)
    as (st1 & Hfill & Hrun).
  cbv zeta in Hfill, Hrun.
  apply fillOrder_inv in Hfill as (_ & _ & _ & _ & _ & _ & _ & Hcase).
  change (FuturesOrder.keeper (o <| FuturesOrder.keeper :=
                                     Ev.transaction_from (DOR.base event) |>))
    with (Ev.transaction_from (DOR.base event)) in Hcase.
  change (FuturesOrder.account (o <| FuturesOrder.keeper :=
                                      Ev.transaction_from (DOR.base event) |>))
    with (FuturesOrder.account o) in Hcase.
  rewrite bool_decide_eq_true_2 in Hcase by done.
  destruct Hcase as (_ & _ & _ & Hagg).
  rewrite bool_decide_eq_true_2 in Hagg by done.
  destruct Hagg as (st0 & st2 & Hagg0 & Hroll & Hagg1).
  fold accountType timestamp fees in Hroll.
  destruct (updateAggregateStatEntities_spec accountType (FuturesMarketEntity.marketKey m)
              (FuturesMarketEntity.asset m) timestamp ZERO ZERO ZERO fees st0 Hts Hasset)
    as (st2' & Hroll' & _ & Hrows & _).
  rewrite Hroll in Hroll'. apply (inj Some) in Hroll' as <-.
  eexists. split; [exact Hrun|].
  change (aggregateStats (saveOrder _ _ st1)) with (aggregateStats st1).
  rewrite Hagg1. intros period Hin.
  destruct (Hrows period Hin)
    as (start & marketRow & globalRow & Hstart & Hr1 & Hu1 & Hr2 & Hu2).
  exists start, marketRow, globalRow.
  unfold getOrCreateMarketAggregateStats in Hu1, Hu2 |- *. rewrite Hagg0 in Hu1, Hu2.
  done.
Qed.

(** The order a removal leaves. *)
Lemma handleDelayedOrderRemoved_found event st m o :
  markets st !! toHex (Ev.address (DOR.base event)) = Some m →
  orders st
    !! futuresOrderIdOf bytesToString (FuturesMarketEntity.asset m) (DOR.account event)
         (DOR.targetRoundId event) = Some o →
  ∃ st',
    handleDelayedOrderRemoved bytesToString event st = Some st'
    ∧ orders st'
        !! futuresOrderIdOf bytesToString (FuturesMarketEntity.asset m)
             (DOR.account event) (DOR.targetRoundId event)
      = Some (o <| FuturesOrder.keeper := Ev.transaction_from (DOR.base event) |>
                <| FuturesOrder.status :=
                     match stats st !! toHex (resolveAccount (DOR.account event) st),
                           trades st
                             !! tradeIdOf (Ev.transaction_hash (DOR.base event))
                                  (Ev.logIndex (DOR.base event) - 1) with
                     | Some _, Some _ => "Filled"
                     | _, _ => "Cancelled"
                     end |>).
Proof.
  intros Hm Ho.
  destruct (stats st !! toHex (resolveAccount (DOR.account event) st)) as [s|] eqn:Hs;
    destruct (trades st !! tradeIdOf (Ev.transaction_hash (DOR.base event))
                             (Ev.logIndex (DOR.base event) - 1)) as [t|] eqn:Ht.
  - destruct (handleDelayedOrderRemoved_fill event st m o s t Hm Ho Hs Ht)
      as (st1 & _ & Hrun).
    eexists. split; [exact Hrun|]. unfold saveOrder. cbn. apply lookup_insert_eq.
  - unfold handleDelayedOrderRemoved. rewrite Hm. cbv zeta. rewrite Ho, Hs, Ht.
    cbn [mbind option_bind]. eexists. split; [reflexivity|].
    unfold saveOrder. cbn. apply lookup_insert_eq.
  - unfold handleDelayedOrderRemoved. rewrite Hm. cbv zeta. rewrite Ho, Hs.
    cbn [mbind option_bind]. eexists. split; [reflexivity|].
    unfold saveOrder. cbn. apply lookup_insert_eq.
  - unfold handleDelayedOrderRemoved. rewrite Hm. cbv zeta. rewrite Ho, Hs.
    cbn [mbind option_bind]. eexists. split; [reflexivity|].
    unfold saveOrder. cbn. apply lookup_insert_eq.
Qed.

(** X25. The order of a submission is the one its removal finds. In a
    known market, [handleDelayedOrderSubmitted] saves the order of the
    sender and the target round as [Pending] without keeper, whatever
    was stored under its id; the removal of the same market, sender and
    round returns, stamps the sender of its transaction as keeper, and
    leaves the order [Filled] or [Cancelled], never [Pending], with the
    size, the type, the account and the transaction of the submission. *)
Theorem submitted_order_is_found_by_its_removal submit remove st m :
  let orderId :=
    futuresOrderIdOf bytesToString (FuturesMarketEntity.asset m) (DOS.account submit)
      (DOS.targetRoundId submit) in
  markets st !! toHex (Ev.address (DOS.base submit)) = Some m →
  Ev.address (DOR.base remove) = Ev.address (DOS.base submit) →
  DOR.account remove = DOS.account submit →
  DOR.targetRoundId remove = DOS.targetRoundId submit →
  ∃ st1 st2 pending removed,
    handleDelayedOrderSubmitted bytesToString submit st = Some st1
    ∧ orders st1 !! orderId = Some pending
    ∧ FuturesOrder.status pending = "Pending"
    ∧ FuturesOrder.keeper pending = ZERO_ADDRESS
    ∧ handleDelayedOrderRemoved bytesToString remove st1 = Some st2
    ∧ orders st2 !! orderId = Some removed
    ∧ FuturesOrder.keeper removed = Ev.transaction_from (DOR.base remove)
    ∧ FuturesOrder.status removed
      = match stats st !! toHex (resolveAccount (DOS.account submit) st),
              trades st
                !! tradeIdOf (Ev.transaction_hash (DOR.base remove))
                     (Ev.logIndex (DOR.base remove) - 1) with
        | Some _, Some _ => "Filled"
        | _, _ => "Cancelled"
        end
    ∧ FuturesOrder.status removed ≠ "Pending"
    ∧ FuturesOrder.size removed = DOS.sizeDelta submit
    ∧ FuturesOrder.orderType removed
      = (if DOS.isOffchain submit then "DelayedOffchain" else "Delayed")
    ∧ FuturesOrder.account removed = resolveAccount (DOS.account submit) st
    ∧ FuturesOrder.abstractAccount removed = DOS.account submit
    ∧ FuturesOrder.orderId removed = DOS.targetRoundId submit
    ∧ FuturesOrder.txnHash removed = Ev.transaction_hash (DOS.base submit)
    ∧ FuturesOrder.marketKey removed = FuturesMarketEntity.marketKey m.
Proof.
  intros orderId Hm Haddr Hacc Hround.
  assert (∃ pending,
            handleDelayedOrderSubmitted bytesToString submit st
            = Some (saveOrder orderId pending st)
            ∧ FuturesOrder.status pending = "Pending"
            ∧ FuturesOrder.keeper pending = ZERO_ADDRESS
            ∧ FuturesOrder.size pending = DOS.sizeDelta submit
            ∧ FuturesOrder.orderType pending
              = (if DOS.isOffchain submit then "DelayedOffchain" else "Delayed")
            ∧ FuturesOrder.account pending = resolveAccount (DOS.account submit) st
            ∧ FuturesOrder.abstractAccount pending = DOS.account submit
            ∧ FuturesOrder.orderId pending = DOS.targetRoundId submit
            ∧ FuturesOrder.txnHash pending = Ev.transaction_hash (DOS.base submit)
            ∧ FuturesOrder.marketKey pending = FuturesMarketEntity.marketKey m)
    as (pending & Hsub & Hstatus & Hkeeper & Hfields).
  { unfold handleDelayedOrderSubmitted. rewrite Hm. eexists. split; [reflexivity|done]. }
  set (st1 := saveOrder orderId pending st) in *.
  assert (markets st1 = markets st ∧ stats st1 = stats st ∧ trades st1 = trades st
          ∧ smartMarginAccounts st1 = smartMarginAccounts st)
    as (Hmk1 & Hst1 & Htr1 & Hsma1) by done.
  assert (orders st1 !! orderId = Some pending) as Ho1
    by (unfold st1, saveOrder; cbn; apply lookup_insert_eq).
  destruct (handleDelayedOrderRemoved_found remove st1 m pending) as (st2 & Hrun & Ho2).
  { by rewrite Hmk1, Haddr. }
  { by rewrite Hacc, Hround. }
  rewrite Hacc, Hround in Ho2. fold orderId in Ho2.
  assert (resolveAccount (DOS.account submit) st1 = resolveAccount (DOS.account submit) st)
    as Hres by (unfold resolveAccount; by rewrite Hsma1).
  rewrite Hres, Hst1, Htr1 in Ho2.
  eexists st1, st2, pending, _. split; [exact Hsub|]. split; [exact Ho1|].
  split; [done|]. split; [done|]. split; [exact Hrun|]. split; [exact Ho2|].
  split; [done|]. split; [done|].
  split; [cbn; by repeat case_match|]. exact Hfields.
Qed.

End DelayedOrderLifecycle.

Lemma filled_order_books_the_keeper_deposit_witness :
  ∃ t' s' p',
    trades keeperFilledStore !! tradeIdOf hash1 1 = Some t'
    ∧ Trade.feesPaid t' = 5 + 1 ∧ Trade.keeperFeesPaid t' = 1
    ∧ Trade.orderType t' = "DelayedOffchain"
    ∧ stats keeperFilledStore !! toHex alice = Some s'
    ∧ Stat.feesPaid s' = 5 + 1
    ∧ positions keeperFilledStore !! pmPositionId openEvent = Some p'
    ∧ Pos.feesPaid p' = 5 + 1
    ∧ Pos.pnlWithFeesPaid p' = -5.
Proof.
  destruct (filled_order_books_the_keeper_deposit asciiToString
              (keeperRemoveEvent alice carol) (tradedStore alice) market1Entity
              (default (FuturesOrder.mk 0 [] [] [] 0 0 0 [] 0 "" "" [])
                 (orders (tradedStore alice)
                    !! futuresOrderIdOf asciiToString
                         (String.list_byte_of_string "sETH") alice 3))
              (pmStat0 increaseEvent (tradedStore alice))
              (default (newTrade openEvent [] [] isolated_margin "" None 0)
                 (trades (tradedStore alice) !! tradeIdOf hash1 1)))
    as (st' & t' & Hrun & Ht & _ & Hty & _ & _ & _ & Hcase).
  - vm_compute. reflexivity.
  - vm_compute. reflexivity.
  - vm_compute. reflexivity.
  - vm_compute. reflexivity.
  - rewrite bool_decide_eq_true_2 in Hcase by (vm_compute; discriminate).
    destruct Hcase as (Hf & Hk & (s' & Hs & Hsf & _) & Hpos & _).
    destruct (Hpos (pmPosition0 increaseEvent (tradedStore alice)))
      as (p' & Hp & Hpf & _ & _ & Hpw); [vm_compute; reflexivity|].
    assert (st' = keeperFilledStore) as ->.
    { apply (inj Some). rewrite <- Hrun. vm_compute. reflexivity. }
    exists t', s', p'. split; [exact Ht|]. split; [exact Hf|]. split; [exact Hk|].
    split; [exact Hty|]. split; [exact Hs|]. split; [exact Hsf|]. split; [exact Hp|].
    split; [exact Hpf|exact Hpw].
Defined.

Lemma kwenta_fees_are_rolled_up_witness :
  ∃ hourRow allRow,
    aggregateStats keeperFilledStore
      !! aggregateStatId 0 ONE_HOUR_SECONDS (String.list_byte_of_string "sETH")
    = Some hourRow
    ∧ FuturesAggregateStat.feesKwenta hourRow = FuturesAggregateStat.feesKwenta
        (getOrCreateMarketAggregateStats (String.list_byte_of_string "sETHPERP")
           (String.list_byte_of_string "sETH") 0 ONE_HOUR_SECONDS (tradedStore alice))
        + (5 + 1)
    ∧ aggregateStats keeperFilledStore !! aggregateStatId 0 ONE_HOUR_SECONDS []
      = Some allRow.
Proof.
  destruct (kwenta_fees_are_rolled_up asciiToString
              (keeperRemoveEvent alice carol) (tradedStore alice) market1Entity
              (default (FuturesOrder.mk 0 [] [] [] 0 0 0 [] 0 "" "" [])
                 (orders (tradedStore alice)
                    !! futuresOrderIdOf asciiToString
                         (String.list_byte_of_string "sETH") alice 3))
              (pmStat0 increaseEvent (tradedStore alice))
              (default (newTrade openEvent [] [] isolated_margin "" None 0)
                 (trades (tradedStore alice) !! tradeIdOf hash1 1)))
    as (st' & Hrun & Hrows).
  - vm_compute. reflexivity.
  - vm_compute. reflexivity.
  - vm_compute. reflexivity.
  - vm_compute. reflexivity.
  - vm_compute. discriminate.
  - vm_compute. reflexivity.
  - vm_compute. discriminate.
  - vm_compute. discriminate.
  - assert (st' = keeperFilledStore) as ->.
    { apply (inj Some). rewrite <- Hrun. vm_compute. reflexivity. }
    destruct (Hrows ONE_HOUR_SECONDS) as (start & row & allRow & Hstart & Hr & Hu & Ha & _).
    { unfold AGG_PERIODS. left. }
    assert (start = 0) as -> by (vm_compute in Hstart; by injection Hstart as <-).
    exists row, allRow. split; [exact Hr|]. split; [|exact Ha].
    destruct Hu as (_ & _ & _ & Hk & _). exact Hk.
Defined.

Lemma submitted_order_is_found_by_its_removal_witness :
  ∃ pending removed,
    orders submittedStore
      !! futuresOrderIdOf asciiToString (String.list_byte_of_string "sETH") alice 3
    = Some pending
    ∧ FuturesOrder.status pending = "Pending"
    ∧ orders cancelledStore
        !! futuresOrderIdOf asciiToString (String.list_byte_of_string "sETH") alice 3
      = Some removed
    ∧ FuturesOrder.status removed = "Cancelled"
    ∧ FuturesOrder.keeper removed = alice.
Proof.
  destruct (submitted_order_is_found_by_its_removal asciiToString (submitEvent alice)
              (removeEvent alice) marketStore market1Entity)
    as (st1 & st2 & pending & removed & Hsub & Hp & Hps & _ & Hrem & Hr & Hk & Hs & _).
  - vm_compute. reflexivity.
  - reflexivity.
  - reflexivity.
  - reflexivity.
  - assert (st1 = submittedStore) as ->.
    { apply (inj Some). rewrite <- Hsub. vm_compute. reflexivity. }
    assert (st2 = cancelledStore) as ->.
    { apply (inj Some). rewrite <- Hrem. vm_compute. reflexivity. }
    exists pending, removed. split; [exact Hp|]. split; [exact Hps|].
    split; [exact Hr|]. split; [exact Hs|exact Hk].
Defined.

(** ** The events of known markets abort no handler *)

Section MarketEvents.

Variable bytesToString : Bytes → string.

Lemma handlePositionModifiedV2_eq event st :
  handlePositionModifiedV2 event st = handlePositionModified (withoutSkew event) st.
Proof. reflexivity. Qed.

Lemma handlePositionLiquidatedV2_withTotalFee event st :
  handlePositionLiquidatedV2 event st = handlePositionLiquidated (withTotalFee event) st.
Proof. reflexivity. Qed.

Lemma handleMarginTransferred_markets event st st' :
  handleMarginTransferred event st = Some st' → markets st' = markets st.
Proof.
  intros H. destruct (handleMarginTransferred_eq event st) as (ma & mt & cum & Hrun & _).
  cbv zeta in Hrun. rewrite Hrun in H. apply (inj Some) in H. by rewrite <- H.
Qed.

Lemma handleDelayedOrderSubmitted_markets event st st' :
  handleDelayedOrderSubmitted bytesToString event st = Some st' →
  markets st' = markets st.
Proof.
  unfold handleDelayedOrderSubmitted.
  destruct (markets st !! _) as [m|]; intros H; apply (inj Some) in H; by rewrite <- H.
Qed.

Lemma handleDelayedOrderRemoved_markets event st st' :
  handleDelayedOrderRemoved bytesToString event st = Some st' →
  markets st' = markets st.
Proof.
  unfold handleDelayedOrderRemoved.
  destruct (markets st !! _) as [m|]; [|by intros [= <-]]. cbv zeta.
  destruct (orders st !! _) as [o|]; [|by intros [= <-]].
  destruct (stats st !! toHex (resolveAccount (DOR.account event) st)) as [s|];
    destruct (trades st !! tradeIdOf (Ev.transaction_hash (DOR.base event))
                             (Ev.logIndex (DOR.base event) - 1)) as [t|].
  2-4: cbn [mbind option_bind]; by intros [= <-].
  intros H. apply bind_Some in H as ([o1 st1] & Hfill & H).
  apply fillOrder_tables in Hfill as (_ & Hmk & _).
  apply (inj Some) in H. by rewrite <- H.
Qed.

Lemma handleMarketEvent_markets e st st' :
  handleMarketEvent bytesToString e st = Some st' → markets st' = markets st.
Proof.
  destruct e as [event|event|event|event|event|event|event]; cbn [handleMarketEvent].
  - apply handlePositionModified_markets.
  - rewrite handlePositionModifiedV2_eq. apply handlePositionModified_markets.
  - apply handlePositionLiquidated_markets.
  - rewrite handlePositionLiquidatedV2_withTotalFee. apply handlePositionLiquidated_markets.
  - apply handleMarginTransferred_markets.
  - apply handleDelayedOrderSubmitted_markets.
  - apply handleDelayedOrderRemoved_markets.
Qed.

Lemma fromKnownMarket_markets e st st' :
  markets st' = markets st → fromKnownMarket st e → fromKnownMarket st' e.
Proof.
  intros Hmk. destruct e; cbn; unfold ofKnownMarket; by rewrite ?Hmk.
Qed.

Lemma handleMarketEvent_wellFormed e st :
  wellFormed st → fromKnownMarket st e →
  ∃ st', handleMarketEvent bytesToString e st = Some st' ∧ wellFormed st'.
Proof.
  intros Hwf Hm. destruct e as [event|event|event|event|event|event|event];
    cbn [handleMarketEvent]; cbn [fromKnownMarket] in Hm.
  - destruct (handlePositionModified_total event st Hwf Hm) as [st' H].
    exists st'. split; [done|]. by apply (handlePositionModified_wellFormed event st).
  - rewrite handlePositionModifiedV2_eq.
    destruct (handlePositionModified_total (withoutSkew event) st Hwf Hm) as [st' H].
    exists st'. split; [done|].
    by apply (handlePositionModified_wellFormed (withoutSkew event) st).
  - destruct (handlePositionLiquidated_total event st Hwf) as [st' H].
    exists st'. split; [done|]. by apply (handlePositionLiquidated_wellFormed event st).
  - rewrite handlePositionLiquidatedV2_withTotalFee.
    destruct (handlePositionLiquidated_total (withTotalFee event) st Hwf) as [st' H].
    exists st'. split; [done|].
    by apply (handlePositionLiquidated_wellFormed (withTotalFee event) st).
  - by apply handleMarginTransferred_wellFormed.
  - by apply handleDelayedOrderSubmitted_wellFormed.
  - by apply handleDelayedOrderRemoved_wellFormed.
Qed.

(** X26. No list of events of known markets aborts a handler. The
    handlers divide by the trade counters of the cumulative entities,
    after adding one, and read the asset and the key of a position
    through getters that abort on a position without them, which is what
    an event of a market the store does not know creates (lines 122-126).
    On a store where no trade counter is negative and every position
    carries its asset and key, as on the empty store, every list of
    events whose position events come from markets the store knows is
    handled to its end, whatever the other parameters, and leaves such a
    store. *)
Theorem market_events_never_abort events st :
  wellFormed st → Forall (fromKnownMarket st) events →
  ∃ st', runMarketEvents bytesToString events st = Some st' ∧ wellFormed st'.
Proof.
  revert st. induction events as [|e rest IH]; intros st Hwf Hall; cbn.
  - by exists st.
  - apply Forall_cons in Hall as [Hm Hall].
    destruct (handleMarketEvent_wellFormed e st Hwf Hm) as (st1 & H1 & Hwf1).
    rewrite H1. cbn. apply IH; [done|].
    eapply Forall_impl; [exact Hall|]. intros e'.
    apply fromKnownMarket_markets. by apply (handleMarketEvent_markets e).
Qed.

End MarketEvents.

Lemma market_events_never_abort_witness :
  ∃ st', runMarketEvents asciiToString tradingDay smartStore = Some st' ∧ wellFormed st'.
Proof.
  apply market_events_never_abort.
  - split.
    + intros k c Hc. vm_compute in Hc. discriminate.
    + intros id p Hp. vm_compute in Hp. discriminate.
  - repeat constructor; vm_compute; by eexists.
Defined.

(** ** What the events keep of the rollups *)

Lemma bumped_refl c : bumped 0 0 0 c c.
Proof. unfold bumped. rewrite decide_True by done. repeat split; lia. Qed.

Lemma cumOf_Some k c st :
  cumulativeStats st !! k = Some c → getOrCreateMarketCumulativeStats k st = c.
Proof. intros H. unfold getOrCreateMarketCumulativeStats. by rewrite H. Qed.

Lemma cumOf_same k st st' :
  cumulativeStats st' !! k = cumulativeStats st !! k →
  getOrCreateMarketCumulativeStats k st' = getOrCreateMarketCumulativeStats k st.
Proof. intros H. unfold getOrCreateMarketCumulativeStats. by rewrite H. Qed.

Lemma tradeCounted_bumped v c c' : tradeCounted v c c' → bumped 1 v 0 c c'.
Proof.
  intros (Ht & Hv & Ha & Hl & _). unfold bumped.
  rewrite decide_False by done. repeat split; [done|done|lia|done].
Qed.

Lemma cumulativeStep_same st st' :
  cumulativeStats st' = cumulativeStats st → cumulativeStep st st'.
Proof.
  intros H. exists 0, 0, 0. do 4 (split; [done|]). split.
  - unfold getOrCreateCumulativeEntity. rewrite H. apply bumped_refl.
  - intros k. right. rewrite (cumOf_same k st st') by by rewrite H. apply bumped_refl.
Qed.

Lemma tradeVolume_nonneg event : 0 ≤ tradeVolume event.
Proof. unfold tradeVolume. apply Z.abs_nonneg. Qed.

Lemma pmCumulative0_bumped dt dv dl event st c' :
  bumped dt dv dl (pmCumulative0 event st) c' →
  bumped dt dv dl (getOrCreateCumulativeEntity st) c'.
Proof.
  destruct (pmCumulative0_fields event st) as (Ht & Hv & Ha & Hl & _).
  unfold bumped. rewrite Ht, Hv, Ha, Hl. done.
Qed.

Lemma handlePositionModified_cumulativeStep event st st' :
  handlePositionModified event st = Some st' → cumulativeStep st st'.
Proof.
  intros H. destruct (decide (PME.tradeSize event = 0)) as [Hz|Hnz].
  - destruct (handlePositionModified_other_tables _ _ _ H) as (_ & _ & _ & _ & Hc).
    destruct (Hc Hz) as [_ Hcum]. exists 0, 0, 0. do 4 (split; [done|]). split.
    + change (getOrCreateCumulativeEntity st')
        with (getOrCreateMarketCumulativeStats SINGLE_INDEX st').
      rewrite (cumOf_Some SINGLE_INDEX (pmCumulative0 event st) st')
        by by rewrite Hcum, lookup_insert_eq.
      apply (pmCumulative0_bumped _ _ _ event), bumped_refl.
    + intros k. right. destruct (decide (k = SINGLE_INDEX)) as [->|Hk].
      * rewrite (cumOf_Some SINGLE_INDEX (pmCumulative0 event st) st')
          by by rewrite Hcum, lookup_insert_eq.
        apply (pmCumulative0_bumped _ _ _ event), bumped_refl.
      * rewrite (cumOf_same k st st') by by rewrite Hcum, lookup_insert_ne.
        apply bumped_refl.
  - destruct (handlePositionModified_trade_counters _ _ _ Hnz H)
      as (p' & s' & c' & _ & _ & Hc' & _ & _ & _ & _ & _ & Hcnt & Hm).
    exists 1, (tradeVolume event), 0.
    split; [done|]. split; [apply tradeVolume_nonneg|]. split; [done|].
    split; [done|].
    assert (bumped 1 (tradeVolume event) 0 (getOrCreateCumulativeEntity st) c') as Hg
      by by apply (pmCumulative0_bumped _ _ _ event), tradeCounted_bumped.
    split.
    + change (getOrCreateCumulativeEntity st')
        with (getOrCreateMarketCumulativeStats SINGLE_INDEX st').
      by rewrite (cumOf_Some _ _ _ Hc').
    + intros k. destruct (decide (k = SINGLE_INDEX)) as [->|Hk].
      { left. by rewrite (cumOf_Some _ _ _ Hc'). }
      destruct (markets st !! _) as [m|].
      * destruct Hm as (mc & Hcum & Hmc).
        destruct (decide (k = toHex (FuturesMarketEntity.asset m))) as [->|Hkm].
        -- left. rewrite (cumOf_Some _ mc st').
           ++ by apply tradeCounted_bumped.
           ++ rewrite Hcum, lookup_insert_ne by done. by rewrite lookup_insert_eq.
        -- right. rewrite (cumOf_same k st st'); [apply bumped_refl|].
           rewrite Hcum, lookup_insert_ne by done. by rewrite lookup_insert_ne.
      * right. rewrite (cumOf_same k st st'); [apply bumped_refl|].
        by rewrite Hm, lookup_insert_ne.
Qed.

Lemma liquidated_bumped c :
  bumped 0 0 1 c (c <| Cum.totalLiquidations := Cum.totalLiquidations c + 1 |>).
Proof. unfold bumped. rewrite decide_True by done. cbn. repeat split; lia. Qed.

Lemma handlePositionLiquidated_cumulativeStep event st st' :
  handlePositionLiquidated event st = Some st' → cumulativeStep st st'.
Proof.
  intros H. pose proof (handlePositionLiquidated_cumulativeStats _ _ _ H) as Hcum.
  cbv zeta in Hcum.
  assert (cumulativeStats st' !! SINGLE_INDEX
          = Some ((getOrCreateCumulativeEntity st)
                    <| Cum.totalLiquidations :=
                         Cum.totalLiquidations (getOrCreateCumulativeEntity st) + 1 |>))
    as Hg.
  { rewrite Hcum. destruct (_ ≫= _) as [asset|].
    - rewrite lookup_insert_ne by apply toHex_not_SINGLE_INDEX.
      by rewrite lookup_insert_eq.
    - by rewrite lookup_insert_eq. }
  exists 0, 0, 1. do 4 (split; [done|]). split.
  - change (getOrCreateCumulativeEntity st')
      with (getOrCreateMarketCumulativeStats SINGLE_INDEX st').
    rewrite (cumOf_Some _ _ _ Hg). apply liquidated_bumped.
  - intros k. destruct (decide (k = SINGLE_INDEX)) as [->|Hk].
    { left. rewrite (cumOf_Some _ _ _ Hg). apply liquidated_bumped. }
    destruct (_ ≫= _) as [asset|].
    + destruct (decide (k = toHex asset)) as [->|Hka].
      * left.
        rewrite (cumOf_Some (toHex asset)
                   ((getOrCreateMarketCumulativeStats (toHex asset) st)
                      <| Cum.totalLiquidations :=
                           Cum.totalLiquidations
                             (getOrCreateMarketCumulativeStats (toHex asset) st) + 1 |>)
                   st') by by rewrite Hcum, lookup_insert_eq.
        apply liquidated_bumped.
      * right. rewrite (cumOf_same k st st'); [apply bumped_refl|].
        rewrite Hcum, lookup_insert_ne by done. by rewrite lookup_insert_ne.
    + right. rewrite (cumOf_same k st st'); [apply bumped_refl|].
      by rewrite Hcum, lookup_insert_ne.
Qed.

Lemma handleMarginTransferred_cumulativeStep event st st' :
  handleMarginTransferred event st = Some st' → cumulativeStep st st'.
Proof.
  intros H. destruct (handleMarginTransferred_eq event st)
    as (ma & mt & cum & Heq & _ & _ & _ & _ & _ & _ & _ & _ & Hcum).
  rewrite Heq in H. apply (inj Some) in H.
  assert (cumulativeStats st' = cum) as Hst' by by rewrite <- H.
  clear H Heq.
  destruct (markets st !! _) as [m|];
    [|by apply cumulativeStep_same; rewrite Hst', Hcum].
  destruct (marginAccounts st !! _);
    [by apply cumulativeStep_same; rewrite Hst', Hcum|].
  exists 0, 0, 0. do 4 (split; [done|]). split.
  - change (getOrCreateCumulativeEntity st')
      with (getOrCreateMarketCumulativeStats SINGLE_INDEX st').
    rewrite (cumOf_same SINGLE_INDEX st st'); [apply bumped_refl|].
    rewrite Hst', Hcum. rewrite lookup_insert_ne; [done|]. apply toHex_not_SINGLE_INDEX.
  - intros k. right.
    destruct (decide (k = toHex (FuturesMarketEntity.asset m))) as [->|Hk].
    + rewrite (cumOf_Some (toHex (FuturesMarketEntity.asset m))
                 ((getOrCreateMarketCumulativeStats
                     (toHex (FuturesMarketEntity.asset m)) st)
                    <| Cum.totalTraders :=
                         Cum.totalTraders
                           (getOrCreateMarketCumulativeStats
                              (toHex (FuturesMarketEntity.asset m)) st) + 1 |>) st')
        by by rewrite Hst', Hcum, lookup_insert_eq.
      unfold bumped. rewrite decide_True by done. cbn. repeat split; lia.
    + rewrite (cumOf_same k st st'); [apply bumped_refl|].
      rewrite Hst', Hcum. by rewrite lookup_insert_ne.
Qed.

Section MarketEventsKeep.

Variable bytesToString : Bytes → string.

Lemma handleDelayedOrderSubmitted_rollups event st st' :
  handleDelayedOrderSubmitted bytesToString event st = Some st' →
  cumulativeStats st' = cumulativeStats st ∧ stats st' = stats st.
Proof.
  unfold handleDelayedOrderSubmitted.
  destruct (markets st !! _) as [m|]; by intros [= <-].
Qed.

Lemma handleDelayedOrderRemoved_rollups event st st' :
  handleDelayedOrderRemoved bytesToString event st = Some st' →
  cumulativeStats st' = cumulativeStats st
  ∧ (stats st' = stats st
     ∨ ∃ s, stats st !! toHex (resolveAccount (DOR.account event) st) = Some s
            ∧ stats st'
              = <[toHex (resolveAccount (DOR.account event) st)
                  := s <| Stat.feesPaid := Stat.feesPaid s + DOR.keeperDeposit event |>]>
                  (stats st)).
Proof.
  unfold handleDelayedOrderRemoved.
  destruct (markets st !! _) as [m|]; [|by intros [= <-]; split; [|left]]. cbv zeta.
  destruct (orders st !! _) as [o|]; [|by intros [= <-]; split; [|left]].
  destruct (stats st !! toHex (resolveAccount (DOR.account event) st)) as [s|] eqn:Hs;
    destruct (trades st !! tradeIdOf (Ev.transaction_hash (DOR.base event))
                             (Ev.logIndex (DOR.base event) - 1)) as [t|].
  2-4: by cbn [mbind option_bind]; intros [= <-]; split; [|left].
  intros H. apply bind_Some in H as ([o' st1] & Hfill & [= <-]).
  apply fillOrder_inv in Hfill as (_ & _ & _ & _ & _ & Hcum & _ & Hcase).
  split; [done|]. destruct (bool_decide _).
  - destruct Hcase as (_ & Hst & _). right. by exists s.
  - destruct Hcase as (_ & Hst & _). by left.
Qed.

Lemma handleMarketEvent_cumulativeStep e st st' :
  handleMarketEvent bytesToString e st = Some st' → cumulativeStep st st'.
Proof.
  destruct e as [event|event|event|event|event|event|event]; cbn [handleMarketEvent].
  - apply handlePositionModified_cumulativeStep.
  - rewrite handlePositionModifiedV2_eq. apply handlePositionModified_cumulativeStep.
  - apply handlePositionLiquidated_cumulativeStep.
  - rewrite handlePositionLiquidatedV2_withTotalFee.
    apply handlePositionLiquidated_cumulativeStep.
  - apply handleMarginTransferred_cumulativeStep.
  - intros H. apply handleDelayedOrderSubmitted_rollups in H as [H _].
    by apply cumulativeStep_same.
  - intros H. apply handleDelayedOrderRemoved_rollups in H as [H _].
    by apply cumulativeStep_same.
Qed.

End MarketEventsKeep.

Lemma cumulativeStep_average st st' :
  cumulativeStep st st' →
  (∀ k, averageInOrder (getOrCreateMarketCumulativeStats k st)) →
  ∀ k, averageInOrder (getOrCreateMarketCumulativeStats k st').
Proof.
  intros (dt & dv & dl & Hdt & Hdv & Hdl & Hz & _ & Hk) Hin k.
  destruct (Hin k) as (Ht & Hv & Ha).
  assert (∀ t v, 0 ≤ t → 0 ≤ v → (t = 0 → v = 0) →
          bumped t v dl (getOrCreateMarketCumulativeStats k st)
            (getOrCreateMarketCumulativeStats k st') ∨
          bumped t v 0 (getOrCreateMarketCumulativeStats k st)
            (getOrCreateMarketCumulativeStats k st') →
          averageInOrder (getOrCreateMarketCumulativeStats k st')) as Hgen.
  { intros t v Ht0 Hv0 Htv [(Ht' & Hv' & _ & Ha')|(Ht' & Hv' & _ & Ha')];
      (split; [lia|]); (split; [lia|]); rewrite Ha', Ht', Hv';
      (destruct (decide (t = 0)) as [->|Hnz];
       [rewrite (Htv eq_refl), !Z.add_0_r; exact Ha
       |rewrite decide_False by lia; done]). }
  destruct (Hk k) as [H|H].
  - apply (Hgen dt dv); [done|done|done|by left].
  - apply (Hgen 0 0); [done|done|done|by right].
Qed.

Lemma cumulativeStep_withinGlobal st st' :
  cumulativeStep st st' → (∀ k, withinGlobal st k) → ∀ k, withinGlobal st' k.
Proof.
  intros (dt & dv & dl & Hdt & Hdv & Hdl & Hz & Hg & Hk) Hin k.
  destruct (Hin k) as (Ht & Hv & Hl). destruct Hg as (Hgt & Hgv & Hgl & _).
  unfold withinGlobal. cbv zeta. rewrite Hgt, Hgv, Hgl.
  destruct (Hk k) as [(Ht' & Hv' & Hl' & _)|(Ht' & Hv' & Hl' & _)];
    rewrite Ht', Hv', Hl'; repeat split; lia.
Qed.

Lemma statsStep_same st st' : stats st' = stats st → statsStep st st'.
Proof.
  intros H k s' Hs'. exists 0, 0. split; [lia|]. left. exists s'.
  rewrite <- H. split; [done|lia].
Qed.

Lemma statsStep_insert st st' k s s' dv dsv :
  stats st' = <[k := s']> (stats st) →
  0 ≤ dsv ≤ dv →
  stats st !! k = Some s ∨ (Stat.totalVolume s = 0 ∧ Stat.smartMarginVolume s = 0) →
  Stat.totalVolume s' = Stat.totalVolume s + dv →
  Stat.smartMarginVolume s' = Stat.smartMarginVolume s + dsv →
  statsStep st st'.
Proof.
  intros H Hd Hs Hv Hsv k' s'' Hs''. rewrite H in Hs''.
  destruct (decide (k' = k)) as [->|Hk].
  - rewrite lookup_insert_eq in Hs''. injection Hs'' as <-.
    exists dv, dsv. split; [done|]. destruct Hs as [Hs|[Hs0 Hs1]].
    + left. by exists s.
    + right. rewrite Hv, Hsv, Hs0, Hs1. lia.
  - rewrite lookup_insert_ne in Hs'' by done.
    exists 0, 0. split; [lia|]. left. exists s''. split; [done|lia].
Qed.

Lemma pmStat0_stored event st :
  stats st !! toHex (pmAccount event st) = Some (pmStat0 event st)
  ∨ (Stat.totalVolume (pmStat0 event st) = 0
     ∧ Stat.smartMarginVolume (pmStat0 event st) = 0).
Proof.
  unfold pmStat0, statOrNew.
  destruct (stats st !! toHex (pmAccount event st)); [by left|by right].
Qed.

Lemma accrueFunding_volumes event acc pid p s st fa p1 s1 st1 :
  accrueFunding event acc pid p s st = Some (fa, p1, s1, st1) →
  Stat.totalVolume s1 = Stat.totalVolume s
  ∧ Stat.smartMarginVolume s1 = Stat.smartMarginVolume s.
Proof.
  intros H. apply accrueFunding_inv in H. cbv zeta in H.
  destruct H as [(_ & _ & _ & -> & _)|(pf & cf & _ & _ & _ & _ & _ & -> & _)]; done.
Qed.

Lemma marginTransferOrLiquidation_volumes event acc sa at_ pid fa p s st p2 s2 st2 :
  marginTransferOrLiquidation event acc sa at_ pid fa p s st = Some (p2, s2, st2) →
  Stat.totalVolume s2 = Stat.totalVolume s
  ∧ Stat.smartMarginVolume s2 = Stat.smartMarginVolume s.
Proof.
  destruct (marginTransferOrLiquidation_cases event st)
    as [[mt Hmt]|[(Hmt & Hs & Hm)|(Hmt & Hn)]]; cbv zeta in Hmt.
  - rewrite (marginTransferOrLiquidation_transfer _ _ _ _ _ _ _ _ _ _ Hmt).
    cbv zeta. by intros [= _ <- _].
  - rewrite (marginTransferOrLiquidation_liquidation _ _ _ _ _ _ _ _ _ Hmt Hs Hm).
    cbv zeta. destruct (newLiquidationTrade _ _ _ _ _ _ _ _) as [t|]; [|done].
    cbn [mbind option_bind]. by intros [= _ <- _].
  - rewrite (marginTransferOrLiquidation_neither _ _ _ _ _ _ _ _ _ Hmt Hn).
    by intros [= _ <- _].
Qed.

Lemma handlePositionModified_statsStep event st st' :
  handlePositionModified event st = Some st' → statsStep st st'.
Proof.
  intros H.
  destruct (handlePositionModified_spec _ _ _ H)
    as (fa & p1 & s1 & st1 & p2 & s2 & c2 & st2 & Hacc & Hbr & _ & Hst & _).
  destruct (decide (PME.tradeSize event = 0)) as [Hz|Hnz].
  - destruct (handlePositionModified_no_trade event st st' Hz H)
      as (fa' & p1' & s1' & st1' & p2' & s2' & st2' & Hacc' & Hmt & Hbr').
    rewrite Hacc in Hacc'. injection Hacc' as <- <- <- <-.
    rewrite Hbr in Hbr'. injection Hbr' as <- <- _ <-.
    destruct (accrueFunding_volumes _ _ _ _ _ _ _ _ _ _ Hacc) as [Hv1 Hsv1].
    destruct (marginTransferOrLiquidation_volumes _ _ _ _ _ _ _ _ _ _ _ _ Hmt)
      as [Hv2 Hsv2].
    apply (statsStep_insert st st' _ (pmStat0 event st) (updateStatValues event s2) 0 0
             Hst); [lia|apply pmStat0_stored| |].
    + cbn. rewrite Hv2, Hv1. lia.
    + cbn. rewrite Hsv2, Hsv1. lia.
  - destruct (handlePositionModified_trade_counters _ _ _ Hnz H)
      as (p' & s' & c' & _ & Hs' & _ & _ & _ & _ & Hv & Hsv & _).
    rewrite Hst, lookup_insert_eq in Hs'. injection Hs' as Hs'.
    pose proof (tradeVolume_nonneg event) as Hvol.
    apply (statsStep_insert st st' _ (pmStat0 event st) (updateStatValues event s2)
             (tradeVolume event)
             (if decide (resolveAccountType (PME.account event) st = smart_margin)
              then tradeVolume event else 0) Hst);
      [by case_decide; lia|apply pmStat0_stored| |].
    + by rewrite Hs'.
    + by rewrite Hs'.
Qed.

Lemma handlePositionLiquidated_statsStep event st st' :
  handlePositionLiquidated event st = Some st' → statsStep st st'.
Proof.
  intros H. apply handlePositionLiquidated_stats in H.
  destruct (positions st !! _); [|by apply statsStep_same].
  destruct (stats st !! _) as [s|] eqn:Hs; [|by apply statsStep_same].
  apply (statsStep_insert st st' _ s (liquidatedStat event s) 0 0 H);
    [lia|by left|cbn; lia|cbn; lia].
Qed.

Lemma handleMarginTransferred_statsStep event st st' :
  handleMarginTransferred event st = Some st' → statsStep st st'.
Proof.
  intros H. destruct (handleMarginTransferred_eq event st) as (ma & mt & cum & Heq & _).
  rewrite Heq in H. apply (inj Some) in H. apply statsStep_same. by rewrite <- H.
Qed.

Section MarketEventsKeepStats.

Variable bytesToString : Bytes → string.

Lemma handleMarketEvent_statsStep e st st' :
  handleMarketEvent bytesToString e st = Some st' → statsStep st st'.
Proof.
  destruct e as [event|event|event|event|event|event|event]; cbn [handleMarketEvent].
  - apply handlePositionModified_statsStep.
  - rewrite handlePositionModifiedV2_eq. apply handlePositionModified_statsStep.
  - apply handlePositionLiquidated_statsStep.
  - rewrite handlePositionLiquidatedV2_withTotalFee.
    apply handlePositionLiquidated_statsStep.
  - apply handleMarginTransferred_statsStep.
  - intros H. apply handleDelayedOrderSubmitted_rollups in H as [_ H].
    by apply statsStep_same.
  - intros H. apply handleDelayedOrderRemoved_rollups in H as [_ [H|(s & Hs & H)]].
    + by apply statsStep_same.
    + apply (statsStep_insert st st' _ s _ 0 0 H); [lia|by left|cbn; lia|cbn; lia].
Qed.

Lemma runMarketEvents_rollups events st st' :
  runMarketEvents bytesToString events st = Some st' →
  ((∀ k s, stats st !! k = Some s → volumesInOrder s) →
   ∀ k s, stats st' !! k = Some s → volumesInOrder s)
  ∧ ((∀ k, averageInOrder (getOrCreateMarketCumulativeStats k st)) →
     ∀ k, averageInOrder (getOrCreateMarketCumulativeStats k st'))
  ∧ ((∀ k, withinGlobal st k) → ∀ k, withinGlobal st' k).
Proof.
  revert st. induction events as [|e rest IH]; intros st H; cbn in H.
  - by injection H as <-.
  - apply bind_Some in H as (st1 & He & Hrest).
    destruct (IH _ Hrest) as (IHs & IHa & IHw).
    pose proof (handleMarketEvent_statsStep _ _ _ He) as Hss.
    pose proof (handleMarketEvent_cumulativeStep _ _ _ _ He) as Hcs.
    split; [|split].
    + intros Hin. apply IHs. intros k s1 Hs1.
      destruct (Hss k s1 Hs1) as (dv & dsv & Hd & [(s & Hs & Hv & Hsv)|[Hv Hsv]]).
      * pose proof (Hin k s Hs) as Hin'. unfold volumesInOrder in *. lia.
      * unfold volumesInOrder. lia.
    + intros Hin. apply IHa. by apply (cumulativeStep_average st).
    + intros Hin. apply IHw. by apply (cumulativeStep_withinGlobal st).
Qed.

End MarketEventsKeepStats.

Lemma averageInOrder_created k st :
  (∀ k c, cumulativeStats st !! k = Some c → averageInOrder c) →
  averageInOrder (getOrCreateMarketCumulativeStats k st).
Proof.
  intros Hin. unfold getOrCreateMarketCumulativeStats.
  destruct (cumulativeStats st !! k) as [c|] eqn:Hc; [by apply (Hin k)|].
  unfold averageInOrder. cbn. done.
Qed.

Section MarketEventsInvariants.

Variable bytesToString : Bytes → string.

(** X27. The smart-margin volume of a trader is a part of the volume.
    A trade adds its volume, the absolute value of its size times the
    price, to the volume of the stats entity of the trader, and also to
    the smart-margin volume when it came through a smart-margin
    account; no other event of the markets changes either. If every
    stats entity has [0 ≤ smartMarginVolume ≤ totalVolume], as on the
    empty store, so has every stats entity after any list of events. *)
Theorem smart_margin_volume_is_part_of_the_volume events st st' :
  (∀ k s, stats st !! k = Some s → volumesInOrder s) →
  runMarketEvents bytesToString events st = Some st' →
  ∀ k s, stats st' !! k = Some s → volumesInOrder s.
Proof.
  intros Hin Hrun. by apply (runMarketEvents_rollups bytesToString events st st' Hrun).
Qed.

(** X28. The average trade size of a cumulative entity is its volume
    divided by its trades. Only a trade changes the three: it adds one
    trade and a volume that is not negative, and divides again; the
    liquidations and the margin transfers, which save the entity too,
    leave them as they are. If every cumulative entity has trades and
    volume that are not negative and the average that belongs to them
    (zero without a trade), so has every cumulative entity, the one of
    all markets and the one of each market, after any list of events. *)
Theorem average_trade_size_is_volume_per_trade events st st' :
  (∀ k c, cumulativeStats st !! k = Some c → averageInOrder c) →
  runMarketEvents bytesToString events st = Some st' →
  ∀ k c, cumulativeStats st' !! k = Some c → averageInOrder c.
Proof.
  intros Hin Hrun k c Hc.
  destruct (runMarketEvents_rollups bytesToString events st st' Hrun) as (_ & Ha & _).
  rewrite <- (cumOf_Some k c st' Hc). apply Ha.
  intros k'. by apply averageInOrder_created.
Qed.

(** X29. No market counts more than all markets together. An event that
    adds a trade, a volume or a liquidation to the cumulative entity of
    a market adds the same to the entity of all markets, stored under
    [SINGLE_INDEX]. If under every key the entity that
    [getOrCreateMarketCumulativeStats] returns has no more trades,
    volume and liquidations than the one [getOrCreateCumulativeEntity]
    returns, as on the empty store, this is so after any list of
    events. (The traders are not in the statement: a margin transfer
    counts a trader in the market only.) *)
Theorem no_market_exceeds_all_markets events st st' :
  (∀ k, withinGlobal st k) →
  runMarketEvents bytesToString events st = Some st' →
  ∀ k, withinGlobal st' k.
Proof.
  intros Hin Hrun. by apply (runMarketEvents_rollups bytesToString events st st' Hrun).
Qed.

End MarketEventsInvariants.

Lemma smart_margin_volume_is_part_of_the_volume_witness :
  ∃ s, stats tradingDayStore !! toHex alice = Some s
       ∧ Stat.totalVolume s = 1760 * ETHER ∧ Stat.smartMarginVolume s = 100 * ETHER
       ∧ volumesInOrder s.
Proof.
  exists (default (newStat []) (stats tradingDayStore !! toHex alice)).
  split; [vm_compute; reflexivity|]. split; [vm_compute; reflexivity|].
  split; [vm_compute; reflexivity|].
  refine (smart_margin_volume_is_part_of_the_volume asciiToString tradingDay smartStore
            tradingDayStore _ _ (toHex alice) _ _).
  - intros k s Hs. vm_compute in Hs. discriminate.
  - vm_compute. reflexivity.
  - vm_compute. reflexivity.
Defined.

Lemma average_trade_size_is_volume_per_trade_witness :
  ∃ c, cumulativeStats tradingDayStore !! toHex (String.list_byte_of_string "sETH")
       = Some c
       ∧ Cum.totalTrades c = 3 ∧ Cum.totalVolume c = 1760 * ETHER
       ∧ averageInOrder c.
Proof.
  exists (getOrCreateMarketCumulativeStats (toHex (String.list_byte_of_string "sETH"))
            tradingDayStore).
  split; [vm_compute; reflexivity|]. split; [vm_compute; reflexivity|].
  split; [vm_compute; reflexivity|].
  refine (average_trade_size_is_volume_per_trade asciiToString tradingDay smartStore
            tradingDayStore _ _ (toHex (String.list_byte_of_string "sETH")) _ _).
  - intros k c Hc. vm_compute in Hc. discriminate.
  - vm_compute. reflexivity.
  - vm_compute. reflexivity.
Defined.

Lemma no_market_exceeds_all_markets_witness :
  withinGlobal tradingDayStore (toHex (String.list_byte_of_string "sETH")).
Proof.
  refine (no_market_exceeds_all_markets asciiToString tradingDay smartStore
            tradingDayStore _ _ _).
  - intros k. vm_compute. split; [|split]; discriminate.
  - vm_compute. reflexivity.
Defined.
